(** * yd: a shallow embedding of the YAML comparison engine

    The development follows [src/yd/yamldiff.py]: the document model that
    [yaml.safe_load] hands to the engine, the normalizer
    ([YAMLDiff.normalize_data]), the comparator ([YAMLDiff.compare] and its
    helpers) and the part of the tree renderer that decides which records
    are drawn and in which shape ([format_as_tree] down to the two line
    printers).  Python exceptions are results of an error monad; recursion
    that Python performs on freshly normalized data is driven by a fuel
    argument, and every statement about a result is made for any fuel
    above the height of the documents. *)

From Stdlib Require Import List String Ascii ZArith Bool Arith Lia.
From Stdlib Require Import Permutation Sorted RelationClasses.
From Stdlib Require Import PrimFloat DecimalString OrdersEx.
From Stdlib Require Import DecimalNat.
From Stdlib Require FloatAxioms SpecFloat.
Import ListNotations.
Local Open Scope string_scope.
Local Open Scope list_scope.

Set Implicit Arguments.
Set Warnings "-register-all".

(** ** Results of Python calls *)

Inductive exn : Type :=
| StopIteration
| KeyError
| IndexError
| TypeError
| AttributeError.

Inductive res (A : Type) : Type :=
| Ok (a : A)
| Raise (e : exn)
| OutOfFuel.

Arguments Ok {A} a.
Arguments Raise {A} e.
Arguments OutOfFuel {A}.

Definition bind {A B : Type} (m : res A) (k : A -> res B) : res B :=
  match m with
  | Ok a => k a
  | Raise e => Raise e
  | OutOfFuel => OutOfFuel
  end.

Notation "x <- m ;; k" := (bind m (fun x => k))
  (at level 61, m at next level, right associativity).

Fixpoint mapM {A B : Type} (f : A -> res B) (l : list A) : res (list B) :=
  match l with
  | [] => Ok []
  | x :: t => y <- f x ;; ys <- mapM f t ;; Ok (y :: ys)
  end.

(** A [for] loop whose body updates a state and may raise. *)
Fixpoint foldM {A S : Type} (body : S -> A -> res S) (l : list A) (s : S)
  : res S :=
  match l with
  | [] => Ok s
  | x :: t => s' <- body s x ;; foldM body t s'
  end.

(** ** The host language

    What the source takes from Python itself.  Two facts about the
    interpreter are not fixed by the language: the order in which a [set]
    of strings is iterated (it follows the per-process string hash), and
    the text [str] prints for a float.  They are fields of [Host]; all
    theorems hold for every host. *)

Class Host : Type := {
  set_iter : list string -> list string;
  set_iter_perm : forall l, Permutation (set_iter l) l;
  float_repr : float -> string
}.

(** Python compares [str] values by code point: the lexical order on the
    bytes of the UTF-8 encoding. *)
Definition str_lt (a b : string) : bool :=
  match String_as_OT.compare a b with
  | Lt => true
  | _ => false
  end.

Definition str_of_nat (n : nat) : string :=
  NilZero.string_of_uint (Nat.to_uint n).

Definition str_of_Z (z : Z) : string :=
  NilZero.string_of_int (Z.to_int z).

Fixpoint join (sep : string) (l : list string) : string :=
  match l with
  | [] => EmptyString
  | [x] => x
  | x :: t => (x ++ sep ++ join sep t)%string
  end.

Fixpoint str_contains_char (c : ascii) (s : string) : bool :=
  match s with
  | EmptyString => false
  | String a t => Ascii.eqb a c || str_contains_char c t
  end.

Definition hex_digit (n : nat) : ascii :=
  if Nat.ltb n 10 then ascii_of_nat (48 + n) else ascii_of_nat (87 + n).

Definition dquote : ascii := "034"%char.
Definition squote : ascii := "039"%char.
Definition backslash : ascii := "092"%char.

(** [repr] of a [str]: single quotes unless the text holds a single quote
    and no double quote; backslash, the quote and the characters that are
    not printable are escaped.  A character of a [string] is a code point
    below 256; of these, [str.isprintable] is false below 32, from 127 to
    160 and at 173, and [repr] writes them [\xNN] (the three with a
    short escape apart). *)
Fixpoint repr_chars (q : ascii) (s : string) : string :=
  match s with
  | EmptyString => EmptyString
  | String a t =>
      let n := nat_of_ascii a in
      let rest := repr_chars q t in
      if Ascii.eqb a backslash then String backslash (String backslash rest)
      else if Ascii.eqb a q then String backslash (String q rest)
      else if Nat.eqb n 10 then String backslash (String "n" rest)
      else if Nat.eqb n 13 then String backslash (String "r" rest)
      else if Nat.eqb n 9 then String backslash (String "t" rest)
      else if Nat.ltb n 32 || (Nat.leb 127 n && Nat.leb n 160) || Nat.eqb n 173
      then
        String backslash (String "x"
          (String (hex_digit (n / 16)) (String (hex_digit (n mod 16)) rest)))
      else String a rest
  end.

Definition repr_str (s : string) : string :=
  let q := if str_contains_char squote s && negb (str_contains_char dquote s)
           then dquote else squote in
  String q (repr_chars q s ++ String q EmptyString)%string.

(** ** Document trees

    What [yaml.safe_load] returns, with mapping keys that are strings (the
    source annotates [Dict[str, Any]] and paths as [List[str]]).  A [dict]
    is the list of its items in insertion order. *)

Inductive value : Type :=
| VNone
| VBool (b : bool)
| VInt (z : Z)
| VFloat (f : float)
| VStr (s : string)
| VList (items : list value)
| VDict (items : list (string * value)).

Inductive pytype : Type :=
| TNone | TBool | TInt | TFloat | TStr | TList | TDict.

Definition type_of (v : value) : pytype :=
  match v with
  | VNone => TNone
  | VBool _ => TBool
  | VInt _ => TInt
  | VFloat _ => TFloat
  | VStr _ => TStr
  | VList _ => TList
  | VDict _ => TDict
  end.

Definition pytype_eqb (a b : pytype) : bool :=
  match a, b with
  | TNone, TNone | TBool, TBool | TInt, TInt | TFloat, TFloat
  | TStr, TStr | TList, TList | TDict, TDict => true
  | _, _ => false
  end.

(** [a != b] for two scalars of one type; floats follow IEEE 754. *)
Definition py_ne (a b : value) : bool :=
  match a, b with
  | VNone, VNone => false
  | VBool x, VBool y => negb (Bool.eqb x y)
  | VInt x, VInt y => negb (Z.eqb x y)
  | VFloat x, VFloat y => negb (PrimFloat.eqb x y)
  | VStr x, VStr y => negb (String.eqb x y)
  | _, _ => true
  end.

Fixpoint height (v : value) : nat :=
  match v with
  | VList l => S (fold_right (fun x n => Nat.max (height x) n) 0 l)
  | VDict d => S (fold_right (fun kv n => Nat.max (height (snd kv)) n) 0 d)
  | _ => 0
  end.

Section Repr.
Context {H : Host}.

(** [repr(v)], as [str] prints the inside of containers. *)
Fixpoint py_repr (v : value) : string :=
  match v with
  | VNone => "None"
  | VBool true => "True"
  | VBool false => "False"
  | VInt z => str_of_Z z
  | VFloat f => float_repr f
  | VStr s => repr_str s
  | VList l => ("[" ++ join ", " (map py_repr l) ++ "]")%string
  | VDict d =>
      ("{" ++ join ", "
         (map (fun kv => (repr_str (fst kv) ++ ": " ++ py_repr (snd kv))%string) d)
       ++ "}")%string
  end.

Definition py_str (v : value) : string :=
  match v with
  | VStr s => s
  | _ => py_repr v
  end.
End Repr.

(** ** Dictionaries as item lists *)

Section Dict.
Variables K V : Type.
Variable eqb : K -> K -> bool.

Fixpoint dict_get (k : K) (d : list (K * V)) : option V :=
  match d with
  | [] => None
  | (k', v) :: t => if eqb k k' then Some v else dict_get k t
  end.

Definition dict_has (k : K) (d : list (K * V)) : bool :=
  match dict_get k d with Some _ => true | None => false end.

(** [d[k] = v]: an existing key keeps its place, a new one goes last. *)
Fixpoint dict_set (k : K) (v : V) (d : list (K * V)) : list (K * V) :=
  match d with
  | [] => [(k, v)]
  | (k', v') :: t =>
      if eqb k k' then (k', v) :: t else (k', v') :: dict_set k v t
  end.

(** [d[k]] as an expression. *)
Definition subscript (d : list (K * V)) (k : K) : res V :=
  match dict_get k d with
  | Some v => Ok v
  | None => Raise KeyError
  end.
End Dict.

Definition keys {V : Type} (d : list (string * V)) : list string :=
  map fst d.

Definition mem (k : string) (s : list string) : bool :=
  existsb (String.eqb k) s.

(** Sets of strings, as the list of their elements. *)
Definition set_eqb (a b : list string) : bool :=
  forallb (fun k => mem k b) a && forallb (fun k => mem k a) b.

Definition set_diff (a b : list string) : list string :=
  filter (fun k => negb (mem k b)) a.

Definition set_inter (a b : list string) : list string :=
  filter (fun k => mem k b) a.

(** ** Change records *)

Inductive ChangeType : Type := ADDED | REMOVED | MODIFIED.

Record DiffItem : Type := mkDiffItem {
  change_type : ChangeType;
  path : list string;
  old_value : value;
  new_value : value
}.

(** ** The normalizer *)

(** [sorted(data, key=...)]: all keys are computed first, then the items
    are put in ascending key order; ties keep their input order.  Python's
    sort is stable and uses [<] only, so its result is that of a stable
    insertion sort. *)
Fixpoint insert_keyed {A : Type} (x : string * A) (l : list (string * A))
  : list (string * A) :=
  match l with
  | [] => [x]
  | y :: t => if str_lt (fst y) (fst x) then y :: insert_keyed x t else x :: l
  end.

Definition sort_keyed {A : Type} (l : list (string * A)) : list (string * A) :=
  fold_right insert_keyed [] l.

Definition sorted {A : Type} (key : A -> res string) (data : list A)
  : res (list A) :=
  ks <- mapM key data ;; Ok (map snd (sort_keyed (combine ks data))).

(** [YAMLDiff._should_sort_list] *)
Definition _should_sort_list (data : list value) : bool :=
  match data with
  | VDict first :: rest =>
      let first_keys := keys first in
      match first_keys with
      | [] => false
      | _ :: _ =>
          if mem "name" first_keys then true
          else forallb
                 (fun item =>
                    match item with
                    | VDict d => set_eqb (keys d) first_keys
                    | _ => false
                    end) rest
      end
  | _ => false
  end.

(** [list[i]] as an expression. *)
Definition getitem {A : Type} (l : list A) (i : nat) : res A :=
  match nth_error l i with
  | Some x => Ok x
  | None => Raise IndexError
  end.

Section Engine.
Context {H : Host}.

(** [YAMLDiff._get_sort_key]; [next(iter(item.keys()))] raises
    [StopIteration] on an empty mapping. *)
Definition _get_sort_key (item : value) : res string :=
  match item with
  | VDict d =>
      if mem "name" (keys d) then
        v <- subscript String.eqb d "name" ;; Ok (py_str v)
      else
        match keys d with
        | [] => Raise StopIteration
        | first_key :: _ =>
            v <- subscript String.eqb d first_key ;; Ok (py_str v)
        end
  | _ => Ok (py_str item)
  end.

(** [YAMLDiff.normalize_data].  Its [path] argument only builds a string
    that nothing reads, and is left out. *)
Fixpoint normalize_data (fuel : nat) (data : value) : res value :=
  match fuel with
  | O => OutOfFuel
  | S fuel' =>
      match data with
      | VDict d =>
          normalized <-
            mapM (fun kv => v <- normalize_data fuel' (snd kv) ;; Ok (fst kv, v)) d ;;
          Ok (VDict normalized)
      | VList l =>
          if _should_sort_list l then
            sorted_data <- sorted _get_sort_key l ;;
            items <- mapM (normalize_data fuel') sorted_data ;;
            Ok (VList items)
          else
            items <- mapM (normalize_data fuel') l ;;
            Ok (VList items)
      | _ => Ok data
      end
  end.

(** ** The comparator

    The engine keeps its records in [self.differences]; every method below
    takes that list and returns it extended.  [self.compare] is passed to
    the helpers as [self_compare]. *)

Definition differ : Type :=
  value -> value -> list string -> list DiffItem -> res (list DiffItem).

Definition list_append (differences : list DiffItem) (d : DiffItem) : list DiffItem :=
  differences ++ [d].

Definition bracket (key : string) : string := ("[" ++ key ++ "]")%string.

(** [YAMLDiff._compare_dicts] *)
Definition _compare_dicts (self_compare : differ)
  (left right : list (string * value)) (path : list string)
  (differences : list DiffItem) : res (list DiffItem) :=
  let left_keys := keys left in
  let right_keys := keys right in
  differences <-
    foldM (fun diffs key =>
             v <- subscript String.eqb right key ;;
             Ok (list_append diffs (mkDiffItem ADDED (path ++ [key]) VNone v)))
          (set_iter (set_diff right_keys left_keys)) differences ;;
  differences <-
    foldM (fun diffs key =>
             v <- subscript String.eqb left key ;;
             Ok (list_append diffs (mkDiffItem REMOVED (path ++ [key]) v VNone)))
          (set_iter (set_diff left_keys right_keys)) differences ;;
  foldM (fun diffs key =>
           l <- subscript String.eqb left key ;;
           r <- subscript String.eqb right key ;;
           self_compare l r (path ++ [key]) diffs)
        (set_iter (set_inter left_keys right_keys)) differences.

(** [{self._get_sort_key(item): item for item in items}] *)
Definition key_map (items : list value) : res (list (string * value)) :=
  foldM (fun m item => k <- _get_sort_key item ;; Ok (dict_set String.eqb k item m))
        items [].

(** [YAMLDiff._compare_sorted_lists] *)
Definition _compare_sorted_lists (self_compare : differ)
  (left right : list value) (path : list string)
  (differences : list DiffItem) : res (list DiffItem) :=
  left_map <- key_map left ;;
  right_map <- key_map right ;;
  let left_keys := keys left_map in
  let right_keys := keys right_map in
  differences <-
    foldM (fun diffs key =>
             item <- subscript String.eqb right_map key ;;
             Ok (list_append diffs (mkDiffItem ADDED (path ++ [bracket key]) VNone item)))
          (set_iter (set_diff right_keys left_keys)) differences ;;
  differences <-
    foldM (fun diffs key =>
             item <- subscript String.eqb left_map key ;;
             Ok (list_append diffs (mkDiffItem REMOVED (path ++ [bracket key]) item VNone)))
          (set_iter (set_diff left_keys right_keys)) differences ;;
  foldM (fun diffs key =>
           left_item <- subscript String.eqb left_map key ;;
           right_item <- subscript String.eqb right_map key ;;
           self_compare left_item right_item (path ++ [bracket key]) diffs)
        (set_iter (set_inter left_keys right_keys)) differences.

(** [YAMLDiff._compare_ordered_lists] *)
Definition _compare_ordered_lists (self_compare : differ)
  (left right : list value) (path : list string)
  (differences : list DiffItem) : res (list DiffItem) :=
  let left_len := List.length left in
  let right_len := List.length right in
  let min_len := Nat.min left_len right_len in
  differences <-
    foldM (fun diffs i =>
             l <- getitem left i ;;
             r <- getitem right i ;;
             self_compare l r (path ++ [bracket (str_of_nat i)]) diffs)
          (seq 0 min_len) differences ;;
  if Nat.ltb left_len right_len then
    foldM (fun diffs i =>
             r <- getitem right i ;;
             Ok (list_append diffs
                   (mkDiffItem ADDED (path ++ [bracket (str_of_nat i)]) VNone r)))
          (seq left_len (right_len - left_len)) differences
  else if Nat.ltb right_len left_len then
    foldM (fun diffs i =>
             l <- getitem left i ;;
             Ok (list_append diffs
                   (mkDiffItem REMOVED (path ++ [bracket (str_of_nat i)]) l VNone)))
          (seq right_len (left_len - right_len)) differences
  else Ok differences.

(** [YAMLDiff._compare_lists] *)
Definition _compare_lists (self_compare : differ)
  (left right : list value) (path : list string)
  (differences : list DiffItem) : res (list DiffItem) :=
  if _should_sort_list left && _should_sort_list right then
    _compare_sorted_lists self_compare left right path differences
  else
    _compare_ordered_lists self_compare left right path differences.

(** [YAMLDiff.compare] (the later of the two definitions of the class, the
    one Python keeps). *)
Fixpoint compare (fuel : nat) (left right : value) (path : list string)
  (differences : list DiffItem) : res (list DiffItem) :=
  match fuel with
  | O => OutOfFuel
  | S fuel' =>
      left_norm <- normalize_data fuel left ;;
      right_norm <- normalize_data fuel right ;;
      if negb (pytype_eqb (type_of left_norm) (type_of right_norm)) then
        Ok (list_append differences (mkDiffItem MODIFIED path left_norm right_norm))
      else
        match left_norm, right_norm with
        | VDict l, VDict r => _compare_dicts (compare fuel') l r path differences
        | VList l, VList r => _compare_lists (compare fuel') l r path differences
        | _, _ =>
            if py_ne left_norm right_norm then
              Ok (list_append differences
                    (mkDiffItem MODIFIED path left_norm right_norm))
            else Ok differences
        end
  end.

End Engine.

(** A host for running examples: sets are iterated in the order their
    elements were listed.  Floats print as a fixed mark; no example below
    prints one. *)
#[local] Instance listing_host : Host := {|
  set_iter := fun l => l;
  set_iter_perm := fun l => Permutation_refl l;
  float_repr := fun _ => "<float>"
|}.

(** ** The tree report

    [format_as_tree] groups the records, builds a nested [dict] per group
    and walks it.  The text of a line is produced by one of two printers;
    the model keeps which printer is called on which record and at which
    indent, and the header lines, and leaves the text of a record's line
    (colours, YAML dumps) to the printer.  [use_color] only changes that
    text and is left out. *)

Inductive Line : Type :=
| Header (spaces : nat) (key : string)
    (* [" " + " " * spaces + f"{key}:"] *)
| DiffLine (d : DiffItem) (indent : nat)
    (* the line [_add_diff_line] formats itself *)
| EnvLine (d : DiffItem) (indent : nat).
    (* the line [_add_env_diff_lines] appends *)

(** A value of the nested [dict]: a [dict] again, or a list of records. *)
Inductive node : Type :=
| Branch (children : list (string * node))
| Leaf (diffs : list DiffItem).

Definition sorted_strs (l : list string) : list string :=
  map snd (sort_keyed (map (fun k => (k, k)) l)).

(** [s.split(".")] *)
Fixpoint split_dot (s : string) : list string :=
  match s with
  | EmptyString => [EmptyString]
  | String c t =>
      if Ascii.eqb c "."%char then EmptyString :: split_dot t
      else match split_dot t with
           | [] => [String c EmptyString]
           | w :: ws => String c w :: ws
           end
  end.

Definition startswith_lbracket (s : string) : bool :=
  match s with
  | String c _ => Ascii.eqb c "["%char
  | EmptyString => false
  end.

Fixpoint endswith_rbracket (s : string) : bool :=
  match s with
  | EmptyString => false
  | String c EmptyString => Ascii.eqb c "]"%char
  | String _ t => endswith_rbracket t
  end.

Definition bracketed (s : string) : bool :=
  startswith_lbracket s && endswith_rbracket s.

Fixpoint path_eqb (p q : list string) : bool :=
  match p, q with
  | [], [] => true
  | a :: p', b :: q' => String.eqb a b && path_eqb p' q'
  | _, _ => false
  end.

(** [YAMLDiff._find_group_key] *)
Definition _find_group_key (path : list string) : string :=
  match path with
  | first :: _ => first
  | [] => EmptyString
  end.

(** [YAMLDiff._group_differences_by_path] *)
Definition _group_differences_by_path (differences : list DiffItem)
  : list (string * list DiffItem) :=
  fold_left
    (fun grouped diff =>
       let group_key := _find_group_key (path diff) in
       let grouped :=
         if dict_has String.eqb group_key grouped then grouped
         else dict_set String.eqb group_key [] grouped in
       match dict_get String.eqb group_key grouped with
       | Some l => dict_set String.eqb group_key (l ++ [diff]) grouped
       | None => grouped
       end)
    differences [].

(** [YAMLDiff._get_remaining_path] *)
Definition _get_remaining_path (full_path : list string) (prefix_length : nat)
  : list string :=
  if Nat.ltb prefix_length (List.length full_path)
  then skipn prefix_length full_path else [].

(** [YAMLDiff._insert_diff_into_tree], on [remaining_path[:-1]] and the
    last part.  Where [current] is a list of records, [part not in current]
    holds and the assignment [current[part] = ...] raises [TypeError];
    [append] on a [dict] raises [AttributeError]. *)
Fixpoint insert_at (parts : list string) (last_part : string) (diff : DiffItem)
  (current : node) : res node :=
  match current with
  | Leaf _ => Raise TypeError
  | Branch d =>
      match parts with
      | [] =>
          let d := if dict_has String.eqb last_part d then d
                   else dict_set String.eqb last_part (Leaf []) d in
          slot <- subscript String.eqb d last_part ;;
          match slot with
          | Leaf l => Ok (Branch (dict_set String.eqb last_part (Leaf (l ++ [diff])) d))
          | Branch _ => Raise AttributeError
          end
      | part :: rest =>
          let d := if dict_has String.eqb part d then d
                   else dict_set String.eqb part (Branch []) d in
          child <- subscript String.eqb d part ;;
          child' <- insert_at rest last_part diff child ;;
          Ok (Branch (dict_set String.eqb part child' d))
      end
  end.

Definition _insert_diff_into_tree (tree : node) (diff : DiffItem)
  (remaining_path : list string) : res node :=
  insert_at (removelast remaining_path) (last remaining_path EmptyString)
    diff tree.

(** The test at the head of [_add_diff_line]: some ["env"] part is
    followed by a bracketed part. *)
Fixpoint is_env_path (path : list string) : bool :=
  match path with
  | [] => false
  | part :: rest =>
      (String.eqb part "env"
       && bracketed (match rest with next_part :: _ => next_part | [] => EmptyString end))
      || is_env_path rest
  end.

(** [YAMLDiff._add_diff_line] *)
Definition _add_diff_line (diff : DiffItem) (indent : nat) : Line :=
  if is_env_path (path diff) then EnvLine diff indent else DiffLine diff indent.

(** [collect_env_diffs] inside [_tree_to_diff_lines] *)
Fixpoint collect_env_diffs (n : node) : list DiffItem :=
  match n with
  | Leaf v => v
  | Branch d => flat_map (fun kv => collect_env_diffs (snd kv)) d
  end.

(** [YAMLDiff._combine_complementary_env_diffs] *)
Definition _combine_complementary_env_diffs (env_diffs : list DiffItem)
  : list DiffItem :=
  match env_diffs with
  | [] => env_diffs
  | _ :: _ =>
      let '(value_diffs, value_from_diffs) :=
        fold_left
          (fun '(vd, vfd) diff =>
             let last_part := last (path diff) EmptyString in
             if String.eqb last_part "value" then
               (dict_set path_eqb (removelast (path diff)) diff vd, vfd)
             else if String.eqb last_part "valueFrom" then
               (vd, dict_set path_eqb (removelast (path diff)) diff vfd)
             else (vd, vfd))
          env_diffs ([], []) in
      let '(combined_diffs, processed_paths) :=
        fold_left
          (fun '(combined, processed) '(parent_path, value_diff) =>
             if existsb (path_eqb parent_path) processed then (combined, processed)
             else
               match dict_get path_eqb parent_path value_from_diffs with
               | Some value_from_diff =>
                   match change_type value_diff, change_type value_from_diff with
                   | ADDED, REMOVED =>
                       (combined ++
                          [mkDiffItem MODIFIED (removelast (path value_diff))
                             (old_value value_from_diff) (new_value value_diff)],
                        parent_path :: processed)
                   | _, _ => (combined ++ [value_diff], processed)
                   end
               | None => (combined ++ [value_diff], processed)
               end)
          value_diffs ([], []) in
      let '(combined_diffs, processed_paths) :=
        fold_left
          (fun '(combined, processed) '(parent_path, value_from_diff) =>
             if existsb (path_eqb parent_path) processed then (combined, processed)
             else
               match dict_get path_eqb parent_path value_diffs with
               | Some value_diff =>
                   match change_type value_from_diff, change_type value_diff with
                   | ADDED, REMOVED =>
                       (combined ++
                          [mkDiffItem MODIFIED (removelast (path value_from_diff))
                             (old_value value_diff) (new_value value_from_diff)],
                        parent_path :: processed)
                   | _, _ => (combined ++ [value_from_diff], processed)
                   end
               | None => (combined ++ [value_from_diff], processed)
               end)
          value_from_diffs (combined_diffs, processed_paths) in
      combined_diffs
  end.

(** [YAMLDiff._tree_to_diff_lines]; the lines it appends. *)
Fixpoint _tree_to_diff_lines (fuel : nat) (tree : list (string * node))
  (indent : nat) (parent_key : string) : res (list Line) :=
  match fuel with
  | O => OutOfFuel
  | S fuel' =>
      foldM
        (fun lines key =>
           value <- subscript String.eqb tree key ;;
           match value with
           | Branch children =>
               if String.eqb parent_key "env" && bracketed key then
                 let env_diffs := collect_env_diffs value in
                 let combined_diffs := _combine_complementary_env_diffs env_diffs in
                 Ok (lines ++ map (fun diff => EnvLine diff indent) combined_diffs)
               else
                 sub <- _tree_to_diff_lines fuel' children (indent + 1) key ;;
                 Ok (lines ++ Header (indent * 2) key :: sub)
           | Leaf diffs =>
               Ok (lines ++ map (fun diff => _add_diff_line diff indent) diffs)
           end)
        (sorted_strs (keys tree)) []
  end.

(** [YAMLDiff._add_grouped_diffs] *)
Definition _add_grouped_diffs (fuel : nat) (diffs : list DiffItem)
  (base_indent : nat) : res (list Line) :=
  tree <-
    foldM (fun tree diff =>
             _insert_diff_into_tree tree diff
               (_get_remaining_path (path diff) base_indent))
          diffs (Branch []) ;;
  match tree with
  | Branch d => _tree_to_diff_lines fuel d base_indent EmptyString
  | Leaf _ => Raise TypeError
  end.

(** [YAMLDiff._grouped_diffs_to_lines] *)
Definition _grouped_diffs_to_lines (fuel : nat)
  (grouped : list (string * list DiffItem)) : res (list Line) :=
  foldM
    (fun lines group_path =>
       diffs <- subscript String.eqb grouped group_path ;;
       match group_path with
       | EmptyString =>
           Ok (lines ++ map (fun diff => _add_diff_line diff 0) diffs)
       | String _ _ =>
           let path_parts := split_dot group_path in
           let headers :=
             map (fun ip => Header (fst ip * 2) (snd ip))
                 (combine (seq 0 (List.length path_parts)) path_parts) in
           let base_indent := List.length path_parts in
           sub <- _add_grouped_diffs fuel diffs base_indent ;;
           Ok (lines ++ headers ++ sub)
       end)
    (sorted_strs (keys grouped)) [].

(** [YAMLDiff.format_as_tree] *)
Definition format_as_tree (fuel : nat) (differences : list DiffItem)
  : res (list Line) :=
  match differences with
  | [] => Ok []
  | _ :: _ => _grouped_diffs_to_lines fuel (_group_differences_by_path differences)
  end.

(** ** The env printer's name and literal blocks *)

(** [s[1:-1]] *)
Fixpoint drop_last_char (s : string) : string :=
  match s with
  | EmptyString => EmptyString
  | String _ EmptyString => EmptyString
  | String c t => String c (drop_last_char t)
  end.

Definition strip_ends (s : string) : string :=
  match s with
  | EmptyString => EmptyString
  | String _ t => drop_last_char t
  end.

(** The scan at the head of [YAMLDiff._add_env_diff_lines]: the name
    inside the first bracketed part that follows a part [env]; [None] when
    the loop ends without a match. *)
Fixpoint find_env_name (path : list string) : option string :=
  match path with
  | [] => None
  | part :: rest =>
      match rest with
      | next_part :: _ =>
          if String.eqb part "env" && bracketed next_part
          then Some (strip_ends next_part)
          else find_env_name rest
      | [] => None
      end
  end.

(** [if not env_name]: the printer falls back to the plain layout. *)
Definition env_fallback (path : list string) : bool :=
  match find_env_name path with
  | None => true
  | Some name => String.eqb name EmptyString
  end.

Definition newline : ascii := "010"%char.

(** [s.split(c)] for a one-character separator *)
Fixpoint split_on (c : ascii) (s : string) : list string :=
  match s with
  | EmptyString => [EmptyString]
  | String a t =>
      if Ascii.eqb a c then EmptyString :: split_on c t
      else match split_on c t with
           | [] => [String a EmptyString]
           | w :: ws => String a w :: ws
           end
  end.

(** [s * n] *)
Fixpoint str_repeat (s : string) (n : nat) : string :=
  match n with
  | O => EmptyString
  | S n' => (s ++ str_repeat s n')%string
  end.

(** [format_literal_block] *)
Definition format_literal_block (value : string) (indent_level : nat) : string :=
  let yaml_indent := str_repeat "  " indent_level in
  let lines := split_on newline value in
  let lines :=
    match lines with
    | [] => lines
    | _ :: _ =>
        if String.eqb (last lines EmptyString) EmptyString
        then removelast lines else lines
    end in
  let indented_lines := map (fun line => (yaml_indent ++ "  " ++ line)%string) lines in
  (String "|" (String newline EmptyString)
   ++ join (String newline EmptyString) indented_lines)%string.

(** ** Paths as text *)

(** [DiffItem.get_path_string] *)
Definition get_path_string (d : DiffItem) : string :=
  join "." (path d).

(** [path.find("]", i)] seen from position [i + 1]: the text before the
    first closing bracket and the text after it. *)
Fixpoint find_close (s : string) : option (string * string) :=
  match s with
  | EmptyString => None
  | String c t =>
      if Ascii.eqb c "]"%char then Some (EmptyString, t)
      else match find_close t with
           | Some (content, after) => Some (String c content, after)
           | None => None
           end
  end.

(** [parts.append(current)] under [if current] *)
Definition flush (parts : list string) (current : string) : list string :=
  match current with
  | EmptyString => parts
  | String _ _ => parts ++ [current]
  end.

(** The [while] loop of [YAMLDiff._parse_path_into_components], on the
    text from position [i] on; every turn moves [i] forward. *)
Fixpoint parse_loop (fuel : nat) (rest : string) (parts : list string)
  (current : string) : res (list string) :=
  match fuel with
  | O => OutOfFuel
  | S fuel' =>
      match rest with
      | EmptyString => Ok (flush parts current)
      | String char rest' =>
          if Ascii.eqb char "["%char then
            match find_close rest' with
            | Some (bracket_content, after) =>
                parse_loop fuel' after (flush parts current ++ [bracket_content])
                  EmptyString
            | None =>
                parse_loop fuel' rest' (flush parts current)
                  (String char EmptyString)
            end
          else if Ascii.eqb char "."%char then
            parse_loop fuel' rest' (flush parts current) EmptyString
          else
            parse_loop fuel' rest' parts (current ++ String char EmptyString)
      end
  end.

(** [YAMLDiff._parse_path_into_components] *)
Definition _parse_path_into_components (path : string) : res (list string) :=
  match path with
  | EmptyString => Ok []
  | String _ _ => parse_loop (S (String.length path)) path [] EmptyString
  end.

(** * Properties *)

(** ** Sets of keys *)

Lemma mem_In (k : string) (s : list string) : mem k s = true <-> In k s.
Proof.
  unfold mem. rewrite existsb_exists. split.
  - intros [x [Hin Heq]]. apply String.eqb_eq in Heq. now subst.
  - intros Hin. exists k. split; [assumption | apply String.eqb_refl].
Qed.

Lemma mem_false (k : string) (s : list string) : mem k s = false <-> ~ In k s.
Proof.
  rewrite <- mem_In. destruct (mem k s); split; congruence.
Qed.

Definition key_set_eq (a b : list string) : Prop :=
  forall k, In k a <-> In k b.

Lemma set_eqb_iff (a b : list string) : set_eqb a b = true <-> key_set_eq a b.
Proof.
  unfold set_eqb, key_set_eq. rewrite andb_true_iff, !forallb_forall. split.
  - intros [Hab Hba] k. split; intros Hk.
    + apply mem_In. now apply Hab.
    + apply mem_In. now apply Hba.
  - intros Heq. split; intros k Hk; apply mem_In; now apply Heq.
Qed.

Lemma set_eqb_refl (a : list string) : set_eqb a a = true.
Proof. apply set_eqb_iff. intros k. reflexivity. Qed.

(** ** Which sequences are compared by key *)

(** The test as the specification words it: non-empty, first element a
    mapping, and either the first element has a field [name] or every
    element is a mapping and all share one key set. *)
Definition spec_qualifies (data : list value) : Prop :=
  data <> [] /\
  exists first rest,
    data = VDict first :: rest /\
    (In "name" (keys first) \/
     forall item, In item data ->
       exists d, item = VDict d /\ key_set_eq (keys d) (keys first)).

(** C3, as stated, fails: a sequence of empty mappings satisfies the
    worded test (all elements are mappings with the same, empty, key set)
    and the code does not compare it by key. *)
Lemma should_sort_list_empty_mappings :
  spec_qualifies [VDict []] /\ _should_sort_list [VDict []] = false.
Proof.
  split; [| reflexivity].
  split; [discriminate |].
  exists [], []. split; [reflexivity |]. right.
  intros item [Hitem | []]. subst item.
  exists []. split; [reflexivity | intros k; reflexivity].
Qed.

(** C3, amended: a sequence is compared by key exactly when it is
    non-empty, its first element is a mapping with at least one key, and
    either that mapping has a field [name] or every element is a mapping
    with the first one's key set; the empty sequence and sequences of
    empty mappings never qualify. *)
Theorem should_sort_list_iff :
  (forall data,
     _should_sort_list data = true <->
     spec_qualifies data /\
     exists first rest, data = VDict first :: rest /\ keys first <> []) /\
  _should_sort_list [] = false /\
  (forall data,
     (forall item, In item data -> item = VDict []) ->
     _should_sort_list data = false).
Proof.
  split; [| split].
  - intros data. split.
    + intros Hs. destruct data as [| [| | | | | | first] rest]; try discriminate.
      simpl in Hs. destruct (keys first) as [| k0 ks] eqn:Hk; [discriminate |].
      assert (Hne : keys first <> []) by (rewrite Hk; discriminate).
      split; [| exists first, rest; rewrite Hk; split; [reflexivity | discriminate]].
      split; [discriminate |].
      exists first, rest. split; [reflexivity |].
      rewrite Hk.
      destruct (mem "name" (k0 :: ks)) eqn:Hname.
      * left. now apply mem_In.
      * right. intros item [Hitem | Hitem].
        -- subst item. exists first. split; [reflexivity |].
           rewrite Hk. intros k; reflexivity.
        -- rewrite forallb_forall in Hs. specialize (Hs item Hitem).
           destruct item; try discriminate.
           eexists. split; [reflexivity |]. now apply set_eqb_iff.
    + intros [[_ [first [rest [Hdata Hcases]]]] [first' [rest' [Hdata' Hne]]]].
      rewrite Hdata in Hdata'. injection Hdata' as <- <-. subst data.
      simpl. destruct (keys first) as [| k0 ks] eqn:Hk; [congruence |].
      destruct (mem "name" (k0 :: ks)) eqn:Hname; [reflexivity |].
      destruct Hcases as [Hin | Hall].
      * apply mem_In in Hin. congruence.
      * apply forallb_forall. intros item Hitem.
        destruct (Hall item (or_intror Hitem)) as [d [-> Hd]].
        now apply set_eqb_iff.
  - reflexivity.
  - intros data Hall. destruct data as [| v rest]; [reflexivity |].
    rewrite (Hall v (or_introl eq_refl)). reflexivity.
Qed.

(** ** Path segments *)

(** The three kinds of segment, as the comparator builds them: a field
    name is the key itself ([path + [key]]), a position and a derived key
    are put between brackets ([f"[{i}]"], [f"[{key}]"]). *)
Definition field_segment (key : string) : string := key.
Definition index_segment (i : nat) : string := bracket (str_of_nat i).
Definition derived_segment (key : string) : string := bracket key.

(** C9, as stated, fails: the field named [[0]], position 0 and the
    derived key [0] are one and the same segment, and two documents of
    different shape are reported with the same path. *)
Lemma segments_clash :
  field_segment "[0]" = index_segment 0 /\
  field_segment "[0]" = derived_segment "0" /\
  compare 3 (VDict [("[0]", VInt 1)]) (VDict [("[0]", VInt 2)]) [] []
  = compare 3 (VList [VInt 1]) (VList [VInt 2]) [] [] /\
  compare 3 (VList [VInt 1]) (VList [VInt 2]) [] []
  = Ok [mkDiffItem MODIFIED ["[0]"] (VInt 1) (VInt 2)].
Proof. repeat split; reflexivity. Qed.

(** ** The engine's list of records *)

Section Frame.
Variable D : Type.

(** A computation on the list of records that only appends to it. *)
Definition appends (c : list D -> res (list D)) : Prop :=
  forall s, c s = (r <- c [] ;; Ok (s ++ r)).

Lemma appends_ret : appends (fun s => Ok s).
Proof. intros s. simpl. now rewrite app_nil_r. Qed.

Lemma appends_push (d : D) : appends (fun s => Ok (s ++ [d])).
Proof. intros s. reflexivity. Qed.

Lemma appends_bind (A : Type) (m : res A) (k : A -> list D -> res (list D)) :
  (forall a, appends (k a)) -> appends (fun s => a <- m ;; k a s).
Proof.
  intros Hk s. destruct m as [a | e |]; simpl; [apply Hk | reflexivity | reflexivity].
Qed.

Lemma appends_seq (c1 c2 : list D -> res (list D)) :
  appends c1 -> appends c2 -> appends (fun s => s1 <- c1 s ;; c2 s1).
Proof.
  intros H1 H2 s. rewrite (H1 s).
  destruct (c1 []) as [r1 | e |]; simpl; try reflexivity.
  rewrite (H2 (s ++ r1)), (H2 r1).
  destruct (c2 []) as [r2 | e |]; simpl; try reflexivity.
  now rewrite app_assoc.
Qed.

Lemma appends_foldM (A : Type) (body : list D -> A -> res (list D)) (l : list A) :
  (forall x, appends (fun s => body s x)) -> appends (foldM body l).
Proof.
  intros Hb. induction l as [| x t IH].
  - apply appends_ret.
  - simpl. apply (appends_seq (c1 := fun s => body s x) (c2 := foldM body t));
      [apply Hb | exact IH].
Qed.

Lemma appends_if (b : bool) (c1 c2 : list D -> res (list D)) :
  appends c1 -> appends c2 -> appends (fun s => if b then c1 s else c2 s).
Proof. destruct b; auto. Qed.
End Frame.

Section EngineFacts.
Context {H : Host}.

Lemma _compare_dicts_appends (self_compare : differ) left right path :
  (forall l r p, appends (self_compare l r p)) ->
  appends (_compare_dicts self_compare left right path).
Proof.
  intros Hc. unfold _compare_dicts.
  apply appends_seq with
    (c2 := fun s1 => differences <- foldM _ _ s1 ;; foldM _ _ differences).
  - apply appends_foldM. intros key.
    apply appends_bind. intros v. apply appends_push.
  - apply appends_seq with (c2 := foldM _ _).
    + apply appends_foldM. intros key.
      apply appends_bind. intros v. apply appends_push.
    + apply appends_foldM. intros key.
      apply appends_bind. intros l. apply appends_bind. intros r. apply Hc.
Qed.

Lemma _compare_sorted_lists_appends (self_compare : differ) left right path :
  (forall l r p, appends (self_compare l r p)) ->
  appends (_compare_sorted_lists self_compare left right path).
Proof.
  intros Hc. unfold _compare_sorted_lists.
  apply appends_bind. intros left_map. apply appends_bind. intros right_map.
  apply appends_seq with
    (c2 := fun s1 => differences <- foldM _ _ s1 ;; foldM _ _ differences).
  - apply appends_foldM. intros key.
    apply appends_bind. intros v. apply appends_push.
  - apply appends_seq with (c2 := foldM _ _).
    + apply appends_foldM. intros key.
      apply appends_bind. intros v. apply appends_push.
    + apply appends_foldM. intros key.
      apply appends_bind. intros l. apply appends_bind. intros r. apply Hc.
Qed.

Lemma _compare_ordered_lists_appends (self_compare : differ) left right path :
  (forall l r p, appends (self_compare l r p)) ->
  appends (_compare_ordered_lists self_compare left right path).
Proof.
  intros Hc. unfold _compare_ordered_lists.
  apply appends_seq with
    (c2 := fun s1 =>
             if Nat.ltb (List.length left) (List.length right) then foldM _ _ s1
             else if Nat.ltb (List.length right) (List.length left)
                  then foldM _ _ s1 else Ok s1).
  - apply appends_foldM. intros i.
    apply appends_bind. intros l. apply appends_bind. intros r. apply Hc.
  - apply appends_if; [| apply appends_if].
    + apply appends_foldM. intros i.
      apply appends_bind. intros v. apply appends_push.
    + apply appends_foldM. intros i.
      apply appends_bind. intros v. apply appends_push.
    + apply appends_ret.
Qed.

Lemma _compare_lists_appends (self_compare : differ) left right path :
  (forall l r p, appends (self_compare l r p)) ->
  appends (_compare_lists self_compare left right path).
Proof.
  intros Hc. unfold _compare_lists.
  apply appends_if;
    [now apply _compare_sorted_lists_appends
    | now apply _compare_ordered_lists_appends].
Qed.

Lemma compare_appends_fuel (fuel : nat) :
  forall left right path, appends (compare fuel left right path).
Proof.
  induction fuel as [| fuel IH]; intros left right path.
  - intros s. reflexivity.
  - cbn [compare].
    apply appends_bind. intros left_norm.
    apply appends_bind. intros right_norm.
    apply appends_if; [apply appends_push |].
    destruct left_norm, right_norm;
      try (apply appends_if; [apply appends_push | apply appends_ret]).
    + now apply _compare_lists_appends.
    + now apply _compare_dicts_appends.
Qed.

End EngineFacts.

(** ** Loops *)

Lemma mapM_Forall2 (A B : Type) (f : A -> res B) (l : list A) (l' : list B) :
  mapM f l = Ok l' <-> Forall2 (fun x y => f x = Ok y) l l'.
Proof.
  revert l'. induction l as [| x t IH]; intros l'; simpl.
  - split.
    + intros [= <-]. constructor.
    + intros Hall. inversion Hall. reflexivity.
  - split.
    + destruct (f x) as [y | e |] eqn:Hx; simpl; try discriminate.
      destruct (mapM f t) as [ys | e |] eqn:Ht; simpl; try discriminate.
      intros [= <-]. constructor; [assumption | now apply IH].
    + intros Hall. inversion Hall as [| x0 y t0 ys Hx Ht]; subst.
      rewrite Hx. simpl. apply IH in Ht. rewrite Ht. reflexivity.
Qed.

Lemma mapM_not_out_of_fuel (A B : Type) (f : A -> res B) (l : list A) :
  (forall x, In x l -> f x <> OutOfFuel) -> mapM f l <> OutOfFuel.
Proof.
  induction l as [| x t IH]; intros Hf; simpl; [discriminate |].
  destruct (f x) as [y | e |] eqn:Hx; simpl.
  - assert (Ht : mapM f t <> OutOfFuel) by (apply IH; intros z Hz; apply Hf; now right).
    destruct (mapM f t); simpl; congruence.
  - discriminate.
  - exfalso. apply (Hf x); [now left | assumption].
Qed.

Lemma foldM_unchanged (A S : Type) (body : S -> A -> res S) (l : list A) (s : S) :
  (forall x, In x l -> body s x = Ok s) -> foldM body l s = Ok s.
Proof.
  induction l as [| x t IH]; intros Hb; simpl; [reflexivity |].
  rewrite (Hb x (or_introl eq_refl)). simpl. apply IH.
  intros z Hz. apply Hb. now right.
Qed.

Lemma foldM_invariant (A S : Type) (P : S -> Prop) (body : S -> A -> res S)
  (l : list A) :
  (forall x s s', In x l -> P s -> body s x = Ok s' -> P s') ->
  forall s s', P s -> foldM body l s = Ok s' -> P s'.
Proof.
  induction l as [| x t IH]; intros Hb s s' Hs; simpl.
  - intros [= <-]. assumption.
  - destruct (body s x) as [s1 | e |] eqn:Hx; simpl; try discriminate.
    apply IH.
    + intros z u u' Hz. apply Hb. now right.
    + apply (Hb x s s1); [now left | assumption | assumption].
Qed.

(** ** Trees and their parts *)

Definition child (c v : value) : Prop :=
  match v with
  | VList l => In c l
  | VDict d => exists k, In (k, c) d
  | _ => False
  end.

Definition is_scalar (v : value) : bool :=
  match v with
  | VList _ | VDict _ => false
  | _ => true
  end.

(** No float of the tree is a NaN. *)
Fixpoint nan_free (v : value) : bool :=
  match v with
  | VFloat f => PrimFloat.eqb f f
  | VList l => forallb nan_free l
  | VDict d => forallb (fun kv => nan_free (snd kv)) d
  | _ => true
  end.

(** Two values that [_should_sort_list] cannot tell apart. *)
Definition same_shape (x y : value) : Prop :=
  match x, y with
  | VDict a, VDict b => keys a = keys b
  | VDict _, _ | _, VDict _ => False
  | _, _ => True
  end.

Lemma height_child (c v : value) : child c v -> height c < height v.
Proof.
  destruct v as [| | | | | l | d]; simpl; try contradiction.
  - induction l as [| x t IH]; simpl; [contradiction |].
    intros [-> | Hin]; [lia | specialize (IH Hin); lia].
  - intros [k Hin]. induction d as [| [k' x] t IH]; simpl in *; [contradiction |].
    destruct Hin as [[= -> ->] | Hin]; [lia | specialize (IH Hin); lia].
Qed.

Lemma nan_free_child (c v : value) :
  nan_free v = true -> child c v -> nan_free c = true.
Proof.
  destruct v as [| | | | | l | d]; simpl; try contradiction.
  - rewrite forallb_forall. auto.
  - rewrite forallb_forall. intros Hall [k Hin]. apply (Hall (k, c) Hin).
Qed.

Lemma dict_get_In (V : Type) (k : string) (d : list (string * V)) (v : V) :
  dict_get String.eqb k d = Some v -> In (k, v) d.
Proof.
  induction d as [| [k' v'] t IH]; simpl; [discriminate |].
  destruct (String.eqb_spec k k') as [-> | Hne].
  - intros [= ->]. now left.
  - intros Hget. right. now apply IH.
Qed.

Lemma dict_get_mem (V : Type) (k : string) (d : list (string * V)) :
  mem k (keys d) = true -> exists v, dict_get String.eqb k d = Some v.
Proof.
  intros Hm. apply mem_In in Hm. induction d as [| [k' v'] t IH]; simpl in *.
  - contradiction.
  - destruct (String.eqb_spec k k') as [-> | Hne]; [now eexists |].
    destruct Hm as [Heq | Hin]; [congruence | now apply IH].
Qed.

Lemma same_shape_should_sort (l l' : list value) :
  Forall2 same_shape l l' -> _should_sort_list l' = _should_sort_list l.
Proof.
  intros Hall. destruct Hall as [| x y t t' Hxy Ht]; [reflexivity |].
  destruct x, y; simpl in Hxy; try contradiction; try reflexivity.
  simpl. rewrite Hxy.
  destruct (keys items0) as [| k0 ks]; [reflexivity |].
  destruct (mem "name" (k0 :: ks)); [reflexivity |].
  induction Ht as [| a b u u' Hab Hu IH]; [reflexivity |].
  simpl. rewrite IH. f_equal.
  destruct a, b; simpl in Hab; try contradiction; try reflexivity.
  now rewrite Hab.
Qed.

(** ** The order on keys and the stable sort *)

Lemma str_lt_irrefl (a : string) : str_lt a a = false.
Proof.
  unfold str_lt. destruct (String_as_OT.compare_spec a a) as [_ | Hlt | Hlt];
    try reflexivity.
  exfalso. exact (StrictOrder_Irreflexive a Hlt).
Qed.

Lemma str_lt_trans (a b c : string) :
  str_lt a b = true -> str_lt b c = true -> str_lt a c = true.
Proof.
  unfold str_lt.
  destruct (String_as_OT.compare a b) eqn:Hab; try discriminate.
  destruct (String_as_OT.compare b c) eqn:Hbc; try discriminate.
  intros _ _.
  assert (Hac : String_as_OT.lt a c)
    by exact (StrictOrder_Transitive a b c Hab Hbc).
  unfold String_as_OT.lt in Hac. now rewrite Hac.
Qed.

Lemma str_lt_total (a b : string) :
  str_lt a b = false -> str_lt b a = false -> a = b.
Proof.
  unfold str_lt.
  destruct (String_as_OT.compare_spec a b) as [Heq | Hlt | Hgt];
    [intros _ _; assumption | discriminate |].
  intros _. unfold String_as_OT.lt in Hgt. rewrite Hgt. discriminate.
Qed.

Lemma str_lt_asym (a b : string) : str_lt a b = true -> str_lt b a = false.
Proof.
  intros Hab. destruct (str_lt b a) eqn:Hba; [| reflexivity].
  pose proof (str_lt_trans _ _ _ Hab Hba) as Haa.
  rewrite str_lt_irrefl in Haa. discriminate.
Qed.

Section Sorting.
Variable A : Type.
Implicit Types (x y : string * A) (l : list (string * A)).

(** [x] may stand before [y] in a sorted list. *)
Definition key_le x y : Prop := str_lt (fst y) (fst x) = false.

Lemma key_le_trans x y z : key_le x y -> key_le y z -> key_le x z.
Proof.
  unfold key_le. intros Hxy Hyz.
  destruct (str_lt (fst z) (fst x)) eqn:Hzx; [| reflexivity].
  destruct (str_lt (fst y) (fst z)) eqn:Hyz'.
  - pose proof (str_lt_trans _ _ _ Hyz' Hzx). congruence.
  - pose proof (str_lt_total _ _ Hyz' Hyz) as Heq. rewrite Heq in Hxy. congruence.
Qed.

Lemma insert_keyed_perm x l : Permutation (insert_keyed x l) (x :: l).
Proof.
  induction l as [| y t IH]; simpl; [reflexivity |].
  destruct (str_lt (fst y) (fst x)); [| reflexivity].
  rewrite IH. apply perm_swap.
Qed.

Lemma sort_keyed_perm l : Permutation (sort_keyed l) l.
Proof.
  induction l as [| x t IH]; simpl; [reflexivity |].
  rewrite insert_keyed_perm. now constructor.
Qed.

Lemma insert_keyed_sorted x l :
  StronglySorted key_le l -> StronglySorted key_le (insert_keyed x l).
Proof.
  induction l as [| y t IH]; simpl; intros Hs.
  - repeat constructor.
  - inversion Hs as [| y0 t0 Ht Hy]; subst.
    destruct (str_lt (fst y) (fst x)) eqn:Hyx.
    + constructor; [now apply IH |].
      apply Forall_forall. intros z Hz.
      apply (Permutation_in _ (insert_keyed_perm x t)) in Hz.
      destruct Hz as [<- | Hz].
      * unfold key_le. now apply str_lt_asym.
      * rewrite Forall_forall in Hy. now apply Hy.
    + constructor; [assumption |].
      constructor; [exact Hyx |].
      apply Forall_forall. intros z Hz. rewrite Forall_forall in Hy.
      apply key_le_trans with y; [exact Hyx | now apply Hy].
Qed.

Lemma sort_keyed_sorted l : StronglySorted key_le (sort_keyed l).
Proof.
  induction l as [| x t IH]; simpl; [constructor | now apply insert_keyed_sorted].
Qed.

(** Sorting leaves a sorted list as it is. *)
Lemma sort_keyed_fixed l : StronglySorted key_le l -> sort_keyed l = l.
Proof.
  induction l as [| x t IH]; intros Hs; [reflexivity |].
  inversion Hs as [| x0 t0 Ht Hx]; subst. simpl. rewrite (IH Ht).
  destruct t as [| y u]; [reflexivity |]. simpl.
  inversion Hx as [| y0 u0 Hxy _]; subst. unfold key_le in Hxy.
  now rewrite Hxy.
Qed.

(** Two sorted lists with the same items and no repeated key are equal. *)
Lemma sorted_perm_unique l1 l2 :
  StronglySorted key_le l1 -> StronglySorted key_le l2 ->
  Permutation l1 l2 -> NoDup (map fst l1) -> l1 = l2.
Proof.
  revert l2. induction l1 as [| x t IH]; intros l2 Hs1 Hs2 Hp Hnd.
  - apply Permutation_nil in Hp. now subst.
  - destruct l2 as [| y u].
    + apply Permutation_sym, Permutation_nil in Hp. discriminate.
    + inversion Hs1 as [| x0 t0 Ht Hx]; subst.
      inversion Hs2 as [| y0 u0 Hu Hy]; subst.
      inversion Hnd as [| k ks Hnin Hnd']; subst.
      assert (Hxy : x = y).
      { assert (Hyin : In y (x :: t))
          by (apply (Permutation_in _ (Permutation_sym Hp)); now left).
        destruct Hyin as [Heq | Hyin]; [assumption |].
        assert (Hxin : In x (y :: u)) by (apply (Permutation_in _ Hp); now left).
        destruct Hxin as [Heq | Hxin]; [now symmetry |].
        rewrite Forall_forall in Hx, Hy.
        pose proof (Hx y Hyin) as H1. pose proof (Hy x Hxin) as H2.
        unfold key_le in H1, H2.
        pose proof (str_lt_total _ _ H2 H1) as Hk.
        exfalso. apply Hnin. rewrite Hk. now apply in_map. }
      subst y. f_equal. apply IH; try assumption.
      now apply Permutation_cons_inv in Hp.
Qed.

Lemma sort_keyed_perm_eq l1 l2 :
  Permutation l1 l2 -> NoDup (map fst l1) -> sort_keyed l1 = sort_keyed l2.
Proof.
  intros Hp Hnd. apply sorted_perm_unique.
  - apply sort_keyed_sorted.
  - apply sort_keyed_sorted.
  - rewrite !sort_keyed_perm. assumption.
  - apply (Permutation_NoDup (l := map fst l1)); [| assumption].
    apply Permutation_map. symmetry. apply sort_keyed_perm.
Qed.
End Sorting.

Lemma combine_map_fst_snd (A B : Type) (l : list (A * B)) :
  combine (map fst l) (map snd l) = l.
Proof.
  induction l as [| [a b] t IH]; simpl; [reflexivity | now rewrite IH].
Qed.

Lemma mapM_length (A B : Type) (f : A -> res B) (l : list A) (l' : list B) :
  mapM f l = Ok l' -> List.length l' = List.length l.
Proof.
  intros Hm. apply mapM_Forall2 in Hm.
  induction Hm; simpl; [reflexivity | now f_equal].
Qed.

Lemma map_snd_combine (A B : Type) (ks : list A) (l : list B) :
  List.length ks = List.length l -> map snd (combine ks l) = l.
Proof.
  revert l. induction ks as [| k t IH]; intros [| x u]; simpl; try discriminate.
  - reflexivity.
  - intros [= Hlen]. now rewrite IH.
Qed.

Lemma map_fst_combine (A B : Type) (ks : list A) (l : list B) :
  List.length ks = List.length l -> map fst (combine ks l) = ks.
Proof.
  revert l. induction ks as [| k t IH]; intros [| x u]; simpl; try discriminate.
  - reflexivity.
  - intros [= Hlen]. now rewrite IH.
Qed.

Lemma sorted_perm (A : Type) (key : A -> res string) (l l' : list A) :
  sorted key l = Ok l' -> Permutation l' l.
Proof.
  unfold sorted. destruct (mapM key l) as [ks | e |] eqn:Hk; simpl; try discriminate.
  intros [= <-]. rewrite sort_keyed_perm.
  rewrite map_snd_combine; [reflexivity | now apply mapM_length in Hk].
Qed.

Lemma sorted_In (A : Type) (key : A -> res string) (l l' : list A) (x : A) :
  sorted key l = Ok l' -> (In x l' <-> In x l).
Proof.
  intros Hs. apply sorted_perm in Hs. split; apply Permutation_in;
    [assumption | now symmetry].
Qed.

(** ** The normalizer *)

Lemma mapM_all_ok (A B : Type) (f : A -> res B) (l : list A) :
  (forall x, In x l -> exists y, f x = Ok y) -> exists l', mapM f l = Ok l'.
Proof.
  induction l as [| x t IH]; intros Hf; simpl; [now eexists |].
  destruct (Hf x (or_introl eq_refl)) as [y ->].
  destruct IH as [ys ->]; [intros z Hz; apply Hf; now right |].
  simpl. now eexists.
Qed.

Lemma mapM_ok_In (A B : Type) (f : A -> res B) (l : list A) (l' : list B) (x : A) :
  mapM f l = Ok l' -> In x l -> exists y, f x = Ok y /\ In y l'.
Proof.
  intros Hm. apply mapM_Forall2 in Hm.
  induction Hm as [| a b t t' Hab Ht IH]; simpl; [contradiction |].
  intros [<- | Hin].
  - exists b. split; [assumption | now left].
  - destruct (IH Hin) as [y [Hy Hin']]. exists y. split; [assumption | now right].
Qed.

Lemma Forall2_In_r (A B : Type) (R : A -> B -> Prop) (l : list A) (l' : list B)
  (y : B) :
  Forall2 R l l' -> In y l' -> exists x, In x l /\ R x y.
Proof.
  induction 1 as [| a b t t' Hab Ht IH]; simpl; [contradiction |].
  intros [<- | Hin].
  - exists a. split; [now left | assumption].
  - destruct (IH Hin) as [x [Hx Hr]]. exists x. split; [now right | assumption].
Qed.

Lemma Forall2_In_l (A B : Type) (R : A -> B -> Prop) (l : list A) (l' : list B)
  (x : A) :
  Forall2 R l l' -> In x l -> exists y, In y l' /\ R x y.
Proof.
  induction 1 as [| a b t t' Hab Ht IH]; simpl; [contradiction |].
  intros [<- | Hin].
  - exists b. split; [now left | assumption].
  - destruct (IH Hin) as [y [Hy Hr]]. exists y. split; [now right | assumption].
Qed.

Arguments Forall2_In_r [A B R l l' y] _ _.
Arguments Forall2_In_l [A B R l l' x] _ _.
Arguments mapM_ok_In [A B f l l' x] _ _.
Arguments sorted_In [A key l l'] x _.

Section NormalizeFacts.
Context {H : Host}.

Lemma _get_sort_key_ok (item : value) :
  item <> VDict [] -> exists k, _get_sort_key item = Ok k.
Proof.
  intros Hne. destruct item as [| | | | | l | d]; simpl; try (now eexists).
  destruct (mem "name" (keys d)) eqn:Hname.
  - destruct (dict_get_mem _ _ Hname) as [v Hv].
    unfold subscript. rewrite Hv. simpl. now eexists.
  - destruct d as [| [k v] t]; [congruence |].
    simpl. unfold subscript. simpl. rewrite String.eqb_refl. simpl. now eexists.
Qed.

Lemma _get_sort_key_raise (item : value) (e : exn) :
  _get_sort_key item = Raise e -> item = VDict [].
Proof.
  intros Hr. destruct item as [| | | | | l | [| kv t]]; try reflexivity;
    try (destruct (@_get_sort_key_ok _ _) as [k Hk];
         [| rewrite Hk in Hr; discriminate]; discriminate).
  all: edestruct _get_sort_key_ok as [k Hk];
    [| rewrite Hk in Hr; discriminate]; discriminate.
Qed.

Lemma sorted_ok_no_empty (l l' : list value) :
  sorted _get_sort_key l = Ok l' -> Forall (fun i => i <> VDict []) l.
Proof.
  unfold sorted.
  destruct (mapM _get_sort_key l) as [ks | e |] eqn:Hk; simpl; try discriminate.
  intros _. apply Forall_forall. intros x Hx ->.
  destruct (mapM_ok_In Hk Hx) as [k [Hk' _]]. discriminate.
Qed.

Lemma sorted_no_empty_ok (l : list value) :
  Forall (fun i => i <> VDict []) l -> exists l', sorted _get_sort_key l = Ok l'.
Proof.
  intros Hall. unfold sorted.
  destruct (@mapM_all_ok _ _ _get_sort_key l) as [ks ->].
  - intros x Hx. apply _get_sort_key_ok. rewrite Forall_forall in Hall. now apply Hall.
  - simpl. now eexists.
Qed.

(** Induction on a normalization that returned. *)
Lemma normalize_data_ok_ind (P : nat -> value -> value -> Prop) :
  (forall n v, is_scalar v = true -> P (S n) v v) ->
  (forall n d d',
     Forall2 (fun kv kv' =>
                fst kv' = fst kv /\
                normalize_data n (snd kv) = Ok (snd kv') /\
                P n (snd kv) (snd kv')) d d' ->
     P (S n) (VDict d) (VDict d')) ->
  (forall n l l0 l',
     (if _should_sort_list l then sorted _get_sort_key l = Ok l0 else l0 = l) ->
     Forall2 (fun x y => normalize_data n x = Ok y /\ P n x y) l0 l' ->
     P (S n) (VList l) (VList l')) ->
  forall n v w, normalize_data n v = Ok w -> P n v w.
Proof.
  intros Hscalar Hdict Hlist. induction n as [| n IH]; intros v w Hn;
    [discriminate |].
  destruct v as [| b | z | f | s | l | d]; simpl in Hn;
    try (injection Hn as <-; now apply Hscalar).
  - destruct (_should_sort_list l) eqn:Hs.
    + destruct (sorted _get_sort_key l) as [l0 | e |] eqn:Hl0; simpl in Hn;
        try discriminate.
      destruct (mapM (normalize_data n) l0) as [l' | e |] eqn:Hm; simpl in Hn;
        try discriminate.
      injection Hn as <-. apply Hlist with l0; [now rewrite Hs |].
      apply mapM_Forall2 in Hm. revert Hm. apply Forall2_impl. auto.
    + destruct (mapM (normalize_data n) l) as [l' | e |] eqn:Hm; simpl in Hn;
        try discriminate.
      injection Hn as <-. apply Hlist with l; [now rewrite Hs |].
      apply mapM_Forall2 in Hm. revert Hm. apply Forall2_impl. auto.
  - match type of Hn with
    | context [mapM ?f d] => destruct (mapM f d) as [d' | e |] eqn:Hm
    end; simpl in Hn; try discriminate.
    injection Hn as <-. apply Hdict.
    apply mapM_Forall2 in Hm. revert Hm. apply Forall2_impl.
    intros kv kv' Hkv.
    destruct (normalize_data n (snd kv)) as [v' | e |] eqn:Hv; simpl in Hkv;
      try discriminate.
    injection Hkv as <-. simpl. auto.
Qed.

Lemma normalize_data_inv (n : nat) (v w : value) :
  normalize_data n v = Ok w ->
  match v with
  | VDict d =>
      exists d', w = VDict d' /\
        Forall2 (fun kv kv' =>
                   fst kv' = fst kv /\
                   exists m, n = S m /\ normalize_data m (snd kv) = Ok (snd kv')) d d'
  | VList l =>
      exists l0 l', w = VList l' /\
        (if _should_sort_list l then sorted _get_sort_key l = Ok l0 else l0 = l) /\
        Forall2 (fun x y => exists m, n = S m /\ normalize_data m x = Ok y) l0 l'
  | _ => w = v
  end.
Proof.
  revert n v w.
  apply (normalize_data_ok_ind
           (fun n v w =>
              match v with
              | VDict d =>
                  exists d', w = VDict d' /\
                    Forall2 (fun kv kv' =>
                               fst kv' = fst kv /\
                               exists m, n = S m /\
                                 normalize_data m (snd kv) = Ok (snd kv')) d d'
              | VList l =>
                  exists l0 l', w = VList l' /\
                    (if _should_sort_list l
                     then sorted _get_sort_key l = Ok l0 else l0 = l) /\
                    Forall2 (fun x y => exists m, n = S m /\
                               normalize_data m x = Ok y) l0 l'
              | _ => w = v
              end)).
  - intros n v Hv. destruct v; try reflexivity; discriminate.
  - intros n d d' Hall. exists d'. split; [reflexivity |].
    revert Hall. apply Forall2_impl. intros kv kv' [Hk [Hn _]]. eauto.
  - intros n l l0 l' Hs Hall. exists l0, l'. split; [reflexivity |].
    split; [assumption |].
    revert Hall. apply Forall2_impl. intros x y [Hn _]. eauto.
Qed.

Lemma normalize_data_shape (n : nat) (v w : value) :
  normalize_data n v = Ok w -> same_shape v w /\ type_of w = type_of v.
Proof.
  revert n v w.
  apply (normalize_data_ok_ind
           (fun _ v w => same_shape v w /\ type_of w = type_of v)).
  - intros n v Hv. destruct v; try discriminate; simpl; auto.
  - intros n d d' Hall. simpl. split; [| reflexivity].
    unfold keys. induction Hall as [| kv kv' t t' [Hk _] _ IH]; simpl;
      [reflexivity | now rewrite Hk, IH].
  - intros n l l0 l' _ _. simpl. auto.
Qed.

Lemma normalize_data_not_empty (n : nat) (v w : value) :
  normalize_data n v = Ok w -> v <> VDict [] -> w <> VDict [].
Proof.
  intros Hn Hv ->. apply normalize_data_shape in Hn. destruct Hn as [Hs _].
  destruct v as [| | | | | | d]; simpl in Hs; try contradiction.
  destruct d; [congruence | discriminate].
Qed.

Lemma normalize_data_nan_free (n : nat) (v w : value) :
  normalize_data n v = Ok w -> nan_free v = true -> nan_free w = true.
Proof.
  revert n v w.
  apply (normalize_data_ok_ind
           (fun _ v w => nan_free v = true -> nan_free w = true)).
  - auto.
  - intros n d d' Hall. simpl. rewrite !forallb_forall. intros Hd kv' Hin.
    destruct (Forall2_In_r Hall Hin) as [kv [Hkv [_ [_ IH]]]]. apply IH. now apply Hd.
  - intros n l l0 l' Hs Hall. simpl. rewrite !forallb_forall. intros Hl y Hin.
    destruct (Forall2_In_r Hall Hin) as [x [Hx [_ IH]]]. apply IH. apply Hl.
    destruct (_should_sort_list l); [| now subst].
    now apply (sorted_In x Hs).
Qed.

(** What normalization returns can be normalized once more. *)
Lemma normalize_data_again (n : nat) (v w : value) :
  normalize_data n v = Ok w -> exists w', normalize_data n w = Ok w'.
Proof.
  revert n v w.
  apply (normalize_data_ok_ind
           (fun n _ w => exists w', normalize_data n w = Ok w')).
  - intros n v Hv. destruct v; try discriminate; simpl; now eexists.
  - intros n d d' Hall. cbn [normalize_data].
    match goal with
    | |- context [mapM ?f d'] => destruct (@mapM_all_ok _ _ f d') as [d'' ->]
    end; [| simpl; now eexists].
    intros kv' Hin. destruct (Forall2_In_r Hall Hin) as [kv [_ [_ [_ [y ->]]]]].
    simpl. now eexists.
  - intros n l l0 l' Hs Hall. cbn [normalize_data].
    assert (Hok : forall y, In y l' -> exists y', normalize_data n y = Ok y').
    { intros y Hin. destruct (Forall2_In_r Hall Hin) as [x [_ [_ Hy]]]. exact Hy. }
    destruct (_should_sort_list l') eqn:Hs'.
    + assert (Hsl : _should_sort_list l = true).
      { destruct (_should_sort_list l) eqn:Hsl; [reflexivity |]. subst l0.
        rewrite <- Hs', <- Hsl. symmetry. apply same_shape_should_sort.
        revert Hall. apply Forall2_impl. intros x y [Hn _].
        now apply normalize_data_shape in Hn. }
      rewrite Hsl in Hs.
      destruct (@sorted_no_empty_ok l') as [l'' Hl''].
      { apply Forall_forall. intros y Hin.
        destruct (Forall2_In_r Hall Hin) as [x [Hx [Hn _]]].
        apply (normalize_data_not_empty _ Hn).
        pose proof (sorted_ok_no_empty _ Hs) as Hne. rewrite Forall_forall in Hne.
        apply Hne. now apply (sorted_In x Hs). }
      rewrite Hl''. simpl.
      destruct (@mapM_all_ok _ _ (normalize_data n) l'') as [l3 ->];
        [| simpl; now eexists].
      intros y Hin. apply Hok. now apply (sorted_In y Hl'').
    + destruct (@mapM_all_ok _ _ (normalize_data n) l') as [l3 ->];
        [assumption | simpl; now eexists].
Qed.

(** The parts of a normalized tree can be normalized with one unit less. *)
Lemma normalize_data_child_again (n : nat) (v w c : value) :
  normalize_data (S n) v = Ok w -> child c w ->
  exists c', normalize_data n c = Ok c'.
Proof.
  intros Hn Hc. apply normalize_data_inv in Hn.
  destruct v as [| | | | | l | d]; try (subst w; contradiction).
  - destruct Hn as [l0 [l' [-> [_ Hall]]]]. simpl in Hc.
    destruct (Forall2_In_r Hall Hc) as [x [_ [m [[= <-] Hx]]]].
    now apply normalize_data_again in Hx.
  - destruct Hn as [d' [-> Hall]]. destruct Hc as [k Hin].
    destruct (Forall2_In_r Hall Hin) as [kv [_ [_ [m [[= <-] Hx]]]]].
    now apply normalize_data_again in Hx.
Qed.

(** A normalized sequence that is compared by key has a key for every
    element. *)
Lemma normalize_data_sortable (n : nat) (v : value) (items : list value) :
  normalize_data n v = Ok (VList items) ->
  _should_sort_list items = true ->
  Forall (fun i => i <> VDict []) items.
Proof.
  intros Hn Hs. pose proof (normalize_data_inv _ _ Hn) as Hinv.
  destruct v as [| | | | | l | d]; try discriminate.
  - destruct Hinv as [l0 [l' [[= <-] [Hl0 Hall]]]].
    assert (Hshape : Forall2 same_shape l0 items).
    { revert Hall. apply Forall2_impl. intros x y [m [_ Hx]].
      now apply normalize_data_shape in Hx. }
    destruct (_should_sort_list l) eqn:Hsl.
    + apply Forall_forall. intros y Hin.
      destruct (Forall2_In_r Hall Hin) as [x [Hx [m [_ Hnx]]]].
      apply (normalize_data_not_empty _ Hnx).
      pose proof (sorted_ok_no_empty _ Hl0) as Hne. rewrite Forall_forall in Hne.
      apply Hne. now apply (sorted_In x Hl0).
    + subst l0. rewrite (same_shape_should_sort Hshape) in Hs. congruence.
  - destruct Hinv as [d' [Hw _]]. discriminate.
Qed.

End NormalizeFacts.

(** From here on lemmas take all their arguments explicitly. *)
Unset Implicit Arguments.

(** ** Sets as the host iterates them *)

Section SetFacts.
Context {H : Host}.

Lemma set_iter_nil : set_iter [] = [].
Proof. apply Permutation_nil. symmetry. apply set_iter_perm. Qed.

Lemma set_iter_In (k : string) (l : list string) : In k (set_iter l) <-> In k l.
Proof.
  split; apply Permutation_in; [apply set_iter_perm | symmetry; apply set_iter_perm].
Qed.

Lemma set_diff_In (k : string) (a b : list string) :
  In k (set_diff a b) <-> In k a /\ ~ In k b.
Proof.
  unfold set_diff. rewrite filter_In, negb_true_iff, mem_false. reflexivity.
Qed.

Lemma set_inter_In (k : string) (a b : list string) :
  In k (set_inter a b) <-> In k a /\ In k b.
Proof. unfold set_inter. rewrite filter_In, mem_In. reflexivity. Qed.

Lemma set_diff_self (a : list string) : set_diff a a = [].
Proof.
  destruct (set_diff a a) as [| k t] eqn:Hd; [reflexivity |].
  assert (Hin : In k (set_diff a a)) by (rewrite Hd; now left).
  apply set_diff_In in Hin. tauto.
Qed.
End SetFacts.

Lemma dict_get_set (V : Type) (k k' : string) (v v' : V) (m : list (string * V)) :
  dict_get String.eqb k (dict_set String.eqb k' v' m) = Some v ->
  (k = k' /\ v = v') \/ dict_get String.eqb k m = Some v.
Proof.
  induction m as [| [k0 v0] t IH]; simpl.
  - destruct (String.eqb_spec k k'); [intros [= <-]; auto | discriminate].
  - destruct (String.eqb_spec k' k0) as [-> | Hne]; simpl.
    + destruct (String.eqb_spec k k0); [intros [= <-]; auto | auto].
    + destruct (String.eqb_spec k k0); [auto | exact IH].
Qed.

(** ** Comparing a tree with one of the same normal form *)

Section CompareFacts.
Context {H : Host}.

(** What [compare] does once both sides are normalized. *)
Definition dispatch (self_compare : differ) (left_norm right_norm : value)
  (path : list string) (differences : list DiffItem) : res (list DiffItem) :=
  if negb (pytype_eqb (type_of left_norm) (type_of right_norm)) then
    Ok (list_append differences (mkDiffItem MODIFIED path left_norm right_norm))
  else
    match left_norm, right_norm with
    | VDict l, VDict r => _compare_dicts self_compare l r path differences
    | VList l, VList r => _compare_lists self_compare l r path differences
    | _, _ =>
        if py_ne left_norm right_norm then
          Ok (list_append differences
                (mkDiffItem MODIFIED path left_norm right_norm))
        else Ok differences
    end.

Lemma compare_unfold (n : nat) left right path differences :
  compare (S n) left right path differences =
  (left_norm <- normalize_data (S n) left ;;
   right_norm <- normalize_data (S n) right ;;
   dispatch (compare n) left_norm right_norm path differences).
Proof. reflexivity. Qed.

Lemma pytype_eqb_refl (t : pytype) : pytype_eqb t t = true.
Proof. now destruct t. Qed.

Lemma pytype_eqb_eq (a b : pytype) : pytype_eqb a b = true <-> a = b.
Proof. destruct a, b; simpl; split; congruence. Qed.

Lemma key_map_values (items : list value) (m : list (string * value)) :
  key_map items = Ok m ->
  forall k v, dict_get String.eqb k m = Some v -> In v items.
Proof.
  unfold key_map. intros Hm.
  apply (foldM_invariant
           (fun m => forall k v, dict_get String.eqb k m = Some v -> In v items))
    with (3 := Hm).
  - intros x s s' Hx Hs Hbody k v Hget.
    destruct (_get_sort_key x) as [kx | e |]; simpl in Hbody; try discriminate.
    injection Hbody as <-.
    apply dict_get_set in Hget. destruct Hget as [[_ ->] | Hget]; [assumption |].
    now apply (Hs k).
  - intros k v. discriminate.
Qed.

Lemma key_map_ok (items : list value) :
  Forall (fun i => i <> VDict []) items -> exists m, key_map items = Ok m.
Proof.
  unfold key_map. intros Hall. generalize (@nil (string * value)).
  induction Hall as [| x t Hx Ht IH]; intros m; simpl; [now eexists |].
  destruct (_get_sort_key_ok Hx) as [k ->]. simpl. apply IH.
Qed.

Lemma dispatch_same (cmp : differ) (w : value) path differences :
  nan_free w = true ->
  (forall c p d, child c w -> cmp c c p d = Ok d) ->
  (forall items, w = VList items -> _should_sort_list items = true ->
                 Forall (fun i => i <> VDict []) items) ->
  dispatch cmp w w path differences = Ok differences.
Proof.
  intros Hnan Hchild Hsort. unfold dispatch.
  rewrite pytype_eqb_refl. simpl.
  destruct w as [| b | z | f | s | items | d]; simpl.
  - reflexivity.
  - now rewrite Bool.eqb_reflx.
  - now rewrite Z.eqb_refl.
  - simpl in Hnan. now rewrite Hnan.
  - now rewrite String.eqb_refl.
  - unfold _compare_lists. rewrite andb_diag.
    destruct (_should_sort_list items) eqn:Hs.
    + unfold _compare_sorted_lists.
      destruct (key_map_ok items (Hsort items eq_refl Hs)) as [m Hm]. rewrite Hm. simpl.
      rewrite set_diff_self, set_iter_nil. simpl.
      apply foldM_unchanged. intros key Hkey.
      apply set_iter_In, set_inter_In in Hkey. destruct Hkey as [Hkey _].
      apply mem_In in Hkey. destruct (dict_get_mem _ _ Hkey) as [item Hitem].
      unfold subscript. rewrite Hitem. simpl.
      apply Hchild. simpl. exact (key_map_values _ _ Hm _ _ Hitem).
    + unfold _compare_ordered_lists. rewrite Nat.min_id.
      rewrite foldM_unchanged.
      * simpl. now rewrite Nat.ltb_irrefl.
      * intros i Hi. apply in_seq in Hi. unfold getitem.
        destruct (nth_error items i) as [c |] eqn:Hc.
        -- simpl. apply Hchild. simpl. eapply nth_error_In; eassumption.
        -- apply nth_error_None in Hc. lia.
  - unfold _compare_dicts. rewrite set_diff_self, set_iter_nil. simpl.
    apply foldM_unchanged. intros key Hkey.
    apply set_iter_In, set_inter_In in Hkey. destruct Hkey as [Hkey _].
    apply mem_In in Hkey. destruct (dict_get_mem _ _ Hkey) as [c Hc].
    unfold subscript. rewrite Hc. simpl.
    apply Hchild. simpl. exists key. now apply dict_get_In.
Qed.

Lemma compare_self (n : nat) :
  forall v w path differences,
    nan_free v = true -> normalize_data n v = Ok w ->
    compare n v v path differences = Ok differences.
Proof.
  induction n as [| n IH]; intros v w path differences Hnan Hn; [discriminate |].
  rewrite compare_unfold, Hn. simpl.
  pose proof (normalize_data_nan_free _ _ Hn Hnan) as Hnanw.
  apply dispatch_same; [assumption | |].
  - intros c p d Hc.
    destruct (normalize_data_child_again _ _ _ Hn Hc) as [c' Hc'].
    apply IH with c'; [| assumption]. eapply nan_free_child; eassumption.
  - intros items -> Hs. eapply normalize_data_sortable; eassumption.
Qed.

Lemma compare_same_norm (n : nat) (left right w : value) path differences :
  nan_free left = true ->
  normalize_data (S n) left = Ok w -> normalize_data (S n) right = Ok w ->
  compare (S n) left right path differences = Ok differences.
Proof.
  intros Hnan Hl Hr. rewrite compare_unfold, Hl, Hr. simpl.
  pose proof (normalize_data_nan_free _ _ Hl Hnan) as Hnanw.
  apply dispatch_same; [assumption | |].
  - intros c p d Hc.
    destruct (normalize_data_child_again _ _ _ Hl Hc) as [c' Hc'].
    apply compare_self with c'; [| assumption]. eapply nan_free_child; eassumption.
  - intros items -> Hs. eapply normalize_data_sortable; eassumption.
Qed.

(** With fuel above the height of the tree, normalization returns or
    raises. *)
Lemma _get_sort_key_fuel (item : value) : _get_sort_key item <> OutOfFuel.
Proof.
  destruct (_get_sort_key item) as [k | e |] eqn:Hk; try discriminate.
  assert (Hne : item <> VDict []).
  { intros ->. discriminate. }
  destruct (_get_sort_key_ok Hne) as [k Hk']. congruence.
Qed.

Lemma sorted_fuel (l : list value) : sorted _get_sort_key l <> OutOfFuel.
Proof.
  unfold sorted.
  pose proof (@mapM_not_out_of_fuel _ _ _get_sort_key l
                (fun x _ => _get_sort_key_fuel x)) as Hm.
  destruct (mapM _get_sort_key l); simpl; congruence.
Qed.

Lemma normalize_data_fuel (n : nat) :
  forall v, height v < n -> normalize_data n v <> OutOfFuel.
Proof.
  induction n as [| n IH]; intros v Hv; [lia |].
  destruct v as [| | | | | l | d]; simpl; try discriminate.
  - assert (Hall : forall l0, (forall x, In x l0 -> In x l) ->
                   mapM (normalize_data n) l0 <> OutOfFuel).
    { intros l0 Hsub. apply mapM_not_out_of_fuel. intros x Hx. apply IH.
      pose proof (@height_child x (VList l) (Hsub x Hx)). lia. }
    destruct (_should_sort_list l).
    + pose proof (sorted_fuel l) as Hs.
      destruct (sorted _get_sort_key l) as [l0 | e |] eqn:Hl0; simpl;
        try congruence.
      specialize (Hall l0 (fun x Hx => proj1 (sorted_In x Hl0) Hx)).
      destruct (mapM (normalize_data n) l0); simpl; congruence.
    + specialize (Hall l (fun x Hx => Hx)).
      destruct (mapM (normalize_data n) l); simpl; congruence.
  - match goal with
    | |- context [mapM ?f d] =>
        assert (Hm : mapM f d <> OutOfFuel)
    end.
    { apply mapM_not_out_of_fuel. intros [k x] Hx. simpl.
      assert (Hn : normalize_data n x <> OutOfFuel).
      { apply IH. assert (Hc : child x (VDict d)) by (now exists k).
        pose proof (height_child _ _ Hc). lia. }
      destruct (normalize_data n x); simpl; congruence. }
    match goal with
    | |- context [mapM ?f d] => destruct (mapM f d)
    end; simpl; congruence.
Qed.

Lemma normalize_data_returns (n : nat) (v : value) :
  height v < n -> (forall e, normalize_data n v <> Raise e) ->
  exists w, normalize_data n v = Ok w.
Proof.
  intros Hh Hr. pose proof (normalize_data_fuel n v Hh) as Hf.
  destruct (normalize_data n v) as [w | e |]; [now exists w | | congruence].
  exfalso. now apply (Hr e).
Qed.

(** Every element of a sequence that is sorted has a key: none is the
    empty mapping. *)
Definition is_empty_mapping (v : value) : bool :=
  match v with
  | VDict [] => true
  | _ => false
  end.

Fixpoint has_keys (v : value) : bool :=
  match v with
  | VList l =>
      (if _should_sort_list l
       then forallb (fun i => negb (is_empty_mapping i)) l else true)
      && forallb has_keys l
  | VDict d => forallb (fun kv => has_keys (snd kv)) d
  | _ => true
  end.

Lemma is_empty_mapping_false (l : list value) :
  forallb (fun i => negb (is_empty_mapping i)) l = true <->
  Forall (fun i => i <> VDict []) l.
Proof.
  rewrite forallb_forall, Forall_forall. split; intros Hall x Hx.
  - intros ->. specialize (Hall _ Hx). discriminate.
  - specialize (Hall x Hx). destruct x as [| | | | | | [| kv t]]; try reflexivity.
    congruence.
Qed.

Lemma normalize_data_has_keys_returns (n : nat) :
  forall v, has_keys v = true -> height v < n ->
            exists w, normalize_data n v = Ok w.
Proof.
  induction n as [| n IH]; intros v Hk Hh; [lia |].
  destruct v as [| | | | | l | d]; try (eexists; reflexivity).
  - simpl in Hk. apply andb_true_iff in Hk. destruct Hk as [Hsort Hall].
    rewrite forallb_forall in Hall.
    assert (Hitems : forall l0, (forall x, In x l0 -> In x l) ->
                     exists l', mapM (normalize_data n) l0 = Ok l').
    { intros l0 Hsub. apply mapM_all_ok. intros x Hx. apply IH.
      - apply Hall, Hsub, Hx.
      - pose proof (height_child x (VList l) (Hsub x Hx)). lia. }
    cbn [normalize_data]. destruct (_should_sort_list l).
    + apply is_empty_mapping_false in Hsort.
      destruct (sorted_no_empty_ok Hsort) as [l0 Hl0]. rewrite Hl0. cbn [bind].
      destruct (Hitems l0) as [l' ->]; [| cbn [bind]; now eexists].
      intros x Hx. now apply (sorted_In x Hl0).
    + destruct (Hitems l) as [l' ->]; [auto | cbn [bind]; now eexists].
  - simpl in Hk. rewrite forallb_forall in Hk. cbn [normalize_data].
    match goal with
    | |- context [mapM ?f d] => destruct (@mapM_all_ok _ _ f d) as [d' ->]
    end; [| cbn [bind]; now eexists].
    intros [k x] Hx. simpl.
    destruct (IH x) as [w ->]; [| | simpl; now eexists].
    + apply (Hk (k, x) Hx).
    + assert (Hc : child x (VDict d)) by (now exists k).
      pose proof (height_child _ _ Hc). lia.
Qed.

Lemma normalize_data_returns_has_keys (n : nat) (v w : value) :
  normalize_data n v = Ok w -> has_keys v = true.
Proof.
  revert n v w.
  apply (normalize_data_ok_ind (fun _ v _ => has_keys v = true)).
  - intros n v Hv. destruct v; try discriminate; reflexivity.
  - intros n d d' Hall. simpl. apply forallb_forall. intros kv Hkv.
    destruct (Forall2_In_l Hall Hkv) as [kv' [_ [_ [_ Hp]]]]. exact Hp.
  - intros n l l0 l' Hs Hall. simpl. apply andb_true_iff.
    assert (Hl0 : forall x, In x l0 -> has_keys x = true).
    { intros x Hx. destruct (Forall2_In_l Hall Hx) as [y [_ [_ Hp]]]. exact Hp. }
    destruct (_should_sort_list l).
    + split.
      * apply is_empty_mapping_false. eapply sorted_ok_no_empty; eassumption.
      * apply forallb_forall. intros x Hx. apply Hl0. now apply (sorted_In x Hs).
    + subst l0. split; [reflexivity | now apply forallb_forall].
Qed.

(** Normalization returns exactly on the trees in which every sorted
    sequence has a key for each element. *)
Lemma normalize_data_returns_iff (n : nat) (v : value) :
  height v < n ->
  ((exists w, normalize_data n v = Ok w) <-> has_keys v = true).
Proof.
  intros Hh. split.
  - intros [w Hw]. now apply normalize_data_returns_has_keys with n w.
  - intros Hk. now apply normalize_data_has_keys_returns.
Qed.

End CompareFacts.

(** ** Reordering a sequence that is compared by key *)

Lemma mapM_perm (A : Type) (f : A -> res string) (l l' : list A) :
  Permutation l l' ->
  forall ks, mapM f l = Ok ks ->
  exists ks', mapM f l' = Ok ks' /\ Permutation (combine ks l) (combine ks' l').
Proof.
  induction 1 as [| x l l' Hp IH | x y l | l l1 l2 Hp1 IH1 Hp2 IH2]; intros ks Hm.
  - exists []. simpl in Hm. injection Hm as <-. split; [reflexivity | constructor].
  - simpl in Hm. destruct (f x) as [k | e |] eqn:Hx; simpl in Hm; try discriminate.
    destruct (mapM f l) as [kt | e |] eqn:Ht; simpl in Hm; try discriminate.
    injection Hm as <-. destruct (IH kt eq_refl) as [kt' [Ht' Hperm]].
    exists (k :: kt'). simpl. rewrite Hx, Ht'. simpl.
    split; [reflexivity | now constructor].
  - simpl in Hm. destruct (f y) as [ky | e |] eqn:Hy; simpl in Hm; try discriminate.
    destruct (f x) as [kx | e |] eqn:Hx; simpl in Hm; try discriminate.
    destruct (mapM f l) as [kt | e |] eqn:Ht; simpl in Hm; try discriminate.
    injection Hm as <-. exists (kx :: ky :: kt). simpl. rewrite Hx, Hy, Ht. simpl.
    split; [reflexivity | apply perm_swap].
  - destruct (IH1 ks Hm) as [ks1 [Hm1 Hperm1]].
    destruct (IH2 ks1 Hm1) as [ks2 [Hm2 Hperm2]].
    exists ks2. split; [assumption | now transitivity (combine ks1 l1)].
Qed.

Lemma sorted_perm_eq (A : Type) (key : A -> res string) (l l' : list A)
  (ks : list string) :
  Permutation l l' -> mapM key l = Ok ks -> NoDup ks ->
  sorted key l' = sorted key l.
Proof.
  intros Hp Hm Hnd. destruct (mapM_perm A key l l' Hp ks Hm) as [ks' [Hm' Hperm]].
  unfold sorted. rewrite Hm, Hm'. simpl. do 2 f_equal. symmetry.
  apply sort_keyed_perm_eq; [assumption |].
  rewrite map_fst_combine; [assumption | now apply mapM_length in Hm].
Qed.

(** The record [{name: n, v: v}]. *)
Definition named (n : string) (v : Z) : value :=
  VDict [("name", VStr n); ("v", VInt v)].

(** C1, as stated, fails: two elements with the same derived key are
    both kept by the normalizer and only the later one by the keyed map,
    so swapping them is reported. *)
Lemma reorder_with_equal_keys_differs :
  _should_sort_list [named "x" 1; named "x" 2] = true /\
  Permutation [named "x" 1; named "x" 2] [named "x" 2; named "x" 1] /\
  compare 4 (VList [named "x" 1; named "x" 2])
            (VList [named "x" 2; named "x" 1]) [] []
  = Ok [mkDiffItem MODIFIED ["[x]"; "v"] (VInt 2) (VInt 1)].
Proof.
  split; [reflexivity | split; [apply perm_swap | reflexivity]].
Qed.

(** A permutation whose first element no longer makes the sequence
    qualify is compared by position against the sorted original. *)
Lemma reorder_losing_qualification_differs :
  _should_sort_list [named "a" 0; VInt 5; VInt 3] = true /\
  _should_sort_list [VInt 5; VInt 3; named "a" 0] = false /\
  compare 4 (VList [named "a" 0; VInt 5; VInt 3])
            (VList [VInt 5; VInt 3; named "a" 0]) [] []
  = Ok [mkDiffItem MODIFIED ["[0]"] (VInt 3) (VInt 5);
        mkDiffItem MODIFIED ["[1]"] (VInt 5) (VInt 3)].
Proof. repeat split; reflexivity. Qed.

(** Permuting a sequence from which the sort key of an enclosing element
    is printed changes that key: the element moves in the sorted sequence
    around it, which then no longer qualifies on one side and is compared
    by position. *)
Lemma reorder_inside_sort_key_differs :
  _should_sort_list [named "b" 2; named "a" 1] = true /\
  _should_sort_list [named "a" 1; named "b" 2] = true /\
  Permutation [named "b" 2; named "a" 1] [named "a" 1; named "b" 2] /\
  mapM _get_sort_key [named "b" 2; named "a" 1] = Ok ["b"; "a"] /\
  compare 8
    (VList [VDict [("name", VList [named "b" 2; named "a" 1])];
            VDict [("id", VStr "[{'name': 'az")]])
    (VList [VDict [("name", VList [named "a" 1; named "b" 2])];
            VDict [("id", VStr "[{'name': 'az")]]) [] []
  <> Ok [].
Proof.
  split; [reflexivity |]. split; [reflexivity |]. split; [apply perm_swap |].
  split; [reflexivity |]. vm_compute. discriminate.
Qed.

(** Sorting two lists that agree key by key moves their elements alike. *)
Lemma insert_keyed_rel (A : Type) (R : A -> A -> Prop) (x x' : string * A)
  (l l' : list (string * A)) :
  fst x = fst x' /\ R (snd x) (snd x') ->
  Forall2 (fun p p' => fst p = fst p' /\ R (snd p) (snd p')) l l' ->
  Forall2 (fun p p' => fst p = fst p' /\ R (snd p) (snd p'))
    (insert_keyed x l) (insert_keyed x' l').
Proof.
  intros Hx Hall. induction Hall as [| y y' t t' Hy Hall IH]; simpl.
  - constructor; [exact Hx | constructor].
  - destruct Hx as [Ex Rx]. destruct Hy as [Ey Ry]. rewrite <- Ex, <- Ey.
    destruct (str_lt (fst y) (fst x)).
    + constructor; [now split | exact IH].
    + constructor; [now split |]. constructor; [now split | exact Hall].
Qed.

Lemma sort_keyed_rel (A : Type) (R : A -> A -> Prop) (ks : list string)
  (l l' : list A) :
  Forall2 R l l' ->
  Forall2 R (map snd (sort_keyed (combine ks l)))
            (map snd (sort_keyed (combine ks l'))).
Proof.
  intros Hall.
  assert (Hs : Forall2 (fun p p' => fst p = fst p' /\ R (snd p) (snd p'))
                 (sort_keyed (combine ks l)) (sort_keyed (combine ks l'))).
  { revert ks. induction Hall as [| x x' t t' Hx Hall IH]; intros [| k ks]; simpl;
      try constructor.
    apply insert_keyed_rel; [now split | apply IH]. }
  induction Hs as [| p p' t t' [_ Hp] _ IH]; simpl; constructor; assumption.
Qed.

Lemma mapM_rel (A B : Type) (R : A -> A -> Prop) (f g : A -> res B)
  (l l' : list A) (ys : list B) :
  Forall2 R l l' ->
  (forall a a' y, R a a' -> f a = Ok y -> g a' = Ok y) ->
  mapM f l = Ok ys -> mapM g l' = Ok ys.
Proof.
  intros Hall Hf. revert ys. induction Hall as [| a a' t t' Ha Hall IH];
    intros ys; simpl; [auto |].
  destruct (f a) as [y | |] eqn:Hy; simpl; try discriminate.
  destruct (mapM f t) as [yt | |]; simpl; try discriminate.
  intros [= <-]. now rewrite (Hf a a' y Ha Hy), (IH yt eq_refl).
Qed.

Lemma same_shape_refl (v : value) : same_shape v v.
Proof. destruct v; simpl; auto. Qed.

Section Reordered.
Context {H : Host}.

(** [reordered A A']: the document [A'] is the document [A] with the
    elements of some of its qualifying sequences permuted.  A sequence that
    is permuted has pairwise distinct derived keys and still qualifies once
    permuted, and the elements of every sorted sequence around a permuted
    one keep their derived keys. *)
Inductive reordered : value -> value -> Prop :=
| reordered_same (v : value) : reordered v v
| reordered_fields (d d' : list (string * value)) :
    Forall2 (fun kv kv' => fst kv' = fst kv /\ reordered (snd kv) (snd kv')) d d' ->
    reordered (VDict d) (VDict d')
| reordered_elements (l l' : list value) :
    Forall2 reordered l l' ->
    (_should_sort_list l = true ->
     mapM _get_sort_key l' = mapM _get_sort_key l) ->
    reordered (VList l) (VList l')
| reordered_permuted (l l1 l' : list value) (ks : list string) :
    _should_sort_list l = true ->
    mapM _get_sort_key l = Ok ks -> NoDup ks ->
    Permutation l l1 ->
    _should_sort_list l1 = true ->
    Forall2 reordered l1 l' ->
    mapM _get_sort_key l' = mapM _get_sort_key l1 ->
    reordered (VList l) (VList l').

Lemma reordered_shape (v v' : value) : reordered v v' -> same_shape v v'.
Proof.
  intros HR. destruct HR as [x | d d' Hall | l l' Hall Hk | l l1 l' ks]; simpl; auto.
  - apply same_shape_refl.
  - unfold keys. induction Hall as [| kv kv' t t' [E _] _ IH]; simpl;
      [reflexivity | now rewrite E, IH].
Qed.

Lemma reordered_should_sort (l l' : list value) :
  Forall2 reordered l l' -> _should_sort_list l' = _should_sort_list l.
Proof.
  intros Hall. apply same_shape_should_sort.
  revert Hall. apply Forall2_impl. exact reordered_shape.
Qed.

Lemma normalize_elements_reordered (n : nat) (l l' : list value) (w : value) :
  (forall A A' w, reordered A A' ->
                  normalize_data n A = Ok w -> normalize_data n A' = Ok w) ->
  Forall2 reordered l l' ->
  (_should_sort_list l = true ->
   mapM _get_sort_key l' = mapM _get_sort_key l) ->
  normalize_data (S n) (VList l) = Ok w ->
  normalize_data (S n) (VList l') = Ok w.
Proof.
  intros IH Hall Hkeys. cbn [normalize_data].
  rewrite (reordered_should_sort l l' Hall).
  destruct (_should_sort_list l).
  - unfold sorted. rewrite (Hkeys eq_refl).
    destruct (mapM _get_sort_key l) as [ks | |]; cbn [bind]; try discriminate.
    destruct (mapM (normalize_data n) (map snd (sort_keyed (combine ks l))))
      as [items | |] eqn:Hm; cbn [bind]; try discriminate.
    intros [= <-].
    now rewrite (mapM_rel _ _ reordered _ (normalize_data n) _ _ items
                   (sort_keyed_rel _ reordered ks l l' Hall) IH Hm).
  - destruct (mapM (normalize_data n) l) as [items | |] eqn:Hm; cbn [bind];
      try discriminate.
    intros [= <-].
    now rewrite (mapM_rel _ _ reordered _ (normalize_data n) _ _ items Hall IH Hm).
Qed.

(** A document and a reordered one have the same normal form. *)
Lemma normalize_data_reordered (n : nat) :
  forall A A' w, reordered A A' ->
    normalize_data n A = Ok w -> normalize_data n A' = Ok w.
Proof.
  induction n as [| n IH]; intros A A' w HR; [discriminate |].
  inversion HR as [x | d d' Hall | l l' Hall Hkeys
                   | l l1 l' ks Hs Hks Hnd Hperm Hs1 Hall Hkeys]; subst.
  - auto.
  - cbn [normalize_data].
    destruct (mapM (fun kv => v <- normalize_data n (snd kv) ;; Ok (fst kv, v)) d)
      as [items | |] eqn:Hm; cbn [bind]; try discriminate.
    intros [= <-].
    assert (Hm' : mapM (fun kv => v <- normalize_data n (snd kv) ;; Ok (fst kv, v)) d'
                  = Ok items).
    { revert Hm. apply (mapM_rel _ _ _ _ _ _ _ items Hall).
      intros kv kv' y [E HRv].
      destruct (normalize_data n (snd kv)) as [v | |] eqn:Hv; cbn [bind];
        try discriminate.
      intros [= <-]. now rewrite (IH _ _ v HRv Hv), E. }
    now rewrite Hm'.
  - now apply normalize_elements_reordered.
  - intros Hw. apply (normalize_elements_reordered n l1 l' w IH Hall).
    + intros _. exact Hkeys.
    + revert Hw. cbn [normalize_data]. rewrite Hs, Hs1.
      now rewrite (sorted_perm_eq value _get_sort_key l l1 ks Hperm Hks Hnd).
Qed.

End Reordered.

(** C1, amended: a document compares empty against the document in which
    the elements of qualifying sequences are permuted, at any depth, when
    every permuted sequence has pairwise distinct derived keys and still
    qualifies once permuted and the elements of the sorted sequences around
    it keep their derived keys (no float being a NaN, and no sorted
    sequence holding an empty mapping). *)
Theorem reorder_invariance {H : Host} (A A' : value) (fuel : nat)
  (path : list string) :
  reordered A A' ->
  nan_free A = true ->
  has_keys A = true ->
  height A < fuel ->
  compare fuel A A' path [] = Ok [].
Proof.
  intros HR Hnan Hk Hh.
  destruct (normalize_data_has_keys_returns fuel A Hk Hh) as [w Hw].
  destruct fuel as [| n]; [discriminate |].
  apply compare_same_norm with w; [assumption | assumption |].
  exact (normalize_data_reordered (S n) A A' w HR Hw).
Qed.

Lemma reorder_invariance_witness :
  compare 6
    (VDict [("services",
             VList [VDict [("name", VStr "web");
                           ("ports", VList [named "y" 2; named "x" 1])];
                    VDict [("name", VStr "db"); ("ports", VList [])]])])
    (VDict [("services",
             VList [VDict [("name", VStr "db"); ("ports", VList [])];
                    VDict [("name", VStr "web");
                           ("ports", VList [named "x" 1; named "y" 2])]])])
    ["doc"] []
  = Ok [].
Proof.
  apply (@reorder_invariance listing_host).
  - apply reordered_fields. apply Forall2_cons; [| apply Forall2_nil].
    split; [reflexivity |]. cbn [snd].
    apply (reordered_permuted
             [VDict [("name", VStr "web");
                     ("ports", VList [named "y" 2; named "x" 1])];
              VDict [("name", VStr "db"); ("ports", VList [])]]
             [VDict [("name", VStr "db"); ("ports", VList [])];
              VDict [("name", VStr "web");
                     ("ports", VList [named "y" 2; named "x" 1])]]
             _ ["web"; "db"]).
    + reflexivity.
    + reflexivity.
    + apply NoDup_cons; [simpl; intros [E | []]; discriminate |].
      apply NoDup_cons; [simpl; tauto | apply NoDup_nil].
    + apply perm_swap.
    + reflexivity.
    + apply Forall2_cons; [apply reordered_same |].
      apply Forall2_cons; [| apply Forall2_nil].
      apply reordered_fields.
      apply Forall2_cons; [split; [reflexivity | apply reordered_same] |].
      apply Forall2_cons; [| apply Forall2_nil].
      split; [reflexivity |]. cbn [snd].
      apply (reordered_permuted [named "y" 2; named "x" 1]
               [named "x" 1; named "y" 2] _ ["y"; "x"]).
      * reflexivity.
      * reflexivity.
      * apply NoDup_cons; [simpl; intros [E | []]; discriminate |].
        apply NoDup_cons; [simpl; tauto | apply NoDup_nil].
      * apply perm_swap.
      * reflexivity.
      * apply Forall2_cons; [apply reordered_same |].
        apply Forall2_cons; [apply reordered_same | apply Forall2_nil].
      * reflexivity.
    + reflexivity.
  - reflexivity.
  - reflexivity.
  - simpl. lia.
Defined.

(** ** Comparing a tree with itself *)

(** C2, as stated, fails: a NaN differs from itself under Python's [!=]. *)
Lemma compare_nan_with_itself :
  compare 1 (VFloat nan) (VFloat nan) [] []
  = Ok [mkDiffItem MODIFIED [] (VFloat nan) (VFloat nan)].
Proof. reflexivity. Qed.

(** An element without any key in a sequence compared by key makes the
    comparison raise. *)
Lemma compare_raises_on_empty_mapping :
  compare 3 (VList [VDict [("name", VStr "a")]; VDict []])
            (VList [VDict [("name", VStr "a")]; VDict []]) [] []
  = Raise StopIteration.
Proof. reflexivity. Qed.

(** C2, amended: for every tree without NaN in which no sequence that is
    compared by key holds an empty mapping, comparing the tree with itself
    returns the empty change set. *)
Theorem compare_self_empty {H : Host} (X : value) (fuel : nat)
  (path : list string) :
  nan_free X = true ->
  has_keys X = true ->
  height X < fuel ->
  compare fuel X X path [] = Ok [].
Proof.
  intros Hnan Hk Hh.
  destruct (normalize_data_has_keys_returns fuel X Hk Hh) as [w Hw].
  now apply compare_self with w.
Qed.

Lemma compare_self_empty_witness :
  compare 4
    (VDict [("list", VList [VDict [("name", VStr "y"); ("v", VFloat 2.5)];
                            VDict [("name", VStr "x"); ("v", VInt 1)]])])
    (VDict [("list", VList [VDict [("name", VStr "y"); ("v", VFloat 2.5)];
                            VDict [("name", VStr "x"); ("v", VInt 1)]])])
    [] []
  = Ok [].
Proof.
  apply (@compare_self_empty listing_host).
  - reflexivity.
  - reflexivity.
  - simpl. lia.
Defined.

(** ** Normalizing twice *)

(** The value a sort key is printed from: the [name] field, else the
    first field, else the element itself. *)
Definition key_source (item : value) : option value :=
  match item with
  | VDict d =>
      if mem "name" (keys d) then dict_get String.eqb "name" d
      else match d with
           | [] => None
           | (_, v) :: _ => Some v
           end
  | _ => Some item
  end.

Definition key_is_scalar (item : value) : bool :=
  match key_source item with
  | Some v => is_scalar v
  | None => true
  end.

(** In every sequence that is sorted, keys are printed from scalars. *)
Fixpoint scalar_keyed (v : value) : bool :=
  match v with
  | VList l =>
      (if _should_sort_list l then forallb key_is_scalar l else true)
      && forallb scalar_keyed l
  | VDict d => forallb (fun kv => scalar_keyed (snd kv)) d
  | _ => true
  end.

Lemma mapM_id (A : Type) (f : A -> res A) (l : list A) :
  (forall x, In x l -> f x = Ok x) -> mapM f l = Ok l.
Proof.
  induction l as [| x t IH]; intros Hf; simpl; [reflexivity |].
  rewrite (Hf x (or_introl eq_refl)). simpl.
  rewrite IH; [reflexivity |]. intros z Hz. apply Hf. now right.
Qed.

Lemma sorted_by_fst (A B : Type) (l1 : list (string * A)) :
  forall l2 : list (string * B),
    map fst l1 = map fst l2 ->
    StronglySorted (@key_le A) l1 -> StronglySorted (@key_le B) l2.
Proof.
  induction l1 as [| [k a] t IH]; intros [| [k' b] u] Heq Hs;
    simpl in Heq; try discriminate; [constructor |].
  injection Heq as <- Heq. inversion Hs as [| x0 t0 Ht Hx]; subst.
  constructor; [now apply IH |].
  clear IH Hs Ht. revert u Heq.
  induction Hx as [| [k1 a1] t1 Hk Ht1 IH]; intros [| [k2 b2] u] Heq;
    simpl in Heq; try discriminate; constructor.
  - injection Heq as <- _. exact Hk.
  - injection Heq as _ Heq. now apply IH.
Qed.

Section Idempotence.
Context {H : Host}.

Lemma normalize_data_scalar (n : nat) (v w : value) :
  is_scalar v = true -> normalize_data n v = Ok w -> w = v.
Proof.
  intros Hv Hn. destruct n; [discriminate |].
  destruct v; try discriminate; simpl in Hn; congruence.
Qed.

Lemma dict_get_Forall2 (R : value -> value -> Prop) (k : string)
  (d d' : list (string * value)) :
  Forall2 (fun kv kv' => fst kv' = fst kv /\ R (snd kv) (snd kv')) d d' ->
  match dict_get String.eqb k d with
  | Some v => exists v', dict_get String.eqb k d' = Some v' /\ R v v'
  | None => dict_get String.eqb k d' = None
  end.
Proof.
  induction 1 as [| [k0 v0] [k1 v1] t t' [Hf Hr] _ IH]; [reflexivity |].
  cbn [fst snd] in Hf, Hr. subst k1. cbn [dict_get].
  destruct (String.eqb k k0); [now exists v1 | exact IH].
Qed.

Lemma _get_sort_key_normalized (n : nat) (x y : value) :
  normalize_data n x = Ok y -> key_is_scalar x = true ->
  _get_sort_key y = _get_sort_key x.
Proof.
  intros Hn Hk. pose proof (normalize_data_inv n x Hn) as Hinv.
  destruct x as [| | | | | l | d]; try (now subst y).
  - discriminate.
  - destruct Hinv as [d' [-> Hall]].
    assert (Hkeys : keys d' = keys d).
    { unfold keys. clear Hk Hn. induction Hall as [| kv kv' t t' [Hf _] _ IH];
        simpl; [reflexivity | now rewrite Hf, IH]. }
    unfold key_is_scalar, key_source in Hk.
    unfold _get_sort_key, subscript. rewrite Hkeys.
    destruct (mem "name" (keys d)) eqn:Hname.
    + pose proof (dict_get_Forall2
                    (fun v v' => exists m, n = S m /\ normalize_data m v = Ok v')
                    "name" d d' Hall) as Hget.
      destruct (dict_get String.eqb "name" d) as [v |] eqn:Hv.
      * destruct Hget as [v' [-> [m [_ Hv']]]].
        now rewrite (normalize_data_scalar m v v' Hk Hv').
      * now rewrite Hget.
    + destruct Hall as [| [k v] [k' v'] t t' [Hf [m [_ Hv]]] _]; [reflexivity |].
      cbn [fst snd] in Hf, Hv. subst k'. cbn [keys map fst dict_get].
      rewrite String.eqb_refl.
      now rewrite (normalize_data_scalar m v v' Hk Hv).
Qed.

Lemma normalize_data_fixed (n : nat) (v w : value) :
  normalize_data n v = Ok w -> scalar_keyed v = true -> normalize_data n w = Ok w.
Proof.
  revert n v w.
  apply (normalize_data_ok_ind
           (fun n v w => scalar_keyed v = true -> normalize_data n w = Ok w)).
  - intros n v Hv _. destruct v; try discriminate; reflexivity.
  - intros n d d' Hall Hsk. simpl in Hsk. rewrite forallb_forall in Hsk.
    cbn [normalize_data]. rewrite mapM_id; [reflexivity |].
    intros [k' v'] Hin.
    destruct (Forall2_In_r Hall Hin) as [kv [Hkv [_ [_ IH]]]].
    simpl in IH. simpl. rewrite IH; [reflexivity | now apply Hsk].
  - intros n l l0 l' Hs Hall Hsk. simpl in Hsk.
    apply andb_true_iff in Hsk. destruct Hsk as [Hkeys Hsk].
    rewrite forallb_forall in Hsk.
    assert (Hsub : forall x, In x l0 -> In x l).
    { intros x Hx. destruct (_should_sort_list l); [| now subst].
      now apply (sorted_In x Hs). }
    assert (Hfix : forall y, In y l' -> normalize_data n y = Ok y).
    { intros y Hin. destruct (Forall2_In_r Hall Hin) as [x [Hx [_ IH]]].
      apply IH, Hsk, Hsub, Hx. }
    assert (Hshape : Forall2 same_shape l0 l').
    { revert Hall. apply Forall2_impl. intros x y [Hn _].
      now apply normalize_data_shape in Hn. }
    cbn [normalize_data].
    destruct (_should_sort_list l') eqn:Hs'.
    + destruct (_should_sort_list l) eqn:Hsl.
      2:{ subst l0. rewrite (same_shape_should_sort Hshape) in Hs'. congruence. }
      rewrite forallb_forall in Hkeys.
      assert (Hsorted : sorted _get_sort_key l' = Ok l').
      { unfold sorted in Hs |- *.
        destruct (mapM _get_sort_key l) as [ks | e |] eqn:Hks; simpl in Hs;
          try discriminate.
        injection Hs as <-.
        set (sl := sort_keyed (combine ks l)) in *.
        assert (Hlen : List.length ks = List.length l)
          by (now apply mapM_length in Hks).
        assert (Hsl_keys : forall p, In p sl -> _get_sort_key (snd p) = Ok (fst p)).
        { intros p Hp. apply (Permutation_in _ (sort_keyed_perm (combine ks l))) in Hp.
          apply mapM_Forall2 in Hks. clear - Hks Hp.
          induction Hks as [| x k t kt Hx Ht IH]; simpl in Hp; [contradiction |].
          destruct Hp as [<- | Hp]; [exact Hx | now apply IH]. }
        assert (Hsl_in : forall p, In p sl -> In (snd p) l).
        { intros p Hp. apply Hsub. now apply in_map. }
        assert (Hk' : mapM _get_sort_key l' = Ok (map fst sl)).
        { apply mapM_Forall2. clearbody sl. clear - Hall Hsl_keys Hsl_in Hkeys.
          revert l' Hall. induction sl as [| p t IH]; intros l' Hall; simpl in Hall.
          - inversion Hall. constructor.
          - inversion Hall as [| x y u u' [Hn _] Hu]; subst. simpl. constructor.
            + rewrite (_get_sort_key_normalized n (snd p) y Hn).
              * apply Hsl_keys. now left.
              * apply Hkeys, Hsl_in. now left.
            + apply IH; try assumption.
              * intros q Hq. apply Hsl_keys. now right.
              * intros q Hq. apply Hsl_in. now right. }
        rewrite Hk'. simpl.
        assert (Hlen' : List.length (map fst sl) = List.length l').
        { apply mapM_length in Hk'. congruence. }
        rewrite sort_keyed_fixed.
        - now rewrite map_snd_combine.
        - apply (sorted_by_fst value value sl).
          + now rewrite map_fst_combine.
          + apply sort_keyed_sorted. }
      rewrite Hsorted. simpl. rewrite mapM_id; [reflexivity | assumption].
    + rewrite mapM_id; [reflexivity | assumption].
Qed.

End Idempotence.

(** A record whose [name] is a sequence of named records. *)
Definition named_group (names : list string) : value :=
  VDict [("name", VList (map (fun s => VDict [("name", VStr s)]) names))].

(** C10, as stated, fails: elements are sorted by the key they have
    before they are normalized; normalizing them changes the keys, and a
    second pass sorts the elements the other way round. *)
Lemma normalize_twice_differs :
  normalize_data 5 (VList [named_group ["b"; "a"]; named_group ["a"; "c"]])
  = Ok (VList [named_group ["a"; "c"]; named_group ["a"; "b"]]) /\
  normalize_data 5 (VList [named_group ["a"; "c"]; named_group ["a"; "b"]])
  = Ok (VList [named_group ["a"; "b"]; named_group ["a"; "c"]]) /\
  VList [named_group ["a"; "b"]; named_group ["a"; "c"]]
  <> VList [named_group ["a"; "c"]; named_group ["a"; "b"]].
Proof.
  split; [reflexivity | split; [reflexivity | discriminate]].
Qed.

(** C10, amended: normalization is idempotent on every tree in which the
    sort keys of sorted sequences are printed from scalars (and every
    element of a sorted sequence has a key). *)
Theorem normalize_data_idempotent {H : Host} (x : value) (fuel : nat) :
  scalar_keyed x = true ->
  has_keys x = true ->
  height x < fuel ->
  exists y, normalize_data fuel x = Ok y /\ normalize_data fuel y = Ok y.
Proof.
  intros Hsk Hk Hh.
  destruct (normalize_data_has_keys_returns fuel x Hk Hh) as [y Hy].
  exists y. split; [assumption |].
  now apply normalize_data_fixed with x.
Qed.

Lemma normalize_data_idempotent_witness :
  exists y,
    normalize_data 3 (VList [named "y" 2; named "x" 1]) = Ok y /\
    normalize_data 3 y = Ok y.
Proof.
  apply (@normalize_data_idempotent listing_host).
  - reflexivity.
  - reflexivity.
  - simpl. lia.
Defined.

(** ** Properties kept by every record *)

Section RecordInvariants.
Context {H : Host}.

(** The three loops shared by [_compare_dicts] and [_compare_sorted_lists];
    [seg] makes the path segment of a key. *)
Definition keyed_compare (seg : string -> string) (self_compare : differ)
  (left right : list (string * value)) (path : list string)
  (differences : list DiffItem) : res (list DiffItem) :=
  differences <-
    foldM (fun diffs key =>
             v <- subscript String.eqb right key ;;
             Ok (list_append diffs (mkDiffItem ADDED (path ++ [seg key]) VNone v)))
          (set_iter (set_diff (keys right) (keys left))) differences ;;
  differences <-
    foldM (fun diffs key =>
             v <- subscript String.eqb left key ;;
             Ok (list_append diffs (mkDiffItem REMOVED (path ++ [seg key]) v VNone)))
          (set_iter (set_diff (keys left) (keys right))) differences ;;
  foldM (fun diffs key =>
           l <- subscript String.eqb left key ;;
           r <- subscript String.eqb right key ;;
           self_compare l r (path ++ [seg key]) diffs)
        (set_iter (set_inter (keys left) (keys right))) differences.

Lemma _compare_dicts_keyed (cmp : differ) left right path differences :
  _compare_dicts cmp left right path differences
  = keyed_compare (fun key => key) cmp left right path differences.
Proof. reflexivity. Qed.

Lemma _compare_sorted_lists_keyed (cmp : differ) left right path differences :
  _compare_sorted_lists cmp left right path differences
  = (left_map <- key_map left ;;
     right_map <- key_map right ;;
     keyed_compare bracket cmp left_map right_map path differences).
Proof. reflexivity. Qed.

Lemma subscript_ok (V : Type) (d : list (string * V)) (k : string) (v : V) :
  subscript String.eqb d k = Ok v -> dict_get String.eqb k d = Some v.
Proof.
  unfold subscript. destruct (dict_get String.eqb k d); [congruence | discriminate].
Qed.

Lemma getitem_ok (A : Type) (l : list A) (i : nat) (x : A) :
  getitem l i = Ok x -> nth_error l i = Some x.
Proof.
  unfold getitem. destruct (nth_error l i); [congruence | discriminate].
Qed.

Section Invariant.
Variable P : DiffItem -> Prop.

Lemma Forall_push (s : list DiffItem) (d : DiffItem) :
  Forall P s -> P d -> Forall P (list_append s d).
Proof.
  intros Hs Hd. unfold list_append. apply Forall_app. split; [assumption |].
  now constructor.
Qed.

Lemma keyed_compare_invariant (seg : string -> string) (cmp : differ)
  (left right : list (string * value)) (path : list string) :
  (forall k v, dict_get String.eqb k right = Some v ->
               P (mkDiffItem ADDED (path ++ [seg k]) VNone v)) ->
  (forall k v, dict_get String.eqb k left = Some v ->
               P (mkDiffItem REMOVED (path ++ [seg k]) v VNone)) ->
  (forall k lv rv s s',
     dict_get String.eqb k left = Some lv ->
     dict_get String.eqb k right = Some rv ->
     Forall P s -> cmp lv rv (path ++ [seg k]) s = Ok s' -> Forall P s') ->
  forall s s', Forall P s ->
    keyed_compare seg cmp left right path s = Ok s' -> Forall P s'.
Proof.
  intros HA HR HC s s' Hs. unfold keyed_compare.
  match goal with
  | |- context [bind (foldM ?b ?l s)] => destruct (foldM b l s) as [s1 | e |] eqn:H1
  end; simpl; try discriminate.
  match goal with
  | |- context [bind (foldM ?b ?l s1)] => destruct (foldM b l s1) as [s2 | e |] eqn:H2
  end; simpl; try discriminate.
  intros H3.
  assert (Hs1 : Forall P s1).
  { revert H1. apply foldM_invariant; [| assumption].
    intros k u u' _ Hu Hbody.
    destruct (subscript String.eqb right k) as [v | e |] eqn:Hv; simpl in Hbody;
      try discriminate.
    injection Hbody as <-. apply Forall_push; [assumption |].
    apply HA. now apply subscript_ok. }
  assert (Hs2 : Forall P s2).
  { revert H2. apply foldM_invariant; [| assumption].
    intros k u u' _ Hu Hbody.
    destruct (subscript String.eqb left k) as [v | e |] eqn:Hv; simpl in Hbody;
      try discriminate.
    injection Hbody as <-. apply Forall_push; [assumption |].
    apply HR. now apply subscript_ok. }
  revert H3. apply foldM_invariant; [| assumption].
  intros k u u' _ Hu Hbody.
  destruct (subscript String.eqb left k) as [lv | e |] eqn:Hlv; simpl in Hbody;
    try discriminate.
  destruct (subscript String.eqb right k) as [rv | e |] eqn:Hrv; simpl in Hbody;
    try discriminate.
  apply (HC k lv rv u u'); try assumption; now apply subscript_ok.
Qed.

Lemma _compare_ordered_lists_invariant (cmp : differ) (left right : list value)
  (path : list string) :
  (forall i v, nth_error right i = Some v ->
               P (mkDiffItem ADDED (path ++ [bracket (str_of_nat i)]) VNone v)) ->
  (forall i v, nth_error left i = Some v ->
               P (mkDiffItem REMOVED (path ++ [bracket (str_of_nat i)]) v VNone)) ->
  (forall i lv rv s s',
     nth_error left i = Some lv -> nth_error right i = Some rv ->
     Forall P s -> cmp lv rv (path ++ [bracket (str_of_nat i)]) s = Ok s' ->
     Forall P s') ->
  forall s s', Forall P s ->
    _compare_ordered_lists cmp left right path s = Ok s' -> Forall P s'.
Proof.
  intros HA HR HC s s' Hs. unfold _compare_ordered_lists.
  match goal with
  | |- context [bind (foldM ?b ?l s)] => destruct (foldM b l s) as [s1 | e |] eqn:H1
  end; simpl; try discriminate.
  assert (Hs1 : Forall P s1).
  { revert H1. apply foldM_invariant; [| assumption].
    intros i u u' _ Hu Hbody.
    destruct (getitem left i) as [lv | e |] eqn:Hlv; simpl in Hbody;
      try discriminate.
    destruct (getitem right i) as [rv | e |] eqn:Hrv; simpl in Hbody;
      try discriminate.
    apply (HC i lv rv u u'); try assumption; now apply getitem_ok. }
  destruct (Nat.ltb (List.length left) (List.length right)).
  - apply foldM_invariant; [| assumption].
    intros i u u' _ Hu Hbody.
    destruct (getitem right i) as [v | e |] eqn:Hv; simpl in Hbody;
      try discriminate.
    injection Hbody as <-. apply Forall_push; [assumption |].
    apply HA. now apply getitem_ok.
  - destruct (Nat.ltb (List.length right) (List.length left)).
    + apply foldM_invariant; [| assumption].
      intros i u u' _ Hu Hbody.
      destruct (getitem left i) as [v | e |] eqn:Hv; simpl in Hbody;
        try discriminate.
      injection Hbody as <-. apply Forall_push; [assumption |].
      apply HR. now apply getitem_ok.
    + intros [= <-]. assumption.
Qed.

(** A property of records holds of everything [compare] adds when it
    holds of each record where it is made, and the condition [Q] on the
    compared pair passes on to the parts. *)
Lemma compare_invariant (Q : value -> value -> list string -> Prop) :
  (forall l r p ln rn fuel,
     Q l r p ->
     normalize_data fuel l = Ok ln -> normalize_data fuel r = Ok rn ->
     (type_of ln <> type_of rn \/ py_ne ln rn = true ->
      P (mkDiffItem MODIFIED p ln rn)) /\
     (forall seg v, child v rn -> P (mkDiffItem ADDED (p ++ [seg]) VNone v)) /\
     (forall seg v, child v ln -> P (mkDiffItem REMOVED (p ++ [seg]) v VNone)) /\
     (forall seg lv rv, child lv ln -> child rv rn -> Q lv rv (p ++ [seg]))) ->
  forall n l r p s s',
    Q l r p -> Forall P s -> compare n l r p s = Ok s' -> Forall P s'.
Proof.
  intros Hstep. induction n as [| n IH]; intros l r p s s' HQ Hs; [discriminate |].
  rewrite compare_unfold.
  destruct (normalize_data (S n) l) as [ln | e |] eqn:Hl; cbn [bind];
    try discriminate.
  destruct (normalize_data (S n) r) as [rn | e |] eqn:Hr; cbn [bind];
    try discriminate.
  destruct (Hstep l r p ln rn (S n) HQ Hl Hr) as [HM [HA [HR HC]]].
  unfold dispatch.
  destruct (pytype_eqb (type_of ln) (type_of rn)) eqn:Ht; cbn [negb].
  2:{ intros Hs'. injection Hs' as Hs'. subst s'.
      apply Forall_push; [assumption |]. apply HM. left.
      intros Heq. apply pytype_eqb_eq in Heq. congruence. }
  assert (Hscalar :
    (if py_ne ln rn
     then Ok (list_append s (mkDiffItem MODIFIED p ln rn)) else Ok s) = Ok s' ->
    Forall P s').
  { destruct (py_ne ln rn) eqn:Hne; intros Hs'; injection Hs' as Hs'; subst s';
      [| assumption].
    apply Forall_push; [assumption |]. apply HM. now right. }
  destruct ln as [| | | | | ll | dl], rn as [| | | | | lr | dr];
    try exact Hscalar; try discriminate.
  - unfold _compare_lists.
    destruct (_should_sort_list ll && _should_sort_list lr).
    + rewrite _compare_sorted_lists_keyed.
      destruct (key_map ll) as [lm | e |] eqn:Hlm; simpl; try discriminate.
      destruct (key_map lr) as [rm | e |] eqn:Hrm; simpl; try discriminate.
      apply keyed_compare_invariant; try assumption.
      * intros k v Hv. apply HA. simpl. exact (key_map_values lr rm Hrm k v Hv).
      * intros k v Hv. apply HR. simpl. exact (key_map_values ll lm Hlm k v Hv).
      * intros k lv rv u u' Hlv Hrv Hu. apply IH; [| assumption].
        apply HC; simpl.
        -- exact (key_map_values ll lm Hlm k lv Hlv).
        -- exact (key_map_values lr rm Hrm k rv Hrv).
    + apply _compare_ordered_lists_invariant; try assumption.
      * intros i v Hv. apply HA. simpl. eapply nth_error_In; eassumption.
      * intros i v Hv. apply HR. simpl. eapply nth_error_In; eassumption.
      * intros i lv rv u u' Hlv Hrv Hu. apply IH; [| assumption].
        apply HC; simpl; eapply nth_error_In; eassumption.
  - rewrite _compare_dicts_keyed.
    apply keyed_compare_invariant; try assumption.
    + intros k v Hv. apply HA. exists k. now apply dict_get_In.
    + intros k v Hv. apply HR. exists k. now apply dict_get_In.
    + intros k lv rv u u' Hlv Hrv Hu. apply IH; [| assumption].
      apply HC; exists k; now apply dict_get_In.
Qed.

End Invariant.
End RecordInvariants.

(** ** The shape of change records *)

(** [DiffItem] has [None] for a side that is absent. *)
Definition absent (v : value) : Prop := v = VNone.

(** C5, as stated, fails: a Modified record has an absent side whenever
    that side of the documents is the null scalar, and an Added record for
    a null value has both sides absent. *)
Lemma modified_record_with_absent_side :
  compare 1 VNone (VInt 1) [] [] = Ok [mkDiffItem MODIFIED [] VNone (VInt 1)] /\
  absent (old_value (mkDiffItem MODIFIED [] VNone (VInt 1))) /\
  compare 2 (VDict []) (VDict [("a", VNone)]) [] []
  = Ok [mkDiffItem ADDED ["a"] VNone VNone].
Proof. repeat split; reflexivity. Qed.

(** ** The order of the change set *)

Lemma foldM_pushes (A V : Type) (g : A -> res V) (mk : A -> V -> DiffItem)
  (body : list DiffItem -> A -> res (list DiffItem)) (ks : list A) :
  (forall s k, body s k = (v <- g k ;; Ok (list_append s (mk k v)))) ->
  forall s0 s', foldM body ks s0 = Ok s' ->
    exists items,
      s' = s0 ++ items /\
      Forall2 (fun k d => exists v, g k = Ok v /\ d = mk k v) ks items.
Proof.
  intros Hbody. induction ks as [| k t IH]; intros s0 s' Hf; simpl in Hf.
  - injection Hf as <-. exists []. split; [now rewrite app_nil_r | constructor].
  - rewrite Hbody in Hf. destruct (g k) as [v | e |] eqn:Hg; simpl in Hf;
      try discriminate.
    destruct (IH _ _ Hf) as [items [-> Hitems]].
    exists (mk k v :: items). split.
    + unfold list_append. now rewrite <- app_assoc.
    + constructor; [now exists v | assumption].
Qed.

Lemma foldM_groups (A : Type) (body : list DiffItem -> A -> res (list DiffItem))
  (ks : list A) :
  (forall k, appends (fun s => body s k)) ->
  forall s0 s', foldM body ks s0 = Ok s' ->
    exists groups,
      s' = s0 ++ List.concat groups /\
      Forall2 (fun k g => body [] k = Ok g) ks groups.
Proof.
  intros Hbody. induction ks as [| k t IH]; intros s0 s' Hf; simpl in Hf.
  - injection Hf as <-. exists []. split; [now rewrite app_nil_r | constructor].
  - rewrite (Hbody k s0) in Hf.
    destruct (body [] k) as [g | e |] eqn:Hg; simpl in Hf; try discriminate.
    destruct (IH _ _ Hf) as [groups [-> Hgroups]].
    exists (g :: groups). split.
    + simpl. now rewrite <- app_assoc.
    + constructor; assumption.
Qed.

(** The paths of a document in the order of a top-down, left-to-right
    walk, written with the comparator's segments. *)
Fixpoint traversal_from (p : list string) (v : value) : list (list string) :=
  p ::
  match v with
  | VDict d => flat_map (fun kv => traversal_from (p ++ [fst kv]) (snd kv)) d
  | VList l =>
      (fix items (l : list value) (i : nat) : list (list string) :=
         match l with
         | [] => []
         | x :: t => traversal_from (p ++ [index_segment i]) x ++ items t (S i)
         end) l 0
  | _ => []
  end.

(** [xs] occurs in [ys] in the same order. *)
Fixpoint in_order (xs ys : list (list string)) : bool :=
  match xs, ys with
  | [], _ => true
  | _ :: _, [] => false
  | x :: xs', y :: ys' =>
      if path_eqb x y then in_order xs' ys' else in_order xs ys'
  end.

Definition extends (p q : list string) : Prop := exists rest, q = p ++ rest.

Section Order.
Context {H : Host}.

(** Added records first, then Removed ones, then the records of each
    common key in one run; keys in the order the host iterates the sets. *)
Definition keyed_order (seg : string -> string) (cmp : differ)
  (left right : list (string * value)) (path : list string)
  (records : list DiffItem) : Prop :=
  exists added removed groups,
    records = added ++ removed ++ List.concat groups /\
    Forall2 (fun k d => exists v, dict_get String.eqb k right = Some v /\
                          d = mkDiffItem ADDED (path ++ [seg k]) VNone v)
            (set_iter (set_diff (keys right) (keys left))) added /\
    Forall2 (fun k d => exists v, dict_get String.eqb k left = Some v /\
                          d = mkDiffItem REMOVED (path ++ [seg k]) v VNone)
            (set_iter (set_diff (keys left) (keys right))) removed /\
    Forall2 (fun k g => exists lv rv,
                          dict_get String.eqb k left = Some lv /\
                          dict_get String.eqb k right = Some rv /\
                          cmp lv rv (path ++ [seg k]) [] = Ok g)
            (set_iter (set_inter (keys left) (keys right))) groups.

(** The records of each common position in one run, by ascending
    position, then the extra trailing elements. *)
Definition positional_order (cmp : differ) (left right : list value)
  (path : list string) (records : list DiffItem) : Prop :=
  exists groups extra,
    records = List.concat groups ++ extra /\
    Forall2 (fun i g => exists lv rv,
                          nth_error left i = Some lv /\
                          nth_error right i = Some rv /\
                          cmp lv rv (path ++ [index_segment i]) [] = Ok g)
            (seq 0 (Nat.min (List.length left) (List.length right))) groups /\
    (Forall2 (fun i d => exists v, nth_error right i = Some v /\
                           d = mkDiffItem ADDED (path ++ [index_segment i]) VNone v)
             (seq (List.length left) (List.length right - List.length left)) extra \/
     Forall2 (fun i d => exists v, nth_error left i = Some v /\
                           d = mkDiffItem REMOVED (path ++ [index_segment i]) v VNone)
             (seq (List.length right) (List.length left - List.length right)) extra).

Lemma Forall2_subscript (ks : list string) (d : list (string * value))
  (mk : string -> value -> DiffItem) (items : list DiffItem) :
  Forall2 (fun k x => exists v, subscript String.eqb d k = Ok v /\ x = mk k v)
          ks items ->
  Forall2 (fun k x => exists v, dict_get String.eqb k d = Some v /\ x = mk k v)
          ks items.
Proof.
  apply Forall2_impl. intros k x [v [Hv ->]]. exists v.
  split; [now apply subscript_ok | reflexivity].
Qed.

Lemma keyed_compare_order (seg : string -> string) (cmp : differ)
  (left right : list (string * value)) (path : list string)
  (records : list DiffItem) :
  (forall l r p, appends (cmp l r p)) ->
  keyed_compare seg cmp left right path [] = Ok records ->
  keyed_order seg cmp left right path records.
Proof.
  intros Hcmp. unfold keyed_compare.
  match goal with
  | |- context [bind (foldM ?b ?l [])] => destruct (foldM b l []) as [s1 | e |] eqn:H1
  end; cbn [bind]; try discriminate.
  match goal with
  | |- context [bind (foldM ?b ?l s1)] => destruct (foldM b l s1) as [s2 | e |] eqn:H2
  end; cbn [bind]; try discriminate.
  intros H3.
  apply (foldM_pushes _ _ (fun k => subscript String.eqb right k)
           (fun k v => mkDiffItem ADDED (path ++ [seg k]) VNone v)) in H1;
    [| reflexivity].
  destruct H1 as [added [-> Hadded]].
  apply (foldM_pushes _ _ (fun k => subscript String.eqb left k)
           (fun k v => mkDiffItem REMOVED (path ++ [seg k]) v VNone)) in H2;
    [| reflexivity].
  destruct H2 as [removed [-> Hremoved]].
  apply foldM_groups in H3.
  2:{ intros k. apply appends_bind. intros l. apply appends_bind. intros r.
      apply Hcmp. }
  destruct H3 as [groups [-> Hgroups]].
  exists added, removed, groups. simpl. split; [now rewrite app_assoc |].
  split; [now apply Forall2_subscript |].
  split; [now apply Forall2_subscript |].
  revert Hgroups. apply Forall2_impl. intros k g Hg.
  destruct (subscript String.eqb left k) as [lv | e |] eqn:Hlv; simpl in Hg;
    try discriminate.
  destruct (subscript String.eqb right k) as [rv | e |] eqn:Hrv; simpl in Hg;
    try discriminate.
  exists lv, rv. repeat split; try assumption; now apply subscript_ok.
Qed.

Lemma Forall2_getitem (idx : list nat) (l : list value)
  (mk : nat -> value -> DiffItem) (items : list DiffItem) :
  Forall2 (fun i x => exists v, getitem l i = Ok v /\ x = mk i v) idx items ->
  Forall2 (fun i x => exists v, nth_error l i = Some v /\ x = mk i v) idx items.
Proof.
  apply Forall2_impl. intros i x [v [Hv ->]]. exists v.
  split; [now apply getitem_ok | reflexivity].
Qed.

Lemma _compare_ordered_lists_order (cmp : differ) (left right : list value)
  (path : list string) (records : list DiffItem) :
  (forall l r p, appends (cmp l r p)) ->
  _compare_ordered_lists cmp left right path [] = Ok records ->
  positional_order cmp left right path records.
Proof.
  intros Hcmp. unfold _compare_ordered_lists.
  match goal with
  | |- context [bind (foldM ?b ?l [])] => destruct (foldM b l []) as [s1 | e |] eqn:H1
  end; cbn [bind]; try discriminate.
  apply foldM_groups in H1.
  2:{ intros i. apply appends_bind. intros l. apply appends_bind. intros r.
      apply Hcmp. }
  destruct H1 as [groups [-> Hgroups]]. simpl.
  assert (Hg : Forall2 (fun i g => exists lv rv,
                          nth_error left i = Some lv /\
                          nth_error right i = Some rv /\
                          cmp lv rv (path ++ [index_segment i]) [] = Ok g)
                 (seq 0 (Nat.min (List.length left) (List.length right))) groups).
  { revert Hgroups. apply Forall2_impl. intros i g Hg.
    destruct (getitem left i) as [lv | e |] eqn:Hlv; simpl in Hg; try discriminate.
    destruct (getitem right i) as [rv | e |] eqn:Hrv; simpl in Hg; try discriminate.
    exists lv, rv. repeat split; try assumption; now apply getitem_ok. }
  destruct (Nat.ltb (List.length left) (List.length right)) eqn:Hlt.
  - intros H2.
    apply (foldM_pushes _ _ (fun i => getitem right i)
             (fun i v => mkDiffItem ADDED (path ++ [index_segment i]) VNone v)) in H2;
      [| reflexivity].
    destruct H2 as [extra [-> Hextra]].
    exists groups, extra. split; [reflexivity |]. split; [assumption |].
    left. now apply Forall2_getitem.
  - destruct (Nat.ltb (List.length right) (List.length left)) eqn:Hgt.
    + intros H2.
      apply (foldM_pushes _ _ (fun i => getitem left i)
               (fun i v => mkDiffItem REMOVED (path ++ [index_segment i]) v VNone))
        in H2; [| reflexivity].
      destruct H2 as [extra [-> Hextra]].
      exists groups, extra. split; [reflexivity |]. split; [assumption |].
      right. now apply Forall2_getitem.
    + intros [= <-]. exists groups, []. split; [now rewrite app_nil_r |].
      split; [assumption |]. left.
      apply Nat.ltb_ge in Hlt, Hgt.
      replace (List.length right - List.length left) with 0 by lia. constructor.
Qed.

Lemma compare_paths_extend (root : list string) :
  forall n l r p s s',
    extends root p -> Forall (fun d => extends root (path d)) s ->
    compare n l r p s = Ok s' -> Forall (fun d => extends root (path d)) s'.
Proof.
  apply (compare_invariant (fun d => extends root (path d))
           (fun _ _ p => extends root p)).
  intros l r p ln rn fuel [rest ->] _ _. repeat split.
  - intros _. now exists rest.
  - intros seg v _. exists (rest ++ [seg]). simpl. now rewrite app_assoc.
  - intros seg v _. exists (rest ++ [seg]). simpl. now rewrite app_assoc.
  - intros seg lv rv _ _. exists (rest ++ [seg]). now rewrite app_assoc.
Qed.

End Order.

(** C6, as stated, fails: the record of a key that only the left document
    has comes before the record of a common key that precedes it in the
    document. *)
Lemma change_set_not_in_traversal_order :
  compare 2 (VDict [("a", VInt 1); ("b", VInt 2)]) (VDict [("a", VInt 2)]) [] []
  = Ok [mkDiffItem REMOVED ["b"] (VInt 2) VNone;
        mkDiffItem MODIFIED ["a"] (VInt 1) (VInt 2)] /\
  traversal_from [] (VDict [("a", VInt 1); ("b", VInt 2)]) = [[]; ["a"]; ["b"]] /\
  in_order [["b"]; ["a"]]
           (traversal_from [] (VDict [("a", VInt 1); ("b", VInt 2)])) = false.
Proof. repeat split; reflexivity. Qed.

(** C6, amended: every record lies at or below the compared path, and the
    change set of two mappings, or of two sequences compared by key, is
    ordered in three runs: the Added records of the keys only the right
    side has, the Removed records of the keys only the left side has, and
    then, key by key, the records of the comparison under each common key;
    within a run the keys follow the host's set iteration order.  Two
    sequences compared by position yield the records of each common
    position by ascending position and then those of the extra trailing
    elements. *)
Theorem change_set_order {H : Host} (n : nat) (left right : value)
  (here : list string) (records : list DiffItem) (ln rn : value) :
  normalize_data (S n) left = Ok ln ->
  normalize_data (S n) right = Ok rn ->
  compare (S n) left right here [] = Ok records ->
  Forall (fun d => extends here (path d)) records /\
  match ln, rn with
  | VDict l, VDict r => keyed_order (fun key => key) (compare n) l r here records
  | VList l, VList r =>
      if _should_sort_list l && _should_sort_list r then
        exists left_map right_map,
          key_map l = Ok left_map /\ key_map r = Ok right_map /\
          keyed_order bracket (compare n) left_map right_map here records
      else positional_order (compare n) l r here records
  | _, _ => records = [] \/ records = [mkDiffItem MODIFIED here ln rn]
  end.
Proof.
  intros Hl Hr Hc. split.
  - apply (compare_paths_extend here (S n) left right here [] records);
      [exists []; now rewrite app_nil_r | constructor | assumption].
  - rewrite compare_unfold, Hl, Hr in Hc. cbn [bind] in Hc. unfold dispatch in Hc.
    assert (Hleaf :
      (if py_ne ln rn
       then Ok (list_append [] (mkDiffItem MODIFIED here ln rn)) else Ok [])
      = Ok records ->
      records = [] \/ records = [mkDiffItem MODIFIED here ln rn]).
    { destruct (py_ne ln rn); intros Heq; injection Heq as <-; auto. }
    destruct (pytype_eqb (type_of ln) (type_of rn)) eqn:Ht; cbn [negb] in Hc.
    + destruct ln as [| | | | | ll | dl], rn as [| | | | | lr | dr];
        try discriminate; try (now apply Hleaf).
      * unfold _compare_lists in Hc.
        destruct (_should_sort_list ll && _should_sort_list lr).
        -- rewrite _compare_sorted_lists_keyed in Hc.
           destruct (key_map ll) as [lm | e |]; cbn [bind] in Hc; try discriminate.
           destruct (key_map lr) as [rm | e |]; cbn [bind] in Hc; try discriminate.
           exists lm, rm. repeat split.
           apply keyed_compare_order; [apply compare_appends_fuel | assumption].
        -- apply _compare_ordered_lists_order;
             [apply compare_appends_fuel | assumption].
      * rewrite _compare_dicts_keyed in Hc.
        apply keyed_compare_order; [apply compare_appends_fuel | assumption].
    + injection Hc as <-.
      destruct ln, rn; try discriminate; auto.
Qed.

Lemma change_set_order_witness :
  keyed_order (fun key => key) (compare 1)
    [("a", VInt 1); ("b", VInt 2)] [("a", VInt 2); ("c", VInt 3)] ["root"]
    [mkDiffItem ADDED ["root"; "c"] VNone (VInt 3);
     mkDiffItem REMOVED ["root"; "b"] (VInt 2) VNone;
     mkDiffItem MODIFIED ["root"; "a"] (VInt 1) (VInt 2)].
Proof.
  apply (proj2 (@change_set_order listing_host 1
                  (VDict [("a", VInt 1); ("b", VInt 2)])
                  (VDict [("a", VInt 2); ("c", VInt 3)]) ["root"] _
                  (VDict [("a", VInt 1); ("b", VInt 2)])
                  (VDict [("a", VInt 2); ("c", VInt 3)])
                  eq_refl eq_refl eq_refl)).
Defined.

(** ** What one call adds to the engine *)

Lemma foldM_returns (A S : Type) (body : S -> A -> res S) (l : list A) :
  (forall x, In x l -> forall s, exists s', body s x = Ok s') ->
  forall s, exists s', foldM body l s = Ok s'.
Proof.
  induction l as [| x t IH]; intros Hb s; simpl; [now exists s |].
  destruct (Hb x (or_introl eq_refl) s) as [s1 ->]. simpl.
  apply IH. intros z Hz. apply Hb. now right.
Qed.

Section Returns.
Context {H : Host}.

Lemma subscript_returns (d : list (string * value)) (k : string) :
  In k (keys d) -> exists v, subscript String.eqb d k = Ok v.
Proof.
  intros Hin. apply mem_In in Hin.
  destruct (dict_get_mem k d Hin) as [v Hv].
  exists v. unfold subscript. now rewrite Hv.
Qed.

Lemma getitem_returns (l : list value) (i : nat) :
  i < List.length l -> exists v, getitem l i = Ok v.
Proof.
  intros Hi. unfold getitem. destruct (nth_error l i) as [v |] eqn:Hv;
    [now exists v |].
  apply nth_error_None in Hv. lia.
Qed.

Lemma keyed_compare_returns (seg : string -> string) (cmp : differ)
  (left right : list (string * value)) (path : list string) :
  (forall k lv rv p s,
     dict_get String.eqb k left = Some lv ->
     dict_get String.eqb k right = Some rv ->
     exists s', cmp lv rv p s = Ok s') ->
  forall s, exists s', keyed_compare seg cmp left right path s = Ok s'.
Proof.
  intros Hcmp s. unfold keyed_compare.
  match goal with
  | |- context [bind (foldM ?b ?l s)] => destruct (foldM_returns _ _ b l) with (s := s) as [s1 ->]
  end.
  { intros k Hk u. apply set_iter_In, set_diff_In in Hk. destruct Hk as [Hk _].
    destruct (subscript_returns right k Hk) as [v ->]. simpl. now eexists. }
  cbn [bind].
  match goal with
  | |- context [bind (foldM ?b ?l s1)] => destruct (foldM_returns _ _ b l) with (s := s1) as [s2 ->]
  end.
  { intros k Hk u. apply set_iter_In, set_diff_In in Hk. destruct Hk as [Hk _].
    destruct (subscript_returns left k Hk) as [v ->]. simpl. now eexists. }
  cbn [bind]. apply foldM_returns.
  intros k Hk u. apply set_iter_In, set_inter_In in Hk. destruct Hk as [Hkl Hkr].
  destruct (subscript_returns left k Hkl) as [lv Hlv].
  destruct (subscript_returns right k Hkr) as [rv Hrv].
  rewrite Hlv, Hrv. cbn [bind].
  apply Hcmp with k; now apply subscript_ok.
Qed.

Lemma _compare_ordered_lists_returns (cmp : differ) (left right : list value)
  (path : list string) :
  (forall i lv rv p s,
     nth_error left i = Some lv -> nth_error right i = Some rv ->
     exists s', cmp lv rv p s = Ok s') ->
  forall s, exists s', _compare_ordered_lists cmp left right path s = Ok s'.
Proof.
  intros Hcmp s. unfold _compare_ordered_lists.
  match goal with
  | |- context [bind (foldM ?b ?l s)] => destruct (foldM_returns _ _ b l) with (s := s) as [s1 ->]
  end.
  { intros i Hi u. apply in_seq in Hi.
    destruct (getitem_returns left i) as [lv Hlv]; [lia |].
    destruct (getitem_returns right i) as [rv Hrv]; [lia |].
    rewrite Hlv, Hrv. cbn [bind].
    apply Hcmp with i; now apply getitem_ok. }
  cbn [bind].
  destruct (Nat.ltb (List.length left) (List.length right)).
  - apply foldM_returns. intros i Hi u. apply in_seq in Hi.
    destruct (getitem_returns right i) as [v ->]; [lia |]. simpl. now eexists.
  - destruct (Nat.ltb (List.length right) (List.length left)).
    + apply foldM_returns 
        with (body := fun diffs i =>
                        l <- getitem left i ;;
                        Ok (list_append diffs
                              (mkDiffItem REMOVED
                                 (path ++ [bracket (str_of_nat i)]) l VNone))).
      intros i Hi u. apply in_seq in Hi.
      destruct (getitem_returns left i) as [v ->]; [lia |]. simpl. now eexists.
    + now eexists.
Qed.

(** A comparison returns whenever the normalization of both sides does. *)
Lemma compare_returns (n : nat) :
  forall l r p s ln rn,
    normalize_data n l = Ok ln -> normalize_data n r = Ok rn ->
    exists s', compare n l r p s = Ok s'.
Proof.
  induction n as [| n IH]; intros l r p s ln rn Hl Hr; [discriminate |].
  rewrite compare_unfold, Hl, Hr. cbn [bind]. unfold dispatch.
  assert (Hchild : forall lv rv q u,
            child lv ln -> child rv rn -> exists u', compare n lv rv q u = Ok u').
  { intros lv rv q u Hlv Hrv.
    destruct (normalize_data_child_again n l lv Hl Hlv) as [lv' Hlv'].
    destruct (normalize_data_child_again n r rv Hr Hrv) as [rv' Hrv'].
    now apply IH with lv' rv'. }
  destruct (pytype_eqb (type_of ln) (type_of rn)); cbn [negb]; [| now eexists].
  destruct ln as [| | | | | ll | dl], rn as [| | | | | lr | dr];
    try (destruct (py_ne _ _); now eexists).
  - unfold _compare_lists.
    destruct (_should_sort_list ll) eqn:Hsl; cbn [andb].
    + destruct (_should_sort_list lr) eqn:Hsr.
      * rewrite _compare_sorted_lists_keyed.
        destruct (key_map_ok ll (normalize_data_sortable _ l Hl Hsl)) as [lm Hlm].
        destruct (key_map_ok lr (normalize_data_sortable _ r Hr Hsr)) as [rm Hrm].
        rewrite Hlm, Hrm. cbn [bind]. apply keyed_compare_returns.
        intros k lv rv q u Hlv Hrv. apply Hchild; simpl.
        -- exact (key_map_values ll lm Hlm k lv Hlv).
        -- exact (key_map_values lr rm Hrm k rv Hrv).
      * apply _compare_ordered_lists_returns.
        intros i lv rv q u Hlv Hrv.
        apply Hchild; simpl; eapply nth_error_In; eassumption.
    + apply _compare_ordered_lists_returns.
      intros i lv rv q u Hlv Hrv.
      apply Hchild; simpl; eapply nth_error_In; eassumption.
  - rewrite _compare_dicts_keyed. apply keyed_compare_returns.
    intros k lv rv q u Hlv Hrv.
    apply Hchild; exists k; now apply dict_get_In.
Qed.

End Returns.

(** C7, as stated, fails: the engine's list after a call holds the
    records of the calls before it. *)
Lemma compare_keeps_earlier_records :
  compare 1 (VInt 1) (VInt 2) [] []
  = Ok [mkDiffItem MODIFIED [] (VInt 1) (VInt 2)] /\
  compare 1 (VInt 3) (VInt 4) [] [mkDiffItem MODIFIED [] (VInt 1) (VInt 2)]
  = Ok [mkDiffItem MODIFIED [] (VInt 1) (VInt 2);
        mkDiffItem MODIFIED [] (VInt 3) (VInt 4)] /\
  compare 1 (VInt 3) (VInt 4) [] []
  = Ok [mkDiffItem MODIFIED [] (VInt 3) (VInt 4)].
Proof. repeat split; reflexivity. Qed.

(** C7, amended: a call leaves the engine's earlier records in place and
    appends to them the records that the same call yields on a fresh
    engine; these depend on the arguments only, and the call returns
    whenever the normalization of both arguments returns. *)
Theorem compare_appends {H : Host} (fuel : nat) (left right : value)
  (path : list string) (differences : list DiffItem) :
  compare fuel left right path differences =
  (records <- compare fuel left right path [] ;; Ok (differences ++ records)) /\
  (forall ln rn,
     normalize_data fuel left = Ok ln -> normalize_data fuel right = Ok rn ->
     exists records, compare fuel left right path [] = Ok records).
Proof.
  split; [apply compare_appends_fuel |].
  intros ln rn Hl Hr. now apply compare_returns with ln rn.
Qed.

Lemma compare_appends_witness :
  exists records,
    compare 3 (VDict [("a", VList [VInt 1])]) (VDict [("a", VList [])])
      [] [] = Ok records.
Proof.
  apply (proj2 (@compare_appends listing_host 3
                  (VDict [("a", VList [VInt 1])]) (VDict [("a", VList [])])
                  [] [])
           (VDict [("a", VList [VInt 1])]) (VDict [("a", VList [])])
           eq_refl eq_refl).
Defined.

(** ** The report: complementary value / valueFrom records *)

Lemma path_eqb_refl (p : list string) : path_eqb p p = true.
Proof.
  induction p as [| a t IH]; [reflexivity |].
  simpl. now rewrite String.eqb_refl.
Qed.

(** Scenario 3 of the specification. *)
Definition env_plain : value :=
  VDict [("env", VList [VDict [("name", VStr "A"); ("value", VStr "1")]])].

Definition env_secret : value :=
  VDict [("env",
          VList [VDict [("name", VStr "A");
                        ("valueFrom", VDict [("secretKeyRef", VStr "s")])]])].

(** C4 fails on the code.  When [value] was removed and [valueFrom] added
    under one record, [_combine_complementary_env_diffs] returns the
    Removed record of [value] and then the merged Modified record: its
    first loop appends the [value] record before the second loop finds the
    pair.  The opposite switch is merged into one record.  For scenario 3,
    where [env] is the top-level key, the branch of [_tree_to_diff_lines]
    that calls the merge is not taken at all ([parent_key] is empty at the
    top of a group) and the two records are printed one by one. *)
Theorem complementary_pair_not_merged :
  (forall (p : list string) (old new : value),
     _combine_complementary_env_diffs
       [mkDiffItem ADDED (p ++ ["valueFrom"]) VNone new;
        mkDiffItem REMOVED (p ++ ["value"]) old VNone]
     = [mkDiffItem REMOVED (p ++ ["value"]) old VNone;
        mkDiffItem MODIFIED p old new]) /\
  (forall (p : list string) (old new : value),
     _combine_complementary_env_diffs
       [mkDiffItem ADDED (p ++ ["value"]) VNone new;
        mkDiffItem REMOVED (p ++ ["valueFrom"]) old VNone]
     = [mkDiffItem MODIFIED p old new]) /\
  (records <- compare 5 env_plain env_secret [] [] ;; format_as_tree 5 records)
  = Ok [Header 0 "env"; Header 2 "[A]";
        EnvLine (mkDiffItem REMOVED ["env"; "[A]"; "value"] (VStr "1") VNone) 2;
        EnvLine (mkDiffItem ADDED ["env"; "[A]"; "valueFrom"] VNone
                   (VDict [("secretKeyRef", VStr "s")])) 2] /\
  (records <- compare 6 (VDict [("spec", env_plain)])
                        (VDict [("spec", env_secret)]) [] [] ;;
   format_as_tree 6 records)
  = Ok [Header 0 "spec"; Header 2 "env";
        EnvLine (mkDiffItem REMOVED ["spec"; "env"; "[A]"; "value"]
                   (VStr "1") VNone) 2;
        EnvLine (mkDiffItem MODIFIED ["spec"; "env"; "[A]"] (VStr "1")
                   (VDict [("secretKeyRef", VStr "s")])) 2].
Proof.
  split; [| split; [| split; reflexivity]].
  - intros p old new. unfold _combine_complementary_env_diffs.
    repeat progress
      (cbn [fold_left path String.eqb Ascii.eqb Bool.eqb dict_set dict_get
            existsb orb change_type old_value new_value app];
       rewrite ?last_last, ?removelast_last, ?path_eqb_refl).
    reflexivity.
  - intros p old new. unfold _combine_complementary_env_diffs.
    repeat progress
      (cbn [fold_left path String.eqb Ascii.eqb Bool.eqb dict_set dict_get
            existsb orb change_type old_value new_value app];
       rewrite ?last_last, ?removelast_last, ?path_eqb_refl).
    reflexivity.
Qed.

(** ** The report: failures while the tree is built *)

Definition dotted_left : value :=
  VDict [("a.b", VDict [("x", VDict [("k", VInt 1)]);
                        ("y", VDict [("k", VDict [("m", VInt 1)])])])].

Definition dotted_right : value :=
  VDict [("a.b", VDict [("x", VDict [("k", VInt 2)]);
                        ("y", VDict [("k", VDict [("m", VInt 2)])])])].

(** C8 fails on the code.  A top-level key with a dot is split into two
    header lines and two segments are cut from every path of its group;
    the remaining paths [k] and [k.m] then ask for a list of records and a
    [dict] under the same key, and [_insert_diff_into_tree] raises out of
    [format_as_tree], in whichever order the two records arrive. *)
Theorem format_as_tree_raises :
  compare 5 dotted_left dotted_right [] []
  = Ok [mkDiffItem MODIFIED ["a.b"; "x"; "k"] (VInt 1) (VInt 2);
        mkDiffItem MODIFIED ["a.b"; "y"; "k"; "m"] (VInt 1) (VInt 2)] /\
  format_as_tree 5
    [mkDiffItem MODIFIED ["a.b"; "x"; "k"] (VInt 1) (VInt 2);
     mkDiffItem MODIFIED ["a.b"; "y"; "k"; "m"] (VInt 1) (VInt 2)]
  = Raise TypeError /\
  format_as_tree 5
    [mkDiffItem MODIFIED ["a.b"; "y"; "k"; "m"] (VInt 1) (VInt 2);
     mkDiffItem MODIFIED ["a.b"; "x"; "k"] (VInt 1) (VInt 2)]
  = Raise AttributeError.
Proof. repeat split; reflexivity. Qed.

(** ** The examples on every host

    The change sets computed above were stated for the host that iterates
    sets in listing order; they are the same whatever the iteration order
    of sets. *)

Section EveryHost.
Context {H : Host}.

Lemma set_iter_single (k : string) : set_iter [k] = [k].
Proof. apply Permutation_length_1_inv. symmetry. apply set_iter_perm. Qed.

Lemma set_iter_pair (a b : string) :
  set_iter [a; b] = [a; b] \/ set_iter [a; b] = [b; a].
Proof. apply Permutation_length_2_inv. symmetry. apply set_iter_perm. Qed.

Ltac run_host :=
  repeat progress
    (unfold _compare_dicts, _compare_lists, _compare_sorted_lists,
            _compare_ordered_lists, key_map, subscript, getitem, set_diff,
            set_inter, keys, list_append;
     cbn; rewrite ?set_iter_nil, ?set_iter_single).

Lemma reorder_with_equal_keys_every_host :
  compare 4 (VList [named "x" 1; named "x" 2])
            (VList [named "x" 2; named "x" 1]) [] []
  = Ok [mkDiffItem MODIFIED ["[x]"; "v"] (VInt 2) (VInt 1)].
Proof.
  run_host. destruct (set_iter_pair "name" "v") as [-> | ->]; run_host; reflexivity.
Qed.

Lemma change_set_order_every_host :
  compare 2 (VDict [("a", VInt 1); ("b", VInt 2)]) (VDict [("a", VInt 2)]) [] []
  = Ok [mkDiffItem REMOVED ["b"] (VInt 2) VNone;
        mkDiffItem MODIFIED ["a"] (VInt 1) (VInt 2)].
Proof. run_host. reflexivity. Qed.

Lemma added_null_every_host :
  compare 2 (VDict []) (VDict [("a", VNone)]) [] []
  = Ok [mkDiffItem ADDED ["a"] VNone VNone].
Proof. run_host. reflexivity. Qed.

Lemma segments_clash_every_host :
  compare 3 (VDict [("[0]", VInt 1)]) (VDict [("[0]", VInt 2)]) [] []
  = Ok [mkDiffItem MODIFIED ["[0]"] (VInt 1) (VInt 2)] /\
  compare 3 (VList [VInt 1]) (VList [VInt 2]) [] []
  = Ok [mkDiffItem MODIFIED ["[0]"] (VInt 1) (VInt 2)].
Proof. split; run_host; reflexivity. Qed.

Lemma env_scenario_every_host :
  compare 5 env_plain env_secret [] []
  = Ok [mkDiffItem ADDED ["env"; "[A]"; "valueFrom"] VNone
          (VDict [("secretKeyRef", VStr "s")]);
        mkDiffItem REMOVED ["env"; "[A]"; "value"] (VStr "1") VNone].
Proof. unfold env_plain, env_secret. run_host. reflexivity. Qed.

(** The four change sets the specification lists as scenarios 1, 2, 4
    and 5. *)
Theorem spec_scenarios :
  compare 2 (VDict [("a", VInt 1)]) (VDict [("a", VInt 1); ("b", VInt 2)]) [] []
  = Ok [mkDiffItem ADDED ["b"] VNone (VInt 2)] /\
  compare 4 (VDict [("list", VList [named "x" 1; named "y" 2])])
            (VDict [("list", VList [named "y" 2; named "x" 1])]) [] []
  = Ok [] /\
  compare 3 (VDict [("x", VList [VInt 1; VInt 2; VInt 3])])
            (VDict [("x", VList [VInt 1; VInt 2])]) [] []
  = Ok [mkDiffItem REMOVED ["x"; "[2]"] (VInt 3) VNone] /\
  compare 2 (VInt 5) (VDict []) [] []
  = Ok [mkDiffItem MODIFIED [] (VInt 5) (VDict [])].
Proof.
  split; [| split; [| split]]; run_host; try reflexivity.
  destruct (set_iter_pair "x" "y") as [-> | ->]; run_host;
    destruct (set_iter_pair "name" "v") as [-> | ->]; run_host; reflexivity.
Qed.

End EveryHost.

(** ** Counts and groups *)

Definition change_type_eqb (a b : ChangeType) : bool :=
  match a, b with
  | ADDED, ADDED | REMOVED, REMOVED | MODIFIED, MODIFIED => true
  | _, _ => false
  end.

(** [sum(1 for d in differ.differences if d.change_type == t)] in [main]. *)
Definition count_of (t : ChangeType) (differences : list DiffItem) : nat :=
  List.length (filter (fun d => change_type_eqb (change_type d) t) differences).

(** The three counts [main] prints add up to the size of the change set. *)
Theorem counts_add_up (differences : list DiffItem) :
  count_of ADDED differences + count_of REMOVED differences
  + count_of MODIFIED differences
  = List.length differences.
Proof.
  unfold count_of. induction differences as [| d t IH]; [reflexivity |].
  simpl. destruct (change_type d); simpl; lia.
Qed.

(** [sorted(grouped.keys())] and [sorted(tree.keys())]: the keys in
    ascending order, each once. *)
Lemma sorted_strs_ascending (ks : list string) :
  Permutation (sorted_strs ks) ks /\
  StronglySorted (fun a b => str_lt b a = false) (sorted_strs ks).
Proof.
  unfold sorted_strs. split.
  - rewrite sort_keyed_perm, map_map. simpl. now rewrite map_id.
  - pose proof (sort_keyed_sorted (map (fun k => (k, k)) ks)) as Hs.
    assert (Hfst : forall p, In p (sort_keyed (map (fun k => (k, k)) ks)) ->
                             snd p = fst p).
    { intros p Hp. apply (Permutation_in _ (sort_keyed_perm _)) in Hp.
      apply in_map_iff in Hp. destruct Hp as [k [<- _]]. reflexivity. }
    induction Hs as [| p t Ht IH Hp]; simpl; constructor.
    + apply IH. intros q Hq. apply Hfst. now right.
    + rewrite (Hfst p (or_introl eq_refl)).
      apply Forall_forall. intros b Hb. apply in_map_iff in Hb.
      destruct Hb as [q [<- Hq]]. rewrite (Hfst q (or_intror Hq)).
      rewrite Forall_forall in Hp. exact (Hp q Hq).
Qed.

(** Normalization returns exactly on the trees in which no sorted
    sequence holds an empty mapping. *)
Theorem normalize_data_returns_exactly {H : Host} (fuel : nat) (v : value) :
  height v < fuel ->
  ((exists w, normalize_data fuel v = Ok w) <-> has_keys v = true).
Proof. apply normalize_data_returns_iff. Qed.

Lemma normalize_data_returns_exactly_witness :
  height (VList [named "b" 2; named "a" 1]) < 5 /\
  ((exists w, normalize_data 5 (VList [named "b" 2; named "a" 1]) = Ok w) <->
   has_keys (VList [named "b" 2; named "a" 1]) = true).
Proof.
  split; [simpl; lia |].
  apply (@normalize_data_returns_exactly listing_host 5).
  simpl. lia.
Defined.

(** ** When a comparison returns *)

Lemma mapM_raise (A B : Type) (f : A -> res B) (l : list A) (e : exn) :
  mapM f l = Raise e -> exists x, In x l /\ f x = Raise e.
Proof.
  induction l as [| x t IH]; simpl; [discriminate |].
  destruct (f x) eqn:Hx; simpl.
  - destruct (mapM f t) eqn:Ht; simpl; try discriminate.
    intros He. injection He as ->. destruct (IH eq_refl) as [y [Hy Hfy]].
    exists y. split; [now right | exact Hfy].
  - intros He. injection He as ->. exists x. split; [now left | exact Hx].
  - discriminate.
Qed.

Section ReturnsOrStops.
Context {H : Host}.

Lemma _get_sort_key_stops (item : value) (e : exn) :
  _get_sort_key item = Raise e -> e = StopIteration.
Proof.
  intros He. pose proof (@_get_sort_key_raise _ _ _ He) as ->.
  simpl in He. now injection He.
Qed.

Lemma normalize_data_stops (n : nat) :
  forall v e, normalize_data n v = Raise e -> e = StopIteration.
Proof.
  induction n as [| n IH]; intros v e; simpl; [discriminate |].
  destruct v; try discriminate.
  - destruct (_should_sort_list items).
    + unfold sorted. destruct (mapM _get_sort_key items) as [ks | e' |] eqn:Hk; simpl.
      * destruct (mapM (normalize_data n) _) eqn:Hm; simpl; try discriminate.
        intros He. injection He as ->.
        destruct (mapM_raise _ _ _ _ _ Hm) as [x [_ Hx]]. exact (IH _ _ Hx).
      * intros He. injection He as ->.
        destruct (mapM_raise _ _ _ _ _ Hk) as [x [_ Hx]].
        exact (_get_sort_key_stops _ _ Hx).
      * discriminate.
    + destruct (mapM (normalize_data n) items) eqn:Hm; simpl; try discriminate.
      intros He. injection He as ->.
      destruct (mapM_raise _ _ _ _ _ Hm) as [x [_ Hx]]. exact (IH _ _ Hx).
  - destruct (mapM _ items) eqn:Hm; simpl; try discriminate.
    intros He. injection He as ->.
    destruct (mapM_raise _ _ _ _ _ Hm) as [x [_ Hx]].
    destruct (normalize_data n (snd x)) eqn:Hn; simpl in Hx; try discriminate.
    injection Hx as ->. exact (IH _ _ Hn).
Qed.

Lemma normalize_data_result (n : nat) (v : value) :
  height v < n ->
  if has_keys v then exists w, normalize_data n v = Ok w
  else normalize_data n v = Raise StopIteration.
Proof.
  intros Hh. destruct (has_keys v) eqn:Hk.
  - now apply normalize_data_has_keys_returns.
  - destruct (normalize_data n v) as [w | e |] eqn:Hn.
    + apply normalize_data_returns_has_keys in Hn. congruence.
    + now rewrite (normalize_data_stops _ _ _ Hn).
    + now apply normalize_data_fuel in Hn.
Qed.

(** [compare] returns exactly when neither document holds an empty mapping
    in a sequence that is sorted; otherwise it raises [StopIteration], and
    nothing else. *)
Theorem compare_returns_or_stops (fuel : nat) (left right : value)
  (path : list string) (differences : list DiffItem) :
  height left < fuel -> height right < fuel ->
  if has_keys left && has_keys right
  then exists records,
         compare fuel left right path differences = Ok (differences ++ records)
  else compare fuel left right path differences = Raise StopIteration.
Proof.
  intros Hl Hr.
  pose proof (normalize_data_result fuel left Hl) as Nl.
  pose proof (normalize_data_result fuel right Hr) as Nr.
  destruct fuel as [| n]; [lia |].
  destruct (has_keys left); cbn [andb].
  - destruct Nl as [ln Hln]. destruct (has_keys right).
    + destruct Nr as [rn Hrn].
      destruct (compare_returns (S n) left right path [] ln rn Hln Hrn) as [s' Hs].
      exists s'. pose proof (compare_appends_fuel (S n) left right path) as Ha.
      unfold appends in Ha. rewrite Ha, Hs. reflexivity.
    + rewrite compare_unfold, Hln, Nr. reflexivity.
  - rewrite compare_unfold, Nl. reflexivity.
Qed.

End ReturnsOrStops.

Lemma compare_returns_or_stops_witness :
  compare 3 (VList [named "a" 1; VDict []]) (VInt 0) ["x"] [] = Raise StopIteration.
Proof.
  apply (@compare_returns_or_stops listing_host 3
           (VList [named "a" 1; VDict []]) (VInt 0) ["x"] []); simpl; lia.
Defined.

(** ** Dictionaries: what a lookup finds after a store *)

Section DictFacts.
Variable V : Type.

Lemma dict_get_set_same (k : string) (v : V) (d : list (string * V)) :
  dict_get String.eqb k (dict_set String.eqb k v d) = Some v.
Proof.
  induction d as [| [k' v'] t IH]; simpl.
  - now rewrite String.eqb_refl.
  - destruct (String.eqb k k') eqn:E; simpl; rewrite E; [reflexivity | exact IH].
Qed.

Lemma dict_get_set_other (k k' : string) (v : V) (d : list (string * V)) :
  k <> k' ->
  dict_get String.eqb k (dict_set String.eqb k' v d) = dict_get String.eqb k d.
Proof.
  intros Hne. induction d as [| [k0 v0] t IH]; simpl.
  - apply String.eqb_neq in Hne. now rewrite Hne.
  - destruct (String.eqb k' k0) eqn:E; simpl.
    + apply String.eqb_eq in E. subst k0.
      apply String.eqb_neq in Hne. now rewrite Hne.
    + now rewrite IH.
Qed.

Lemma dict_get_none (k : string) (d : list (string * V)) :
  dict_get String.eqb k d = None <-> ~ In k (keys d).
Proof.
  induction d as [| [k' v'] t IH]; simpl; [tauto |].
  destruct (String.eqb k k') eqn:E.
  - apply String.eqb_eq in E. split; [discriminate | intros Hn; exfalso; auto].
  - apply String.eqb_neq in E. rewrite IH. split.
    + intros Hn [Heq | Hin]; [now apply E | now apply Hn].
    + intros Hn Hin. apply Hn. now right.
Qed.

Lemma keys_dict_set (k : string) (v : V) (d : list (string * V)) :
  keys (dict_set String.eqb k v d)
  = if dict_has String.eqb k d then keys d else keys d ++ [k].
Proof.
  unfold dict_has. induction d as [| [k' v'] t IH]; simpl; [reflexivity |].
  destruct (String.eqb k k') eqn:E; simpl; [reflexivity |].
  rewrite IH. now destruct (dict_get String.eqb k t).
Qed.

Lemma dict_set_NoDup (k : string) (v : V) (d : list (string * V)) :
  NoDup (keys d) -> NoDup (keys (dict_set String.eqb k v d)).
Proof.
  intros Hnd. rewrite keys_dict_set. unfold dict_has.
  destruct (dict_get String.eqb k d) eqn:E; [exact Hnd |].
  apply dict_get_none in E.
  apply (Permutation_NoDup (l := k :: keys d)).
  - apply Permutation_cons_append.
  - now constructor.
Qed.

End DictFacts.

(** ** Grouping the records *)

Definition in_group (k : string) (d : DiffItem) : bool :=
  String.eqb (_find_group_key (path d)) k.

Definition add_to_group (grouped : list (string * list DiffItem)) (diff : DiffItem)
  : list (string * list DiffItem) :=
  let group_key := _find_group_key (path diff) in
  let grouped :=
    if dict_has String.eqb group_key grouped then grouped
    else dict_set String.eqb group_key [] grouped in
  match dict_get String.eqb group_key grouped with
  | Some l => dict_set String.eqb group_key (l ++ [diff]) grouped
  | None => grouped
  end.

Lemma add_to_group_get (grouped : list (string * list DiffItem)) (diff : DiffItem)
  (k : string) :
  dict_get String.eqb k (add_to_group grouped diff)
  = if in_group k diff
    then Some (match dict_get String.eqb k grouped with
               | Some l => l ++ [diff]
               | None => [diff]
               end)
    else dict_get String.eqb k grouped.
Proof.
  unfold add_to_group, in_group, dict_has.
  set (g := _find_group_key (path diff)).
  destruct (String.eqb g k) eqn:E.
  - apply String.eqb_eq in E. subst k.
    destruct (dict_get String.eqb g grouped) eqn:Hg.
    + rewrite Hg. apply dict_get_set_same.
    + rewrite dict_get_set_same. apply dict_get_set_same.
  - apply String.eqb_neq in E.
    assert (Hne : k <> g) by congruence.
    destruct (dict_get String.eqb g grouped) eqn:Hg.
    + rewrite Hg. now apply dict_get_set_other.
    + rewrite dict_get_set_same.
      rewrite dict_get_set_other by exact Hne.
      now apply dict_get_set_other.
Qed.

Lemma add_to_group_NoDup (grouped : list (string * list DiffItem)) (diff : DiffItem) :
  NoDup (keys grouped) -> NoDup (keys (add_to_group grouped diff)).
Proof.
  intros Hnd. unfold add_to_group, dict_has.
  destruct (dict_get String.eqb _ grouped) eqn:Hg.
  - rewrite Hg. now apply dict_set_NoDup.
  - rewrite dict_get_set_same. now apply dict_set_NoDup, dict_set_NoDup.
Qed.

Lemma group_fold (differences : list DiffItem) :
  forall grouped k,
    dict_get String.eqb k (fold_left add_to_group differences grouped)
    = match dict_get String.eqb k grouped, filter (in_group k) differences with
      | None, [] => None
      | None, l => Some l
      | Some l0, l => Some (l0 ++ l)
      end.
Proof.
  induction differences as [| d t IH]; intros grouped k; simpl.
  - destruct (dict_get String.eqb k grouped); [now rewrite app_nil_r | reflexivity].
  - rewrite IH, add_to_group_get.
    destruct (in_group k d).
    + destruct (dict_get String.eqb k grouped); [now rewrite <- app_assoc | reflexivity].
    + reflexivity.
Qed.

(** A group holds the records whose path starts with the group's key, in
    the order of the change set; no group is empty and no key occurs
    twice. *)
Theorem group_differences_by_path_lookup (differences : list DiffItem) :
  NoDup (keys (_group_differences_by_path differences)) /\
  forall k,
    dict_get String.eqb k (_group_differences_by_path differences)
    = match filter (in_group k) differences with
      | [] => None
      | d :: l => Some (d :: l)
      end.
Proof.
  change (_group_differences_by_path differences)
    with (fold_left add_to_group differences []).
  split.
  - assert (Hnil : NoDup (keys (@nil (string * list DiffItem)))) by constructor.
    revert Hnil. generalize (@nil (string * list DiffItem)).
    induction differences as [| d t IH]; intros g Hg; simpl; [exact Hg |].
    apply IH. now apply add_to_group_NoDup.
  - intros k. rewrite group_fold. simpl. now destruct (filter _ _).
Qed.

(** ** Elements of a sorted sequence that share a key *)

Lemma foldM_app (A S : Type) (body : S -> A -> res S) (l1 l2 : list A) (s : S) :
  foldM body (l1 ++ l2) s = (s1 <- foldM body l1 s ;; foldM body l2 s1).
Proof.
  revert s. induction l1 as [| x t IH]; intros s; simpl; [reflexivity |].
  destruct (body s x); simpl; [apply IH | reflexivity | reflexivity].
Qed.

Section DictSet.
Variable V : Type.

Lemma dict_set_twice (k : string) (a b : V) (m : list (string * V)) :
  dict_set String.eqb k a (dict_set String.eqb k b m) = dict_set String.eqb k a m.
Proof.
  induction m as [| [k' v'] t IH]; simpl.
  - now rewrite String.eqb_refl.
  - destruct (String.eqb k k') eqn:E; simpl; rewrite E; [reflexivity | now rewrite IH].
Qed.

Lemma dict_set_swap (k k' : string) (a b : V) (m : list (string * V)) :
  k <> k' -> In k (keys m) ->
  dict_set String.eqb k' b (dict_set String.eqb k a m)
  = dict_set String.eqb k a (dict_set String.eqb k' b m).
Proof.
  intros Hne. induction m as [| [k0 v0] t IH]; simpl; [tauto |].
  intros [-> | Hin].
  - rewrite String.eqb_refl.
    assert (E : String.eqb k' k = false) by (apply String.eqb_neq; congruence).
    simpl. rewrite E. simpl. now rewrite String.eqb_refl.
  - destruct (String.eqb k k0) eqn:E1; destruct (String.eqb k' k0) eqn:E2; simpl;
      rewrite ?E1, ?E2; try reflexivity.
    + apply String.eqb_eq in E1, E2. congruence.
    + now rewrite IH.
Qed.

Lemma dict_set_In_keys (k k' : string) (a : V) (m : list (string * V)) :
  In k (keys m) -> In k (keys (dict_set String.eqb k' a m)).
Proof.
  rewrite keys_dict_set. destruct (dict_has _ _ _); [auto |].
  intros Hin. apply in_or_app. now left.
Qed.

Lemma dict_set_key_In (k : string) (a : V) (m : list (string * V)) :
  In k (keys (dict_set String.eqb k a m)).
Proof.
  rewrite keys_dict_set. unfold dict_has.
  destruct (dict_get String.eqb k m) eqn:E.
  - destruct (in_dec string_dec k (keys m)) as [Hin | Hn]; [exact Hin |].
    apply dict_get_none in Hn. congruence.
  - apply in_or_app. right. now left.
Qed.

End DictSet.

Section Shadowed.
Context {H : Host}.

Definition key_map_step (m : list (string * value)) (item : value)
  : res (list (string * value)) :=
  k <- _get_sort_key item ;; Ok (dict_set String.eqb k item m).

Lemma key_map_overwritten (k : string) (l : list value) :
  (exists x, In x l /\ _get_sort_key x = Ok k) ->
  forall (m : list (string * value)) (v : value),
    In k (keys m) ->
    foldM key_map_step l (dict_set String.eqb k v m) = foldM key_map_step l m.
Proof.
  induction l as [| x t IH]; intros [y [Hy Hk]] m v Hin; [destruct Hy |].
  simpl. unfold key_map_step at 1 3.
  destruct (_get_sort_key x) as [kx | e |] eqn:Hx; simpl; try reflexivity.
  destruct (string_dec kx k) as [-> | Hne].
  - now rewrite dict_set_twice.
  - rewrite dict_set_swap by (congruence || assumption).
    apply IH.
    + destruct Hy as [-> | Hy]; [congruence |]. now exists y.
    + now apply dict_set_In_keys.
Qed.

Lemma key_map_shadowed (l1 l2 : list value) (e e' : value) (k : string) :
  _get_sort_key e = Ok k -> _get_sort_key e' = Ok k ->
  (exists x, In x l2 /\ _get_sort_key x = Ok k) ->
  key_map (l1 ++ e :: l2) = key_map (l1 ++ e' :: l2).
Proof.
  intros He He' Hx. unfold key_map.
  change (fun m item => k0 <- _get_sort_key item ;; Ok (dict_set String.eqb k0 item m))
    with key_map_step.
  rewrite !foldM_app.
  destruct (foldM key_map_step l1 []) as [m1 | |]; simpl; try reflexivity.
  unfold key_map_step at 1 3. rewrite He, He'. simpl.
  rewrite <- (dict_set_twice _ k e' e m1). symmetry.
  apply key_map_overwritten; [exact Hx | apply dict_set_key_In].
Qed.

(** In a sequence compared by key, an element that is followed by another
    with the same key is never looked at: replacing it by any element of
    that key leaves the records of [_compare_sorted_lists] unchanged, on
    either side. *)
Theorem shadowed_element_is_ignored (self_compare : differ)
  (l1 l2 other : list value) (e e' : value) (k : string)
  (path : list string) (differences : list DiffItem) :
  _get_sort_key e = Ok k -> _get_sort_key e' = Ok k ->
  (exists x, In x l2 /\ _get_sort_key x = Ok k) ->
  _compare_sorted_lists self_compare (l1 ++ e :: l2) other path differences
  = _compare_sorted_lists self_compare (l1 ++ e' :: l2) other path differences /\
  _compare_sorted_lists self_compare other (l1 ++ e :: l2) path differences
  = _compare_sorted_lists self_compare other (l1 ++ e' :: l2) path differences.
Proof.
  intros He He' Hx. unfold _compare_sorted_lists.
  now rewrite (key_map_shadowed l1 l2 e e' k He He' Hx).
Qed.

End Shadowed.

Lemma shadowed_element_is_ignored_witness :
  _compare_sorted_lists (compare 2) [named "x" 1; named "x" 2] [named "x" 2] [] []
  = _compare_sorted_lists (compare 2) [named "x" 7; named "x" 2] [named "x" 2] [] [].
Proof.
  apply (@shadowed_element_is_ignored listing_host (compare 2)
           [] [named "x" 2] [named "x" 2] (named "x" 1) (named "x" 7) "x" [] []).
  - reflexivity.
  - reflexivity.
  - exists (named "x" 2). split; [now left | reflexivity].
Defined.

(** ** Comparing documents that are normalized beforehand *)

Section Prenormalized.
Context {H : Host}.

(** Normalizing the two documents before the call does not change the
    records, when every sort key is printed from a scalar. *)
Theorem compare_normalized_first (fuel : nat) (left right ln rn : value)
  (path : list string) (differences : list DiffItem) :
  scalar_keyed left = true -> scalar_keyed right = true ->
  normalize_data fuel left = Ok ln -> normalize_data fuel right = Ok rn ->
  compare fuel ln rn path differences = compare fuel left right path differences.
Proof.
  intros Sl Sr Hl Hr. destruct fuel as [| n]; [reflexivity |].
  rewrite !compare_unfold.
  rewrite (normalize_data_fixed _ _ _ Hl Sl), (normalize_data_fixed _ _ _ Hr Sr).
  now rewrite Hl, Hr.
Qed.

End Prenormalized.

Lemma compare_normalized_first_witness :
  compare 3 (VList [named "a" 1; named "b" 2]) (VList [named "b" 3]) [] []
  = compare 3 (VList [named "b" 2; named "a" 1]) (VList [named "b" 3]) [] [].
Proof.
  apply (@compare_normalized_first listing_host 3
           (VList [named "b" 2; named "a" 1]) (VList [named "b" 3])
           (VList [named "a" 1; named "b" 2]) (VList [named "b" 3]) [] []);
    reflexivity.
Defined.

(** ** The report: what is printed for an env variable *)

Lemma fold_left_invariant (A St : Type) (I : St -> Prop) (f : St -> A -> St)
  (l : list A) :
  (forall s x, In x l -> I s -> I (f s x)) ->
  forall s, I s -> I (fold_left f l s).
Proof.
  induction l as [| x t IH]; intros Hf s Hs; simpl; [exact Hs |].
  apply IH.
  - intros s' y Hy. apply Hf. now right.
  - apply Hf; [now left | exact Hs].
Qed.

Lemma fold_left_measure (A St : Type) (mu : St -> nat) (f : St -> A -> St)
  (l : list A) :
  (forall s x, mu (f s x) <= S (mu s)) ->
  forall s, mu (fold_left f l s) <= mu s + List.length l.
Proof.
  intros Hf. induction l as [| x t IH]; intros s; simpl; [lia |].
  specialize (IH (f s x)). specialize (Hf s x). lia.
Qed.

Lemma path_eqb_eq (p q : list string) : path_eqb p q = true <-> p = q.
Proof.
  revert q. induction p as [| a p IH]; intros [| b q]; simpl;
    try (split; [discriminate | discriminate]); [tauto |].
  rewrite andb_true_iff, String.eqb_eq, IH. split.
  - intros [-> ->]. reflexivity.
  - intros E. injection E as -> ->. tauto.
Qed.

Section PathDict.
Variable V : Type.

Lemma path_dict_set_In (k p : list string) (v x : V) (d : list (list string * V)) :
  In (p, x) (dict_set path_eqb k v d) -> (p = k /\ x = v) \/ In (p, x) d.
Proof.
  induction d as [| [k' v'] t IH]; simpl.
  - intros [E | []]. injection E as <- <-. now left.
  - destruct (path_eqb k k') eqn:E; simpl.
    + apply path_eqb_eq in E. subst k'.
      intros [E' | Hin]; [injection E' as <- <-; now left | right; now right].
    + intros [E' | Hin]; [right; now left |].
      destruct (IH Hin) as [Hl | Hr]; [now left | right; now right].
Qed.

Lemma path_dict_set_length (k : list string) (v : V) (d : list (list string * V)) :
  List.length (dict_set path_eqb k v d) <= S (List.length d).
Proof.
  induction d as [| [k' v'] t IH]; simpl; [lia |].
  destruct (path_eqb k k'); simpl; lia.
Qed.

Lemma path_dict_get_In (k : list string) (v : V) (d : list (list string * V)) :
  dict_get path_eqb k d = Some v -> In (k, v) d.
Proof.
  induction d as [| [k' v'] t IH]; simpl; [discriminate |].
  destruct (path_eqb k k') eqn:E.
  - apply path_eqb_eq in E. subst k'. intros E'. injection E' as ->. now left.
  - intros Hg. right. now apply IH.
Qed.

End PathDict.

(** The record that stands for two records of one variable, one about
    [value] and one about [valueFrom]. *)
Definition merged_from (env_diffs : list DiffItem) (d : DiffItem) : Prop :=
  exists a b,
    In a env_diffs /\ In b env_diffs /\
    last (path a) EmptyString = "value" /\
    last (path b) EmptyString = "valueFrom" /\
    removelast (path a) = removelast (path b) /\
    ((change_type a = ADDED /\ change_type b = REMOVED /\
      d = mkDiffItem MODIFIED (removelast (path a)) (old_value b) (new_value a)) \/
     (change_type b = ADDED /\ change_type a = REMOVED /\
      d = mkDiffItem MODIFIED (removelast (path a)) (old_value a) (new_value b))).

Definition printed_from (env_diffs : list DiffItem) (d : DiffItem) : Prop :=
  (In d env_diffs /\
   (last (path d) EmptyString = "value" \/ last (path d) EmptyString = "valueFrom"))
  \/ merged_from env_diffs d.

(** The entries of the two dictionaries built by the first loop. *)
Definition filed (env_diffs : list DiffItem) (field : string)
  (m : list (list string * DiffItem)) : Prop :=
  forall p x, In (p, x) m ->
    In x env_diffs /\ last (path x) EmptyString = field /\ p = removelast (path x).

Definition env_dict : Type := list (list string * DiffItem).

(** The two loops that pair the entries of one dictionary with those of
    the other. *)
Definition pair_step (other : env_dict)
  : list DiffItem * list (list string) -> list string * DiffItem ->
    list DiffItem * list (list string) :=
  fun '(combined, processed) '(parent_path, this) =>
  if existsb (path_eqb parent_path) processed then (combined, processed)
  else
    match dict_get path_eqb parent_path other with
    | Some that =>
        match change_type this, change_type that with
        | ADDED, REMOVED =>
            (combined ++
               [mkDiffItem MODIFIED (removelast (path this))
                  (old_value that) (new_value this)],
             parent_path :: processed)
        | _, _ => (combined ++ [this], processed)
        end
    | None => (combined ++ [this], processed)
    end.

Lemma pair_step_length (other : env_dict) st entry :
  List.length (fst (pair_step other st entry)) <= S (List.length (fst st)).
Proof.
  destruct st as [c p], entry as [pp this]. unfold pair_step.
  destruct (existsb _ _); simpl; [lia |].
  destruct (dict_get path_eqb pp other) as [that |];
    [destruct (change_type this), (change_type that) |];
    simpl; rewrite ?length_app; simpl; lia.
Qed.

Lemma pair_step_prints (env_diffs : list DiffItem) (field field' : string)
  (this_dict other : env_dict) st entry :
  (field = "value" /\ field' = "valueFrom") \/
  (field = "valueFrom" /\ field' = "value") ->
  filed env_diffs field this_dict -> filed env_diffs field' other ->
  In entry this_dict ->
  Forall (printed_from env_diffs) (fst st) ->
  Forall (printed_from env_diffs) (fst (pair_step other st entry)).
Proof.
  intros Hf Hthis Hother Hin Hst.
  destruct st as [c p], entry as [pp this]. unfold pair_step.
  destruct (Hthis _ _ Hin) as [Tin [Tlast Tp]].
  assert (Hkeep : Forall (printed_from env_diffs) (c ++ [this])).
  { apply Forall_app. split; [exact Hst |]. constructor; [| constructor].
    left. split; [exact Tin |]. destruct Hf as [[-> _] | [-> _]]; auto. }
  destruct (existsb _ _); simpl; [exact Hst |].
  destruct (dict_get path_eqb pp other) as [that |] eqn:Hg; [| exact Hkeep].
  apply path_dict_get_In in Hg. destruct (Hother _ _ Hg) as [Oin [Olast Op]].
  destruct (change_type this) eqn:Ct; try exact Hkeep.
  destruct (change_type that) eqn:Co; try exact Hkeep.
  simpl. apply Forall_app. split; [exact Hst |]. constructor; [| constructor].
  right. destruct Hf as [[-> ->] | [-> ->]].
  - exists this, that. repeat split; try assumption; [congruence |].
    left. auto.
  - exists that, this. repeat split; try assumption; [congruence |].
    right. repeat split; try assumption. now rewrite <- Op, Tp.
Qed.

(** Of the records collected below one env variable, only those whose path
    ends in [value] or [valueFrom] are printed, as they are or merged two
    into one; every other record is left out.  No record is added. *)
Theorem combine_complementary_env_diffs_prints (env_diffs : list DiffItem) :
  Forall (printed_from env_diffs) (_combine_complementary_env_diffs env_diffs) /\
  List.length (_combine_complementary_env_diffs env_diffs) <= List.length env_diffs.
Proof.
  unfold _combine_complementary_env_diffs.
  destruct env_diffs as [| d0 t0] eqn:El; [split; [constructor | simpl; lia] |].
  rewrite <- El. clear El d0 t0.
  match goal with |- context [fold_left ?f env_diffs ([], [])] =>
    set (file := f) end.
  assert (I1 : filed env_diffs "value" (fst (fold_left file env_diffs ([], []))) /\
               filed env_diffs "valueFrom" (snd (fold_left file env_diffs ([], [])))).
  { apply (fold_left_invariant _ _
             (fun s => filed env_diffs "value" (fst s)
                       /\ filed env_diffs "valueFrom" (snd s))).
    - intros [a b] x Hx [Ha Hb]. unfold file. simpl.
      destruct (String.eqb (last (path x) "") "value") eqn:Ev; simpl.
      + apply String.eqb_eq in Ev. split; [| exact Hb].
        intros p y Hy. apply path_dict_set_In in Hy.
        destruct Hy as [[-> ->] | Hy]; [auto | now apply Ha].
      + destruct (String.eqb (last (path x) "") "valueFrom") eqn:Ef; simpl.
        * apply String.eqb_eq in Ef. split; [exact Ha |].
          intros p y Hy. apply path_dict_set_In in Hy.
          destruct Hy as [[-> ->] | Hy]; [auto | now apply Hb].
        * now split.
    - split; intros p x []. }
  assert (L1 : List.length (fst (fold_left file env_diffs ([], [])))
               + List.length (snd (fold_left file env_diffs ([], [])))
               <= List.length env_diffs).
  { apply (fold_left_measure _ _
             (fun s : env_dict * env_dict =>
                List.length (fst s) + List.length (snd s)) file env_diffs).
    intros [a b] x. unfold file. simpl.
    destruct (String.eqb _ "value"); simpl;
      [pose proof (path_dict_set_length _ (removelast (path x)) x a); lia |].
    destruct (String.eqb _ "valueFrom"); simpl;
      [pose proof (path_dict_set_length _ (removelast (path x)) x b); lia | lia]. }
  destruct (fold_left file env_diffs ([], [])) as [vd vfd]. simpl in I1, L1.
  destruct I1 as [Ivd Ivfd]. cbv iota beta.
  change (fold_left _ vd ([], [])) with (fold_left (pair_step vfd) vd ([], [])).
  assert (I2 : Forall (printed_from env_diffs)
                 (fst (fold_left (pair_step vfd) vd ([], [])))).
  { apply (fold_left_invariant _ _
             (fun s => Forall (printed_from env_diffs) (fst s))); [| constructor].
    intros s x Hx Hs.
    apply (pair_step_prints env_diffs "value" "valueFrom" vd vfd); auto. }
  pose proof (fold_left_measure _ _ (fun s => List.length (fst s))
                (pair_step vfd) vd (pair_step_length vfd) ([], [])) as L2.
  simpl in L2.
  destruct (fold_left (pair_step vfd) vd ([], [])) as [c2 p2]. simpl in I2, L2.
  change (fold_left _ vfd (c2, p2)) with (fold_left (pair_step vd) vfd (c2, p2)).
  assert (I3 : Forall (printed_from env_diffs)
                 (fst (fold_left (pair_step vd) vfd (c2, p2)))).
  { apply (fold_left_invariant _ _
             (fun s => Forall (printed_from env_diffs) (fst s))); [| exact I2].
    intros s x Hx Hs.
    apply (pair_step_prints env_diffs "valueFrom" "value" vfd vd); auto. }
  pose proof (fold_left_measure _ _ (fun s => List.length (fst s))
                (pair_step vd) vfd (pair_step_length vd) (c2, p2)) as L3.
  simpl in L3.
  destruct (fold_left (pair_step vd) vfd (c2, p2)) as [c3 p3]. simpl in I3, L3.
  split; [exact I3 | lia].
Qed.

(** ** Documents whose mappings have each key once *)

Fixpoint no_repeat (l : list string) : bool :=
  match l with
  | [] => true
  | x :: t => negb (mem x t) && no_repeat t
  end.

(** Every mapping of the tree has each of its keys once, as every Python
    [dict] has. *)
Fixpoint unique_keys (v : value) : bool :=
  match v with
  | VList l => forallb unique_keys l
  | VDict d => no_repeat (keys d) && forallb (fun kv => unique_keys (snd kv)) d
  | _ => true
  end.

Lemma no_repeat_NoDup (l : list string) : no_repeat l = true <-> NoDup l.
Proof.
  induction l as [| x t IH]; simpl.
  - split; [constructor | reflexivity].
  - rewrite andb_true_iff, negb_true_iff, IH, mem_false. split.
    + intros [Hx Ht]. now constructor.
    + intros Hn. inversion Hn. now split.
Qed.

Lemma unique_keys_child (c v : value) :
  unique_keys v = true -> child c v -> unique_keys c = true.
Proof.
  destruct v; simpl; try tauto.
  - intros Hu Hc. rewrite forallb_forall in Hu. now apply Hu.
  - rewrite andb_true_iff. intros [_ Hu] [k Hc]. rewrite forallb_forall in Hu.
    exact (Hu _ Hc).
Qed.

Lemma unique_keys_dict (d : list (string * value)) :
  unique_keys (VDict d) = true -> NoDup (keys d).
Proof. simpl. rewrite andb_true_iff. intros [Hn _]. now apply no_repeat_NoDup. Qed.

Section UniqueKeys.
Context {H : Host}.

Lemma normalize_data_unique_keys (n : nat) (v w : value) :
  normalize_data n v = Ok w -> unique_keys v = true -> unique_keys w = true.
Proof.
  revert n v w.
  apply (normalize_data_ok_ind
           (fun _ v w => unique_keys v = true -> unique_keys w = true)).
  - intros n v _ Hu. exact Hu.
  - intros n d d' Hall. simpl. rewrite !andb_true_iff. intros [Hk Hc].
    assert (Hkeys : keys d' = keys d).
    { unfold keys. clear Hk Hc. induction Hall as [| a b ta tb [E _] _ IH];
        simpl; [reflexivity | now rewrite E, IH]. }
    rewrite Hkeys. split; [exact Hk |].
    rewrite forallb_forall in *. intros kv' Hin.
    destruct (Forall2_In_r Hall Hin) as [kv [Hkv [_ [_ HP]]]].
    apply HP, Hc, Hkv.
  - intros n l l0 l' Hl0 Hall. simpl. rewrite !forallb_forall.
    intros Hu y Hy.
    destruct (Forall2_In_r Hall Hy) as [x [Hx [_ HP]]].
    apply HP, Hu.
    destruct (_should_sort_list l); [| now subst l0].
    now apply (sorted_In x Hl0).
Qed.

End UniqueKeys.

(** ** The records of one call, run by run *)

Section Buckets.
Context {H : Host}.

Lemma foldM_concat (D A : Type) (body : list D -> A -> res (list D))
  (ks : list A) :
  (forall k, appends (fun s => body s k)) ->
  forall s0,
    foldM body ks s0 = (gs <- mapM (body []) ks ;; Ok (s0 ++ List.concat gs)).
Proof.
  intros Hb. induction ks as [| k t IH]; intros s0; simpl.
  - now rewrite app_nil_r.
  - rewrite (Hb k s0). destruct (body [] k) as [g | e |]; simpl; try reflexivity.
    rewrite IH. destruct (mapM (body []) t); simpl; try reflexivity.
    now rewrite app_assoc.
Qed.

Definition added_record (seg : string -> string) (path : list string)
  (right : list (string * value)) (key : string) : res (list DiffItem) :=
  v <- subscript String.eqb right key ;;
  Ok [mkDiffItem ADDED (path ++ [seg key]) VNone v].

Definition removed_record (seg : string -> string) (path : list string)
  (left : list (string * value)) (key : string) : res (list DiffItem) :=
  v <- subscript String.eqb left key ;;
  Ok [mkDiffItem REMOVED (path ++ [seg key]) v VNone].

Definition common_records (seg : string -> string) (cmp : differ)
  (path : list string) (left right : list (string * value)) (key : string)
  : res (list DiffItem) :=
  l <- subscript String.eqb left key ;;
  r <- subscript String.eqb right key ;;
  cmp l r (path ++ [seg key]) [].

(** The records of the three loops of [keyed_compare], one list per key. *)
Definition keyed_buckets (seg : string -> string) (cmp : differ)
  (left right : list (string * value)) (path : list string)
  : res (list (list DiffItem)) :=
  a <- mapM (added_record seg path right)
            (set_iter (set_diff (keys right) (keys left))) ;;
  r <- mapM (removed_record seg path left)
            (set_iter (set_diff (keys left) (keys right))) ;;
  c <- mapM (common_records seg cmp path left right)
            (set_iter (set_inter (keys left) (keys right))) ;;
  Ok (a ++ r ++ c).

Lemma keyed_compare_buckets (seg : string -> string) (cmp : differ)
  (left right : list (string * value)) (path : list string) :
  (forall l r p, appends (cmp l r p)) ->
  keyed_compare seg cmp left right path []
  = (bs <- keyed_buckets seg cmp left right path ;; Ok (List.concat bs)).
Proof.
  intros Hcmp. unfold keyed_compare, keyed_buckets.
  rewrite foldM_concat
    by (intros k; apply appends_bind; intros v; apply appends_push).
  change (mapM _ (set_iter (set_diff (keys right) (keys left))))
    with (mapM (added_record seg path right)
               (set_iter (set_diff (keys right) (keys left)))).
  destruct (mapM (added_record seg path right) _) as [a | e |]; simpl;
    try reflexivity.
  rewrite foldM_concat
    by (intros k; apply appends_bind; intros v; apply appends_push).
  change (mapM _ (set_iter (set_diff (keys left) (keys right))))
    with (mapM (removed_record seg path left)
               (set_iter (set_diff (keys left) (keys right)))).
  destruct (mapM (removed_record seg path left) _) as [r | e |]; simpl;
    try reflexivity.
  rewrite foldM_concat
    by (intros k; apply appends_bind; intros l; apply appends_bind; intros r0;
        apply Hcmp).
  change (mapM _ (set_iter (set_inter (keys left) (keys right))))
    with (mapM (common_records seg cmp path left right)
               (set_iter (set_inter (keys left) (keys right)))).
  destruct (mapM (common_records seg cmp path left right) _) as [c | e |]; simpl;
    try reflexivity.
  now rewrite !concat_app, app_assoc.
Qed.

Definition common_position (cmp : differ) (path : list string)
  (left right : list value) (i : nat) : res (list DiffItem) :=
  l <- getitem left i ;;
  r <- getitem right i ;;
  cmp l r (path ++ [bracket (str_of_nat i)]) [].

Definition added_position (path : list string) (right : list value) (i : nat)
  : res (list DiffItem) :=
  r <- getitem right i ;;
  Ok [mkDiffItem ADDED (path ++ [bracket (str_of_nat i)]) VNone r].

Definition removed_position (path : list string) (left : list value) (i : nat)
  : res (list DiffItem) :=
  l <- getitem left i ;;
  Ok [mkDiffItem REMOVED (path ++ [bracket (str_of_nat i)]) l VNone].

(** The records of the loops of [_compare_ordered_lists], one list per
    position. *)
Definition positional_buckets (cmp : differ) (left right : list value)
  (path : list string) : res (list (list DiffItem)) :=
  c <- mapM (common_position cmp path left right)
            (seq 0 (Nat.min (List.length left) (List.length right))) ;;
  e <- (if Nat.ltb (List.length left) (List.length right) then
          mapM (added_position path right)
               (seq (List.length left) (List.length right - List.length left))
        else if Nat.ltb (List.length right) (List.length left) then
          mapM (removed_position path left)
               (seq (List.length right) (List.length left - List.length right))
        else Ok []) ;;
  Ok (c ++ e).

Lemma _compare_ordered_lists_buckets (cmp : differ) (left right : list value)
  (path : list string) :
  (forall l r p, appends (cmp l r p)) ->
  _compare_ordered_lists cmp left right path []
  = (bs <- positional_buckets cmp left right path ;; Ok (List.concat bs)).
Proof.
  intros Hcmp. unfold _compare_ordered_lists, positional_buckets.
  rewrite foldM_concat
    by (intros k; apply appends_bind; intros l; apply appends_bind; intros r0;
        apply Hcmp).
  change (mapM _ (seq 0 (Nat.min (List.length left) (List.length right))))
    with (mapM (common_position cmp path left right)
               (seq 0 (Nat.min (List.length left) (List.length right)))).
  destruct (mapM (common_position cmp path left right) _) as [c | e |]; simpl;
    try reflexivity.
  destruct (Nat.ltb (List.length left) (List.length right)).
  - rewrite foldM_concat
      by (intros k; apply appends_bind; intros v; apply appends_push).
    change (mapM _ (seq (List.length left) (List.length right - List.length left)))
      with (mapM (added_position path right)
                 (seq (List.length left) (List.length right - List.length left))).
    destruct (mapM (added_position path right) _) as [a | e |]; simpl;
      try reflexivity.
    now rewrite concat_app.
  - destruct (Nat.ltb (List.length right) (List.length left)).
    + rewrite foldM_concat
        by (intros k; apply appends_bind; intros v; apply appends_push).
      change (mapM _ (seq (List.length right) (List.length left - List.length right)))
        with (mapM (removed_position path left)
                   (seq (List.length right) (List.length left - List.length right))).
      destruct (mapM (removed_position path left) _) as [a | e |]; simpl;
        try reflexivity.
      now rewrite concat_app.
    + simpl. now rewrite !app_nil_r.
Qed.

(** The records of [dispatch], run by run. *)
Definition dispatch_buckets (cmp : differ) (left_norm right_norm : value)
  (path : list string) : res (list (list DiffItem)) :=
  if negb (pytype_eqb (type_of left_norm) (type_of right_norm)) then
    Ok [[mkDiffItem MODIFIED path left_norm right_norm]]
  else
    match left_norm, right_norm with
    | VDict l, VDict r => keyed_buckets (fun key => key) cmp l r path
    | VList l, VList r =>
        if _should_sort_list l && _should_sort_list r then
          left_map <- key_map l ;;
          right_map <- key_map r ;;
          keyed_buckets bracket cmp left_map right_map path
        else positional_buckets cmp l r path
    | _, _ =>
        if py_ne left_norm right_norm
        then Ok [[mkDiffItem MODIFIED path left_norm right_norm]]
        else Ok []
    end.

Lemma dispatch_concat (cmp : differ) (ln rn : value) (path : list string) :
  (forall l r p, appends (cmp l r p)) ->
  dispatch cmp ln rn path []
  = (bs <- dispatch_buckets cmp ln rn path ;; Ok (List.concat bs)).
Proof.
  intros Hcmp. unfold dispatch, dispatch_buckets.
  destruct (negb (pytype_eqb (type_of ln) (type_of rn))); [reflexivity |].
  destruct ln as [| | | | | ll | dl], rn as [| | | | | lr | dr];
    try (destruct (py_ne _ _); reflexivity).
  - unfold _compare_lists. destruct (_should_sort_list ll && _should_sort_list lr).
    + rewrite _compare_sorted_lists_keyed.
      destruct (key_map ll); simpl; try reflexivity.
      destruct (key_map lr); simpl; try reflexivity.
      now apply keyed_compare_buckets.
    + now apply _compare_ordered_lists_buckets.
  - rewrite _compare_dicts_keyed. now apply keyed_compare_buckets.
Qed.

Lemma compare_concat (n : nat) (left right : value) (path : list string) :
  compare (S n) left right path []
  = (ln <- normalize_data (S n) left ;;
     rn <- normalize_data (S n) right ;;
     bs <- dispatch_buckets (compare n) ln rn path ;;
     Ok (List.concat bs)).
Proof.
  rewrite compare_unfold.
  destruct (normalize_data (S n) left); cbn [bind]; try reflexivity.
  destruct (normalize_data (S n) right); cbn [bind]; try reflexivity.
  apply dispatch_concat. apply compare_appends_fuel.
Qed.

End Buckets.

(** ** No two records about one place *)

(** Neither path leads into the other; in particular they differ. *)
Definition unrelated (p q : list string) : Prop :=
  ~ extends p q /\ ~ extends q p.

Definition apart (records : list DiffItem) : Prop :=
  ForallOrdPairs (fun a b => unrelated (path a) (path b)) records.

Lemma unrelated_sym (p q : list string) : unrelated p q -> unrelated q p.
Proof. unfold unrelated. tauto. Qed.

Lemma extends_diverge (p a c : list string) (s s' : string) :
  s <> s' -> extends (p ++ [s]) a -> extends (p ++ [s']) c -> unrelated a c.
Proof.
  intros Hne [ra ->] [rc ->]. split; intros [x E]; rewrite <- !app_assoc in E;
    apply app_inv_head in E; simpl in E; injection E as E _; congruence.
Qed.

Lemma apart_app (a b : list DiffItem) :
  apart a -> apart b ->
  (forall x y, In x a -> In y b -> unrelated (path x) (path y)) ->
  apart (a ++ b).
Proof.
  intros Ha Hb Hab. induction Ha as [| x t Hx Ht IH]; simpl; [exact Hb |].
  constructor.
  - apply Forall_app. split; [exact Hx |].
    apply Forall_forall. intros y Hy. apply Hab; [now left | exact Hy].
  - apply IH. intros x' y Hx' Hy. apply Hab; [now right | exact Hy].
Qed.

Lemma apart_single (d : DiffItem) : apart [d].
Proof. constructor; constructor. Qed.

(** Lists of records below different segments of one path. *)
Definition below (p : list string) (s : string) (b : list DiffItem) : Prop :=
  apart b /\ Forall (fun d => extends (p ++ [s]) (path d)) b.

Lemma buckets_apart (A : Type) (seg : A -> string) (p : list string)
  (ks : list A) (bs : list (list DiffItem)) :
  NoDup (map seg ks) ->
  Forall2 (fun k b => below p (seg k) b) ks bs ->
  apart (List.concat bs).
Proof.
  intros Hnd Hall. induction Hall as [| k b ks bs [Hb He] Hall IH]; simpl.
  - constructor.
  - inversion Hnd as [| s l Hnin Hnd']; subst.
    apply apart_app; [exact Hb | now apply IH |].
    intros x y Hx Hy. apply in_concat in Hy. destruct Hy as [b' [Hb' Hy]].
    destruct (Forall2_In_r Hall Hb') as [k' [Hk' [_ He']]].
    rewrite Forall_forall in He, He'.
    apply (extends_diverge p _ _ (seg k) (seg k')); [| now apply He | now apply He'].
    intros E. apply Hnin. rewrite E. now apply in_map.
Qed.

Lemma mapM_below (A : Type) (seg : A -> string) (p : list string)
  (f : A -> res (list DiffItem)) (ks : list A) (bs : list (list DiffItem)) :
  mapM f ks = Ok bs ->
  (forall k b, In k ks -> f k = Ok b -> below p (seg k) b) ->
  Forall2 (fun k b => below p (seg k) b) ks bs.
Proof.
  intros Hm. apply mapM_Forall2 in Hm.
  induction Hm as [| k b ks bs Hk Hm IH]; intros Hf; constructor.
  - apply Hf; [now left | exact Hk].
  - apply IH. intros k' b' Hin. apply Hf. now right.
Qed.

Lemma below_single (p : list string) (s : string) (t : ChangeType)
  (old new : value) :
  below p s [mkDiffItem t (p ++ [s]) old new].
Proof.
  split; [apply apart_single |]. constructor; [| constructor].
  exists []. simpl. now rewrite app_nil_r.
Qed.

Lemma str_of_nat_inj (i j : nat) : str_of_nat i = str_of_nat j -> i = j.
Proof.
  unfold str_of_nat. intros E.
  assert (Hn : forall n, Nat.to_uint n <> Decimal.Nil).
  { intros n En. pose proof (Unsigned.of_to n) as Hof. rewrite En in Hof.
    simpl in Hof. subst n. discriminate. }
  apply Unsigned.to_uint_inj.
  pose proof (NilZero.usu _ (Hn i)) as Hi. pose proof (NilZero.usu _ (Hn j)) as Hj.
  rewrite E in Hi. congruence.
Qed.

Lemma bracket_inj (a b : string) : bracket a = bracket b -> a = b.
Proof.
  unfold bracket. simpl. intros E. injection E as E.
  revert b E. induction a as [| c a IH]; intros [| c' b]; simpl; intros E.
  - reflexivity.
  - injection E as E1 E2. destruct b; discriminate.
  - injection E as E1 E2. destruct a; discriminate.
  - injection E as -> E. f_equal. now apply IH.
Qed.

Lemma NoDup_map_inj (A B : Type) (f : A -> B) (l : list A) :
  (forall x y, f x = f y -> x = y) -> NoDup l -> NoDup (map f l).
Proof.
  intros Hinj Hnd. apply NoDup_map_NoDup_ForallPairs; [| exact Hnd].
  intros x y _ _. apply Hinj.
Qed.

Section Apart.
Context {H : Host}.

Lemma set_iter_NoDup (l : list string) : NoDup l -> NoDup (set_iter l).
Proof.
  intros Hnd. apply (Permutation_NoDup (l := l)); [| exact Hnd].
  apply Permutation_sym, set_iter_perm.
Qed.

Lemma key_runs_NoDup (a b : list string) :
  NoDup a -> NoDup b ->
  NoDup (set_iter (set_diff b a) ++ set_iter (set_diff a b)
         ++ set_iter (set_inter a b)).
Proof.
  intros Ha Hb.
  apply NoDup_app; [apply set_iter_NoDup, NoDup_filter, Hb | |].
  - apply NoDup_app;
      [apply set_iter_NoDup, NoDup_filter, Ha
      | apply set_iter_NoDup, NoDup_filter, Ha |].
    intros k. rewrite !set_iter_In, set_diff_In, set_inter_In. tauto.
  - intros k. rewrite in_app_iff, !set_iter_In, !set_diff_In, set_inter_In. tauto.
Qed.

Lemma keyed_buckets_apart (seg : string -> string) (cmp : differ)
  (left right : list (string * value)) (p : list string)
  (bs : list (list DiffItem)) :
  (forall a b, seg a = seg b -> a = b) ->
  NoDup (keys left) -> NoDup (keys right) ->
  (forall k lv rv g,
     dict_get String.eqb k left = Some lv ->
     dict_get String.eqb k right = Some rv ->
     cmp lv rv (p ++ [seg k]) [] = Ok g -> below p (seg k) g) ->
  keyed_buckets seg cmp left right p = Ok bs ->
  apart (List.concat bs).
Proof.
  intros Hinj Hl Hr Hcmp. unfold keyed_buckets.
  destruct (mapM (added_record seg p right) _) as [a | |] eqn:Ha; simpl;
    try discriminate.
  destruct (mapM (removed_record seg p left) _) as [r | |] eqn:Hrm; simpl;
    try discriminate.
  destruct (mapM (common_records seg cmp p left right) _) as [c | |] eqn:Hc; simpl;
    try discriminate.
  intros [= <-].
  apply (buckets_apart _ seg p
           (set_iter (set_diff (keys right) (keys left))
            ++ set_iter (set_diff (keys left) (keys right))
            ++ set_iter (set_inter (keys left) (keys right)))).
  - apply NoDup_map_inj; [exact Hinj | now apply key_runs_NoDup].
  - repeat apply Forall2_app.
    + apply (mapM_below _ seg p _ _ _ Ha). intros k b _. unfold added_record.
      destruct (subscript String.eqb right k); simpl; try discriminate.
      intros [= <-]. apply below_single.
    + apply (mapM_below _ seg p _ _ _ Hrm). intros k b _. unfold removed_record.
      destruct (subscript String.eqb left k); simpl; try discriminate.
      intros [= <-]. apply below_single.
    + apply (mapM_below _ seg p _ _ _ Hc). intros k b _. unfold common_records.
      destruct (subscript String.eqb left k) as [lv | |] eqn:Hlv; simpl;
        try discriminate.
      destruct (subscript String.eqb right k) as [rv | |] eqn:Hrv; simpl;
        try discriminate.
      apply Hcmp; now apply subscript_ok.
Qed.

Lemma positional_buckets_apart (cmp : differ) (left right : list value)
  (p : list string) (bs : list (list DiffItem)) :
  (forall i lv rv g,
     nth_error left i = Some lv -> nth_error right i = Some rv ->
     cmp lv rv (p ++ [index_segment i]) [] = Ok g -> below p (index_segment i) g) ->
  positional_buckets cmp left right p = Ok bs ->
  apart (List.concat bs).
Proof.
  intros Hcmp. unfold positional_buckets.
  destruct (mapM (common_position cmp p left right) _) as [c | |] eqn:Hc; simpl;
    try discriminate.
  assert (Hcommon : Forall2 (fun i b => below p (index_segment i) b)
                      (seq 0 (Nat.min (List.length left) (List.length right))) c).
  { apply (mapM_below _ index_segment p _ _ _ Hc). intros i b _.
    unfold common_position.
    destruct (getitem left i) as [lv | |] eqn:Hlv; simpl; try discriminate.
    destruct (getitem right i) as [rv | |] eqn:Hrv; simpl; try discriminate.
    apply Hcmp; now apply getitem_ok. }
  assert (Hinj : forall l, NoDup l -> NoDup (map index_segment l)).
  { intros l. apply NoDup_map_inj. intros x y E.
    now apply str_of_nat_inj, bracket_inj. }
  destruct (Nat.ltb (List.length left) (List.length right)) eqn:Hlt.
  - destruct (mapM (added_position p right) _) as [e | |] eqn:He; simpl;
      try discriminate.
    intros [= <-]. apply Nat.ltb_lt in Hlt.
    apply (buckets_apart _ index_segment p
             (seq 0 (Nat.min (List.length left) (List.length right))
              ++ seq (List.length left) (List.length right - List.length left))).
    + apply Hinj. replace (Nat.min (List.length left) (List.length right))
        with (List.length left) by lia.
      rewrite <- seq_app. apply seq_NoDup.
    + apply Forall2_app; [exact Hcommon |].
      apply (mapM_below _ index_segment p _ _ _ He). intros i b _.
      unfold added_position.
      destruct (getitem right i); simpl; try discriminate.
      intros [= <-]. apply below_single.
  - destruct (Nat.ltb (List.length right) (List.length left)) eqn:Hgt.
    + destruct (mapM (removed_position p left) _) as [e | |] eqn:He; simpl;
        try discriminate.
      intros [= <-]. apply Nat.ltb_lt in Hgt.
      apply (buckets_apart _ index_segment p
               (seq 0 (Nat.min (List.length left) (List.length right))
                ++ seq (List.length right) (List.length left - List.length right))).
      * apply Hinj. replace (Nat.min (List.length left) (List.length right))
          with (List.length right) by lia.
        rewrite <- seq_app. apply seq_NoDup.
      * apply Forall2_app; [exact Hcommon |].
        apply (mapM_below _ index_segment p _ _ _ He). intros i b _.
        unfold removed_position.
        destruct (getitem left i); simpl; try discriminate.
        intros [= <-]. apply below_single.
    + simpl. intros [= <-]. rewrite app_nil_r.
      apply (buckets_apart _ index_segment p
               (seq 0 (Nat.min (List.length left) (List.length right))));
        [apply Hinj, seq_NoDup | exact Hcommon].
Qed.

Lemma key_map_NoDup (items : list value) (m : list (string * value)) :
  key_map items = Ok m -> NoDup (keys m).
Proof.
  unfold key_map.
  apply (foldM_invariant (fun m : list (string * value) => NoDup (keys m)));
    [| constructor].
  intros x s s' _ Hs. destruct (_get_sort_key x); simpl; try discriminate.
  intros [= <-]. now apply dict_set_NoDup.
Qed.

Lemma compare_apart (n : nat) :
  forall left right p records,
    unique_keys left = true -> unique_keys right = true ->
    compare n left right p [] = Ok records -> apart records.
Proof.
  induction n as [| n IH]; intros left right p records Ul Ur; [discriminate |].
  rewrite compare_concat.
  destruct (normalize_data (S n) left) as [ln | |] eqn:Hl; cbn [bind];
    try discriminate.
  destruct (normalize_data (S n) right) as [rn | |] eqn:Hr; cbn [bind];
    try discriminate.
  apply normalize_data_unique_keys in Hl; [| exact Ul].
  apply normalize_data_unique_keys in Hr; [| exact Ur].
  destruct (dispatch_buckets (compare n) ln rn p) as [bs | |] eqn:Hd; cbn [bind];
    try discriminate.
  intros [= <-]. revert Hd. unfold dispatch_buckets.
  assert (Hbelow : forall lv rv s g,
            unique_keys lv = true -> unique_keys rv = true ->
            compare n lv rv (p ++ [s]) [] = Ok g -> below p s g).
  { intros lv rv s g Ulv Urv Hg. split; [exact (IH _ _ _ _ Ulv Urv Hg) |].
    apply (compare_paths_extend (p ++ [s]) n lv rv (p ++ [s]) [] g);
      [exists []; now rewrite app_nil_r | constructor | exact Hg]. }
  destruct (negb (pytype_eqb (type_of ln) (type_of rn)));
    [intros [= <-]; apply apart_single |].
  destruct ln as [| | | | | ll | dl], rn as [| | | | | lr | dr];
    try (destruct (py_ne _ _); intros [= <-]; simpl;
         [apply apart_single | constructor]).
  - destruct (_should_sort_list ll && _should_sort_list lr).
    + destruct (key_map ll) as [lm | |] eqn:Hlm; cbn [bind]; try discriminate.
      destruct (key_map lr) as [rm | |] eqn:Hrm; cbn [bind]; try discriminate.
      apply keyed_buckets_apart;
        [apply bracket_inj | now apply (key_map_NoDup ll)
        | now apply (key_map_NoDup lr) |].
      intros k lv rv g Hlv Hrv. apply Hbelow.
      * apply (unique_keys_child lv (VList ll) Hl).
        exact (key_map_values ll lm Hlm k lv Hlv).
      * apply (unique_keys_child rv (VList lr) Hr).
        exact (key_map_values lr rm Hrm k rv Hrv).
    + apply positional_buckets_apart. intros i lv rv g Hlv Hrv. apply Hbelow.
      * apply (unique_keys_child lv (VList ll) Hl). exact (nth_error_In _ _ Hlv).
      * apply (unique_keys_child rv (VList lr) Hr). exact (nth_error_In _ _ Hrv).
  - apply keyed_buckets_apart;
      [auto | now apply unique_keys_dict | now apply unique_keys_dict |].
    intros k lv rv g Hlv Hrv. apply Hbelow.
    + apply (unique_keys_child lv (VDict dl) Hl). exists k.
      now apply dict_get_In.
    + apply (unique_keys_child rv (VDict dr) Hr). exists k.
      now apply dict_get_In.
Qed.

End Apart.

(** No two records of a change set are about the same place: the path of
    one never equals, nor leads into, the path of another. *)
Theorem change_set_paths_apart {H : Host} (fuel : nat) (left right : value)
  (here : list string) (records : list DiffItem) :
  unique_keys left = true -> unique_keys right = true ->
  compare fuel left right here [] = Ok records ->
  apart records /\ NoDup (map path records).
Proof.
  intros Ul Ur Hc. pose proof (compare_apart fuel _ _ _ _ Ul Ur Hc) as Ha.
  split; [exact Ha |].
  clear Hc. induction Ha as [| d t Hd Ht IH]; simpl; constructor; [| exact IH].
  intros Hin. apply in_map_iff in Hin. destruct Hin as [d' [E Hd']].
  rewrite Forall_forall in Hd. destruct (Hd _ Hd') as [Hn _].
  apply Hn. exists []. now rewrite app_nil_r.
Qed.

Lemma change_set_paths_apart_witness :
  apart [mkDiffItem ADDED ["c"] VNone (VInt 3);
         mkDiffItem REMOVED ["b"] (VInt 2) VNone;
         mkDiffItem MODIFIED ["a"; "[0]"] (VInt 1) (VInt 2)] /\
  NoDup [["c"]; ["b"]; ["a"; "[0]"]].
Proof.
  apply (@change_set_paths_apart listing_host 4
           (VDict [("a", VList [VInt 1]); ("b", VInt 2)])
           (VDict [("a", VList [VInt 2]); ("c", VInt 3)]) []);
    reflexivity.
Defined.

(** ** Comparing the other way round *)

Definition swap_type (t : ChangeType) : ChangeType :=
  match t with
  | ADDED => REMOVED
  | REMOVED => ADDED
  | MODIFIED => MODIFIED
  end.

(** The record of the same change, read from right to left. *)
Definition reversed (d : DiffItem) : DiffItem :=
  mkDiffItem (swap_type (change_type d)) (path d) (new_value d) (old_value d).

Lemma SFcompare_antisym (a b : SpecFloat.spec_float) :
  SpecFloat.SFcompare b a = option_map CompOpp (SpecFloat.SFcompare a b).
Proof.
  destruct a as [sa | sa | | sa ma ea], b as [sb | sb | | sb mb eb]; simpl;
    try reflexivity;
    try (destruct sa; reflexivity); try (destruct sb; reflexivity);
    try (destruct sa, sb; reflexivity).
  f_equal. rewrite (Z.compare_antisym ea eb).
  change (PosDef.Pos.compare_cont Eq mb ma) with (Pos.compare mb ma).
  change (PosDef.Pos.compare_cont Eq ma mb) with (Pos.compare ma mb).
  rewrite (Pos.compare_antisym ma mb).
  destruct sa, sb; try reflexivity;
    destruct (Z.compare ea eb); simpl; try reflexivity;
    destruct (Pos.compare ma mb); reflexivity.
Qed.

Lemma float_eqb_sym (x y : PrimFloat.float) :
  PrimFloat.eqb x y = PrimFloat.eqb y x.
Proof.
  rewrite !FloatAxioms.eqb_spec. unfold SpecFloat.SFeqb.
  rewrite (SFcompare_antisym (FloatOps.Prim2SF y) (FloatOps.Prim2SF x)).
  destruct (SpecFloat.SFcompare _ _) as [[| |] |]; reflexivity.
Qed.

Lemma py_ne_sym (a b : value) : py_ne a b = py_ne b a.
Proof.
  destruct a, b; simpl; try reflexivity.
  - f_equal. now destruct b, b0.
  - f_equal. apply Z.eqb_sym.
  - f_equal. apply float_eqb_sym.
  - f_equal. apply String.eqb_sym.
Qed.

Lemma pytype_eqb_sym (a b : pytype) : pytype_eqb a b = pytype_eqb b a.
Proof. now destruct a, b. Qed.

Lemma mapM_reversed (A : Type) (f f' : A -> res (list DiffItem)) (ks : list A)
  (bs : list (list DiffItem)) :
  mapM f ks = Ok bs ->
  (forall k b, In k ks -> f k = Ok b ->
               exists b', f' k = Ok b' /\ Permutation b' (map reversed b)) ->
  exists bs', mapM f' ks = Ok bs' /\
              Permutation (List.concat bs') (map reversed (List.concat bs)).
Proof.
  revert bs. induction ks as [| k t IH]; intros bs; simpl.
  - intros [= <-] _. exists []. split; [reflexivity | constructor].
  - destruct (f k) as [b | |] eqn:Hk; simpl; try discriminate.
    destruct (mapM f t) as [bs0 | |] eqn:Ht; simpl; try discriminate.
    intros [= <-] Hf.
    destruct (Hf k b (or_introl eq_refl) Hk) as [b' [Hb' Pb]].
    destruct (IH bs0 eq_refl) as [bs0' [Hbs0' Pbs]];
      [intros k' b0 Hin; apply Hf; now right |].
    exists (b' :: bs0'). rewrite Hb', Hbs0'. split; [reflexivity |].
    simpl. rewrite map_app. now apply Permutation_app.
Qed.

Lemma mapM_permuted (A B : Type) (f : A -> res (list B)) (ks ks' : list A) :
  Permutation ks ks' ->
  forall bs, mapM f ks = Ok bs ->
  exists bs', mapM f ks' = Ok bs' /\
              Permutation (List.concat bs') (List.concat bs).
Proof.
  induction 1 as [| x l l' HP IH | x y l | l l' l'' HP1 IH1 HP2 IH2];
    intros bs; simpl.
  - intros [= <-]. exists []. split; [reflexivity | constructor].
  - destruct (f x) as [b | |]; simpl; try discriminate.
    destruct (mapM f l) as [bs0 | |]; simpl; try discriminate.
    intros [= <-]. destruct (IH bs0 eq_refl) as [bs0' [-> Pbs]].
    exists (b :: bs0'). split; [reflexivity |]. simpl.
    now apply Permutation_app_head.
  - destruct (f y) as [by_ | |]; simpl; try discriminate.
    destruct (f x) as [bx | |]; simpl; try discriminate.
    destruct (mapM f l) as [bs0 | |]; simpl; try discriminate.
    intros [= <-]. exists (bx :: by_ :: bs0). split; [reflexivity |]. simpl.
    rewrite !app_assoc. apply Permutation_app_tail, Permutation_app_comm.
  - intros Hbs. destruct (IH1 bs Hbs) as [bs1 [H1 P1]].
    destruct (IH2 bs1 H1) as [bs2 [H2 P2]].
    exists bs2. split; [exact H2 | now transitivity (List.concat bs1)].
Qed.

Section Reversed.
Context {H : Host}.

Lemma set_inter_comm (a b : list string) :
  NoDup a -> NoDup b ->
  Permutation (set_iter (set_inter a b)) (set_iter (set_inter b a)).
Proof.
  intros Ha Hb. rewrite !set_iter_perm.
  apply NoDup_Permutation; try (now apply NoDup_filter).
  intros k. rewrite !set_inter_In. tauto.
Qed.

Lemma keyed_buckets_reversed (seg : string -> string) (cmp : differ)
  (left right : list (string * value)) (p : list string)
  (bs : list (list DiffItem)) :
  NoDup (keys left) -> NoDup (keys right) ->
  (forall k lv rv g,
     dict_get String.eqb k left = Some lv ->
     dict_get String.eqb k right = Some rv ->
     cmp lv rv (p ++ [seg k]) [] = Ok g ->
     exists g', cmp rv lv (p ++ [seg k]) [] = Ok g' /\
                Permutation g' (map reversed g)) ->
  keyed_buckets seg cmp left right p = Ok bs ->
  exists bs', keyed_buckets seg cmp right left p = Ok bs' /\
              Permutation (List.concat bs') (map reversed (List.concat bs)).
Proof.
  intros Hl Hr Hcmp. unfold keyed_buckets.
  destruct (mapM (added_record seg p right) _) as [a | |] eqn:Ha; simpl;
    try discriminate.
  destruct (mapM (removed_record seg p left) _) as [r | |] eqn:Hrm; simpl;
    try discriminate.
  destruct (mapM (common_records seg cmp p left right) _) as [c | |] eqn:Hc; simpl;
    try discriminate.
  intros [= <-].
  destruct (mapM_reversed _ _ (added_record seg p left) _ _ Hrm) as [a' [Ha' Pa]].
  { intros k b _. unfold removed_record, added_record.
    destruct (subscript String.eqb left k); simpl; try discriminate.
    intros [= <-]. eexists. split; [reflexivity | apply Permutation_refl]. }
  destruct (mapM_reversed _ _ (removed_record seg p right) _ _ Ha) as [r' [Hr' Pr]].
  { intros k b _. unfold removed_record, added_record.
    destruct (subscript String.eqb right k); simpl; try discriminate.
    intros [= <-]. eexists. split; [reflexivity | apply Permutation_refl]. }
  destruct (mapM_reversed _ _ (common_records seg cmp p right left) _ _ Hc)
    as [c1 [Hc1 Pc1]].
  { intros k b _. unfold common_records.
    destruct (subscript String.eqb left k) as [lv | |] eqn:Hlv; simpl;
      try discriminate.
    destruct (subscript String.eqb right k) as [rv | |] eqn:Hrv; simpl;
      try discriminate.
    apply Hcmp; now apply subscript_ok. }
  destruct (mapM_permuted _ _ _ _ _ (set_inter_comm _ _ Hl Hr) _ Hc1)
    as [c' [Hc' Pc']].
  rewrite Ha', Hr', Hc'. simpl. eexists. split; [reflexivity |].
  rewrite !concat_app, !map_app.
  rewrite Pa, Pr, Pc', Pc1.
  rewrite !app_assoc. apply Permutation_app_tail, Permutation_app_comm.
Qed.

Lemma positional_buckets_reversed (cmp : differ) (left right : list value)
  (p : list string) (bs : list (list DiffItem)) :
  (forall i lv rv g,
     nth_error left i = Some lv -> nth_error right i = Some rv ->
     cmp lv rv (p ++ [index_segment i]) [] = Ok g ->
     exists g', cmp rv lv (p ++ [index_segment i]) [] = Ok g' /\
                Permutation g' (map reversed g)) ->
  positional_buckets cmp left right p = Ok bs ->
  exists bs', positional_buckets cmp right left p = Ok bs' /\
              Permutation (List.concat bs') (map reversed (List.concat bs)).
Proof.
  intros Hcmp. unfold positional_buckets.
  destruct (mapM (common_position cmp p left right) _) as [c | |] eqn:Hc; simpl;
    try discriminate.
  destruct (mapM_reversed _ _ (common_position cmp p right left) _ _ Hc)
    as [c' [Hc' Pc]].
  { intros i b _. unfold common_position.
    destruct (getitem left i) as [lv | |] eqn:Hlv; simpl; try discriminate.
    destruct (getitem right i) as [rv | |] eqn:Hrv; simpl; try discriminate.
    apply Hcmp; now apply getitem_ok. }
  rewrite (Nat.min_comm (List.length right) (List.length left)), Hc'. simpl.
  destruct (Nat.ltb (List.length left) (List.length right)) eqn:Hlt.
  - destruct (mapM (added_position p right) _) as [e | |] eqn:He; simpl;
      try discriminate.
    intros [= <-].
    destruct (mapM_reversed _ _ (removed_position p right) _ _ He) as [e' [He' Pe]].
    { intros i b _. unfold removed_position, added_position.
      destruct (getitem right i); simpl; try discriminate.
      intros [= <-]. eexists. split; [reflexivity | apply Permutation_refl]. }
    apply Nat.ltb_lt in Hlt.
    assert (Hgt : Nat.ltb (List.length right) (List.length left) = false)
      by (apply Nat.ltb_ge; lia).
    rewrite Hgt, He'. simpl. eexists. split; [reflexivity |].
    rewrite !concat_app, !map_app. now apply Permutation_app.
  - destruct (Nat.ltb (List.length right) (List.length left)) eqn:Hgt.
    + destruct (mapM (removed_position p left) _) as [e | |] eqn:He; simpl;
        try discriminate.
      intros [= <-].
      destruct (mapM_reversed _ _ (added_position p left) _ _ He) as [e' [He' Pe]].
      { intros i b _. unfold removed_position, added_position.
        destruct (getitem left i); simpl; try discriminate.
        intros [= <-]. eexists. split; [reflexivity | apply Permutation_refl]. }
      rewrite He'. simpl. eexists. split; [reflexivity |].
      rewrite !concat_app, !map_app. now apply Permutation_app.
    + simpl. intros [= <-]. eexists. split; [reflexivity |].
      rewrite !concat_app, !map_app. now apply Permutation_app.
Qed.

Lemma compare_reversed (n : nat) :
  forall left right p records,
    unique_keys left = true -> unique_keys right = true ->
    compare n left right p [] = Ok records ->
    exists records',
      compare n right left p [] = Ok records' /\
      Permutation records' (map reversed records).
Proof.
  induction n as [| n IH]; intros left right p records Ul Ur; [discriminate |].
  rewrite !compare_concat.
  destruct (normalize_data (S n) left) as [ln | |] eqn:Hl; cbn [bind];
    try discriminate.
  destruct (normalize_data (S n) right) as [rn | |] eqn:Hr; cbn [bind];
    try discriminate.
  apply normalize_data_unique_keys in Hl; [| exact Ul].
  apply normalize_data_unique_keys in Hr; [| exact Ur].
  destruct (dispatch_buckets (compare n) ln rn p) as [bs | |] eqn:Hd; cbn [bind];
    try discriminate.
  intros [= <-].
  enough (exists bs', dispatch_buckets (compare n) rn ln p = Ok bs' /\
                      Permutation (List.concat bs') (map reversed (List.concat bs)))
    as [bs' [-> Pbs]] by (eexists; split; [reflexivity | exact Pbs]).
  revert Hd. unfold dispatch_buckets.
  rewrite (pytype_eqb_sym (type_of rn) (type_of ln)), (py_ne_sym rn ln).
  destruct (pytype_eqb (type_of ln) (type_of rn)) eqn:Ht; cbn [negb].
  2:{ intros [= <-]. eexists. split; [reflexivity | apply Permutation_refl]. }
  destruct ln as [| | | | | ll | dl], rn as [| | | | | lr | dr]; try discriminate;
    try (destruct (py_ne _ _); intros [= <-]; eexists;
         (split; [reflexivity | apply Permutation_refl])).
  - rewrite (andb_comm (_should_sort_list lr) (_should_sort_list ll)).
    destruct (_should_sort_list ll && _should_sort_list lr).
    + destruct (key_map ll) as [lm | |] eqn:Hlm; cbn [bind]; try discriminate.
      destruct (key_map lr) as [rm | |] eqn:Hrm; cbn [bind]; try discriminate.
      apply keyed_buckets_reversed;
        [now apply (key_map_NoDup ll) | now apply (key_map_NoDup lr) |].
      intros k lv rv g Hlv Hrv. apply IH.
      * apply (unique_keys_child lv (VList ll) Hl).
        exact (key_map_values ll lm Hlm k lv Hlv).
      * apply (unique_keys_child rv (VList lr) Hr).
        exact (key_map_values lr rm Hrm k rv Hrv).
    + apply positional_buckets_reversed. intros i lv rv g Hlv Hrv. apply IH.
      * apply (unique_keys_child lv (VList ll) Hl). exact (nth_error_In _ _ Hlv).
      * apply (unique_keys_child rv (VList lr) Hr). exact (nth_error_In _ _ Hrv).
  - apply keyed_buckets_reversed;
      [now apply unique_keys_dict | now apply unique_keys_dict |].
    intros k lv rv g Hlv Hrv. apply IH.
    + apply (unique_keys_child lv (VDict dl) Hl). exists k. now apply dict_get_In.
    + apply (unique_keys_child rv (VDict dr) Hr). exists k. now apply dict_get_In.
Qed.

End Reversed.

(** Comparing the documents the other way round gives the same records
    read from right to left: Added and Removed change places, old and new
    values change places, paths stay; the order of the records may differ. *)
Theorem compare_symmetric {H : Host} (fuel : nat) (left right : value)
  (here : list string) (records : list DiffItem) :
  unique_keys left = true -> unique_keys right = true ->
  compare fuel left right here [] = Ok records ->
  exists records',
    compare fuel right left here [] = Ok records' /\
    Permutation records' (map reversed records).
Proof. apply compare_reversed. Qed.

Lemma compare_symmetric_witness :
  exists records',
    compare 3 (VDict [("a", VInt 2); ("c", VInt 3)])
              (VDict [("a", VInt 1); ("b", VInt 2)]) [] [] = Ok records' /\
    Permutation records'
      (map reversed [mkDiffItem ADDED ["c"] VNone (VInt 3);
                     mkDiffItem REMOVED ["b"] (VInt 2) VNone;
                     mkDiffItem MODIFIED ["a"] (VInt 1) (VInt 2)]).
Proof.
  apply (@compare_symmetric listing_host 3
           (VDict [("a", VInt 1); ("b", VInt 2)])
           (VDict [("a", VInt 2); ("c", VInt 3)]) []);
    reflexivity.
Defined.

(** ** The report: the nested dictionary of a group *)

Section DictSplit.
Variable V : Type.

(** Storing under a key replaces the value where the key is, or adds the
    key at the end. *)
Lemma dict_set_split (k : string) (v' : V) (d : list (string * V)) :
  match dict_get String.eqb k d with
  | Some v =>
      exists d1 d2, d = d1 ++ (k, v) :: d2 /\
                    dict_set String.eqb k v' d = d1 ++ (k, v') :: d2
  | None => dict_set String.eqb k v' d = d ++ [(k, v')]
  end.
Proof.
  induction d as [| [k0 v0] t IH]; simpl; [reflexivity |].
  destruct (String.eqb k k0) eqn:E.
  - apply String.eqb_eq in E. subst k0. exists [], t. now split.
  - destruct (dict_get String.eqb k t) as [v |].
    + destruct IH as [d1 [d2 [-> ->]]]. exists ((k0, v0) :: d1), d2. now split.
    + now rewrite IH.
Qed.

Lemma subscript_In (k : string) (v : V) (d : list (string * V)) :
  NoDup (keys d) -> In (k, v) d -> subscript String.eqb d k = Ok v.
Proof.
  unfold subscript. induction d as [| [k0 v0] t IH]; simpl; [tauto |].
  intros Hnd [E | Hin].
  - injection E as -> ->. now rewrite String.eqb_refl.
  - inversion Hnd as [| a l Hn Hnd']; subst.
    destruct (String.eqb k k0) eqn:E.
    + apply String.eqb_eq in E. subst k0. exfalso. apply Hn.
      apply in_map_iff. now exists (k, v).
    + now apply IH.
Qed.

End DictSplit.

(** The records of a nested dictionary, each with the keys that lead to
    it. *)
Fixpoint entries (n : node) : list (list string * DiffItem) :=
  match n with
  | Leaf l => map (fun d => ([], d)) l
  | Branch ch =>
      flat_map (fun kv => map (fun e => (fst kv :: fst e, snd e))
                              (entries (snd kv))) ch
  end.

(** Every key occurs once and nothing below the top is empty. *)
Fixpoint well_built (n : node) : bool :=
  match n with
  | Leaf _ => true
  | Branch ch =>
      no_repeat (keys ch)
      && forallb (fun kv => match entries (snd kv) with
                            | [] => false
                            | _ :: _ => well_built (snd kv)
                            end) ch
  end.

(** Neither key path leads into the other, unless they are equal. *)
Definition compatible (q kp : list string) : Prop :=
  (extends q kp -> q = kp) /\ (extends kp q -> q = kp).

Lemma entries_branch_In (ch : list (string * node)) (q : list string)
  (x : DiffItem) :
  In (q, x) (entries (Branch ch)) <->
  exists k c q', In (k, c) ch /\ In (q', x) (entries c) /\ q = k :: q'.
Proof.
  simpl. rewrite in_flat_map. split.
  - intros [[k c] [Hin Hq]]. apply in_map_iff in Hq.
    destruct Hq as [[q' x'] [E Hq']]. simpl in E. injection E as <- <-.
    now exists k, c, q'.
  - intros [k [c [q' [Hin [Hq' ->]]]]]. exists (k, c). split; [exact Hin |].
    apply in_map_iff. now exists (q', x).
Qed.

Lemma well_built_branch (ch : list (string * node)) :
  well_built (Branch ch) = true <->
  NoDup (keys ch) /\
  forall k c, In (k, c) ch -> entries c <> [] /\ well_built c = true.
Proof.
  simpl. rewrite andb_true_iff, no_repeat_NoDup, forallb_forall. split.
  - intros [Hnd Hall]. split; [exact Hnd |]. intros k c Hin.
    specialize (Hall _ Hin). simpl in Hall.
    destruct (entries c); [discriminate | split; [discriminate | exact Hall]].
  - intros [Hnd Hall]. split; [exact Hnd |]. intros [k c] Hin.
    destruct (Hall _ _ Hin) as [Hne Hwb]. simpl.
    destruct (entries c); [now contradiction Hne | exact Hwb].
Qed.

Lemma entries_replace (d1 d2 : list (string * node)) (k : string) (c c' : node)
  (e : list string * DiffItem) :
  Permutation (entries c') (e :: entries c) ->
  Permutation (entries (Branch (d1 ++ (k, c') :: d2)))
              ((k :: fst e, snd e) :: entries (Branch (d1 ++ (k, c) :: d2))).
Proof.
  intros HP. simpl. rewrite !flat_map_app. simpl.
  apply (Permutation_map (fun e0 => (k :: fst e0, snd e0))) in HP. simpl in HP.
  rewrite HP. simpl. apply Permutation_sym, Permutation_middle.
Qed.

Lemma well_built_replace (d1 d2 : list (string * node)) (k : string) (c c' : node) :
  well_built (Branch (d1 ++ (k, c) :: d2)) = true ->
  entries c' <> [] -> well_built c' = true ->
  well_built (Branch (d1 ++ (k, c') :: d2)) = true.
Proof.
  rewrite !well_built_branch. intros [Hnd Hall] Hne Hwb. split.
  - unfold keys in *. rewrite map_app in *. exact Hnd.
  - intros k0 c0 Hin. apply in_app_or in Hin.
    destruct Hin as [Hin | [E | Hin]].
    + apply (Hall k0 c0). apply in_or_app. now left.
    + injection E as <- <-. now split.
    + apply (Hall k0 c0). apply in_or_app. right. now right.
Qed.

Lemma well_built_add (ch : list (string * node)) (k : string) (c' : node) :
  well_built (Branch ch) = true -> dict_get String.eqb k ch = None ->
  entries c' <> [] -> well_built c' = true ->
  well_built (Branch (ch ++ [(k, c')])) = true.
Proof.
  rewrite !well_built_branch. intros [Hnd Hall] Hk Hne Hwb. split.
  - unfold keys. rewrite map_app. simpl.
    apply (Permutation_NoDup (l := k :: map fst ch));
      [apply Permutation_cons_append |].
    constructor; [now apply dict_get_none in Hk | exact Hnd].
  - intros k0 c0 Hin. apply in_app_or in Hin.
    destruct Hin as [Hin | [E | []]]; [now apply (Hall k0 c0) |].
    injection E as <- <-. now split.
Qed.

Lemma entries_add (ch : list (string * node)) (k : string) (c' : node)
  (e : list string * DiffItem) :
  Permutation (entries c') [e] ->
  Permutation (entries (Branch (ch ++ [(k, c')])))
              ((k :: fst e, snd e) :: entries (Branch ch)).
Proof.
  intros HP. simpl. rewrite flat_map_app. simpl. rewrite app_nil_r.
  apply (Permutation_map (fun e0 => (k :: fst e0, snd e0))) in HP. simpl in HP.
  rewrite HP. apply Permutation_sym, Permutation_cons_append.
Qed.

Lemma Permutation_not_nil (A : Type) (l : list A) (x : A) (t : list A) :
  Permutation l (x :: t) -> l <> [].
Proof.
  intros HP E. subst l. now apply Permutation_nil in HP.
Qed.

(** Storing a record under a key path succeeds when no path already in the
    dictionary leads into the new one or the other way round. *)
Lemma insert_at_ok (diff : DiffItem) (last_part : string) :
  forall (parts : list string) (ch : list (string * node)),
    well_built (Branch ch) = true ->
    (forall q x, In (q, x) (entries (Branch ch)) ->
                 compatible q (parts ++ [last_part])) ->
    exists ch',
      insert_at parts last_part diff (Branch ch) = Ok (Branch ch') /\
      well_built (Branch ch') = true /\
      Permutation (entries (Branch ch'))
                  ((parts ++ [last_part], diff) :: entries (Branch ch)).
Proof.
  induction parts as [| part rest IH]; intros ch Hwb Hcompat.
  - cbn [insert_at]. unfold dict_has, subscript.
    pose proof (dict_set_split _ last_part (Leaf []) ch) as Hnew.
    destruct (dict_get String.eqb last_part ch) as [c |] eqn:Hg.
    + rewrite Hg. cbn [bind].
      pose proof (dict_get_In _ _ Hg) as Hin.
      destruct c as [ch0 | l].
      * exfalso. apply well_built_branch in Hwb. destruct Hwb as [_ Hall].
        destruct (Hall _ _ Hin) as [Hne _].
        destruct (entries (Branch ch0)) as [| [q x] t] eqn:He;
          [now apply Hne |].
        assert (Hq : In (q, x) (entries (Branch ch0))) by (rewrite He; now left).
        pose proof Hq as Hq'. apply entries_branch_In in Hq'.
        destruct Hq' as [k0 [c0 [q0 [_ [_ ->]]]]].
        assert (Hp : In (last_part :: k0 :: q0, x) (entries (Branch ch))).
        { apply entries_branch_In. now exists last_part, (Branch ch0), (k0 :: q0). }
        destruct (Hcompat _ _ Hp) as [_ Hc].
        assert (E : last_part :: k0 :: q0 = [] ++ [last_part])
          by (apply Hc; now exists (k0 :: q0)).
        discriminate.
      * pose proof (dict_set_split _ last_part (Leaf (l ++ [diff])) ch) as Hs.
        rewrite Hg in Hs. destruct Hs as [d1 [d2 [-> ->]]].
        exists (d1 ++ (last_part, Leaf (l ++ [diff])) :: d2).
        split; [reflexivity |]. split.
        -- apply (well_built_replace d1 d2 last_part (Leaf l)); [exact Hwb | | reflexivity].
           simpl. rewrite map_app. now destruct (map _ l).
        -- apply (entries_replace d1 d2 last_part (Leaf l) _ ([], diff)).
           simpl. rewrite map_app. simpl. apply Permutation_sym, Permutation_cons_append.
    + rewrite dict_get_set_same. cbn [bind]. rewrite dict_set_twice.
      pose proof (dict_set_split _ last_part (Leaf ([] ++ [diff])) ch) as Hs.
      rewrite Hg in Hs. rewrite Hs.
      exists (ch ++ [(last_part, Leaf ([] ++ [diff]))]).
      split; [reflexivity |]. split.
      * apply well_built_add; [exact Hwb | exact Hg | discriminate | reflexivity].
      * apply (entries_add ch last_part _ ([], diff)). apply Permutation_refl.
  - cbn [insert_at]. unfold dict_has, subscript.
    destruct (dict_get String.eqb part ch) as [c |] eqn:Hg.
    + rewrite Hg. cbn [bind].
      pose proof (dict_get_In _ _ Hg) as Hin.
      pose proof Hwb as Hwb'. apply well_built_branch in Hwb'.
      destruct Hwb' as [_ Hall]. destruct (Hall _ _ Hin) as [Hne Hwc].
      destruct c as [ch0 | l].
      * destruct (IH ch0 Hwc) as [ch1 [Hi [Hw1 HP]]].
        { intros q x Hq.
          assert (Hp : In (part :: q, x) (entries (Branch ch))).
          { apply entries_branch_In. now exists part, (Branch ch0), q. }
          destruct (Hcompat _ _ Hp) as [Ha Hb]. split.
          - intros [r E]. assert (E' : part :: q = (part :: rest) ++ [last_part]).
            { apply Ha. exists r. simpl. now rewrite E. }
            now injection E'.
          - intros [r E]. assert (E' : part :: q = (part :: rest) ++ [last_part]).
            { apply Hb. exists r. simpl. now rewrite E. }
            now injection E'. }
        rewrite Hi. cbn [bind].
        pose proof (dict_set_split _ part (Branch ch1) ch) as Hs.
        rewrite Hg in Hs. destruct Hs as [d1 [d2 [-> ->]]].
        exists (d1 ++ (part, Branch ch1) :: d2). split; [reflexivity |]. split.
        -- apply (well_built_replace d1 d2 part (Branch ch0));
             [exact Hwb | exact (Permutation_not_nil _ _ _ _ HP) | exact Hw1].
        -- exact (entries_replace d1 d2 part (Branch ch0) _
                    (rest ++ [last_part], diff) HP).
      * exfalso. destruct l as [| x l]; [now apply Hne |].
        assert (Hp : In ([part], x) (entries (Branch ch))).
        { apply entries_branch_In. exists part, (Leaf (x :: l)), [].
          repeat split; [exact Hin | now left]. }
        destruct (Hcompat _ _ Hp) as [Ha _].
        assert (E : [part] = (part :: rest) ++ [last_part]).
        { apply Ha. now exists (rest ++ [last_part]). }
        simpl in E. injection E as E. now destruct rest.
    + rewrite dict_get_set_same. cbn [bind].
      destruct (IH [] eq_refl) as [ch1 [Hi [Hw1 HP]]]; [intros q x [] |].
      rewrite Hi. cbn [bind]. rewrite dict_set_twice.
      pose proof (dict_set_split _ part (Branch ch1) ch) as Hs.
      rewrite Hg in Hs. rewrite Hs.
      exists (ch ++ [(part, Branch ch1)]). split; [reflexivity |]. split.
      * apply well_built_add;
          [exact Hwb | exact Hg | exact (Permutation_not_nil _ _ _ _ HP) | exact Hw1].
      * exact (entries_add ch part _ (rest ++ [last_part], diff) HP).
Qed.

(** The keys under which [_insert_diff_into_tree] stores a record of a
    group whose key has [prefix_length] parts. *)
Definition tree_path (prefix_length : nat) (diff : DiffItem) : list string :=
  removelast (_get_remaining_path (path diff) prefix_length)
  ++ [last (_get_remaining_path (path diff) prefix_length) EmptyString].

Lemma build_tree_ok (prefix_length : nat) (diffs : list DiffItem) :
  (forall a b, In a diffs -> In b diffs ->
               compatible (tree_path prefix_length a) (tree_path prefix_length b)) ->
  forall (done : list DiffItem) (ch : list (string * node)),
    well_built (Branch ch) = true ->
    Permutation (entries (Branch ch))
                (map (fun d => (tree_path prefix_length d, d)) done) ->
    (forall a, In a done -> In a diffs) ->
    forall rest, (forall a, In a rest -> In a diffs) ->
    exists ch',
      foldM (fun tree diff =>
               _insert_diff_into_tree tree diff
                 (_get_remaining_path (path diff) prefix_length))
            rest (Branch ch) = Ok (Branch ch') /\
      well_built (Branch ch') = true /\
      Permutation (entries (Branch ch'))
                  (map (fun d => (tree_path prefix_length d, d)) (done ++ rest)).
Proof.
  intros Hc done ch Hwb HP Hdone rest. revert done ch Hwb HP Hdone.
  induction rest as [| d t IH]; intros done ch Hwb HP Hdone Hrest.
  - exists ch. rewrite app_nil_r. now repeat split.
  - cbn [foldM]. unfold _insert_diff_into_tree at 1.
    destruct (insert_at_ok d
                (last (_get_remaining_path (path d) prefix_length) EmptyString)
                (removelast (_get_remaining_path (path d) prefix_length))
                ch Hwb) as [ch1 [Hi [Hw1 HP1]]].
    { intros q x Hq. apply (Permutation_in _ HP) in Hq.
      apply in_map_iff in Hq. destruct Hq as [a [E Ha]]. injection E as <- <-.
      apply Hc; [now apply Hdone | apply Hrest; now left]. }
    rewrite Hi. cbn [bind].
    destruct (IH (done ++ [d]) ch1 Hw1) as [ch' [Hf [Hw' HP']]].
    + rewrite HP1, HP, map_app. simpl. apply Permutation_cons_append.
    + intros a Ha. apply in_app_or in Ha. destruct Ha as [Ha | [<- | []]];
        [now apply Hdone | apply Hrest; now left].
    + intros a Ha. apply Hrest. now right.
    + exists ch'. rewrite <- app_assoc in HP'. now repeat split.
Qed.

(** ** The report: walking the nested dictionary *)

(** The records that the lines of a report are about. *)
Definition line_records (lines : list Line) : list DiffItem :=
  flat_map (fun l => match l with
                     | Header _ _ => []
                     | DiffLine d _ => [d]
                     | EnvLine d _ => [d]
                     end) lines.

Lemma line_records_app (a b : list Line) :
  line_records (a ++ b) = line_records a ++ line_records b.
Proof. apply flat_map_app. Qed.

Lemma line_records_add_diff_line (diffs : list DiffItem) (indent : nat) :
  line_records (map (fun diff => _add_diff_line diff indent) diffs) = diffs.
Proof.
  induction diffs as [| d t IH]; simpl; [reflexivity |].
  unfold _add_diff_line at 1. destruct (is_env_path (path d)); simpl; now rewrite IH.
Qed.

Lemma sorted_strs_perm (ks : list string) : Permutation (sorted_strs ks) ks.
Proof.
  unfold sorted_strs. rewrite sort_keyed_perm, map_map. simpl. now rewrite map_id.
Qed.

Lemma appends_extend (D : Type) (l : list D) : appends (fun s => Ok (s ++ l)).
Proof. intros s. reflexivity. Qed.

(** Looking up every key of a dictionary visits every item. *)
Lemma visit_items (V B : Type) (F : string -> V -> res (list B))
  (P : string -> V -> list B -> Prop) (d : list (string * V)) :
  NoDup (keys d) ->
  (forall k v, In (k, v) d -> exists g, F k v = Ok g /\ P k v g) ->
  exists gs,
    mapM (fun k => v <- subscript String.eqb d k ;; F k v) (keys d) = Ok gs /\
    Forall2 (fun kv g => P (fst kv) (snd kv) g) d gs.
Proof.
  intros Hnd HF.
  assert (Hsub : forall l, (forall kv, In kv l -> In kv d) ->
            exists gs,
              mapM (fun k => v <- subscript String.eqb d k ;; F k v) (keys l) = Ok gs /\
              Forall2 (fun kv g => P (fst kv) (snd kv) g) l gs).
  { induction l as [| [k v] t IH]; intros Hin; simpl.
    - exists []. split; [reflexivity | constructor].
    - rewrite (subscript_In _ k v d Hnd (Hin _ (or_introl eq_refl))). cbn [bind].
      destruct (HF k v (Hin _ (or_introl eq_refl))) as [g [-> Hg]]. cbn [bind].
      destruct IH as [gs [-> Hgs]]; [intros kv Hkv; apply Hin; now right |].
      exists (g :: gs). split; [reflexivity | now constructor]. }
  apply Hsub. auto.
Qed.

Lemma visit_sorted (V B : Type) (F : string -> V -> res (list B))
  (P : string -> V -> list B -> Prop) (d : list (string * V)) :
  NoDup (keys d) ->
  (forall k v, In (k, v) d -> exists g, F k v = Ok g /\ P k v g) ->
  exists gs out,
    Forall2 (fun kv g => P (fst kv) (snd kv) g) d gs /\
    foldM (fun acc k => v <- subscript String.eqb d k ;;
                        g <- F k v ;; Ok (acc ++ g))
          (sorted_strs (keys d)) [] = Ok out /\
    Permutation out (List.concat gs).
Proof.
  intros Hnd HF. destruct (visit_items V B F P d Hnd HF) as [gs [Hm Hall]].
  destruct (mapM_permuted _ _ _ _ _ (Permutation_sym (sorted_strs_perm (keys d)))
              _ Hm) as [gs' [Hm' HP]].
  exists gs, (List.concat gs'). split; [exact Hall |]. split; [| exact HP].
  rewrite foldM_concat.
  - match goal with |- context [mapM ?f _] =>
      replace (mapM f (sorted_strs (keys d)))
        with (mapM (fun k => v <- subscript String.eqb d k ;; F k v)
                   (sorted_strs (keys d)))
    end.
    + now rewrite Hm'.
    + clear. induction (sorted_strs (keys d)) as [| k t IH]; simpl; [reflexivity |].
      rewrite IH. destruct (subscript String.eqb d k); simpl; try reflexivity.
      destruct (F k a); reflexivity.
  - intros k. apply appends_bind. intros v. apply appends_bind. intros g.
    apply appends_extend.
Qed.

Definition env_free (t : node) : Prop :=
  forall q x, In (q, x) (entries t) -> ~ In "env" q.

(** The body of the loop of [_tree_to_diff_lines], on the value found. *)
Definition tree_lines_of (fuel indent : nat) (parent_key key : string)
  (value : node) : res (list Line) :=
  match value with
  | Branch children =>
      if String.eqb parent_key "env" && bracketed key then
        Ok (map (fun diff => EnvLine diff indent)
                (_combine_complementary_env_diffs (collect_env_diffs value)))
      else
        sub <- _tree_to_diff_lines fuel children (indent + 1) key ;;
        Ok (Header (indent * 2) key :: sub)
  | Leaf diffs => Ok (map (fun diff => _add_diff_line diff indent) diffs)
  end.

Lemma _tree_to_diff_lines_unfold (fuel : nat) (tree : list (string * node))
  (indent : nat) (parent_key : string) :
  _tree_to_diff_lines (S fuel) tree indent parent_key
  = foldM (fun acc k => v <- subscript String.eqb tree k ;;
                        g <- tree_lines_of fuel indent parent_key k v ;;
                        Ok (acc ++ g))
          (sorted_strs (keys tree)) [].
Proof.
  cbn [_tree_to_diff_lines].
  generalize (@nil Line). induction (sorted_strs (keys tree)) as [| k t IH];
    intros acc; simpl; [reflexivity |].
  destruct (subscript String.eqb tree k) as [v | |]; simpl; try reflexivity.
  destruct v as [children | diffs]; simpl.
  - destruct (String.eqb parent_key "env" && bracketed k); simpl; [apply IH |].
    destruct (_tree_to_diff_lines fuel children (indent + 1) k); simpl;
      [apply IH | reflexivity | reflexivity].
  - apply IH.
Qed.

Lemma map_snd_entries_branch (ch : list (string * node)) :
  map snd (entries (Branch ch))
  = flat_map (fun kv => map snd (entries (snd kv))) ch.
Proof.
  simpl. induction ch as [| [k c] t IH]; simpl; [reflexivity |].
  rewrite map_app, IH, map_map. reflexivity.
Qed.

Lemma env_free_child (ch : list (string * node)) (k : string) (c : node) :
  env_free (Branch ch) -> In (k, c) ch -> entries c <> [] ->
  k <> "env" /\ env_free c.
Proof.
  intros Henv Hin Hne. split.
  - destruct (entries c) as [| [q x] t] eqn:He; [now contradiction Hne |].
    intros ->. apply (Henv ("env" :: q) x); [| now left].
    apply entries_branch_In. exists "env", c, q. rewrite He.
    repeat split; [exact Hin | now left].
  - intros q x Hq Hin'. apply (Henv (k :: q) x); [| now right].
    apply entries_branch_In. now exists k, c, q.
Qed.

Lemma tree_level_ok (fuel : nat) (ch : list (string * node)) (indent : nat)
  (pk : string) :
  well_built (Branch ch) = true ->
  (forall k children, In (k, Branch children) ch ->
     exists sub,
       _tree_to_diff_lines fuel children (indent + 1) k = Ok sub /\
       (k <> "env" -> env_free (Branch children) ->
        Permutation (line_records sub) (map snd (entries (Branch children))))) ->
  exists lines,
    _tree_to_diff_lines (S fuel) ch indent pk = Ok lines /\
    (pk <> "env" -> env_free (Branch ch) ->
     Permutation (line_records lines) (map snd (entries (Branch ch)))).
Proof.
  intros Hwb Hrec. rewrite _tree_to_diff_lines_unfold.
  pose proof Hwb as Hwb'. apply well_built_branch in Hwb'.
  destruct Hwb' as [Hnd Hall].
  destruct (visit_sorted _ _ (tree_lines_of fuel indent pk)
              (fun k c g => pk <> "env" -> env_free (Branch ch) ->
                            Permutation (line_records g) (map snd (entries c)))
              ch Hnd) as [gs [out [Hgs [Hf HP]]]].
  { intros k c Hin. destruct (Hall _ _ Hin) as [Hne Hwc].
    destruct c as [children | diffs].
    - destruct (Hrec _ _ Hin) as [sub [Hsub Psub]]. unfold tree_lines_of.
      destruct (String.eqb pk "env") eqn:Epk; cbn [andb].
      + apply String.eqb_eq in Epk.
        destruct (bracketed k).
        * eexists. split; [reflexivity |]. intros Hn. now contradiction Hn.
        * rewrite Hsub. cbn [bind]. eexists. split; [reflexivity |].
          intros Hn. now contradiction Hn.
      + rewrite Hsub. cbn [bind]. eexists. split; [reflexivity |].
        intros _ Henv. destruct (env_free_child _ _ _ Henv Hin Hne) as [Hk Hc].
        simpl line_records. now apply Psub.
    - eexists. split; [reflexivity |]. intros _ _.
      rewrite line_records_add_diff_line. simpl. rewrite map_map. simpl.
      rewrite map_id. apply Permutation_refl. }
  exists out. split; [exact Hf |]. intros Hpk Henv.
  rewrite map_snd_entries_branch. unfold line_records at 1.
  rewrite (Permutation_flat_map _ HP). fold (line_records (List.concat gs)).
  clear Hf HP. induction Hgs as [| [k c] g ch' gs' Hg Hgs IH]; simpl;
    [constructor |].
  rewrite line_records_app. apply Permutation_app; [now apply Hg | exact IH].
Qed.

Lemma tree_to_diff_lines_ok :
  forall (fuel : nat) (ch : list (string * node)) (indent : nat) (pk : string),
    well_built (Branch ch) = true ->
    (forall q x, In (q, x) (entries (Branch ch)) -> List.length q <= S fuel) ->
    exists lines,
      _tree_to_diff_lines (S fuel) ch indent pk = Ok lines /\
      (pk <> "env" -> env_free (Branch ch) ->
       Permutation (line_records lines) (map snd (entries (Branch ch)))).
Proof.
  induction fuel as [| f IH]; intros ch indent pk Hwb Hlen;
    apply tree_level_ok; try exact Hwb;
    intros k children Hin;
    pose proof Hwb as Hwb'; apply well_built_branch in Hwb';
    destruct Hwb' as [_ Hall]; destruct (Hall _ _ Hin) as [Hne Hwc].
  - exfalso. destruct (entries (Branch children)) as [| [q x] t] eqn:He;
      [now apply Hne |].
    assert (Hq : In (q, x) (entries (Branch children))) by (rewrite He; now left).
    pose proof Hq as Hq'. apply entries_branch_In in Hq'.
    destruct Hq' as [k0 [c0 [q0 [_ [_ ->]]]]].
    assert (Hp : In (k :: k0 :: q0, x) (entries (Branch ch))).
    { apply entries_branch_In. now exists k, (Branch children), (k0 :: q0). }
    apply Hlen in Hp. simpl in Hp. lia.
  - apply IH; [exact Hwc |]. intros q x Hq.
    assert (Hp : In (k :: q, x) (entries (Branch ch))).
    { apply entries_branch_In. now exists k, (Branch children), q. }
    apply Hlen in Hp. simpl in Hp. lia.
Qed.

(** ** The report: every record once *)

Lemma group_keys_NoDup (differences : list DiffItem) :
  NoDup (keys (fold_left add_to_group differences [])).
Proof.
  assert (Hnil : NoDup (keys (@nil (string * list DiffItem)))) by constructor.
  revert Hnil. generalize (@nil (string * list DiffItem)).
  induction differences as [| d t IH]; intros g Hg; simpl; [exact Hg |].
  apply IH. now apply add_to_group_NoDup.
Qed.

Lemma add_to_group_records (grouped : list (string * list DiffItem))
  (diff : DiffItem) :
  Permutation (flat_map snd (add_to_group grouped diff))
              (flat_map snd grouped ++ [diff]).
Proof.
  unfold add_to_group, dict_has.
  set (g := _find_group_key (path diff)).
  destruct (dict_get String.eqb g grouped) as [l |] eqn:Hg.
  - rewrite Hg.
    pose proof (dict_set_split _ g (l ++ [diff]) grouped) as Hs. rewrite Hg in Hs.
    destruct Hs as [d1 [d2 [-> ->]]]. rewrite !flat_map_app. simpl.
    rewrite <- !app_assoc. apply Permutation_app_head, Permutation_app_head.
    apply Permutation_app_comm.
  - rewrite dict_get_set_same, dict_set_twice.
    pose proof (dict_set_split _ g ([] ++ [diff]) grouped) as Hs. rewrite Hg in Hs.
    rewrite Hs, flat_map_app. simpl. apply Permutation_refl.
Qed.

Lemma group_records (differences : list DiffItem) :
  Permutation (flat_map snd (fold_left add_to_group differences [])) differences.
Proof.
  enough (Hg : forall g, Permutation (flat_map snd (fold_left add_to_group differences g))
                                     (flat_map snd g ++ differences))
    by apply (Hg []).
  induction differences as [| d t IH]; intros g; simpl.
  - now rewrite app_nil_r.
  - rewrite IH, add_to_group_records, <- app_assoc. apply Permutation_refl.
Qed.

Lemma split_dot_whole (s : string) :
  str_contains_char "."%char s = false -> split_dot s = [s].
Proof.
  induction s as [| c t IH]; simpl; [reflexivity |].
  rewrite orb_false_iff. intros [Hc Ht]. rewrite Hc, (IH Ht). reflexivity.
Qed.

Lemma tree_path_tail (g : string) (r : list string) (d : DiffItem) :
  path d = g :: r ->
  tree_path 1 d = match r with [] => [EmptyString] | _ :: _ => r end.
Proof.
  intros E. unfold tree_path, _get_remaining_path. rewrite E.
  destruct r as [| a r]; [reflexivity |].
  cbn [List.length Nat.ltb Nat.leb skipn].
  symmetry. apply app_removelast_last. discriminate.
Qed.

Definition prefix_free (differences : list DiffItem) : Prop :=
  forall a b, In a differences -> In b differences ->
              extends (path a) (path b) -> path a = path b.

Lemma tree_paths_compatible (differences : list DiffItem) (g : string)
  (a b : DiffItem) (ra rb : list string) :
  prefix_free differences -> In a differences -> In b differences ->
  path a = g :: ra -> path b = g :: rb ->
  compatible (tree_path 1 a) (tree_path 1 b).
Proof.
  intros Hpf Ha Hb Ea Eb.
  rewrite (tree_path_tail g ra a Ea), (tree_path_tail g rb b Eb).
  assert (Hab : extends ra rb -> ra = rb).
  { intros [x E]. assert (Hp : path a = path b).
    { apply Hpf; try assumption. exists x. rewrite Ea, Eb, E. reflexivity. }
    rewrite Ea, Eb in Hp. now injection Hp. }
  assert (Hba : extends rb ra -> ra = rb).
  { intros [x E]. assert (Hp : path b = path a).
    { apply Hpf; try assumption. exists x. rewrite Ea, Eb, E. reflexivity. }
    rewrite Ea, Eb in Hp. now injection Hp. }
  destruct ra as [| a0 ra], rb as [| b0 rb].
  - split; reflexivity.
  - assert (E : @nil string = b0 :: rb) by (apply Hab; now exists (b0 :: rb)).
    discriminate.
  - assert (E : a0 :: ra = @nil string) by (apply Hba; now exists (a0 :: ra)).
    discriminate.
  - split; intros Hx.
    + now apply Hab.
    + now apply Hba.
Qed.

(** The body of the loop of [_grouped_diffs_to_lines], on the records
    found. *)
Definition group_lines_of (fuel : nat) (group_path : string)
  (diffs : list DiffItem) : res (list Line) :=
  match group_path with
  | EmptyString => Ok (map (fun diff => _add_diff_line diff 0) diffs)
  | String _ _ =>
      sub <- _add_grouped_diffs fuel diffs (List.length (split_dot group_path)) ;;
      Ok (map (fun ip => Header (fst ip * 2) (snd ip))
              (combine (seq 0 (List.length (split_dot group_path)))
                       (split_dot group_path)) ++ sub)
  end.

Lemma _grouped_diffs_to_lines_unfold (fuel : nat)
  (grouped : list (string * list DiffItem)) :
  _grouped_diffs_to_lines fuel grouped
  = foldM (fun acc k => v <- subscript String.eqb grouped k ;;
                        g <- group_lines_of fuel k v ;;
                        Ok (acc ++ g))
          (sorted_strs (keys grouped)) [].
Proof.
  unfold _grouped_diffs_to_lines.
  generalize (@nil Line). induction (sorted_strs (keys grouped)) as [| k t IH];
    intros acc; simpl; [reflexivity |].
  destruct (subscript String.eqb grouped k) as [v | |]; simpl; try reflexivity.
  destruct k as [| c k]; simpl; [apply IH |].
  destruct (_add_grouped_diffs fuel v _); simpl;
    [apply IH | reflexivity | reflexivity].
Qed.

Lemma line_records_headers (ips : list (nat * string)) :
  line_records (map (fun ip => Header (fst ip * 2) (snd ip)) ips) = [].
Proof. induction ips as [| ip t IH]; simpl; [reflexivity | exact IH]. Qed.

Lemma group_key_head (d : DiffItem) (c : ascii) (k : string) :
  _find_group_key (path d) = String c k ->
  exists r, path d = String c k :: r.
Proof.
  unfold _find_group_key. destruct (path d) as [| a r]; [discriminate |].
  intros ->. now exists r.
Qed.

Lemma add_grouped_diffs_ok (fuel : nat) (differences diffs : list DiffItem)
  (g : string) :
  prefix_free differences ->
  (forall d, In d diffs -> In d differences) ->
  (forall d, In d diffs -> exists r, path d = g :: r) ->
  (forall d, In d diffs -> List.length (path d) < fuel) ->
  0 < fuel ->
  exists lines,
    _add_grouped_diffs fuel diffs 1 = Ok lines /\
    ((forall d, In d diffs -> ~ In "env" (path d)) ->
     Permutation (line_records lines) diffs).
Proof.
  intros Hpf Hsub Hhead Hlen Hfuel. unfold _add_grouped_diffs.
  assert (Hcompat : forall a b, In a diffs -> In b diffs ->
            compatible (tree_path 1 a) (tree_path 1 b)).
  { intros a b Ha Hb. destruct (Hhead _ Ha) as [ra Ea], (Hhead _ Hb) as [rb Eb].
    apply (tree_paths_compatible differences g a b ra rb); auto. }
  destruct (build_tree_ok 1 diffs Hcompat [] [] eq_refl (Permutation_refl _)
              (fun a (Hf : In a []) => match Hf with end) diffs (fun a Ha => Ha))
    as [ch [Hf [Hwb HP]]].
  rewrite Hf. cbn [bind]. simpl app in HP.
  assert (Hbound : forall d, In d diffs ->
            List.length (tree_path 1 d) <= List.length (path d)).
  { intros d Hd. destruct (Hhead _ Hd) as [r E].
    rewrite (tree_path_tail g r d E), E. destruct r; simpl; lia. }
  assert (Hents : forall q x, In (q, x) (entries (Branch ch)) ->
            In x diffs /\ q = tree_path 1 x).
  { intros q x Hq. apply (Permutation_in _ HP) in Hq. apply in_map_iff in Hq.
    destruct Hq as [d [E Hd]]. injection E as <- <-. now split. }
  destruct fuel as [| f]; [lia |].
  destruct (tree_to_diff_lines_ok f ch 1 EmptyString Hwb) as [lines [Hl HPl]].
  { intros q x Hq. destruct (Hents _ _ Hq) as [Hx ->].
    specialize (Hbound _ Hx). specialize (Hlen _ Hx). lia. }
  exists lines. split; [exact Hl |]. intros Henv.
  rewrite HPl.
  - rewrite HP, map_map. simpl. rewrite map_id. apply Permutation_refl.
  - discriminate.
  - intros q x Hq Hin. destruct (Hents _ _ Hq) as [Hx ->].
    destruct (Hhead _ Hx) as [r E]. rewrite (tree_path_tail g r x E) in Hin.
    apply (Henv _ Hx). rewrite E. destruct r as [| a r].
    + destruct Hin as [Hin | []]. discriminate.
    + now right.
Qed.

Definition dot_free (d : DiffItem) : Prop :=
  str_contains_char "."%char (_find_group_key (path d)) = false.

Lemma format_as_tree_ok (fuel : nat) (differences : list DiffItem) :
  (forall d, In d differences -> dot_free d) ->
  prefix_free differences ->
  (forall d, In d differences -> List.length (path d) < fuel) ->
  exists lines,
    format_as_tree fuel differences = Ok lines /\
    ((forall d, In d differences -> ~ In "env" (path d)) ->
     Permutation (line_records lines) differences).
Proof.
  intros Hdot Hpf Hlen. unfold format_as_tree.
  destruct differences as [| d0 t0] eqn:Ed;
    [exists []; split; [reflexivity | intros _; constructor] |].
  rewrite <- Ed in *.
  assert (Hfuel : 0 < fuel).
  { assert (Hd0 : In d0 differences) by (rewrite Ed; now left).
    specialize (Hlen _ Hd0). lia. }
  clear Ed d0 t0.
  change (_group_differences_by_path differences)
    with (fold_left add_to_group differences []).
  rewrite _grouped_diffs_to_lines_unfold.
  set (grouped := fold_left add_to_group differences []).
  assert (Hgroup : forall k diffs, In (k, diffs) grouped ->
            diffs = filter (in_group k) differences).
  { intros k diffs Hin.
    pose proof (subscript_In _ k diffs grouped (group_keys_NoDup differences) Hin)
      as Hs.
    apply subscript_ok in Hs. unfold grouped in Hs. rewrite group_fold in Hs.
    simpl in Hs. destruct (filter (in_group k) differences); now inversion Hs. }
  destruct (visit_sorted _ _ (group_lines_of fuel)
              (fun k diffs g =>
                 (forall d, In d differences -> ~ In "env" (path d)) ->
                 Permutation (line_records g) diffs)
              grouped (group_keys_NoDup differences))
    as [gs [out [Hgs [Hf HP]]]].
  { intros k diffs Hin. pose proof (Hgroup _ _ Hin) as Hd.
    assert (Hmem : forall d, In d diffs ->
              In d differences /\ _find_group_key (path d) = k).
    { intros d Hd'. rewrite Hd in Hd'. apply filter_In in Hd'.
      destruct Hd' as [Hin' Hk]. split; [exact Hin' |].
      now apply String.eqb_eq in Hk. }
    destruct k as [| c k].
    - eexists. split; [reflexivity |]. intros _.
      now rewrite line_records_add_diff_line.
    - unfold group_lines_of.
      assert (Hsplit : split_dot (String c k) = [String c k]).
      { destruct diffs as [| d t].
        - exfalso. unfold grouped in Hin.
          pose proof (subscript_In _ _ _ _ (group_keys_NoDup differences) Hin) as Hs.
          apply subscript_ok in Hs. rewrite group_fold in Hs. simpl in Hs.
          destruct (filter _ differences); discriminate.
        - destruct (Hmem d (or_introl eq_refl)) as [Hin' Hk].
          apply split_dot_whole. rewrite <- Hk. now apply Hdot. }
      rewrite Hsplit. cbn [List.length].
      destruct (add_grouped_diffs_ok fuel differences diffs (String c k))
        as [sub [Hsub Psub]]; auto.
      + intros d Hd'. now apply Hmem.
      + intros d Hd'. apply group_key_head. now apply Hmem.
      + intros d Hd'. apply Hlen. now apply Hmem.
      + rewrite Hsub. cbn [bind]. eexists. split; [reflexivity |].
        intros Henv. rewrite line_records_app, line_records_headers. simpl.
        apply Psub. intros d Hd'. apply Henv. now apply Hmem. }
  exists out. split; [exact Hf |]. intros Henv.
  apply (Permutation_trans (l' := flat_map snd grouped));
    [| apply group_records].
  unfold line_records at 1. rewrite (Permutation_flat_map _ HP).
  fold (line_records (List.concat gs)).
  clear Hf HP Hgroup. induction Hgs as [| [k c] g ch' gs' Hg Hgs IH]; simpl;
    [constructor |].
  rewrite line_records_app. apply Permutation_app; [now apply Hg | exact IH].
Qed.

(** [format_as_tree] returns a report for every list of records in which
    no record's path leads into another's and no first path part holds a
    dot; when no path has a part [env], the report has exactly one line
    for each record. *)
Theorem format_as_tree_shows_every_record (fuel : nat)
  (differences : list DiffItem) :
  (forall d, In d differences -> dot_free d) ->
  prefix_free differences ->
  (forall d, In d differences -> List.length (path d) < fuel) ->
  exists lines,
    format_as_tree fuel differences = Ok lines /\
    ((forall d, In d differences -> ~ In "env" (path d)) ->
     Permutation (line_records lines) differences).
Proof. apply format_as_tree_ok. Qed.

Lemma format_as_tree_shows_every_record_witness :
  exists lines,
    format_as_tree 3 [mkDiffItem MODIFIED ["spec"; "replicas"] (VInt 1) (VInt 2);
                      mkDiffItem ADDED ["kind"] VNone (VStr "Pod")] = Ok lines /\
    ((forall d,
        In d [mkDiffItem MODIFIED ["spec"; "replicas"] (VInt 1) (VInt 2);
              mkDiffItem ADDED ["kind"] VNone (VStr "Pod")] ->
        ~ In "env" (path d)) ->
     Permutation (line_records lines)
       [mkDiffItem MODIFIED ["spec"; "replicas"] (VInt 1) (VInt 2);
        mkDiffItem ADDED ["kind"] VNone (VStr "Pod")]).
Proof.
  apply (format_as_tree_shows_every_record 3).
  - intros d [<- | [<- | []]]; reflexivity.
  - intros a b [<- | [<- | []]] [<- | [<- | []]] [x E]; simpl in E;
      try reflexivity; discriminate.
  - intros d [<- | [<- | []]]; simpl; lia.
Defined.

(** The report of the change set of two documents is always produced when
    no first path part holds a dot, and it has exactly one line for each
    record when no path has a part [env]. *)
Theorem change_set_report {H : Host} (fuel fuel' : nat) (left right : value)
  (here : list string) (records : list DiffItem) :
  unique_keys left = true -> unique_keys right = true ->
  compare fuel left right here [] = Ok records ->
  (forall d, In d records -> dot_free d) ->
  (forall d, In d records -> List.length (path d) < fuel') ->
  exists lines,
    format_as_tree fuel' records = Ok lines /\
    ((forall d, In d records -> ~ In "env" (path d)) ->
     Permutation (line_records lines) records).
Proof.
  intros Ul Ur Hc Hdot Hlen. apply format_as_tree_ok; try assumption.
  pose proof (compare_apart fuel _ _ _ _ Ul Ur Hc) as Ha.
  intros a b Hina Hinb Hext.
  destruct (ForallOrdPairs_In Ha a b Hina Hinb) as [-> | [[Hn _] | [_ Hn]]];
    [reflexivity | now contradiction Hn | now contradiction Hn].
Qed.

Lemma change_set_report_witness :
  exists lines,
    format_as_tree 3
      [mkDiffItem ADDED ["kind"] VNone (VStr "Pod");
       mkDiffItem MODIFIED ["spec"; "replicas"] (VInt 1) (VInt 2)] = Ok lines /\
    ((forall d,
        In d [mkDiffItem ADDED ["kind"] VNone (VStr "Pod");
              mkDiffItem MODIFIED ["spec"; "replicas"] (VInt 1) (VInt 2)] ->
        ~ In "env" (path d)) ->
     Permutation (line_records lines)
       [mkDiffItem ADDED ["kind"] VNone (VStr "Pod");
        mkDiffItem MODIFIED ["spec"; "replicas"] (VInt 1) (VInt 2)]).
Proof.
  apply (@change_set_report listing_host 3 3
           (VDict [("spec", VDict [("replicas", VInt 1)])])
           (VDict [("spec", VDict [("replicas", VInt 2)]); ("kind", VStr "Pod")])
           []).
  - reflexivity.
  - reflexivity.
  - reflexivity.
  - intros d [<- | [<- | []]]; reflexivity.
  - intros d [<- | [<- | []]]; simpl; lia.
Defined.

(** ** What normalization keeps *)

(** The scalars of a document, each with the mapping keys that lead to it;
    positions in sequences are left out. *)
Fixpoint fields (v : value) : list (list string * value) :=
  match v with
  | VList l => flat_map fields l
  | VDict d =>
      flat_map (fun kv => map (fun e => (fst kv :: fst e, snd e))
                              (fields (snd kv))) d
  | _ => [([], v)]
  end.

Section Keeps.
Context {H : Host}.

Lemma normalize_data_fields (n : nat) (v w : value) :
  normalize_data n v = Ok w -> Permutation (fields w) (fields v).
Proof.
  revert n v w.
  apply (normalize_data_ok_ind (fun _ v w => Permutation (fields w) (fields v))).
  - intros n v _. apply Permutation_refl.
  - intros n d d' Hall. simpl.
    induction Hall as [| kv kv' t t' [E [_ HP]] _ IH]; simpl; [constructor |].
    apply Permutation_app; [| exact IH]. rewrite E.
    apply Permutation_map. exact HP.
  - intros n l l0 l' Hl0 Hall. simpl.
    assert (Hperm : Permutation l0 l).
    { destruct (_should_sort_list l); [| subst l0; apply Permutation_refl].
      eapply sorted_perm. exact Hl0. }
    clear Hl0.
    apply (Permutation_trans (l' := flat_map fields l0));
      [| now apply Permutation_flat_map].
    clear Hperm. induction Hall as [| x y t t' [_ HP] _ IH]; simpl; [constructor |].
    now apply Permutation_app.
Qed.

Lemma sorted_keys (l l0 : list value) :
  sorted _get_sort_key l = Ok l0 ->
  exists ks, mapM _get_sort_key l0 = Ok ks /\
             StronglySorted (fun a b => str_lt b a = false) ks.
Proof.
  unfold sorted. destruct (mapM _get_sort_key l) as [ks0 | |] eqn:Hk; simpl;
    try discriminate.
  intros [= <-].
  assert (Hpairs : Forall (fun p => _get_sort_key (snd p) = Ok (fst p))
                     (sort_keyed (combine ks0 l))).
  { apply Forall_forall. intros p Hp.
    apply (Permutation_in _ (sort_keyed_perm _)) in Hp.
    apply mapM_Forall2 in Hk. clear -Hk Hp.
    induction Hk as [| x k t kt Hx _ IH]; simpl in Hp; [destruct Hp |].
    destruct Hp as [<- | Hp]; [exact Hx | now apply IH]. }
  exists (map fst (sort_keyed (combine ks0 l))). split.
  - induction Hpairs as [| p t Hp _ IH]; simpl; [reflexivity |].
    now rewrite Hp, IH.
  - clear Hpairs. pose proof (sort_keyed_sorted (combine ks0 l)) as Hs.
    induction Hs as [| p t _ IH Hp]; simpl; constructor;
      [exact IH |].
    apply Forall_forall. intros b Hb. apply in_map_iff in Hb.
    destruct Hb as [q [<- Hq]]. rewrite Forall_forall in Hp. exact (Hp q Hq).
Qed.

End Keeps.

(** Normalization only reorders: every scalar of the document is in the
    normal form, under the same mapping keys, and nothing else is. *)
Theorem normalize_data_only_reorders {H : Host} (fuel : nat) (v w : value) :
  normalize_data fuel v = Ok w ->
  Permutation (fields w) (fields v) /\ type_of w = type_of v.
Proof.
  intros Hn. split; [now apply (normalize_data_fields fuel) |].
  eapply proj2. eapply normalize_data_shape. exact Hn.
Qed.

Lemma normalize_data_only_reorders_witness :
  Permutation
    (fields (VList [named "a" 1; named "b" 2]))
    (fields (VList [named "b" 2; named "a" 1])) /\
  type_of (VList [named "a" 1; named "b" 2])
  = type_of (VList [named "b" 2; named "a" 1]).
Proof.
  apply (@normalize_data_only_reorders listing_host 3). reflexivity.
Defined.

(** The normal form of a sequence that is sorted is in ascending order of
    the keys of its elements, when the keys are printed from scalars. *)
Theorem normalize_data_ascending {H : Host} (fuel : nat) (l l' : list value) :
  _should_sort_list l = true ->
  forallb key_is_scalar l = true ->
  normalize_data fuel (VList l) = Ok (VList l') ->
  exists ks,
    mapM _get_sort_key l' = Ok ks /\
    StronglySorted (fun a b => str_lt b a = false) ks.
Proof.
  intros Hs Hk Hn. pose proof Hn as Hi. apply normalize_data_inv in Hi. simpl in Hi.
  destruct Hi as [l0 [l1 [E [Hl0 Hall]]]]. injection E as <-.
  rewrite Hs in Hl0. destruct (sorted_keys l l0 Hl0) as [ks [Hks Hsorted]].
  exists ks. split; [| exact Hsorted].
  rewrite forallb_forall in Hk.
  assert (Hk0 : forall x, In x l0 -> key_is_scalar x = true).
  { intros x Hx. apply Hk. now apply (sorted_In x Hl0). }
  clear Hl0 Hsorted Hn Hs Hk. revert ks Hks.
  induction Hall as [| x y t t' [m [_ Hxy]] _ IH]; intros ks Hks; simpl in *;
    [exact Hks |].
  rewrite (_get_sort_key_normalized _ _ _ Hxy (Hk0 x (or_introl eq_refl))).
  destruct (_get_sort_key x); simpl in *; try discriminate.
  destruct (mapM _get_sort_key t) as [kt | |] eqn:Ht; simpl in *; try discriminate.
  rewrite (IH (fun z Hz => Hk0 z (or_intror Hz)) kt eq_refl). exact Hks.
Qed.

Lemma normalize_data_ascending_witness :
  exists ks,
    mapM _get_sort_key [named "a" 1; named "b" 2] = Ok ks /\
    StronglySorted (fun a b => str_lt b a = false) ks.
Proof.
  apply (@normalize_data_ascending listing_host 3 [named "b" 2; named "a" 1]);
    reflexivity.
Defined.

(** ** Sequences of scalars *)

Fixpoint added_from (p : list string) (i : nat) (rs : list value) : list DiffItem :=
  match rs with
  | [] => []
  | r :: rs' =>
      mkDiffItem ADDED (p ++ [index_segment i]) VNone r :: added_from p (S i) rs'
  end.

Fixpoint removed_from (p : list string) (i : nat) (ls : list value) : list DiffItem :=
  match ls with
  | [] => []
  | l :: ls' =>
      mkDiffItem REMOVED (p ++ [index_segment i]) l VNone :: removed_from p (S i) ls'
  end.

(** Position by position: a Modified record where the two scalars differ,
    then the elements only one side has. *)
Fixpoint positional_diffs (p : list string) (i : nat) (ls rs : list value)
  : list DiffItem :=
  match ls, rs with
  | l :: ls', r :: rs' =>
      (if py_ne l r then [mkDiffItem MODIFIED (p ++ [index_segment i]) l r] else [])
      ++ positional_diffs p (S i) ls' rs'
  | [], _ => added_from p i rs
  | _, [] => removed_from p i ls
  end.

Section Scalars.
Context {H : Host}.

Lemma compare_scalars (n : nat) (x y : value) (p : list string) :
  is_scalar x = true -> is_scalar y = true ->
  compare (S n) x y p []
  = Ok (if py_ne x y then [mkDiffItem MODIFIED p x y] else []).
Proof.
  intros Hx Hy. rewrite compare_unfold.
  destruct x, y; try discriminate; simpl; unfold dispatch; simpl;
    try reflexivity;
    match goal with |- context [if ?b then _ else _] => destruct b end;
    reflexivity.
Qed.

Lemma normalize_scalars (n : nat) (l : list value) :
  forallb is_scalar l = true -> normalize_data (S (S n)) (VList l) = Ok (VList l).
Proof.
  intros Hl. cbn [normalize_data].
  assert (Hs : _should_sort_list l = false).
  { destruct l as [| x t]; [reflexivity |]. simpl in Hl.
    apply andb_true_iff in Hl. destruct Hl as [Hx _]. now destruct x. }
  rewrite Hs. rewrite mapM_id; [reflexivity |].
  intros x Hx. rewrite forallb_forall in Hl. specialize (Hl _ Hx).
  now destruct x.
Qed.

Lemma positional_common (n : nat) (p : list string) :
  forall (ls rs : list value) (i : nat) (pl pr : list value),
    forallb is_scalar ls = true -> forallb is_scalar rs = true ->
    List.length pl = i -> List.length pr = i ->
    exists bs,
      mapM (common_position (compare (S n)) p (pl ++ ls) (pr ++ rs))
           (seq i (Nat.min (List.length ls) (List.length rs))) = Ok bs /\
      List.concat bs ++
        (if Nat.ltb (List.length ls) (List.length rs)
         then added_from p (i + List.length ls) (skipn (List.length ls) rs)
         else removed_from p (i + List.length rs) (skipn (List.length rs) ls))
      = positional_diffs p i ls rs.
Proof.
  induction ls as [| l ls IH]; intros rs i pl pr Hl Hr Hpl Hpr.
  - simpl. exists []. split; [reflexivity |]. simpl.
    rewrite Nat.add_0_r. destruct rs; reflexivity.
  - destruct rs as [| r rs].
    + simpl. exists []. split; [reflexivity |]. simpl. now rewrite Nat.add_0_r.
    + simpl in Hl, Hr. apply andb_true_iff in Hl, Hr.
      destruct Hl as [Hl Hls], Hr as [Hr Hrs].
      cbn [List.length Nat.min seq mapM].
      unfold common_position at 1. unfold getitem.
      rewrite !nth_error_app2 by lia.
      replace (i - List.length pl) with 0 by lia.
      replace (i - List.length pr) with 0 by lia. cbn [nth_error bind].
      rewrite (compare_scalars n l r _ Hl Hr). cbn [bind].
      destruct (IH rs (S i) (pl ++ [l]) (pr ++ [r]) Hls Hrs) as [bs [Hbs Hcat]];
        try (rewrite length_app; simpl; lia).
      rewrite <- !app_assoc in Hbs. cbn [app] in Hbs. rewrite Hbs. cbn [bind].
      eexists. split; [reflexivity |].
      cbn [List.concat positional_diffs]. rewrite <- app_assoc. f_equal.
      rewrite <- Hcat. f_equal. cbn [skipn].
      replace (Nat.ltb (S (List.length ls)) (S (List.length rs)))
        with (Nat.ltb (List.length ls) (List.length rs)) by reflexivity.
      now rewrite !Nat.add_succ_r.
Qed.

Lemma mapM_added_position (p : list string) :
  forall (ex : list value) (i : nat) (pr : list value),
    List.length pr = i ->
    mapM (added_position p (pr ++ ex)) (seq i (List.length ex))
    = Ok (map (fun d => [d]) (added_from p i ex)).
Proof.
  induction ex as [| r ex IH]; intros i pr Hpr; simpl; [reflexivity |].
  unfold added_position at 1. unfold getitem. rewrite nth_error_app2 by lia.
  replace (i - List.length pr) with 0 by lia. cbn [nth_error bind].
  specialize (IH (S i) (pr ++ [r])). rewrite <- app_assoc in IH. simpl in IH.
  rewrite IH by (rewrite length_app; simpl; lia). reflexivity.
Qed.

Lemma mapM_removed_position (p : list string) :
  forall (ex : list value) (i : nat) (pl : list value),
    List.length pl = i ->
    mapM (removed_position p (pl ++ ex)) (seq i (List.length ex))
    = Ok (map (fun d => [d]) (removed_from p i ex)).
Proof.
  induction ex as [| l ex IH]; intros i pl Hpl; simpl; [reflexivity |].
  unfold removed_position at 1. unfold getitem. rewrite nth_error_app2 by lia.
  replace (i - List.length pl) with 0 by lia. cbn [nth_error bind].
  specialize (IH (S i) (pl ++ [l])). rewrite <- app_assoc in IH. simpl in IH.
  rewrite IH by (rewrite length_app; simpl; lia). reflexivity.
Qed.

Lemma concat_singletons (A : Type) (l : list A) :
  List.concat (map (fun d => [d]) l) = l.
Proof. induction l as [| x t IH]; simpl; [reflexivity | now rewrite IH]. Qed.

End Scalars.

(** Two sequences of scalars are compared position by position, whatever
    their order: one Modified record for each position at which the two
    scalars differ, then one Added or Removed record for each element
    only the longer side has. *)
Theorem compare_scalar_sequences {H : Host} (n : nat) (ls rs : list value)
  (here : list string) :
  forallb is_scalar ls = true -> forallb is_scalar rs = true ->
  compare (S (S n)) (VList ls) (VList rs) here []
  = Ok (positional_diffs here 0 ls rs).
Proof.
  intros Hl Hr. rewrite compare_concat.
  rewrite (normalize_scalars n ls Hl), (normalize_scalars n rs Hr). cbn [bind].
  unfold dispatch_buckets. cbn [type_of pytype_eqb negb].
  assert (Hs : _should_sort_list ls = false).
  { destruct ls as [| x t]; [reflexivity |]. simpl in Hl.
    apply andb_true_iff in Hl. destruct Hl as [Hx _]. now destruct x. }
  rewrite Hs. cbn [andb]. unfold positional_buckets.
  destruct (positional_common n here ls rs 0 [] [] Hl Hr eq_refl eq_refl)
    as [bs [Hbs Hcat]].
  simpl app in Hbs. rewrite Hbs. cbn [bind]. rewrite <- Hcat. simpl Nat.add.
  destruct (Nat.ltb (List.length ls) (List.length rs)) eqn:Hlt.
  - apply Nat.ltb_lt in Hlt.
    rewrite <- (firstn_skipn (List.length ls) rs) at 1.
    replace (List.length rs - List.length ls)
      with (List.length (skipn (List.length ls) rs)) by (rewrite length_skipn; lia).
    rewrite (mapM_added_position here)
      by (rewrite length_firstn; lia).
    cbn [bind]. now rewrite concat_app, concat_singletons.
  - apply Nat.ltb_ge in Hlt.
    destruct (Nat.ltb (List.length rs) (List.length ls)) eqn:Hgt.
    + rewrite <- (firstn_skipn (List.length rs) ls) at 1.
      replace (List.length ls - List.length rs)
        with (List.length (skipn (List.length rs) ls))
        by (rewrite length_skipn; lia).
      rewrite (mapM_removed_position here)
        by (rewrite length_firstn; apply Nat.ltb_lt in Hgt; lia).
      cbn [bind]. now rewrite concat_app, concat_singletons.
    + apply Nat.ltb_ge in Hgt. cbn [bind].
      rewrite skipn_all2 by lia. cbn [removed_from]. now rewrite !app_nil_r.
Qed.

Lemma compare_scalar_sequences_witness :
  compare 2 (VList [VInt 1; VInt 2; VInt 3]) (VList [VInt 2; VInt 1]) ["x"] []
  = Ok [mkDiffItem MODIFIED ["x"; "[0]"] (VInt 1) (VInt 2);
        mkDiffItem MODIFIED ["x"; "[1]"] (VInt 2) (VInt 1);
        mkDiffItem REMOVED ["x"; "[2]"] (VInt 3) VNone].
Proof.
  apply (@compare_scalar_sequences listing_host 0
           [VInt 1; VInt 2; VInt 3] [VInt 2; VInt 1] ["x"]); reflexivity.
Defined.

(** ** The report: the name of an env variable *)

Lemma drop_last_char_app (s : string) (c : ascii) :
  drop_last_char (s ++ String c EmptyString) = s.
Proof.
  induction s as [| a t IH]; simpl; [reflexivity |].
  rewrite IH. destruct t; reflexivity.
Qed.

Lemma strip_ends_bracket (key : string) : strip_ends (bracket key) = key.
Proof. unfold bracket. simpl. apply drop_last_char_app. Qed.

Lemma bracketed_bracket (key : string) : bracketed (bracket key) = true.
Proof.
  unfold bracketed, bracket. simpl.
  induction key as [| a t IH]; simpl; [reflexivity |].
  destruct (t ++ "]")%string eqn:E; [now destruct t | exact IH].
Qed.

Lemma find_env_name_found (path : list string) :
  is_env_path path = true <-> exists name, find_env_name path = Some name.
Proof.
  induction path as [| part rest IH]; simpl.
  - split; [discriminate | intros [n Hn]; discriminate].
  - destruct rest as [| next_part rest'].
    + simpl. rewrite andb_false_r. simpl.
      split; [discriminate | intros [n Hn]; discriminate].
    + destruct (String.eqb part "env" && bracketed next_part); simpl.
      * split; [intros _; eexists; reflexivity | reflexivity].
      * exact IH.
Qed.

(** [_add_diff_line] hands a record to the env printer exactly when the
    env printer finds a name in its path; the name is the key the
    comparator put in brackets after the first part [env], and the printer
    falls back to the plain layout only when that key is empty. *)
Theorem env_printer_finds_name :
  (forall path,
     is_env_path path = true <-> exists name, find_env_name path = Some name) /\
  (forall pre key rest,
     is_env_path pre = false ->
     find_env_name (pre ++ "env" :: derived_segment key :: rest) = Some key /\
     env_fallback (pre ++ "env" :: derived_segment key :: rest)
     = String.eqb key EmptyString).
Proof.
  split; [exact find_env_name_found |].
  intros pre key rest Hpre.
  assert (Hf : find_env_name (pre ++ "env" :: derived_segment key :: rest) = Some key).
  { induction pre as [| part pre' IH].
    - cbn [app find_env_name]. unfold derived_segment.
      rewrite String.eqb_refl, bracketed_bracket. cbn [andb].
      now rewrite strip_ends_bracket.
    - simpl in Hpre. apply orb_false_iff in Hpre. destruct Hpre as [Hhead Hpre'].
      cbn [app find_env_name].
      destruct pre' as [| next pre''].
      + cbn [app]. replace (bracketed "env") with false by reflexivity.
        rewrite andb_false_r. now apply IH.
      + cbn [app]. rewrite Hhead. now apply IH. }
  split; [exact Hf |]. unfold env_fallback. now rewrite Hf.
Qed.

(** ** Literal blocks *)

Fixpoint ends_with_newline (s : string) : bool :=
  match s with
  | EmptyString => false
  | String c EmptyString => Ascii.eqb c newline
  | String _ t => ends_with_newline t
  end.

(** The text without its last newline, if it ends with one. *)
Definition chomp (s : string) : string :=
  if ends_with_newline s then drop_last_char s else s.

Definition nl : string := String newline EmptyString.

Fixpoint no_newline (s : string) : bool :=
  match s with
  | EmptyString => true
  | String c t => negb (Ascii.eqb c newline) && no_newline t
  end.

Lemma split_on_not_nil (c : ascii) (s : string) : split_on c s <> [].
Proof.
  destruct s as [| a t]; simpl; [discriminate |].
  destruct (Ascii.eqb a c); [discriminate |].
  destruct (split_on c t); discriminate.
Qed.

Lemma join_cons (sep x : string) (l : list string) :
  l <> [] -> join sep (x :: l) = (x ++ sep ++ join sep l)%string.
Proof. destruct l; [now intros Hn | reflexivity]. Qed.

Lemma join_split (s : string) : join nl (split_on newline s) = s.
Proof.
  induction s as [| a t IH]; simpl; [reflexivity |].
  destruct (Ascii.eqb a newline) eqn:E.
  - apply Ascii.eqb_eq in E. subst a.
    rewrite join_cons by apply split_on_not_nil. simpl. now rewrite IH.
  - pose proof (split_on_not_nil newline t) as Hn.
    destruct (split_on newline t) as [| w ws]; [now contradiction Hn |].
    destruct ws as [| w' ws'].
    + simpl in *. now rewrite IH.
    + change (join nl (String a w :: w' :: ws'))
        with (String a (join nl (w :: w' :: ws'))).
      now rewrite IH.
Qed.

Lemma split_on_no_newline (s : string) :
  Forall (fun l => no_newline l = true) (split_on newline s).
Proof.
  induction s as [| a t IH]; simpl; [repeat constructor |].
  destruct (Ascii.eqb a newline) eqn:E; [now constructor |].
  pose proof (split_on_not_nil newline t) as Hn.
  destruct (split_on newline t) as [| w ws]; [now contradiction Hn |].
  inversion IH; subst. constructor; [| assumption]. simpl. now rewrite E.
Qed.

Lemma split_on_snoc (s : string) :
  split_on newline (s ++ nl) = split_on newline s ++ [EmptyString].
Proof.
  induction s as [| a t IH]; simpl; [reflexivity |].
  destruct (Ascii.eqb a newline); [now rewrite IH |].
  rewrite IH. pose proof (split_on_not_nil newline t) as Hn.
  now destruct (split_on newline t).
Qed.

Lemma ends_with_newline_snoc (s : string) :
  ends_with_newline s = true -> s = (drop_last_char s ++ nl)%string.
Proof.
  induction s as [| a t IH]; simpl; [discriminate |].
  destruct t as [| b t'].
  - intros E. apply Ascii.eqb_eq in E. now subst a.
  - intros E. simpl. f_equal. now apply IH.
Qed.

Lemma split_last_nonempty (s : string) :
  s <> EmptyString -> ends_with_newline s = false ->
  last (split_on newline s) EmptyString <> EmptyString.
Proof.
  induction s as [| a t IH]; [now intros Hn |]. intros _ He.
  destruct t as [| b t'].
  - simpl in *. rewrite He. simpl. discriminate.
  - assert (Ht : last (split_on newline (String b t')) EmptyString <> EmptyString)
      by (apply IH; [discriminate | exact He]).
    pose proof (split_on_not_nil newline (String b t')) as Hn.
    change (split_on newline (String a (String b t')))
      with (if Ascii.eqb a newline then EmptyString :: split_on newline (String b t')
            else match split_on newline (String b t') with
                 | [] => [String a EmptyString]
                 | w :: ws => String a w :: ws
                 end).
    destruct (split_on newline (String b t')) as [| w ws];
      [now contradiction Hn |].
    destruct (Ascii.eqb a newline).
    + exact Ht.
    + destruct ws as [| w' ws']; [discriminate | exact Ht].
Qed.

(** The lines [format_literal_block] keeps. *)
Definition block_lines (value : string) : list string :=
  match split_on newline value with
  | [] => []
  | _ :: _ =>
      if String.eqb (last (split_on newline value) EmptyString) EmptyString
      then removelast (split_on newline value) else split_on newline value
  end.

Lemma format_literal_block_lines (value : string) (indent_level : nat) :
  format_literal_block value indent_level
  = (String "|" nl
     ++ join nl (map (fun line => (str_repeat "  " indent_level ++ "  " ++ line)%string)
                     (block_lines value)))%string.
Proof.
  unfold format_literal_block, block_lines.
  now destruct (split_on newline value).
Qed.

Lemma block_lines_join (value : string) : join nl (block_lines value) = chomp value.
Proof.
  unfold block_lines, chomp.
  pose proof (split_on_not_nil newline value) as Hn.
  destruct (split_on newline value) as [| w ws] eqn:Es; [now contradiction Hn |].
  rewrite <- Es. clear Hn.
  destruct (ends_with_newline value) eqn:He.
  - pose proof (ends_with_newline_snoc _ He) as Hv.
    remember (drop_last_char value) as u eqn:Eu. clear Eu He Es. subst value.
    rewrite split_on_snoc, last_last. simpl String.eqb.
    rewrite removelast_last. apply join_split.
  - destruct value as [| a t].
    + reflexivity.
    + pose proof (split_last_nonempty (String a t)) as Hl.
      destruct (String.eqb _ EmptyString) eqn:E.
      * apply String.eqb_eq in E. exfalso. apply Hl; [discriminate | exact He | exact E].
      * apply join_split.
Qed.

Lemma block_lines_no_newline (value : string) :
  Forall (fun l => no_newline l = true) (block_lines value).
Proof.
  unfold block_lines. pose proof (split_on_no_newline value) as Hall.
  destruct (split_on newline value) as [| w ws] eqn:Es; [constructor |].
  rewrite <- Es in *.
  destruct (String.eqb _ _); [| exact Hall].
  apply Forall_forall. intros x Hx. rewrite Forall_forall in Hall. apply Hall.
  clear -Hx. induction (split_on newline value) as [| y t IH]; [destruct Hx |].
  simpl in Hx. destruct t; [destruct Hx |].
  destruct Hx as [<- | Hx]; [now left | right; now apply IH].
Qed.

Lemma append_inv_head (p a b : string) : (p ++ a = p ++ b)%string -> a = b.
Proof. induction p as [| c p IH]; simpl; [auto |]. intros [= E]. now apply IH. Qed.

(** A text without newline, followed by nothing or by a newline and more,
    is read back in one way only. *)
Lemma first_line_inj (x y r1 r2 : string) :
  no_newline x = true -> no_newline y = true ->
  (r1 = EmptyString \/ exists t, r1 = String newline t) ->
  (r2 = EmptyString \/ exists t, r2 = String newline t) ->
  (x ++ r1 = y ++ r2)%string -> x = y /\ r1 = r2.
Proof.
  revert y. induction x as [| a x IH]; intros y Hx Hy H1 H2 E.
  - destruct y as [| b y]; [now split |]. exfalso. simpl in E, Hy.
    apply andb_true_iff in Hy. destruct Hy as [Hb _].
    destruct H1 as [-> | [t ->]]; [discriminate |].
    injection E as E _. subst b. now rewrite Ascii.eqb_refl in Hb.
  - simpl in Hx. apply andb_true_iff in Hx. destruct Hx as [Ha Hx].
    destruct y as [| b y].
    + exfalso. simpl in E. destruct H2 as [-> | [t ->]]; [discriminate |].
      injection E as E _. subst a. now rewrite Ascii.eqb_refl in Ha.
    + simpl in E, Hy. apply andb_true_iff in Hy. destruct Hy as [_ Hy].
      injection E as -> E. destruct (IH y Hx Hy H1 H2 E) as [-> ->]. now split.
Qed.

Lemma join_rest (l : list string) :
  (match l with [] => EmptyString | _ :: _ => (nl ++ join nl l)%string end)
  = EmptyString \/
  exists t, (match l with [] => EmptyString | _ :: _ => (nl ++ join nl l)%string end)
            = String newline t.
Proof. destruct l; [now left | right; eexists; reflexivity]. Qed.

Lemma join_cons_rest (x : string) (l : list string) :
  join nl (x :: l)
  = (x ++ match l with [] => EmptyString | _ :: _ => (nl ++ join nl l)%string end)%string.
Proof.
  destruct l; simpl; [| reflexivity].
  induction x as [| c x IH]; simpl; [reflexivity | now rewrite <- IH].
Qed.

Lemma join_lines_inj (l1 l2 : list string) :
  Forall (fun l => no_newline l = true /\ l <> EmptyString) l1 ->
  Forall (fun l => no_newline l = true /\ l <> EmptyString) l2 ->
  join nl l1 = join nl l2 -> l1 = l2.
Proof.
  intros H1. revert l2. induction H1 as [| x t [Hx Hxn] Ht IH]; intros l2 H2 E.
  - destruct H2 as [| y t2 [Hy Hyn] _]; [reflexivity |].
    rewrite join_cons_rest in E. simpl in E. destruct y; [now contradiction Hyn |].
    discriminate.
  - destruct H2 as [| y t2 [Hy Hyn] Ht2].
    + rewrite join_cons_rest in E. simpl in E. destruct x; [now contradiction Hxn |].
      discriminate.
    + rewrite !join_cons_rest in E.
      destruct (first_line_inj x y _ _ Hx Hy (join_rest t) (join_rest t2) E)
        as [-> Er].
      f_equal. apply IH; [exact Ht2 |].
      destruct t as [| a t'], t2 as [| b t2']; try reflexivity; try discriminate.
      now injection Er.
Qed.

Lemma no_newline_app (a b : string) :
  no_newline (a ++ b) = no_newline a && no_newline b.
Proof.
  induction a as [| c a IH]; simpl; [reflexivity |]. now rewrite IH, andb_assoc.
Qed.

Lemma no_newline_spaces (n : nat) : no_newline (str_repeat "  " n) = true.
Proof. induction n as [| n IH]; simpl; [reflexivity | exact IH]. Qed.

(** A literal block shows its text up to one newline at the end: two texts
    with the same block differ at most by that newline, and a text that
    does not end with a newline has the same block as the text followed
    by one. *)
Theorem format_literal_block_shows_text (indent_level : nat) :
  (forall v w,
     format_literal_block v indent_level = format_literal_block w indent_level ->
     chomp v = chomp w) /\
  (forall v,
     v <> EmptyString -> ends_with_newline v = false ->
     format_literal_block (v ++ nl) indent_level
     = format_literal_block v indent_level).
Proof.
  split.
  - intros v w E. rewrite !format_literal_block_lines in E.
    simpl in E. injection E as E.
    rewrite <- !block_lines_join. f_equal.
    set (pre := (str_repeat "  " indent_level ++ "  ")%string).
    assert (Hpre : forall u,
              Forall (fun l => no_newline l = true /\ l <> EmptyString)
                (map (fun line => (str_repeat "  " indent_level ++ "  " ++ line)%string)
                     (block_lines u))).
    { intros u. apply Forall_forall. intros x Hx. apply in_map_iff in Hx.
      destruct Hx as [l [<- Hl]].
      pose proof (block_lines_no_newline u) as Hn. rewrite Forall_forall in Hn.
      split.
      - rewrite !no_newline_app, no_newline_spaces, (Hn _ Hl). reflexivity.
      - destruct (str_repeat "  " indent_level); discriminate. }
    apply join_lines_inj in E; [| apply Hpre | apply Hpre].
    revert E. generalize (block_lines w). induction (block_lines v) as [| x t IH];
      intros [| y t2] E; try discriminate; [reflexivity |].
    simpl in E. injection E as E1 E2. f_equal; [| now apply IH].
    apply append_inv_head in E1. now injection E1.
  - intros v Hv He. rewrite !format_literal_block_lines. f_equal. f_equal.
    unfold block_lines. rewrite split_on_snoc, last_last. simpl String.eqb.
    pose proof (split_on_not_nil newline v) as Hn.
    destruct (split_on newline v ++ [EmptyString]) eqn:Ea;
      [now destruct (split_on newline v) |].
    rewrite <- Ea. rewrite removelast_last.
    destruct (split_on newline v) as [| a t] eqn:Es; [now contradiction Hn |].
    rewrite <- Es.
    pose proof (split_last_nonempty v Hv He) as Hl.
    destruct (String.eqb _ EmptyString) eqn:E; [| reflexivity].
    apply String.eqb_eq in E. now contradiction Hl.
Qed.

(** ** The path a comparison starts from *)

(** The record moved below a path. *)
Definition under (p : list string) (d : DiffItem) : DiffItem :=
  mkDiffItem (change_type d) (p ++ path d) (old_value d) (new_value d).

Lemma mapM_bind_map (A B C : Type) (f : A -> res C) (g : A -> res B) (h : B -> C)
  (ks : list A) :
  (forall k, f k = (b <- g k ;; Ok (h b))) ->
  mapM f ks = (bs <- mapM g ks ;; Ok (map h bs)).
Proof.
  intros Hf. induction ks as [| k t IH]; simpl; [reflexivity |].
  rewrite Hf, IH. destruct (g k); simpl; try reflexivity.
  destruct (mapM g t); reflexivity.
Qed.

Lemma under_app (p q : list string) (rs : list DiffItem) :
  map (under p) (map (under q) rs) = map (under (p ++ q)) rs.
Proof.
  rewrite map_map. apply map_ext. intros d. unfold under. simpl.
  now rewrite app_assoc.
Qed.

Section UnderPath.
Context {H : Host}.

Definition relocates (cmp : differ) : Prop :=
  forall l r p, cmp l r p [] = (rs <- cmp l r [] [] ;; Ok (map (under p) rs)).

Lemma relocates_segment (cmp : differ) (l r : value) (p : list string)
  (s : string) :
  relocates cmp ->
  cmp l r (p ++ [s]) [] = (rs <- cmp l r ([] ++ [s]) [] ;; Ok (map (under p) rs)).
Proof.
  intros Hc. rewrite (Hc l r (p ++ [s])), (Hc l r ([] ++ [s])).
  destruct (cmp l r [] []); simpl; try reflexivity.
  now rewrite under_app.
Qed.

Lemma keyed_buckets_under (seg : string -> string) (cmp : differ)
  (left right : list (string * value)) (p : list string) :
  relocates cmp ->
  keyed_buckets seg cmp left right p
  = (bs <- keyed_buckets seg cmp left right [] ;; Ok (map (map (under p)) bs)).
Proof.
  intros Hc. unfold keyed_buckets.
  rewrite (mapM_bind_map _ _ _ (added_record seg p right)
             (added_record seg [] right) (map (under p))).
  2:{ intros k. unfold added_record.
      destruct (subscript String.eqb right k); reflexivity. }
  destruct (mapM (added_record seg [] right) _) as [a | |]; simpl; try reflexivity.
  rewrite (mapM_bind_map _ _ _ (removed_record seg p left)
             (removed_record seg [] left) (map (under p))).
  2:{ intros k. unfold removed_record.
      destruct (subscript String.eqb left k); reflexivity. }
  destruct (mapM (removed_record seg [] left) _) as [r | |]; simpl; try reflexivity.
  rewrite (mapM_bind_map _ _ _ (common_records seg cmp p left right)
             (common_records seg cmp [] left right) (map (under p))).
  2:{ intros k. unfold common_records.
      destruct (subscript String.eqb left k); simpl; try reflexivity.
      destruct (subscript String.eqb right k); simpl; try reflexivity.
      now apply relocates_segment. }
  destruct (mapM (common_records seg cmp [] left right) _) as [c | |]; simpl;
    try reflexivity.
  now rewrite !map_app.
Qed.

Lemma positional_buckets_under (cmp : differ) (left right : list value)
  (p : list string) :
  relocates cmp ->
  positional_buckets cmp left right p
  = (bs <- positional_buckets cmp left right [] ;; Ok (map (map (under p)) bs)).
Proof.
  intros Hc. unfold positional_buckets.
  rewrite (mapM_bind_map _ _ _ (common_position cmp p left right)
             (common_position cmp [] left right) (map (under p))).
  2:{ intros i. unfold common_position.
      destruct (getitem left i); simpl; try reflexivity.
      destruct (getitem right i); simpl; try reflexivity.
      now apply relocates_segment. }
  destruct (mapM (common_position cmp [] left right) _) as [c | |]; simpl;
    try reflexivity.
  destruct (Nat.ltb (List.length left) (List.length right)).
  - rewrite (mapM_bind_map _ _ _ (added_position p right)
               (added_position [] right) (map (under p))).
    2:{ intros i. unfold added_position. destruct (getitem right i); reflexivity. }
    destruct (mapM (added_position [] right) _); simpl; try reflexivity.
    now rewrite map_app.
  - destruct (Nat.ltb (List.length right) (List.length left)).
    + rewrite (mapM_bind_map _ _ _ (removed_position p left)
                 (removed_position [] left) (map (under p))).
      2:{ intros i. unfold removed_position. destruct (getitem left i); reflexivity. }
      destruct (mapM (removed_position [] left) _); simpl; try reflexivity.
      now rewrite map_app.
    + simpl. now rewrite map_app.
Qed.

Lemma dispatch_buckets_under (cmp : differ) (ln rn : value) (p : list string) :
  relocates cmp ->
  dispatch_buckets cmp ln rn p
  = (bs <- dispatch_buckets cmp ln rn [] ;; Ok (map (map (under p)) bs)).
Proof.
  intros Hc. unfold dispatch_buckets.
  assert (Hm : forall t o n, [[mkDiffItem t p o n]]
                             = map (map (under p)) [[mkDiffItem t [] o n]]).
  { intros t o n. unfold under. simpl. now rewrite app_nil_r. }
  destruct (negb (pytype_eqb (type_of ln) (type_of rn)));
    [now rewrite Hm |].
  destruct ln as [| | | | | ll | dl], rn as [| | | | | lr | dr];
    try (destruct (py_ne _ _); [now rewrite Hm | reflexivity]).
  - destruct (_should_sort_list ll && _should_sort_list lr).
    + destruct (key_map ll); simpl; try reflexivity.
      destruct (key_map lr); simpl; try reflexivity.
      now apply keyed_buckets_under.
    + now apply positional_buckets_under.
  - now apply keyed_buckets_under.
Qed.

Lemma compare_relocates (n : nat) : relocates (compare n).
Proof.
  induction n as [| n IH]; intros l r p; [reflexivity |].
  rewrite !compare_concat.
  destruct (normalize_data (S n) l); cbn [bind]; try reflexivity.
  destruct (normalize_data (S n) r); cbn [bind]; try reflexivity.
  rewrite (dispatch_buckets_under (compare n) _ _ p IH).
  destruct (dispatch_buckets (compare n) _ _ []); cbn [bind]; try reflexivity.
  now rewrite concat_map.
Qed.

End UnderPath.

(** The path a comparison starts from is only put in front of the paths
    of its records: the records are those of the comparison started from
    the empty path, each moved below the starting path. *)
Theorem compare_under_path {H : Host} (fuel : nat) (left right : value)
  (here : list string) :
  compare fuel left right here []
  = (records <- compare fuel left right [] [] ;; Ok (map (under here) records)).
Proof. apply compare_relocates. Qed.

(** ** The report: when a record cannot be stored *)

Definition proper_prefix (q kp : list string) : Prop :=
  extends q kp /\ q <> kp.

Lemma dict_get_of_In (V : Type) (k : string) (v : V) (d : list (string * V)) :
  NoDup (keys d) -> In (k, v) d -> dict_get String.eqb k d = Some v.
Proof.
  intros Hnd Hin. apply subscript_ok. now apply subscript_In.
Qed.

Lemma insert_at_type_error (diff : DiffItem) (last_part : string) :
  forall (parts : list string) (ch : list (string * node)),
    well_built (Branch ch) = true ->
    (exists q x, In (q, x) (entries (Branch ch)) /\
                 proper_prefix q (parts ++ [last_part])) ->
    insert_at parts last_part diff (Branch ch) = Raise TypeError.
Proof.
  induction parts as [| part rest IH]; intros ch Hwb [q [x [Hq [[r Hr] Hne]]]];
    apply entries_branch_In in Hq; destruct Hq as [k [c [q' [Hin [Hq' ->]]]]].
  - exfalso. simpl in Hr. injection Hr as -> Hr.
    destruct q'; [now apply Hne | discriminate].
  - simpl in Hr. injection Hr as -> Hr.
    apply well_built_branch in Hwb. destruct Hwb as [Hnd Hall].
    destruct (Hall _ _ Hin) as [_ Hwc].
    cbn [insert_at]. unfold dict_has, subscript.
    rewrite (dict_get_of_In _ _ _ _ Hnd Hin). rewrite (dict_get_of_In _ _ _ _ Hnd Hin).
    cbn [bind]. destruct c as [ch0 | l].
    + rewrite (IH ch0 Hwc); [reflexivity |].
      exists q', x. split; [exact Hq' |]. split; [now exists r |].
      intros E. apply Hne. now rewrite E.
    + now destruct rest.
Qed.

Lemma insert_at_attribute_error (diff : DiffItem) (last_part : string) :
  forall (parts : list string) (ch : list (string * node)),
    well_built (Branch ch) = true ->
    (exists q x, In (q, x) (entries (Branch ch)) /\
                 proper_prefix (parts ++ [last_part]) q) ->
    insert_at parts last_part diff (Branch ch) = Raise AttributeError.
Proof.
  induction parts as [| part rest IH]; intros ch Hwb [q [x [Hq [[r Hr] Hne]]]];
    apply entries_branch_In in Hq; destruct Hq as [k [c [q' [Hin [Hq' E]]]]];
    subst q; simpl in Hr; injection Hr as -> Hr;
    apply well_built_branch in Hwb; destruct Hwb as [Hnd Hall];
    destruct (Hall _ _ Hin) as [_ Hwc];
    cbn [insert_at]; unfold dict_has, subscript;
    rewrite (dict_get_of_In _ _ _ _ Hnd Hin); rewrite (dict_get_of_In _ _ _ _ Hnd Hin);
    cbn [bind].
  - destruct c as [ch0 | l]; [reflexivity |].
    exfalso. simpl in Hq'. apply in_map_iff in Hq'. destruct Hq' as [d [E _]].
    injection E as <- _. now apply Hne.
  - destruct c as [ch0 | l].
    + rewrite (IH ch0 Hwc); [reflexivity |].
      exists q', x. split; [exact Hq' |]. split; [now exists r |].
      intros E. apply Hne. simpl. now rewrite E.
    + exfalso. simpl in Hq'. apply in_map_iff in Hq'. destruct Hq' as [d [E _]].
      injection E as <- _. now destruct rest.
Qed.

(** [_insert_diff_into_tree] raises [TypeError] when a record is already
    stored on the way to the new place, [AttributeError] when records are
    stored below the new place, and stores the record otherwise, keeping
    all the others. *)
Theorem insert_diff_into_tree_result (ch : list (string * node)) (diff : DiffItem)
  (remaining_path : list string) :
  well_built (Branch ch) = true ->
  ((exists q x, In (q, x) (entries (Branch ch)) /\
      proper_prefix q (removelast remaining_path
                       ++ [last remaining_path EmptyString])) ->
   _insert_diff_into_tree (Branch ch) diff remaining_path = Raise TypeError) /\
  ((exists q x, In (q, x) (entries (Branch ch)) /\
      proper_prefix (removelast remaining_path
                     ++ [last remaining_path EmptyString]) q) ->
   _insert_diff_into_tree (Branch ch) diff remaining_path = Raise AttributeError) /\
  ((forall q x, In (q, x) (entries (Branch ch)) ->
      compatible q (removelast remaining_path
                    ++ [last remaining_path EmptyString])) ->
   exists ch',
     _insert_diff_into_tree (Branch ch) diff remaining_path = Ok (Branch ch') /\
     Permutation (entries (Branch ch'))
       ((removelast remaining_path ++ [last remaining_path EmptyString], diff)
        :: entries (Branch ch))).
Proof.
  intros Hwb. unfold _insert_diff_into_tree. repeat split.
  - now apply insert_at_type_error.
  - now apply insert_at_attribute_error.
  - intros Hc. destruct (insert_at_ok diff _ _ ch Hwb Hc) as [ch' [Hi [_ HP]]].
    now exists ch'.
Qed.

Lemma insert_diff_into_tree_result_witness :
  _insert_diff_into_tree
    (Branch [("x", Branch [("k", Leaf [mkDiffItem MODIFIED ["a.b"; "x"; "k"]
                                         (VInt 1) (VInt 2)])])])
    (mkDiffItem MODIFIED ["a.b"; "x"; "k"; "m"] (VInt 1) (VInt 2))
    ["x"; "k"; "m"]
  = Raise TypeError.
Proof.
  apply (insert_diff_into_tree_result
           [("x", Branch [("k", Leaf [mkDiffItem MODIFIED ["a.b"; "x"; "k"]
                                        (VInt 1) (VInt 2)])])]
           (mkDiffItem MODIFIED ["a.b"; "x"; "k"; "m"] (VInt 1) (VInt 2))
           ["x"; "k"; "m"]).
  - reflexivity.
  - exists ["x"; "k"], (mkDiffItem MODIFIED ["a.b"; "x"; "k"] (VInt 1) (VInt 2)).
    split; [now left |]. split; [now exists ["m"] | discriminate].
Defined.

(** ** The order of the keys of a mapping *)

Lemma mapM_perm_any (A B : Type) (f : A -> res B) (l l' : list A) :
  Permutation l l' ->
  forall ms, mapM f l = Ok ms ->
  exists ms', mapM f l' = Ok ms' /\ Permutation ms' ms.
Proof.
  induction 1 as [| x l l' HP IH | x y l | l l' l'' HP1 IH1 HP2 IH2];
    intros ms; simpl.
  - intros [= <-]. exists []. split; [reflexivity | constructor].
  - destruct (f x) as [b | |]; simpl; try discriminate.
    destruct (mapM f l) as [ms0 | |]; simpl; try discriminate.
    intros [= <-]. destruct (IH ms0 eq_refl) as [ms0' [-> Pms]].
    exists (b :: ms0'). split; [reflexivity | now constructor].
  - destruct (f y) as [by_ | |]; simpl; try discriminate.
    destruct (f x) as [bx | |]; simpl; try discriminate.
    destruct (mapM f l) as [ms0 | |]; simpl; try discriminate.
    intros [= <-]. exists (bx :: by_ :: ms0). split; [reflexivity | constructor].
  - intros Hms. destruct (IH1 ms Hms) as [ms1 [H1 P1]].
    destruct (IH2 ms1 H1) as [ms2 [H2 P2]].
    exists ms2. split; [exact H2 | now transitivity ms1].
Qed.

Lemma mapM_ext_in (A B : Type) (f g : A -> res B) (l : list A) :
  (forall x, f x = g x) -> mapM f l = mapM g l.
Proof.
  intros Hfg. induction l as [| x t IH]; simpl; [reflexivity |].
  now rewrite Hfg, IH.
Qed.

Lemma dict_get_perm (V : Type) (k : string) (d d' : list (string * V)) :
  NoDup (keys d) -> Permutation d' d ->
  dict_get String.eqb k d' = dict_get String.eqb k d.
Proof.
  intros Hnd HP.
  assert (Hnd' : NoDup (keys d')).
  { apply (Permutation_NoDup (l := keys d)); [| exact Hnd].
    apply Permutation_map, Permutation_sym, HP. }
  destruct (dict_get String.eqb k d) as [v |] eqn:Hg.
  - apply dict_get_of_In; [exact Hnd' |].
    apply (Permutation_in _ (Permutation_sym HP)). now apply dict_get_In.
  - apply dict_get_none. apply dict_get_none in Hg. intros Hin. apply Hg.
    apply (Permutation_in _ (Permutation_map fst HP) Hin).
Qed.

Section KeyOrder.
Context {H : Host}.

Lemma key_run_perm (f : list string -> list string -> list string)
  (a a' b b' : list string) :
  (forall x y, NoDup x -> NoDup (f x y)) ->
  (forall x y x' y' k, (forall j, In j x' <-> In j x) ->
                       (forall j, In j y' <-> In j y) ->
                       In k (f x' y') -> In k (f x y)) ->
  NoDup a -> NoDup a' ->
  (forall j, In j a' <-> In j a) -> (forall j, In j b' <-> In j b) ->
  Permutation (set_iter (f a b)) (set_iter (f a' b')).
Proof.
  intros Hnd Hin Ha Ha' Hab Hbb. rewrite !set_iter_perm.
  apply NoDup_Permutation; [now apply Hnd | now apply Hnd |].
  intros k. split; intros Hk.
  - apply (Hin a' b' a b k); [intros j; symmetry; apply Hab
                             | intros j; symmetry; apply Hbb | exact Hk].
  - now apply (Hin a b a' b' k).
Qed.

Lemma keyed_buckets_perm (seg : string -> string) (cmp : differ)
  (left left' right right' : list (string * value)) (p : list string)
  (bs : list (list DiffItem)) :
  NoDup (keys left) -> NoDup (keys right) ->
  Permutation left' left -> Permutation right' right ->
  keyed_buckets seg cmp left right p = Ok bs ->
  exists bs', keyed_buckets seg cmp left' right' p = Ok bs' /\
              Permutation (List.concat bs') (List.concat bs).
Proof.
  intros Hl Hr Pl Pr. unfold keyed_buckets.
  assert (Hl' : NoDup (keys left')).
  { apply (Permutation_NoDup (l := keys left)); [| exact Hl].
    apply Permutation_map, Permutation_sym, Pl. }
  assert (Hr' : NoDup (keys right')).
  { apply (Permutation_NoDup (l := keys right)); [| exact Hr].
    apply Permutation_map, Permutation_sym, Pr. }
  assert (Il : forall j, In j (keys left') <-> In j (keys left)).
  { intros j. split; apply Permutation_in; [| apply Permutation_sym];
      now apply Permutation_map. }
  assert (Ir : forall j, In j (keys right') <-> In j (keys right)).
  { intros j. split; apply Permutation_in; [| apply Permutation_sym];
      now apply Permutation_map. }
  assert (Sl : forall k, subscript String.eqb left' k = subscript String.eqb left k).
  { intros k. unfold subscript. now rewrite (dict_get_perm _ k left left' Hl Pl). }
  assert (Sr : forall k, subscript String.eqb right' k = subscript String.eqb right k).
  { intros k. unfold subscript. now rewrite (dict_get_perm _ k right right' Hr Pr). }
  assert (Pdiff : forall a a' b b', NoDup a -> NoDup a' ->
            (forall j, In j a' <-> In j a) -> (forall j, In j b' <-> In j b) ->
            Permutation (set_iter (set_diff a b)) (set_iter (set_diff a' b'))).
  { intros a a' b b'. apply (key_run_perm set_diff).
    - intros x y Hx. now apply NoDup_filter.
    - intros x y x' y' k Hx Hy. rewrite !set_diff_In, Hx, Hy. tauto. }
  assert (Pinter : Permutation (set_iter (set_inter (keys left) (keys right)))
                               (set_iter (set_inter (keys left') (keys right')))).
  { apply (key_run_perm set_inter); auto.
    - intros x y Hx. now apply NoDup_filter.
    - intros x y x' y' k Hx Hy. rewrite !set_inter_In, Hx, Hy. tauto. }
  destruct (mapM (added_record seg p right) _) as [a | |] eqn:Ha; simpl;
    try discriminate.
  destruct (mapM (removed_record seg p left) _) as [r | |] eqn:Hrm; simpl;
    try discriminate.
  destruct (mapM (common_records seg cmp p left right) _) as [c | |] eqn:Hc; simpl;
    try discriminate.
  intros [= <-].
  destruct (mapM_permuted _ _ _ _ _ (Pdiff _ _ _ _ Hr Hr' Ir Il) _ Ha)
    as [a' [Ha' Pa]].
  destruct (mapM_permuted _ _ _ _ _ (Pdiff _ _ _ _ Hl Hl' Il Ir) _ Hrm)
    as [r' [Hr'' Prm]].
  destruct (mapM_permuted _ _ _ _ _ Pinter _ Hc) as [c' [Hc' Pc]].
  rewrite (mapM_ext_in _ _ (added_record seg p right') (added_record seg p right)),
          Ha'
    by (intros k; unfold added_record; now rewrite Sr).
  cbn [bind].
  rewrite (mapM_ext_in _ _ (removed_record seg p left') (removed_record seg p left)),
          Hr''
    by (intros k; unfold removed_record; now rewrite Sl).
  cbn [bind].
  rewrite (mapM_ext_in _ _ (common_records seg cmp p left' right')
             (common_records seg cmp p left right)), Hc'
    by (intros k; unfold common_records; now rewrite Sl, Sr).
  cbn [bind]. eexists. split; [reflexivity |].
  rewrite !concat_app. now rewrite Pa, Prm, Pc.
Qed.

End KeyOrder.

(** The order in which two mappings hold their keys changes at most the
    order of the records. *)
Theorem compare_mapping_key_order {H : Host} (fuel : nat)
  (d d' e e' : list (string * value)) (here : list string)
  (records : list DiffItem) :
  Permutation d d' -> Permutation e e' ->
  unique_keys (VDict d) = true -> unique_keys (VDict e) = true ->
  compare fuel (VDict d) (VDict e) here [] = Ok records ->
  exists records',
    compare fuel (VDict d') (VDict e') here [] = Ok records' /\
    Permutation records' records.
Proof.
  intros Pd Pe Ud Ue. destruct fuel as [| n]; [discriminate |].
  rewrite !compare_concat.
  destruct (normalize_data (S n) (VDict d)) as [ln | |] eqn:Hl; cbn [bind];
    try discriminate.
  destruct (normalize_data (S n) (VDict e)) as [rn | |] eqn:Hr; cbn [bind];
    try discriminate.
  pose proof (normalize_data_unique_keys _ _ _ Hl Ud) as Uln.
  pose proof (normalize_data_unique_keys _ _ _ Hr Ue) as Urn.
  cbn [normalize_data] in Hl, Hr |- *.
  destruct (mapM _ d) as [dn | |] eqn:Hd; cbn [bind] in Hl; try discriminate.
  destruct (mapM _ e) as [en | |] eqn:He; cbn [bind] in Hr; try discriminate.
  injection Hl as <-. injection Hr as <-.
  destruct (mapM_perm_any _ _ _ _ _ Pd _ Hd) as [dn' [-> Pdn]].
  destruct (mapM_perm_any _ _ _ _ _ Pe _ He) as [en' [-> Pen]].
  cbn [bind]. unfold dispatch_buckets. cbn [type_of pytype_eqb negb].
  destruct (keyed_buckets (fun key => key) (compare n) dn en here) as [bs | |] eqn:Hb;
    cbn [bind]; try discriminate.
  intros [= <-].
  destruct (keyed_buckets_perm (fun key => key) (compare n) dn dn' en en' here bs)
    as [bs' [-> Pbs]]; auto using unique_keys_dict.
  cbn [bind]. eexists. split; [reflexivity | exact Pbs].
Qed.

Lemma compare_mapping_key_order_witness :
  exists records',
    compare 2 (VDict [("b", VInt 2); ("a", VInt 1)])
              (VDict [("c", VInt 3); ("a", VInt 2)]) [] [] = Ok records' /\
    Permutation records'
      [mkDiffItem ADDED ["c"] VNone (VInt 3);
       mkDiffItem REMOVED ["b"] (VInt 2) VNone;
       mkDiffItem MODIFIED ["a"] (VInt 1) (VInt 2)].
Proof.
  apply (@compare_mapping_key_order listing_host 2
           [("a", VInt 1); ("b", VInt 2)] [("b", VInt 2); ("a", VInt 1)]
           [("a", VInt 2); ("c", VInt 3)] [("c", VInt 3); ("a", VInt 2)] []).
  - apply perm_swap.
  - apply perm_swap.
  - reflexivity.
  - reflexivity.
  - reflexivity.
Defined.

(** ** Paths as text, and back *)

Fixpoint plain (s : string) : bool :=
  match s with
  | EmptyString => true
  | String c t =>
      negb (Ascii.eqb c "["%char) && negb (Ascii.eqb c "."%char)
      && negb (Ascii.eqb c "]"%char) && plain t
  end.

(** A path part the parser reads back: a non-empty name without dot or
    bracket, or a bracketed text without closing bracket. *)
Definition readable (s : string) : Prop :=
  (s <> EmptyString /\ plain s = true) \/
  (exists k, s = bracket k /\ str_contains_char "]"%char k = false).

(** The part without its brackets. *)
Definition bare (s : string) : string :=
  if startswith_lbracket s then strip_ends s else s.

Lemma length_append (a b : string) :
  String.length (a ++ b) = String.length a + String.length b.
Proof. induction a as [| c a IH]; simpl; [reflexivity | now rewrite IH]. Qed.

Lemma append_assoc (a b c : string) : ((a ++ b) ++ c = a ++ (b ++ c))%string.
Proof. induction a as [| x a IH]; simpl; [reflexivity | now rewrite IH]. Qed.

Lemma append_nil_r (a : string) : (a ++ "")%string = a.
Proof. induction a as [| x a IH]; simpl; [reflexivity | now rewrite IH]. Qed.

Lemma parse_loop_plain (seg : string) :
  forall (fuel : nat) (tail : string) (parts : list string) (current : string),
    plain seg = true ->
    String.length (seg ++ tail) < fuel ->
    parse_loop fuel (seg ++ tail) parts current
    = parse_loop (fuel - String.length seg) tail parts (current ++ seg).
Proof.
  induction seg as [| c seg IH]; intros fuel tail parts current Hp Hlen.
  - simpl. now rewrite Nat.sub_0_r, append_nil_r.
  - simpl in Hp. rewrite !andb_true_iff, !negb_true_iff in Hp.
    destruct Hp as [[[Hb Hd] Hc] Hp].
    destruct fuel as [| fuel]; [simpl in Hlen; lia |].
    simpl String.append. cbn [parse_loop]. rewrite Hb, Hd.
    rewrite IH by (exact Hp || (simpl in Hlen; lia)).
    simpl String.length. rewrite Nat.sub_succ, append_assoc. reflexivity.
Qed.

Lemma find_close_bracket (k tail : string) :
  str_contains_char "]"%char k = false ->
  find_close (k ++ String "]" tail) = Some (k, tail).
Proof.
  induction k as [| c k IH]; simpl; [reflexivity |].
  rewrite orb_false_iff. intros [Hc Hk]. rewrite Hc, (IH Hk). reflexivity.
Qed.

Lemma bare_plain (s : string) : plain s = true -> bare s = s.
Proof.
  unfold bare. destruct s as [| c t]; simpl; [reflexivity |].
  rewrite !andb_true_iff, !negb_true_iff. intros [[[Hb _] _] _]. now rewrite Hb.
Qed.

Lemma bare_bracket (k : string) : bare (bracket k) = k.
Proof. unfold bare. simpl. apply drop_last_char_app. Qed.

(** The last part of a text. *)
Lemma parse_loop_last (seg : string) (fuel : nat) (parts : list string) :
  readable seg -> String.length seg < fuel ->
  parse_loop fuel seg parts EmptyString = Ok (parts ++ [bare seg]).
Proof.
  intros [[Hne Hp] | [k [-> Hk]]] Hlen.
  - rewrite <- (append_nil_r seg) at 1.
    rewrite parse_loop_plain by (exact Hp || (rewrite append_nil_r; lia)).
    rewrite (bare_plain seg Hp). simpl String.append.
    destruct (fuel - String.length seg) as [| f] eqn:Ef; [lia |].
    cbn [parse_loop]. destruct seg; [now contradiction Hne | reflexivity].
  - rewrite bare_bracket. unfold bracket in *. simpl String.append in *.
    destruct fuel as [| fuel]; [simpl in Hlen; lia |].
    simpl in Hlen. rewrite length_append in Hlen. simpl in Hlen.
    cbn [parse_loop Ascii.eqb Bool.eqb andb].
    rewrite (find_close_bracket k EmptyString Hk). cbn [flush].
    destruct fuel as [| f]; [lia | reflexivity].
Qed.

(** A part that a dot follows. *)
Lemma parse_loop_part (seg : string) (fuel : nat) (tail : string)
  (parts : list string) :
  readable seg ->
  String.length (seg ++ String "." tail) < fuel ->
  exists fuel',
    String.length tail < fuel' /\
    parse_loop fuel (seg ++ String "." tail) parts EmptyString
    = parse_loop fuel' tail (parts ++ [bare seg]) EmptyString.
Proof.
  intros [[Hne Hp] | [k [-> Hk]]] Hlen.
  - rewrite length_append in Hlen. simpl in Hlen.
    rewrite parse_loop_plain by (exact Hp || (rewrite length_append; simpl; lia)).
    rewrite (bare_plain seg Hp). simpl String.append.
    destruct (fuel - String.length seg) as [| f] eqn:Ef; [lia |].
    exists f. split; [lia |].
    cbn [parse_loop Ascii.eqb Bool.eqb andb].
    destruct seg; [now contradiction Hne | reflexivity].
  - rewrite bare_bracket. unfold bracket in *. simpl String.append in *.
    rewrite append_assoc in *. simpl String.append in *.
    destruct fuel as [| fuel]; [simpl in Hlen; lia |].
    simpl in Hlen. rewrite length_append in Hlen. simpl in Hlen.
    cbn [parse_loop Ascii.eqb Bool.eqb andb].
    rewrite (find_close_bracket k (String "." tail) Hk). cbn [flush].
    destruct fuel as [| f]; [lia |].
    exists f. split; [lia |].
    cbn [parse_loop Ascii.eqb Bool.eqb andb flush]. reflexivity.
Qed.

Lemma parse_loop_parts :
  forall (segs : list string) (parts : list string) (fuel : nat),
    Forall readable segs -> segs <> [] ->
    String.length (join "." segs) < fuel ->
    parse_loop fuel (join "." segs) parts EmptyString
    = Ok (parts ++ map bare segs).
Proof.
  induction segs as [| seg segs IH]; intros parts fuel Hall Hne Hlen;
    [now contradiction Hne |].
  inversion Hall as [| x l Hseg Hrest]; subst.
  destruct segs as [| seg' segs'].
  - simpl in *. now apply parse_loop_last.
  - change (join "." (seg :: seg' :: segs'))
      with (seg ++ String "." (join "." (seg' :: segs')))%string in *.
    destruct (parse_loop_part seg fuel (join "." (seg' :: segs')) parts Hseg Hlen)
      as [fuel' [Hf ->]].
    rewrite IH by (assumption || discriminate).
    now rewrite <- app_assoc.
Qed.

Lemma find_close_length (s content after : string) :
  find_close s = Some (content, after) -> String.length after < String.length s.
Proof.
  revert content. induction s as [| c t IH]; intros content; simpl; [discriminate |].
  destruct (Ascii.eqb c "]").
  - intros [= _ <-]. lia.
  - destruct (find_close t) as [[a b] |]; [| discriminate].
    intros [= _ <-]. specialize (IH a eq_refl). lia.
Qed.

Lemma parse_loop_returns (fuel : nat) :
  forall (rest : string) (parts : list string) (current : string),
    String.length rest < fuel ->
    exists result, parse_loop fuel rest parts current = Ok result.
Proof.
  induction fuel as [fuel IH] using lt_wf_ind. intros rest parts current Hlen.
  destruct fuel as [| f]; [lia |]. cbn [parse_loop].
  destruct rest as [| c rest']; [eexists; reflexivity |]. simpl in Hlen.
  destruct (Ascii.eqb c "[").
  - destruct (find_close rest') as [[content after] |] eqn:Hf.
    + apply find_close_length in Hf. apply IH; lia.
    + apply IH; lia.
  - destruct (Ascii.eqb c "."); apply IH; lia.
Qed.

(** The parser returns the parts of every text, and it reads the text of
    a path back into the parts of the path, brackets taken off, when
    every part is a non-empty name without dot or bracket or a bracketed
    text without closing bracket. *)
Theorem parse_path_reads_path_string :
  (forall text, exists parts, _parse_path_into_components text = Ok parts) /\
  (forall d,
     Forall readable (path d) ->
     _parse_path_into_components (get_path_string d) = Ok (map bare (path d))).
Proof.
  split.
  - intros text. unfold _parse_path_into_components.
    destruct text as [| c t]; [eexists; reflexivity |].
    apply parse_loop_returns. lia.
  - intros d Hall. unfold _parse_path_into_components, get_path_string.
    destruct (path d) as [| seg segs] eqn:Ep; [reflexivity |].
    destruct (join "." (seg :: segs)) as [| c t] eqn:Ej.
    + exfalso. inversion Hall as [| x l Hseg _]; subst.
      assert (Hs : seg <> EmptyString).
      { destruct Hseg as [[Hne _] | [k [-> _]]]; [exact Hne | discriminate]. }
      destruct seg; [now apply Hs |]. destruct segs; discriminate.
    + rewrite <- Ej.
      apply (parse_loop_parts (seg :: segs) []); [exact Hall | discriminate |].
      rewrite Ej. simpl. lia.
Qed.

(** ** The text of a path names one place *)

Section Joined.
Variable c : ascii.

Definition sep_free (s : string) : Prop :=
  str_contains_char c s = false /\ s <> EmptyString.

Lemma first_part_inj (x y r1 r2 : string) :
  str_contains_char c x = false -> str_contains_char c y = false ->
  (r1 = EmptyString \/ exists t, r1 = String c t) ->
  (r2 = EmptyString \/ exists t, r2 = String c t) ->
  (x ++ r1 = y ++ r2)%string -> x = y /\ r1 = r2.
Proof.
  revert y. induction x as [| a x IH]; intros y Hx Hy H1 H2 E.
  - destruct y as [| b y]; [now split |]. exfalso. simpl in E, Hy.
    apply orb_false_iff in Hy. destruct Hy as [Hb _].
    destruct H1 as [-> | [t ->]]; [discriminate |].
    injection E as E _. subst b. now rewrite Ascii.eqb_refl in Hb.
  - simpl in Hx. apply orb_false_iff in Hx. destruct Hx as [Ha Hx].
    destruct y as [| b y].
    + exfalso. simpl in E. destruct H2 as [-> | [t ->]]; [discriminate |].
      injection E as E _. subst a. now rewrite Ascii.eqb_refl in Ha.
    + simpl in E, Hy. apply orb_false_iff in Hy. destruct Hy as [_ Hy].
      injection E as -> E. destruct (IH y Hx Hy H1 H2 E) as [-> ->]. now split.
Qed.

Definition after_first (l : list string) : string :=
  match l with
  | [] => EmptyString
  | _ :: _ => String c (join (String c EmptyString) l)
  end.

Lemma join_first (x : string) (l : list string) :
  join (String c EmptyString) (x :: l) = (x ++ after_first l)%string.
Proof.
  destruct l; simpl; [| reflexivity].
  induction x as [| a x IH]; simpl; [reflexivity | now rewrite <- IH].
Qed.

Lemma after_first_shape (l : list string) :
  after_first l = EmptyString \/ exists t, after_first l = String c t.
Proof. destruct l; [now left | right; eexists; reflexivity]. Qed.

Lemma join_inj (l1 l2 : list string) :
  Forall sep_free l1 -> Forall sep_free l2 ->
  join (String c EmptyString) l1 = join (String c EmptyString) l2 -> l1 = l2.
Proof.
  intros H1. revert l2. induction H1 as [| x t [Hx Hxn] Ht IH]; intros l2 H2 E.
  - destruct H2 as [| y t2 [Hy Hyn] _]; [reflexivity |].
    rewrite join_first in E. simpl in E. destruct y; [now contradiction Hyn |].
    discriminate.
  - destruct H2 as [| y t2 [Hy Hyn] Ht2].
    + rewrite join_first in E. simpl in E. destruct x; [now contradiction Hxn |].
      discriminate.
    + rewrite !join_first in E.
      destruct (first_part_inj x y _ _ Hx Hy (after_first_shape t)
                  (after_first_shape t2) E) as [-> Er].
      f_equal. apply IH; [exact Ht2 |].
      destruct t as [| a t'], t2 as [| b t2']; try reflexivity; try discriminate.
      now injection Er.
Qed.

End Joined.

(** The text of a path, as [--paths-only] prints it, names one place:
    two records whose path parts are not empty and hold no dot have the
    same path text only when they have the same path. *)
Theorem path_string_names_one_place (a b : DiffItem) :
  Forall (sep_free "."%char) (path a) -> Forall (sep_free "."%char) (path b) ->
  get_path_string a = get_path_string b -> path a = path b.
Proof. unfold get_path_string. apply join_inj. Qed.

Lemma path_string_names_one_place_witness :
  path (mkDiffItem ADDED ["spec"; "replicas"] VNone (VInt 1))
  = path (mkDiffItem REMOVED ["spec"; "replicas"] (VInt 2) VNone).
Proof.
  apply (path_string_names_one_place
           (mkDiffItem ADDED ["spec"; "replicas"] VNone (VInt 1))
           (mkDiffItem REMOVED ["spec"; "replicas"] (VInt 2) VNone)).
  - simpl. repeat (apply Forall_cons; [split; [reflexivity | discriminate] |]).
    apply Forall_nil.
  - simpl. repeat (apply Forall_cons; [split; [reflexivity | discriminate] |]).
    apply Forall_nil.
  - reflexivity.
Defined.

(** ** When no record is reported *)

(** The same content: equal scalars of one type, sequences with the same content at
    every position, mappings with the same keys and the same content under
    every key, whatever the order of the keys. *)
Inductive same_content : value -> value -> Prop :=
| same_scalar (x y : value) :
    is_scalar x = true -> type_of x = type_of y -> py_ne x y = false ->
    same_content x y
| same_list (l r : list value) :
    Forall2 same_content l r -> same_content (VList l) (VList r)
| same_dict (l r : list (string * value)) :
    (forall k, In k (keys l) <-> In k (keys r)) ->
    (forall k lv rv,
       dict_get String.eqb k l = Some lv -> dict_get String.eqb k r = Some rv ->
       same_content lv rv) ->
    same_content (VDict l) (VDict r).

Section WellKeyed.
Context {H : Host}.

Definition distinct_keys (l : list value) : bool :=
  match mapM _get_sort_key l with
  | Ok ks => no_repeat ks
  | _ => false
  end.

(** In every sequence that is sorted, the keys of the elements are printed
    from scalars and no two elements have the same key. *)
Fixpoint well_keyed (v : value) : bool :=
  match v with
  | VList l =>
      (if _should_sort_list l
       then forallb key_is_scalar l && distinct_keys l else true)
      && forallb well_keyed l
  | VDict d => forallb (fun kv => well_keyed (snd kv)) d
  | _ => true
  end.

Lemma well_keyed_scalar_keyed (n : nat) :
  forall v, height v < n -> well_keyed v = true -> scalar_keyed v = true.
Proof.
  induction n as [| n IH]; intros v Hh; [lia |].
  destruct v as [| | | | | l | d]; try reflexivity; simpl; intros Hw.
  - apply andb_true_iff in Hw. destruct Hw as [Hk Hall].
    rewrite forallb_forall in Hall. apply andb_true_iff. split.
    + destruct (_should_sort_list l); [| reflexivity].
      apply andb_true_iff in Hk. now destruct Hk.
    + apply forallb_forall. intros x Hx. apply IH; [| now apply Hall].
      pose proof (height_child x (VList l) Hx). lia.
  - rewrite forallb_forall in Hw. apply forallb_forall. intros [k x] Hx. simpl.
    apply IH.
    + assert (Hc : child x (VDict d)) by (now exists k).
      pose proof (height_child x (VDict d) Hc). lia.
    + exact (Hw _ Hx).
Qed.

Lemma well_keyed_scalar (v : value) :
  well_keyed v = true -> scalar_keyed v = true.
Proof. apply (well_keyed_scalar_keyed (S (height v))). lia. Qed.

Lemma well_keyed_child (c v : value) :
  well_keyed v = true -> child c v -> well_keyed c = true.
Proof.
  destruct v; simpl; try tauto; intros Hw.
  - apply andb_true_iff in Hw. destruct Hw as [_ Hall].
    rewrite forallb_forall in Hall. intros Hc. now apply Hall.
  - rewrite forallb_forall in Hw. intros [k Hc]. exact (Hw _ Hc).
Qed.

Lemma key_is_scalar_normalized (n : nat) (x y : value) :
  normalize_data n x = Ok y -> key_is_scalar x = true -> key_is_scalar y = true.
Proof.
  intros Hn Hk. pose proof Hn as Hinv. apply normalize_data_inv in Hinv.
  destruct x as [| | | | | l | d]; try (now subst y).
  - discriminate.
  - destruct Hinv as [d' [-> Hall]].
    assert (Hkeys : keys d' = keys d).
    { unfold keys. clear Hk Hn. induction Hall as [| kv kv' t t' [Hf _] _ IH];
        simpl; [reflexivity | now rewrite Hf, IH]. }
    unfold key_is_scalar, key_source in *. rewrite Hkeys.
    destruct (mem "name" (keys d)) eqn:Hname.
    + pose proof (dict_get_Forall2
                    (fun v v' => exists m, n = S m /\ normalize_data m v = Ok v')
                    "name" d d' Hall) as Hget.
      destruct (dict_get String.eqb "name" d) as [v |] eqn:Hv.
      * destruct Hget as [v' [-> [m [_ Hv']]]].
        now rewrite (normalize_data_scalar m v v' Hk Hv').
      * now rewrite Hget.
    + destruct Hall as [| [k v] [k' v'] t t' [Hf [m [_ Hv]]] _]; [reflexivity |].
      cbn [fst snd] in Hf, Hv.
      now rewrite (normalize_data_scalar m v v' Hk Hv).
Qed.

Lemma mapM_keys_normalized (n : nat) (l0 l' : list value) :
  Forall2 (fun x y => normalize_data n x = Ok y) l0 l' ->
  (forall x, In x l0 -> key_is_scalar x = true) ->
  mapM _get_sort_key l' = mapM _get_sort_key l0.
Proof.
  induction 1 as [| x y t t' Hxy _ IH]; intros Hk; simpl; [reflexivity |].
  rewrite (_get_sort_key_normalized _ _ _ Hxy (Hk x (or_introl eq_refl))).
  rewrite IH; [reflexivity |]. intros z Hz. apply Hk. now right.
Qed.

Lemma distinct_keys_perm (l l' : list value) :
  Permutation l l' -> distinct_keys l = true -> distinct_keys l' = true.
Proof.
  unfold distinct_keys. intros HP.
  destruct (mapM _get_sort_key l) as [ks | |] eqn:Hk; try discriminate.
  destruct (mapM_perm _ _ _ _ HP _ Hk) as [ks' [Hk' Hc]]. rewrite Hk'.
  rewrite !no_repeat_NoDup. intros Hnd.
  assert (L1 : List.length ks = List.length l) by (eapply mapM_length; eassumption).
  assert (L2 : List.length ks' = List.length l') by (eapply mapM_length; eassumption).
  apply (Permutation_map fst) in Hc.
  rewrite (map_fst_combine _ _ L1), (map_fst_combine _ _ L2) in Hc.
  exact (Permutation_NoDup Hc Hnd).
Qed.

Lemma normalize_data_well_keyed (n : nat) (v w : value) :
  normalize_data n v = Ok w -> well_keyed v = true -> well_keyed w = true.
Proof.
  revert n v w.
  apply (normalize_data_ok_ind
           (fun _ v w => well_keyed v = true -> well_keyed w = true)).
  - intros n v _ Hw. exact Hw.
  - intros n d d' Hall. simpl. rewrite !forallb_forall. intros Hw kv' Hin.
    destruct (Forall2_In_r Hall Hin) as [kv [Hkv [_ [_ HP]]]].
    apply HP, Hw, Hkv.
  - intros n l l0 l' Hl0 Hall Hw. simpl in Hw.
    apply andb_true_iff in Hw. destruct Hw as [Hk Hw].
    rewrite forallb_forall in Hw.
    assert (Hperm : Permutation l0 l).
    { destruct (_should_sort_list l); [| subst l0; apply Permutation_refl].
      eapply sorted_perm. exact Hl0. }
    assert (Hnorm : Forall2 (fun x y => normalize_data n x = Ok y) l0 l').
    { revert Hall. apply Forall2_impl. now intros x y [Hx _]. }
    simpl. apply andb_true_iff. split.
    + destruct (_should_sort_list l') eqn:Hs'; [| reflexivity].
      assert (Hs0 : _should_sort_list l0 = true).
      { rewrite <- Hs'. symmetry. apply same_shape_should_sort.
        revert Hnorm. apply Forall2_impl. intros x y Hxy.
        eapply proj1. eapply normalize_data_shape. exact Hxy. }
      assert (Hs : _should_sort_list l = true).
      { destruct (_should_sort_list l) eqn:E; [reflexivity |]. subst l0. congruence. }
      rewrite Hs in Hk. apply andb_true_iff in Hk. destruct Hk as [Hsc Hd].
      rewrite forallb_forall in Hsc.
      assert (Hsc0 : forall x, In x l0 -> key_is_scalar x = true).
      { intros x Hx. apply Hsc. exact (Permutation_in _ Hperm Hx). }
      apply andb_true_iff. split.
      * apply forallb_forall. intros y Hy.
        destruct (Forall2_In_r Hnorm Hy) as [x [Hx Hxy]].
        exact (key_is_scalar_normalized _ _ _ Hxy (Hsc0 x Hx)).
      * unfold distinct_keys. rewrite (mapM_keys_normalized n l0 l' Hnorm Hsc0).
        exact (distinct_keys_perm l l0 (Permutation_sym Hperm) Hd).
    + apply forallb_forall. intros y Hy.
      destruct (Forall2_In_r Hall Hy) as [x [Hx [_ HP]]].
      apply HP, Hw. exact (Permutation_in _ Hperm Hx).
Qed.

(** The parts of a normal form are normal. *)
Lemma normal_form_child (n : nat) (v w c : value) :
  normalize_data (S n) v = Ok w -> scalar_keyed v = true -> child c w ->
  normalize_data n c = Ok c.
Proof.
  intros Hn Hs Hc. pose proof Hn as Hinv. apply normalize_data_inv in Hinv.
  destruct v as [| | | | | l | d]; try (subst w; now destruct Hc).
  - destruct Hinv as [l0 [l' [-> [Hl0 Hall]]]]. simpl in Hc.
    destruct (Forall2_In_r Hall Hc) as [x [Hx [m [Em Hxc]]]].
    injection Em as <-.
    apply (normalize_data_fixed _ _ _ Hxc).
    simpl in Hs. apply andb_true_iff in Hs. destruct Hs as [_ Hs].
    rewrite forallb_forall in Hs. apply Hs.
    destruct (_should_sort_list l); [| now subst l0].
    now apply (sorted_In x Hl0).
  - destruct Hinv as [d' [-> Hall]]. destruct Hc as [k Hc].
    destruct (Forall2_In_r Hall Hc) as [kv [Hkv [_ [m [Em Hxc]]]]].
    injection Em as <-. simpl in Hxc.
    apply (normalize_data_fixed _ _ _ Hxc).
    simpl in Hs. rewrite forallb_forall in Hs. exact (Hs _ Hkv).
Qed.

End WellKeyed.

Lemma concat_nil_all (A : Type) (bs : list (list A)) :
  List.concat bs = [] -> forall b, In b bs -> b = [].
Proof.
  induction bs as [| x t IH]; simpl; [now intros _ b [] |].
  intros E b [<- | Hb]; apply app_eq_nil in E; destruct E as [Ex Et];
    [exact Ex | now apply IH].
Qed.

Lemma ascending_unique (ks1 ks2 : list string) :
  StronglySorted (fun a b => str_lt b a = false) ks1 ->
  StronglySorted (fun a b => str_lt b a = false) ks2 ->
  NoDup ks1 -> NoDup ks2 ->
  (forall k, In k ks1 <-> In k ks2) -> ks1 = ks2.
Proof.
  intros S1 S2 N1 N2 Hin.
  assert (E : map (fun k => (k, tt)) ks1 = map (fun k => (k, tt)) ks2).
  { apply sorted_perm_unique.
    - clear -S1. induction S1 as [| a t _ IH Ha]; simpl; constructor; [exact IH |].
      apply Forall_forall. intros p Hp. apply in_map_iff in Hp.
      destruct Hp as [b [<- Hb]]. rewrite Forall_forall in Ha. exact (Ha b Hb).
    - clear -S2. induction S2 as [| a t _ IH Ha]; simpl; constructor; [exact IH |].
      apply Forall_forall. intros p Hp. apply in_map_iff in Hp.
      destruct Hp as [b [<- Hb]]. rewrite Forall_forall in Ha. exact (Ha b Hb).
    - apply Permutation_map. now apply NoDup_Permutation.
    - rewrite map_map. simpl. now rewrite map_id. }
  apply (f_equal (map fst)) in E. rewrite !map_map in E. simpl in E.
  now rewrite !map_id in E.
Qed.

Lemma Forall2_by_key (A : Type) (R : A -> A -> Prop) (ks : list string) :
  forall (ll lr : list A),
    NoDup ks -> List.length ks = List.length ll -> List.length ks = List.length lr ->
    (forall k x y, In (k, x) (combine ks ll) -> In (k, y) (combine ks lr) -> R x y) ->
    Forall2 R ll lr.
Proof.
  induction ks as [| k ks IH]; intros [| x ll] [| y lr] Hnd L1 L2 HR;
    try discriminate; constructor.
  - apply (HR k); now left.
  - inversion Hnd; subst. apply IH; auto.
    intros k' x' y' Hx Hy. apply (HR k'); now right.
Qed.

Lemma Forall2_by_position (A : Type) (R : A -> A -> Prop) :
  forall (ll lr : list A),
    List.length ll = List.length lr ->
    (forall i x y, nth_error ll i = Some x -> nth_error lr i = Some y -> R x y) ->
    Forall2 R ll lr.
Proof.
  induction ll as [| x ll IH]; intros [| y lr] L HR; try discriminate; constructor.
  - now apply (HR 0).
  - apply IH; [now injection L |]. intros i x' y' Hx Hy. now apply (HR (S i)).
Qed.

Section Silent.
Context {H : Host}.

Lemma key_map_distinct (l : list value) (ks : list string) :
  mapM _get_sort_key l = Ok ks -> NoDup ks -> key_map l = Ok (combine ks l).
Proof.
  unfold key_map. intros Hk Hnd.
  enough (Hg : forall m, (forall k, In k ks -> ~ In k (keys m)) ->
            foldM (fun m item => k <- _get_sort_key item ;;
                                 Ok (dict_set String.eqb k item m)) l m
            = Ok (m ++ combine ks l)).
  { apply (Hg []). intros k _ []. }
  revert ks Hk Hnd. induction l as [| x t IH]; intros ks Hk Hnd m Hm; simpl in *.
  - injection Hk as <-. simpl. now rewrite app_nil_r.
  - destruct (_get_sort_key x) as [k | |]; simpl in *; try discriminate.
    destruct (mapM _get_sort_key t) as [kt | |] eqn:Ht; simpl in *; try discriminate.
    injection Hk as <-. inversion Hnd as [| a l' Hn Hnd']; subst.
    pose proof (dict_set_split _ k x m) as Hs.
    assert (Hg : dict_get String.eqb k m = None).
    { apply dict_get_none. apply Hm. now left. }
    rewrite Hg in Hs. rewrite Hs.
    rewrite (IH kt eq_refl Hnd').
    + simpl. now rewrite <- app_assoc.
    + intros k' Hk' Hin. unfold keys in Hin. rewrite map_app in Hin.
      apply in_app_or in Hin. destruct Hin as [Hin | [<- | []]].
      * apply (Hm k'); [now right | exact Hin].
      * now apply Hn.
Qed.

Lemma keyed_buckets_silent (seg : string -> string) (cmp : differ)
  (left right : list (string * value)) (p : list string)
  (bs : list (list DiffItem)) :
  keyed_buckets seg cmp left right p = Ok bs -> List.concat bs = [] ->
  (forall k, In k (keys left) <-> In k (keys right)) /\
  (forall k lv rv,
     dict_get String.eqb k left = Some lv -> dict_get String.eqb k right = Some rv ->
     cmp lv rv (p ++ [seg k]) [] = Ok []).
Proof.
  unfold keyed_buckets.
  destruct (mapM (added_record seg p right) _) as [a | |] eqn:Ha; simpl;
    try discriminate.
  destruct (mapM (removed_record seg p left) _) as [r | |] eqn:Hrm; simpl;
    try discriminate.
  destruct (mapM (common_records seg cmp p left right) _) as [c | |] eqn:Hc; simpl;
    try discriminate.
  intros [= <-] Hnil. rewrite !concat_app in Hnil.
  apply app_eq_nil in Hnil. destruct Hnil as [Na Hnil].
  apply app_eq_nil in Hnil. destruct Hnil as [Nr Nc].
  assert (Hsingle : forall (f : string -> res (list DiffItem)) ks out,
            mapM f ks = Ok out -> List.concat out = [] ->
            (forall k b, f k = Ok b -> b <> []) -> ks = []).
  { intros f ks out Hm Hn Hf. destruct ks as [| k t]; [reflexivity |]. exfalso.
    simpl in Hm. destruct (f k) as [b | |] eqn:Hk; simpl in Hm; try discriminate.
    destruct (mapM f t); simpl in Hm; try discriminate. injection Hm as <-.
    simpl in Hn. apply app_eq_nil in Hn. destruct Hn as [Hb _].
    exact (Hf k b Hk Hb). }
  assert (Ea : set_iter (set_diff (keys right) (keys left)) = []).
  { apply (Hsingle _ _ _ Ha Na). intros k b. unfold added_record.
    destruct (subscript String.eqb right k); simpl; try discriminate.
    intros [= <-]. discriminate. }
  assert (Er : set_iter (set_diff (keys left) (keys right)) = []).
  { apply (Hsingle _ _ _ Hrm Nr). intros k b. unfold removed_record.
    destruct (subscript String.eqb left k); simpl; try discriminate.
    intros [= <-]. discriminate. }
  assert (Hsub : forall a b, set_iter (set_diff a b) = [] ->
            forall k, In k a -> In k b).
  { intros a0 b0 E k Hk. destruct (in_dec string_dec k b0) as [Hin | Hn];
      [exact Hin |]. exfalso.
    assert (Hd : In k (set_iter (set_diff a0 b0)))
      by (apply set_iter_In, set_diff_In; now split).
    rewrite E in Hd. destruct Hd. }
  split.
  - intros k. split; [apply (Hsub _ _ Er) | apply (Hsub _ _ Ea)].
  - intros k lv rv Hlv Hrv.
    assert (Hin : In k (set_iter (set_inter (keys left) (keys right)))).
    { apply set_iter_In, set_inter_In. split.
      - apply in_map_iff. exists (k, lv). split; [reflexivity | now apply dict_get_In].
      - apply in_map_iff. exists (k, rv). split; [reflexivity | now apply dict_get_In]. }
    destruct (mapM_ok_In Hc Hin) as [g [Hg Hgc]].
    rewrite (concat_nil_all _ c Nc g Hgc) in Hg.
    unfold common_records, subscript in Hg. now rewrite Hlv, Hrv in Hg.
Qed.

Lemma positional_buckets_silent (cmp : differ) (left right : list value)
  (p : list string) (bs : list (list DiffItem)) :
  positional_buckets cmp left right p = Ok bs -> List.concat bs = [] ->
  List.length left = List.length right /\
  (forall i lv rv,
     nth_error left i = Some lv -> nth_error right i = Some rv ->
     cmp lv rv (p ++ [index_segment i]) [] = Ok []).
Proof.
  unfold positional_buckets.
  destruct (mapM (common_position cmp p left right) _) as [c | |] eqn:Hc; simpl;
    try discriminate.
  assert (Hstep : forall (f : nat -> res (list DiffItem)) i len out,
            mapM f (seq i len) = Ok out -> List.concat out = [] ->
            (forall k b, f k = Ok b -> b <> []) -> len = 0).
  { intros f i len out Hm Hn Hf. destruct len as [| len]; [reflexivity |]. exfalso.
    simpl in Hm. destruct (f i) as [b | |] eqn:Hk; simpl in Hm; try discriminate.
    destruct (mapM f _); simpl in Hm; try discriminate. injection Hm as <-.
    simpl in Hn. apply app_eq_nil in Hn. destruct Hn as [Hb _].
    exact (Hf i b Hk Hb). }
  intros Hb Hnil.
  assert (Hlen : List.length left = List.length right).
  { destruct (Nat.ltb (List.length left) (List.length right)) eqn:Hlt.
    - destruct (mapM (added_position p right) _) as [e | |] eqn:He; simpl in Hb;
        try discriminate.
      injection Hb as <-. rewrite concat_app in Hnil.
      apply app_eq_nil in Hnil. destruct Hnil as [_ Ne].
      apply Nat.ltb_lt in Hlt.
      assert (E0 : List.length right - List.length left = 0).
      { apply (Hstep _ _ _ _ He Ne). intros k b. unfold added_position.
        destruct (getitem right k); simpl; try discriminate.
        intros [= <-]. discriminate. }
      lia.
    - destruct (Nat.ltb (List.length right) (List.length left)) eqn:Hgt.
      + destruct (mapM (removed_position p left) _) as [e | |] eqn:He; simpl in Hb;
          try discriminate.
        injection Hb as <-. rewrite concat_app in Hnil.
        apply app_eq_nil in Hnil. destruct Hnil as [_ Ne].
        apply Nat.ltb_lt in Hgt.
        assert (E0 : List.length left - List.length right = 0).
        { apply (Hstep _ _ _ _ He Ne). intros k b. unfold removed_position.
          destruct (getitem left k); simpl; try discriminate.
          intros [= <-]. discriminate. }
        lia.
      + apply Nat.ltb_ge in Hlt, Hgt. lia. }
  split; [exact Hlen |].
  intros i lv rv Hlv Hrv.
  assert (Nc : List.concat c = []).
  { destruct (Nat.ltb (List.length left) (List.length right));
      [| destruct (Nat.ltb (List.length right) (List.length left))].
    - destruct (mapM (added_position p right) _); simpl in Hb; try discriminate.
      injection Hb as <-. rewrite concat_app in Hnil.
      now apply app_eq_nil in Hnil.
    - destruct (mapM (removed_position p left) _); simpl in Hb; try discriminate.
      injection Hb as <-. rewrite concat_app in Hnil.
      now apply app_eq_nil in Hnil.
    - simpl in Hb. injection Hb as <-. rewrite concat_app in Hnil.
      now apply app_eq_nil in Hnil. }
  assert (Hin : In i (seq 0 (Nat.min (List.length left) (List.length right)))).
  { apply in_seq. assert (i < List.length left) by (apply nth_error_Some; congruence).
    lia. }
  destruct (mapM_ok_In Hc Hin) as [g [Hg Hgc]].
  rewrite (concat_nil_all _ c Nc g Hgc) in Hg.
  unfold common_position, getitem in Hg. now rewrite Hlv, Hrv in Hg.
Qed.

End Silent.

Section SilentCompare.
Context {H : Host}.

(** The keys of a sorted sequence in normal form ascend and do not repeat. *)
Lemma normal_form_keys (n : nat) (v : value) (ll : list value) :
  normalize_data n v = Ok (VList ll) -> well_keyed v = true ->
  _should_sort_list ll = true ->
  exists ks, mapM _get_sort_key ll = Ok ks /\
             StronglySorted (fun a b => str_lt b a = false) ks /\ NoDup ks.
Proof.
  intros Hn Hw Hs'. pose proof Hn as Hinv. apply normalize_data_inv in Hinv.
  destruct v as [| | | | | l | d]; try discriminate.
  2: { destruct Hinv as [d' [E _]]. discriminate. }
  destruct Hinv as [l0 [l' [E [Hl0 Hall]]]]. injection E as <-.
  assert (Hnorm : exists m, Forall2 (fun x y => normalize_data m x = Ok y) l0 ll).
  { destruct n as [| m].
    - exists 0. revert Hall. apply Forall2_impl. intros x y [m [E _]]. discriminate.
    - exists m. revert Hall. apply Forall2_impl. intros x y [m' [E Hx]].
      injection E as <-. exact Hx. }
  destruct Hnorm as [m Hnorm].
  assert (Hs0 : _should_sort_list l0 = true).
  { rewrite <- Hs'. symmetry. apply same_shape_should_sort.
    revert Hnorm. apply Forall2_impl. intros x y Hxy.
    eapply proj1. eapply normalize_data_shape. exact Hxy. }
  assert (Hs : _should_sort_list l = true).
  { destruct (_should_sort_list l) eqn:E; [reflexivity |]. subst l0. congruence. }
  rewrite Hs in Hl0.
  simpl in Hw. rewrite Hs in Hw. apply andb_true_iff in Hw. destruct Hw as [Hk _].
  apply andb_true_iff in Hk. destruct Hk as [Hsc Hd].
  rewrite forallb_forall in Hsc.
  assert (Hperm : Permutation l0 l) by (eapply sorted_perm; exact Hl0).
  assert (Hsc0 : forall x, In x l0 -> key_is_scalar x = true).
  { intros x Hx. apply Hsc. exact (Permutation_in _ Hperm Hx). }
  destruct (sorted_keys l l0 Hl0) as [ks [Hks Hasc]].
  exists ks. rewrite (mapM_keys_normalized m l0 ll Hnorm Hsc0).
  split; [exact Hks |]. split; [exact Hasc |].
  pose proof (distinct_keys_perm l l0 (Permutation_sym Hperm) Hd) as Hd0.
  unfold distinct_keys in Hd0. rewrite Hks in Hd0. now apply no_repeat_NoDup.
Qed.

Lemma compare_silent_fuel (n : nat) :
  forall (left right : value) (p : list string) (ln rn : value),
    well_keyed left = true -> well_keyed right = true ->
    compare n left right p [] = Ok [] ->
    normalize_data n left = Ok ln -> normalize_data n right = Ok rn ->
    same_content ln rn.
Proof.
  induction n as [| n IH]; intros left right p ln rn Hwl Hwr Hc Hln Hrn;
    [discriminate |].
  rewrite compare_concat, Hln, Hrn in Hc. cbn [bind] in Hc.
  destruct (dispatch_buckets (compare n) ln rn p) as [bs | |] eqn:Hb;
    cbn [bind] in Hc; try discriminate.
  injection Hc as Hnil.
  assert (Hchild : forall c d, child c ln -> child d rn ->
            forall q, compare n c d q [] = Ok [] -> same_content c d).
  { intros c d Hcl Hdr q Hq. apply (IH c d q c d).
    - exact (well_keyed_child c ln (normalize_data_well_keyed _ _ _ Hln Hwl) Hcl).
    - exact (well_keyed_child d rn (normalize_data_well_keyed _ _ _ Hrn Hwr) Hdr).
    - exact Hq.
    - exact (normal_form_child n left ln c Hln (well_keyed_scalar _ Hwl) Hcl).
    - exact (normal_form_child n right rn d Hrn (well_keyed_scalar _ Hwr) Hdr). }
  unfold dispatch_buckets in Hb.
  destruct (negb (pytype_eqb (type_of ln) (type_of rn))) eqn:Ht.
  { injection Hb as <-. discriminate Hnil. }
  apply negb_false_iff, pytype_eqb_eq in Ht.
  destruct ln as [| bl | zl | fl | sl | ll | dl], rn as [| br | zr | fr | sr | lr | dr];
    try discriminate Ht;
    try (destruct (py_ne _ _) eqn:Hne;
         [injection Hb as <-; discriminate Hnil
         | now apply same_scalar]).
  - (* sequences *)
    apply same_list.
    destruct (_should_sort_list ll && _should_sort_list lr) eqn:Hs.
    + apply andb_true_iff in Hs. destruct Hs as [Hsl Hsr].
      destruct (normal_form_keys _ _ _ Hln Hwl Hsl) as [ksl [Hkl [Al Nl]]].
      destruct (normal_form_keys _ _ _ Hrn Hwr Hsr) as [ksr [Hkr [Ar Nr]]].
      rewrite (key_map_distinct ll ksl Hkl Nl) in Hb.
      rewrite (key_map_distinct lr ksr Hkr Nr) in Hb. cbn [bind] in Hb.
      destruct (keyed_buckets_silent _ _ _ _ _ _ Hb Hnil) as [Hkeys Hcmp].
      assert (Ll : List.length ksl = List.length ll)
        by (eapply mapM_length; exact Hkl).
      assert (Lr : List.length ksr = List.length lr)
        by (eapply mapM_length; exact Hkr).
      unfold keys in Hkeys.
      rewrite (map_fst_combine _ _ Ll), (map_fst_combine _ _ Lr) in Hkeys.
      assert (E : ksl = ksr) by (now apply ascending_unique).
      subst ksr.
      apply (Forall2_by_key _ same_content ksl ll lr Nl Ll Lr).
      intros k x y Hx Hy.
      apply (Hchild x y (in_combine_r _ _ _ _ Hx) (in_combine_r _ _ _ _ Hy)
               (p ++ [bracket k])).
      apply Hcmp; apply dict_get_of_In; try assumption;
        unfold keys; now rewrite map_fst_combine.
    + destruct (positional_buckets_silent _ _ _ _ _ Hb Hnil) as [Hlen Hcmp].
      apply Forall2_by_position; [exact Hlen |].
      intros i x y Hx Hy.
      apply (Hchild x y (nth_error_In _ _ Hx) (nth_error_In _ _ Hy)
               (p ++ [index_segment i])).
      now apply Hcmp.
  - (* mappings *)
    destruct (keyed_buckets_silent _ _ _ _ _ _ Hb Hnil) as [Hkeys Hcmp].
    apply same_dict; [exact Hkeys |].
    intros k lv rv Hlv Hrv.
    apply (Hchild lv rv) with (q := p ++ [k]).
    + exists k. now apply dict_get_In.
    + exists k. now apply dict_get_In.
    + now apply Hcmp.
Qed.

End SilentCompare.

(** Silence means the same content: when a comparison reports no record,
    both documents have a normal form and the two normal forms have the same
    content, provided that in every sequence that is sorted the keys of the
    elements are printed from scalars and differ from each other. *)
Theorem compare_silent_same_content {H : Host} (fuel : nat)
  (left right : value) (here : list string) :
  well_keyed left = true -> well_keyed right = true ->
  compare fuel left right here [] = Ok [] ->
  exists ln rn,
    normalize_data fuel left = Ok ln /\ normalize_data fuel right = Ok rn /\
    same_content ln rn.
Proof.
  intros Hwl Hwr Hc.
  destruct fuel as [| n]; [discriminate |].
  pose proof Hc as Hc'. rewrite compare_concat in Hc'.
  destruct (normalize_data (S n) left) as [ln | |] eqn:Hln; cbn [bind] in Hc';
    try discriminate.
  destruct (normalize_data (S n) right) as [rn | |] eqn:Hrn; cbn [bind] in Hc';
    try discriminate.
  exists ln, rn. split; [reflexivity |]. split; [reflexivity |].
  exact (compare_silent_fuel (S n) left right here ln rn Hwl Hwr Hc Hln Hrn).
Qed.

Lemma compare_silent_same_content_witness :
  exists ln rn,
    normalize_data 4 (VDict [("kind", VStr "x");
                             ("items", VList [named "b" 2; named "a" 1])])
      = Ok ln /\
    normalize_data 4 (VDict [("items", VList [named "a" 1; named "b" 2]);
                             ("kind", VStr "x")])
      = Ok rn /\
    same_content ln rn.
Proof.
  apply (@compare_silent_same_content listing_host 4
           (VDict [("kind", VStr "x");
                   ("items", VList [named "b" 2; named "a" 1])])
           (VDict [("items", VList [named "a" 1; named "b" 2]);
                   ("kind", VStr "x")]) []).
  - reflexivity.
  - reflexivity.
  - reflexivity.
Defined.

(** ** The report: the order of the groups *)

(** Looking up the keys [ks] of a dictionary one after the other gives the
    lines of each item, in the order of [ks]. *)
Lemma visit_in_order (V B : Type) (F : string -> V -> res (list B))
  (P : string -> V -> list B -> Prop) (d : list (string * V)) (ks : list string) :
  NoDup (keys d) ->
  (forall k v, In (k, v) d -> exists g, F k v = Ok g /\ P k v g) ->
  (forall k, In k ks -> In k (keys d)) ->
  exists gs,
    foldM (fun acc k => v <- subscript String.eqb d k ;;
                        g <- F k v ;; Ok (acc ++ g)) ks [] = Ok (List.concat gs) /\
    Forall2 (fun k g => exists v, In (k, v) d /\ P k v g) ks gs.
Proof.
  intros Hnd HF Hks.
  assert (Hm : exists gs,
            mapM (fun k => v <- subscript String.eqb d k ;;
                           g <- F k v ;; Ok ([] ++ g)) ks = Ok gs /\
            Forall2 (fun k g => exists v, In (k, v) d /\ P k v g) ks gs).
  { induction ks as [| k t IH]; cbn [mapM].
    - exists []. split; [reflexivity | constructor].
    - assert (Hk : In k (keys d)) by (apply Hks; now left).
      apply in_map_iff in Hk. destruct Hk as [[k' v] [E Hin]]. simpl in E. subst k'.
      rewrite (subscript_In _ k v d Hnd Hin). cbn [bind].
      destruct (HF k v Hin) as [g [-> Hg]]. cbn [bind].
      destruct IH as [gs [-> Hgs]]; [intros k' Hk'; apply Hks; now right |].
      exists (g :: gs). split; [reflexivity |].
      constructor; [now exists v | exact Hgs]. }
  destruct Hm as [gs [Hm Hall]]. exists gs. split; [| exact Hall].
  rewrite foldM_concat.
  - now rewrite Hm.
  - intros k. apply appends_bind. intros v. apply appends_bind. intros g.
    apply appends_extend.
Qed.

(** Blocks whose elements have the key of the block, the keys ascending,
    make an ascending list. *)
Lemma blocks_ascending (A : Type) (key : A -> string) (ks : list string)
  (bs : list (list A)) :
  StronglySorted (fun a b => str_lt b a = false) ks ->
  Forall2 (fun k b => Forall (fun x => key x = k) b) ks bs ->
  StronglySorted (fun a b => str_lt b a = false) (map key (List.concat bs)).
Proof.
  intros Hs Hall. induction Hall as [| k b ks bs Hb Hall IH]; simpl;
    [constructor |].
  inversion Hs as [| k' ks' Hs' Hk]; subst.
  specialize (IH Hs').
  assert (Hrest : Forall (fun y => str_lt y k = false) (map key (List.concat bs))).
  { clear IH Hs Hs' Hb. induction Hall as [| k1 b1 ks1 bs1 Hb1 Hall1 IH1]; simpl;
      [constructor |].
    inversion Hk as [| k2 ks2 Hk1 Hk2]; subst.
    rewrite map_app. apply Forall_app. split; [| now apply IH1].
    apply Forall_forall. intros y Hy. apply in_map_iff in Hy.
    destruct Hy as [x [<- Hx]]. rewrite Forall_forall in Hb1.
    now rewrite (Hb1 x Hx). }
  rewrite map_app. clear Hall Hs Hs' Hk.
  induction Hb as [| x b Hx Hb IHb]; simpl; [exact IH |].
  constructor; [exact IHb |].
  apply Forall_app. split.
  - apply Forall_forall. intros y Hy. apply in_map_iff in Hy.
    destruct Hy as [z [<- Hz]]. rewrite Forall_forall in Hb.
    rewrite Hx, (Hb z Hz). apply str_lt_irrefl.
  - now rewrite Hx.
Qed.

Lemma line_records_concat (gs : list (list Line)) :
  line_records (List.concat gs) = List.concat (map line_records gs).
Proof.
  induction gs as [| g t IH]; simpl; [reflexivity |].
  now rewrite line_records_app, IH.
Qed.

(** In the report the records come group by group, by ascending group
    key, whatever their order in the change set: for every list of records
    in which no record's path leads into another's, no first path part
    holds a dot and no path has a part [env], the report is produced and
    the first path parts of the records, read off its lines from top to
    bottom, never descend. *)
Theorem groups_in_ascending_order (fuel : nat) (differences : list DiffItem) :
  (forall d, In d differences -> dot_free d) ->
  prefix_free differences ->
  (forall d, In d differences -> List.length (path d) < fuel) ->
  (forall d, In d differences -> ~ In "env" (path d)) ->
  exists lines,
    format_as_tree fuel differences = Ok lines /\
    StronglySorted (fun a b => str_lt b a = false)
      (map (fun d => _find_group_key (path d)) (line_records lines)).
Proof.
  intros Hdot Hpf Hlen Henv. unfold format_as_tree.
  destruct differences as [| d0 t0] eqn:Ed;
    [exists []; split; [reflexivity | constructor] |].
  rewrite <- Ed in *.
  assert (Hfuel : 0 < fuel).
  { assert (Hd0 : In d0 differences) by (rewrite Ed; now left).
    specialize (Hlen _ Hd0). lia. }
  clear Ed d0 t0.
  change (_group_differences_by_path differences)
    with (fold_left add_to_group differences []).
  rewrite _grouped_diffs_to_lines_unfold.
  set (grouped := fold_left add_to_group differences []).
  assert (Hgroup : forall k diffs, In (k, diffs) grouped ->
            diffs = filter (in_group k) differences).
  { intros k diffs Hin.
    pose proof (subscript_In _ k diffs grouped (group_keys_NoDup differences) Hin)
      as Hs.
    apply subscript_ok in Hs. unfold grouped in Hs. rewrite group_fold in Hs.
    simpl in Hs. destruct (filter (in_group k) differences); now inversion Hs. }
  destruct (visit_in_order _ _ (group_lines_of fuel)
              (fun k diffs g =>
                 Forall (fun d => _find_group_key (path d) = k) (line_records g))
              grouped (sorted_strs (keys grouped)) (group_keys_NoDup differences))
    as [gs [Hf Hgs]].
  { intros k diffs Hin. pose proof (Hgroup _ _ Hin) as Hd.
    assert (Hmem : forall d, In d diffs ->
              In d differences /\ _find_group_key (path d) = k).
    { intros d Hd'. rewrite Hd in Hd'. apply filter_In in Hd'.
      destruct Hd' as [Hin' Hk]. split; [exact Hin' |].
      now apply String.eqb_eq in Hk. }
    destruct k as [| c k].
    - eexists. split; [reflexivity |].
      rewrite line_records_add_diff_line. apply Forall_forall.
      intros d Hd'. now apply Hmem.
    - unfold group_lines_of.
      assert (Hsplit : split_dot (String c k) = [String c k]).
      { destruct diffs as [| d t].
        - exfalso. unfold grouped in Hin.
          pose proof (subscript_In _ _ _ _ (group_keys_NoDup differences) Hin) as Hs.
          apply subscript_ok in Hs. rewrite group_fold in Hs. simpl in Hs.
          destruct (filter _ differences); discriminate.
        - destruct (Hmem d (or_introl eq_refl)) as [Hin' Hk].
          apply split_dot_whole. rewrite <- Hk. now apply Hdot. }
      rewrite Hsplit. cbn [List.length].
      destruct (add_grouped_diffs_ok fuel differences diffs (String c k))
        as [sub [Hsub Psub]]; auto.
      + intros d Hd'. now apply Hmem.
      + intros d Hd'. apply group_key_head. now apply Hmem.
      + intros d Hd'. apply Hlen. now apply Hmem.
      + rewrite Hsub. cbn [bind]. eexists. split; [reflexivity |].
        rewrite line_records_app, line_records_headers. simpl.
        apply Forall_forall. intros d Hd'.
        apply (Permutation_in d) in Psub; [now apply Hmem | | exact Hd'].
        intros d' Hd''. apply Henv. now apply Hmem. }
  { intros k Hk. exact (Permutation_in _ (sorted_strs_perm _) Hk). }
  exists (List.concat gs). split; [exact Hf |].
  rewrite line_records_concat.
  apply (blocks_ascending _ (fun d => _find_group_key (path d))
           (sorted_strs (keys grouped))).
  - exact (proj2 (sorted_strs_ascending (keys grouped))).
  - clear Hf. induction Hgs as [| k g ks gs' [v [_ Hg]] Hgs IH]; simpl;
      constructor; [exact Hg | exact IH].
Qed.

Lemma groups_in_ascending_order_witness :
  exists lines,
    format_as_tree 3 [mkDiffItem MODIFIED ["spec"; "replicas"] (VInt 1) (VInt 2);
                      mkDiffItem ADDED ["kind"] VNone (VStr "Pod")] = Ok lines /\
    StronglySorted (fun a b => str_lt b a = false)
      (map (fun d => _find_group_key (path d)) (line_records lines)).
Proof.
  apply (groups_in_ascending_order 3).
  - intros d [<- | [<- | []]]; reflexivity.
  - intros a b [<- | [<- | []]] [<- | [<- | []]] [x E]; simpl in E;
      try reflexivity; discriminate.
  - intros d [<- | [<- | []]]; simpl; lia.
  - intros d [<- | [<- | []]]; simpl; intros Hin;
      repeat (destruct Hin as [E | Hin]; [discriminate |]); destruct Hin.
Defined.

(** ** Where a record comes from *)

Lemma in_concat_mapM (A B : Type) (f : A -> res (list B)) (ks : list A)
  (bs : list (list B)) (d : B) :
  mapM f ks = Ok bs -> In d (List.concat bs) ->
  exists k b, In k ks /\ f k = Ok b /\ In d b.
Proof.
  intros Hm Hd. apply in_concat in Hd. destruct Hd as [b [Hb Hd]].
  apply mapM_Forall2 in Hm. destruct (Forall2_In_r Hm Hb) as [k [Hk Hf]].
  now exists k, b.
Qed.

Lemma snoc_split (A : Type) (t q rest : list A) (x s : A) :
  t ++ [x] = q ++ s :: rest ->
  (rest = [] /\ q = t /\ s = x) \/
  (exists rest', rest = rest' ++ [x] /\ t = q ++ s :: rest').
Proof.
  intros E. destruct rest as [| r0 rest0].
  - left. apply app_inj_tail in E. destruct E as [-> ->]. auto.
  - right. assert (Hne : r0 :: rest0 <> []) by discriminate.
    destruct (exists_last Hne) as [rest' [y Ey]]. rewrite Ey in *.
    replace (q ++ s :: rest' ++ [y]) with ((q ++ s :: rest') ++ [y]) in E
      by (now rewrite <- app_assoc).
    apply app_inj_tail in E. destruct E as [-> ->]. now exists rest'.
Qed.

Section Located.
Context {H : Host}.

Lemma keyed_buckets_In (seg : string -> string) (cmp : differ)
  (left right : list (string * value)) (p : list string)
  (bs : list (list DiffItem)) (d : DiffItem) :
  keyed_buckets seg cmp left right p = Ok bs -> In d (List.concat bs) ->
  (exists k v, dict_get String.eqb k left = None /\
               dict_get String.eqb k right = Some v /\
               d = mkDiffItem ADDED (p ++ [seg k]) VNone v) \/
  (exists k v, dict_get String.eqb k right = None /\
               dict_get String.eqb k left = Some v /\
               d = mkDiffItem REMOVED (p ++ [seg k]) v VNone) \/
  (exists k lv rv g, dict_get String.eqb k left = Some lv /\
                     dict_get String.eqb k right = Some rv /\
                     cmp lv rv (p ++ [seg k]) [] = Ok g /\ In d g).
Proof.
  unfold keyed_buckets.
  destruct (mapM (added_record seg p right) _) as [a | |] eqn:Ha; simpl;
    try discriminate.
  destruct (mapM (removed_record seg p left) _) as [r | |] eqn:Hrm; simpl;
    try discriminate.
  destruct (mapM (common_records seg cmp p left right) _) as [c | |] eqn:Hc; simpl;
    try discriminate.
  intros [= <-] Hd. rewrite !concat_app in Hd.
  apply in_app_or in Hd. destruct Hd as [Hd | Hd];
    [| apply in_app_or in Hd; destruct Hd as [Hd | Hd]].
  - left. destruct (in_concat_mapM _ _ _ _ _ _ Ha Hd) as [k [b [Hk [Hb Hdb]]]].
    apply (proj1 (set_iter_In _ _)) in Hk. apply (proj1 (set_diff_In _ _ _)) in Hk. destruct Hk as [_ Hnl].
    unfold added_record in Hb.
    destruct (subscript String.eqb right k) as [v | |] eqn:Hv; simpl in Hb;
      try discriminate.
    injection Hb as <-. destruct Hdb as [<- | []].
    exists k, v. split; [now apply dict_get_none |].
    split; [now apply subscript_ok | reflexivity].
  - right. left.
    destruct (in_concat_mapM _ _ _ _ _ _ Hrm Hd) as [k [b [Hk [Hb Hdb]]]].
    apply (proj1 (set_iter_In _ _)) in Hk. apply (proj1 (set_diff_In _ _ _)) in Hk. destruct Hk as [_ Hnr].
    unfold removed_record in Hb.
    destruct (subscript String.eqb left k) as [v | |] eqn:Hv; simpl in Hb;
      try discriminate.
    injection Hb as <-. destruct Hdb as [<- | []].
    exists k, v. split; [now apply dict_get_none |].
    split; [now apply subscript_ok | reflexivity].
  - right. right.
    destruct (in_concat_mapM _ _ _ _ _ _ Hc Hd) as [k [b [Hk [Hb Hdb]]]].
    unfold common_records in Hb.
    destruct (subscript String.eqb left k) as [lv | |] eqn:Hlv; simpl in Hb;
      try discriminate.
    destruct (subscript String.eqb right k) as [rv | |] eqn:Hrv; simpl in Hb;
      try discriminate.
    exists k, lv, rv, b. split; [now apply subscript_ok |].
    split; [now apply subscript_ok | now split].
Qed.

Lemma positional_buckets_In (cmp : differ) (left right : list value)
  (p : list string) (bs : list (list DiffItem)) (d : DiffItem) :
  positional_buckets cmp left right p = Ok bs -> In d (List.concat bs) ->
  (exists i v, nth_error left i = None /\ nth_error right i = Some v /\
               d = mkDiffItem ADDED (p ++ [index_segment i]) VNone v) \/
  (exists i v, nth_error right i = None /\ nth_error left i = Some v /\
               d = mkDiffItem REMOVED (p ++ [index_segment i]) v VNone) \/
  (exists i lv rv g, nth_error left i = Some lv /\ nth_error right i = Some rv /\
                     cmp lv rv (p ++ [index_segment i]) [] = Ok g /\ In d g).
Proof.
  unfold positional_buckets.
  destruct (mapM (common_position cmp p left right) _) as [c | |] eqn:Hc; simpl;
    try discriminate.
  intros Hb Hd.
  assert (Hcommon : In d (List.concat c) ->
            exists i lv rv g, nth_error left i = Some lv /\
                              nth_error right i = Some rv /\
                              cmp lv rv (p ++ [index_segment i]) [] = Ok g /\ In d g).
  { intros Hdc.
    destruct (in_concat_mapM _ _ _ _ _ _ Hc Hdc) as [i [b [Hi [Hb' Hdb]]]].
    unfold common_position in Hb'.
    destruct (getitem left i) as [lv | |] eqn:Hlv; simpl in Hb'; try discriminate.
    destruct (getitem right i) as [rv | |] eqn:Hrv; simpl in Hb'; try discriminate.
    exists i, lv, rv, b. split; [now apply getitem_ok |].
    split; [now apply getitem_ok | now split]. }
  destruct (Nat.ltb (List.length left) (List.length right)) eqn:Hlt.
  - destruct (mapM (added_position p right) _) as [e | |] eqn:He; simpl in Hb;
      try discriminate.
    injection Hb as <-. rewrite concat_app in Hd.
    apply in_app_or in Hd. destruct Hd as [Hd | Hd]; [right; right; auto |].
    left. destruct (in_concat_mapM _ _ _ _ _ _ He Hd) as [i [b [Hi [Hb' Hdb]]]].
    apply in_seq in Hi. unfold added_position in Hb'.
    destruct (getitem right i) as [v | |] eqn:Hv; simpl in Hb'; try discriminate.
    injection Hb' as <-. destruct Hdb as [<- | []].
    exists i, v. split; [apply nth_error_None; lia |].
    split; [now apply getitem_ok | reflexivity].
  - destruct (Nat.ltb (List.length right) (List.length left)) eqn:Hgt.
    + destruct (mapM (removed_position p left) _) as [e | |] eqn:He; simpl in Hb;
        try discriminate.
      injection Hb as <-. rewrite concat_app in Hd.
      apply in_app_or in Hd. destruct Hd as [Hd | Hd]; [right; right; auto |].
      right. left.
      destruct (in_concat_mapM _ _ _ _ _ _ He Hd) as [i [b [Hi [Hb' Hdb]]]].
      apply in_seq in Hi. unfold removed_position in Hb'.
      destruct (getitem left i) as [v | |] eqn:Hv; simpl in Hb'; try discriminate.
      injection Hb' as <-. destruct Hdb as [<- | []].
      exists i, v. split; [apply nth_error_None; lia |].
      split; [now apply getitem_ok | reflexivity].
    + simpl in Hb. injection Hb as <-. rewrite concat_app in Hd.
      apply in_app_or in Hd. destruct Hd as [Hd | Hd]; [right; right; auto |].
      destruct Hd.
Qed.

Lemma key_map_keyed (items : list value) (m : list (string * value)) :
  key_map items = Ok m ->
  forall k v, dict_get String.eqb k m = Some v -> _get_sort_key v = Ok k.
Proof.
  unfold key_map. intros Hm.
  apply (foldM_invariant
           (fun m => forall k v, dict_get String.eqb k m = Some v ->
                                 _get_sort_key v = Ok k))
    with (3 := Hm).
  - intros x s s' Hx Hs Hbody k v Hget.
    destruct (_get_sort_key x) as [kx | e |] eqn:Hkx; simpl in Hbody;
      try discriminate.
    injection Hbody as <-.
    apply dict_get_set in Hget. destruct Hget as [[-> ->] | Hget]; [exact Hkx |].
    now apply (Hs k).
  - intros k v. discriminate.
Qed.

(** Two normal forms are compared by key when both are sequences that
    qualify, as [_compare_lists] decides. *)
Definition by_key (ln rn : value) : bool :=
  match ln, rn with
  | VList l, VList r => _should_sort_list l && _should_sort_list r
  | _, _ => false
  end.

(** [part_at keyed v seg c]: in the normal form [v], the segment [seg]
    addresses the part [c]: the value under the field [seg] of a mapping,
    the element with the derived key [k] of a sequence compared by key
    ([seg] is [[k]]; of several elements with one key, the last), or
    the element at position [i] of a sequence compared by position ([seg]
    is [[i]]). *)
Inductive part_at (keyed : bool) : value -> string -> value -> Prop :=
| part_field (d : list (string * value)) (k : string) (c : value) :
    dict_get String.eqb k d = Some c -> part_at keyed (VDict d) k c
| part_key (l : list value) (m : list (string * value)) (k : string) (c : value) :
    keyed = true -> key_map l = Ok m -> dict_get String.eqb k m = Some c ->
    part_at keyed (VList l) (bracket k) c
| part_index (l : list value) (i : nat) (c : value) :
    keyed = false -> nth_error l i = Some c ->
    part_at keyed (VList l) (bracket (str_of_nat i)) c.

Lemma part_at_child (b : bool) (v c : value) (s : string) :
  part_at b v s c -> child c v.
Proof.
  intros Hp. destruct Hp as [d k c Hg | l m k c _ Hm Hg | l i c _ Hn]; simpl.
  - exists k. now apply dict_get_In.
  - exact (key_map_values l m Hm k c Hg).
  - eapply nth_error_In; eassumption.
Qed.

Lemma no_field (b : bool) (d : list (string * value)) (k : string) :
  dict_get String.eqb k d = None -> forall c, ~ part_at b (VDict d) k c.
Proof. intros Hn c Hp. inversion Hp; subst. congruence. Qed.

Lemma no_key (l : list value) (m : list (string * value)) (k : string) :
  key_map l = Ok m -> dict_get String.eqb k m = None ->
  forall c, ~ part_at true (VList l) (bracket k) c.
Proof.
  intros Hm Hn c Hp.
  remember (bracket k) as s eqn:Es. remember (VList l) as v eqn:Ev.
  destruct Hp as [d k' c Hg | l' m' k' c Hk Hm' Hg | l' i c Hk Hg]; try congruence.
  injection Ev as ->. apply bracket_inj in Es. subst k'. congruence.
Qed.

Lemma no_index (l : list value) (i : nat) :
  nth_error l i = None ->
  forall c, ~ part_at false (VList l) (index_segment i) c.
Proof.
  intros Hn c Hp.
  remember (index_segment i) as s eqn:Es. remember (VList l) as v eqn:Ev.
  destruct Hp as [d k' c Hg | l' m' k' c Hk Hm' Hg | l' i' c Hk Hg]; try congruence.
  injection Ev as ->. unfold index_segment in Es.
  apply bracket_inj in Es. apply str_of_nat_inj in Es. subst i'. congruence.
Qed.

(** A property of records holds of every record of a comparison when it
    holds of each record where it is made; [Q] is what is known of the two
    trees compared at a path. *)
Lemma compare_invariant_at (P : DiffItem -> Prop)
  (Q : value -> value -> list string -> Prop) :
  (forall l r p ln rn fuel,
     Q l r p ->
     normalize_data fuel l = Ok ln -> normalize_data fuel r = Ok rn ->
     (type_of ln <> type_of rn \/ (is_scalar ln = true /\ py_ne ln rn = true) ->
      P (mkDiffItem MODIFIED p ln rn)) /\
     (type_of ln = type_of rn ->
      (forall seg v, part_at (by_key ln rn) rn seg v ->
                     (forall c, ~ part_at (by_key ln rn) ln seg c) ->
                     P (mkDiffItem ADDED (p ++ [seg]) VNone v)) /\
      (forall seg v, part_at (by_key ln rn) ln seg v ->
                     (forall c, ~ part_at (by_key ln rn) rn seg c) ->
                     P (mkDiffItem REMOVED (p ++ [seg]) v VNone)) /\
      (forall seg lc rc, part_at (by_key ln rn) ln seg lc ->
                         part_at (by_key ln rn) rn seg rc ->
                         Q lc rc (p ++ [seg])))) ->
  forall n l r p records,
    Q l r p -> compare n l r p [] = Ok records ->
    forall d, In d records -> P d.
Proof.
  intros Hstep. induction n as [| n IH]; intros l r p records HQ; [discriminate |].
  rewrite compare_concat.
  destruct (normalize_data (S n) l) as [ln | |] eqn:Hl; cbn [bind];
    try discriminate.
  destruct (normalize_data (S n) r) as [rn | |] eqn:Hr; cbn [bind];
    try discriminate.
  destruct (dispatch_buckets (compare n) ln rn p) as [bs | |] eqn:Hb; cbn [bind];
    try discriminate.
  intros [= <-] d Hd.
  destruct (Hstep l r p ln rn (S n) HQ Hl Hr) as [HM Hsame].
  unfold dispatch_buckets in Hb.
  destruct (negb (pytype_eqb (type_of ln) (type_of rn))) eqn:Ht.
  { injection Hb as <-. simpl in Hd. destruct Hd as [<- | []]. apply HM. left.
    intros E. apply pytype_eqb_eq in E. rewrite E in Ht. discriminate. }
  apply negb_false_iff in Ht. apply pytype_eqb_eq in Ht.
  destruct (Hsame Ht) as [HA [HR HC]].
  assert (Hkeyed : forall (seg : string -> string) (lm rm : list (string * value)),
            (forall k c, dict_get String.eqb k lm = Some c ->
                         part_at (by_key ln rn) ln (seg k) c) ->
            (forall k c, dict_get String.eqb k rm = Some c ->
                         part_at (by_key ln rn) rn (seg k) c) ->
            (forall k, dict_get String.eqb k lm = None ->
                       forall c, ~ part_at (by_key ln rn) ln (seg k) c) ->
            (forall k, dict_get String.eqb k rm = None ->
                       forall c, ~ part_at (by_key ln rn) rn (seg k) c) ->
            keyed_buckets seg (compare n) lm rm p = Ok bs -> P d).
  { intros seg lm rm Pl Pr Nl Nr Hk.
    destruct (keyed_buckets_In _ _ _ _ _ _ _ Hk Hd)
      as [[k [v [Hn [Hv ->]]]]
         | [[k [v [Hn [Hv ->]]]] | [k [lv [rv [g [Hlv [Hrv [Hg Hdg]]]]]]]]].
    - apply HA; [now apply Pr | now apply Nl].
    - apply HR; [now apply Pl | now apply Nr].
    - apply (IH lv rv (p ++ [seg k]) g); [| exact Hg | exact Hdg].
      apply HC; [now apply Pl | now apply Pr]. }
  assert (Hscalar : is_scalar ln = true ->
            (if py_ne ln rn
             then Ok [[mkDiffItem MODIFIED p ln rn]] else Ok []) = Ok bs -> P d).
  { intros Hsc Hb'. destruct (py_ne ln rn) eqn:Hne; injection Hb' as <-.
    - simpl in Hd. destruct Hd as [<- | []]. apply HM. right. now split.
    - destruct Hd. }
  destruct ln as [| bl | zl | fl | sl | ll | dl], rn as [| br | zr | fr | sr | lr | dr];
    try discriminate Ht; try (apply Hscalar; [reflexivity | exact Hb]);
    cbn [by_key] in *.
  - (* two sequences *)
    destruct (_should_sort_list ll && _should_sort_list lr) eqn:Hs.
    + destruct (key_map ll) as [lm | |] eqn:Hlm; cbn [bind] in Hb; try discriminate.
      destruct (key_map lr) as [rm | |] eqn:Hrm; cbn [bind] in Hb; try discriminate.
      apply (Hkeyed bracket lm rm); try exact Hb.
      * intros k c Hc. now apply (part_key true ll lm k c).
      * intros k c Hc. now apply (part_key true lr rm k c).
      * intros k Hn. now apply (no_key ll lm k).
      * intros k Hn. now apply (no_key lr rm k).
    + destruct (positional_buckets_In _ _ _ _ _ _ Hb Hd)
        as [[i [v [Hn [Hv ->]]]]
           | [[i [v [Hn [Hv ->]]]] | [i [lv [rv [g [Hlv [Hrv [Hg Hdg]]]]]]]]].
      * apply (HA (index_segment i) v); [now apply part_index | now apply no_index].
      * apply (HR (index_segment i) v); [now apply part_index | now apply no_index].
      * apply (IH lv rv (p ++ [index_segment i]) g); [| exact Hg | exact Hdg].
        apply (HC (index_segment i)); now apply part_index.
  - (* two mappings *)
    apply (Hkeyed (fun key => key) dl dr); try exact Hb.
    + intros k c Hc. now apply part_field.
    + intros k c Hc. now apply part_field.
    + intros k Hn. now apply no_field.
    + intros k Hn. now apply no_field.
Qed.

(** The pairs of trees the comparator is called on, each with the path
    it is called with: the two documents at the start path, and, below two
    trees whose normal forms have the same type, the parts of the two normal
    forms that one segment addresses in both. *)
Inductive compared (left right : value) (here : list string)
  : value -> value -> list string -> Prop :=
| compared_root : compared left right here left right here
| compared_parts (l r : value) (p : list string) (ln rn : value) (fuel : nat)
    (seg : string) (lc rc : value) :
    compared left right here l r p ->
    normalize_data fuel l = Ok ln -> normalize_data fuel r = Ok rn ->
    type_of ln = type_of rn ->
    part_at (by_key ln rn) ln seg lc -> part_at (by_key ln rn) rn seg rc ->
    compared left right here lc rc (p ++ [seg]).

(** What a record of the comparison of [left] and [right] from [here] is,
    by its change type, [ln] and [rn] being the normal forms of two trees
    compared at a path [p]. *)
Definition record_at (left right : value) (here : list string) (d : DiffItem)
  : Prop :=
  exists l r p ln rn fuel,
    compared left right here l r p /\
    normalize_data fuel l = Ok ln /\ normalize_data fuel r = Ok rn /\
    match change_type d with
    | MODIFIED =>
        path d = p /\ old_value d = ln /\ new_value d = rn /\
        (type_of ln <> type_of rn \/ (is_scalar ln = true /\ py_ne ln rn = true))
    | ADDED =>
        type_of ln = type_of rn /\
        exists seg, path d = p ++ [seg] /\ absent (old_value d) /\
          part_at (by_key ln rn) rn seg (new_value d) /\
          (forall c, ~ part_at (by_key ln rn) ln seg c)
    | REMOVED =>
        type_of ln = type_of rn /\
        exists seg, path d = p ++ [seg] /\ absent (new_value d) /\
          part_at (by_key ln rn) ln seg (old_value d) /\
          (forall c, ~ part_at (by_key ln rn) rn seg c)
    end.

Lemma compare_records_at (left right : value) (here : list string) :
  forall n l r p records,
    compared left right here l r p -> compare n l r p [] = Ok records ->
    forall d, In d records -> record_at left right here d.
Proof.
  apply (compare_invariant_at (record_at left right here)
           (compared left right here)).
  intros l r p ln rn fuel HQ Hl Hr. split; [| intros Ht; split; [| split]].
  - intros Hm. exists l, r, p, ln, rn, fuel. simpl. auto 10.
  - intros seg v Hv Hn. exists l, r, p, ln, rn, fuel. simpl.
    split; [exact HQ |]. split; [exact Hl |]. split; [exact Hr |].
    split; [exact Ht |]. exists seg. unfold absent. auto.
  - intros seg v Hv Hn. exists l, r, p, ln, rn, fuel. simpl.
    split; [exact HQ |]. split; [exact Hl |]. split; [exact Hr |].
    split; [exact Ht |]. exists seg. unfold absent. auto.
  - intros seg lc rc Hlc Hrc. eapply compared_parts; eassumption.
Qed.

(** No field name begins with a bracket. *)
Fixpoint plain_fields (v : value) : bool :=
  match v with
  | VList l => forallb plain_fields l
  | VDict d =>
      forallb (fun kv => negb (startswith_lbracket (fst kv))
                         && plain_fields (snd kv)) d
  | _ => true
  end.

Lemma plain_fields_child (c v : value) :
  plain_fields v = true -> child c v -> plain_fields c = true.
Proof.
  destruct v; simpl; try tauto.
  - intros Hp Hc. rewrite forallb_forall in Hp. now apply Hp.
  - intros Hp [k Hc]. rewrite forallb_forall in Hp. specialize (Hp _ Hc).
    apply andb_true_iff in Hp. now destruct Hp.
Qed.

Lemma plain_fields_key (d : list (string * value)) (k : string) :
  plain_fields (VDict d) = true -> In k (keys d) -> startswith_lbracket k = false.
Proof.
  simpl. rewrite forallb_forall. intros Hp Hk. apply in_map_iff in Hk.
  destruct Hk as [kv [<- Hkv]]. specialize (Hp _ Hkv).
  apply andb_true_iff in Hp. destruct Hp as [Hp _]. now apply negb_true_iff in Hp.
Qed.

Lemma normalize_data_plain_fields (n : nat) (v w : value) :
  normalize_data n v = Ok w -> plain_fields v = true -> plain_fields w = true.
Proof.
  revert n v w.
  apply (normalize_data_ok_ind
           (fun _ v w => plain_fields v = true -> plain_fields w = true)).
  - intros n v _ Hp. exact Hp.
  - intros n d d' Hall. simpl. rewrite !forallb_forall. intros Hp kv' Hin.
    destruct (Forall2_In_r Hall Hin) as [kv [Hkv [Hk [_ HP]]]].
    specialize (Hp _ Hkv). apply andb_true_iff in Hp. destruct Hp as [Hp1 Hp2].
    rewrite Hk, Hp1. simpl. now apply HP.
  - intros n l l0 l' Hl0 Hall. simpl. rewrite !forallb_forall.
    intros Hp y Hy.
    destruct (Forall2_In_r Hall Hy) as [x [Hx [_ HP]]].
    apply HP, Hp.
    destruct (_should_sort_list l); [| now subst l0].
    now apply (sorted_In x Hl0).
Qed.

(** How the segment [s] was made for the normal forms [ln] and [rn] of two
    compared trees: for two mappings it is one of their field names, as it
    is, and does not begin with a bracket; for two sequences it is put in
    brackets, around a position in one of them or around the derived key
    of one of their elements. *)
Definition segment_made (ln rn : value) (s : string) : Prop :=
  match ln, rn with
  | VDict dl, VDict dr =>
      (In s (keys dl) \/ In s (keys dr)) /\ startswith_lbracket s = false
  | VList ll, VList lr =>
      startswith_lbracket s = true /\
      ((exists i, s = bracket (str_of_nat i) /\
                  (i < List.length ll \/ i < List.length lr)) \/
       (exists item k, (In item ll \/ In item lr) /\
                       _get_sort_key item = Ok k /\ s = bracket k))
  | _, _ => False
  end.

Lemma part_at_segment_made (b : bool) (ln rn c : value) (s : string) :
  type_of ln = type_of rn ->
  plain_fields ln = true -> plain_fields rn = true ->
  part_at b ln s c \/ part_at b rn s c -> segment_made ln rn s.
Proof.
  intros Ht Pl Pr [Hp | Hp];
    destruct Hp as [d k c Hg | l m k c _ Hm Hg | l i c _ Hn];
    [destruct rn | destruct rn | destruct rn
     | destruct ln | destruct ln | destruct ln]; try discriminate Ht;
    unfold segment_made.
  - split; [left | apply (plain_fields_key d k Pl)];
      apply in_map_iff; exists (k, c); (split; [reflexivity | now apply dict_get_In]).
  - split; [reflexivity |]. right. exists c, k.
    split; [left; exact (key_map_values l m Hm k c Hg) |].
    split; [exact (key_map_keyed l m Hm k c Hg) | reflexivity].
  - split; [reflexivity |]. left. exists i. split; [reflexivity |]. left.
    apply nth_error_Some. congruence.
  - split; [right | apply (plain_fields_key d k Pr)];
      apply in_map_iff; exists (k, c); (split; [reflexivity | now apply dict_get_In]).
  - split; [reflexivity |]. right. exists c, k.
    split; [right; exact (key_map_values l m Hm k c Hg) |].
    split; [exact (key_map_keyed l m Hm k c Hg) | reflexivity].
  - split; [reflexivity |]. left. exists i. split; [reflexivity |]. right.
    apply nth_error_Some. congruence.
Qed.

(** The segment [s] that follows the path [p] in the path of a record was
    made for the two trees compared at [p]. *)
Definition made_at (left right : value) (here p : list string) (s : string)
  : Prop :=
  exists l r ln rn fuel,
    compared left right here l r p /\
    normalize_data fuel l = Ok ln /\ normalize_data fuel r = Ok rn /\
    segment_made ln rn s.

Lemma compare_segments_made (left right : value) (here : list string) :
  plain_fields left = true -> plain_fields right = true ->
  forall n records,
    compare n left right here [] = Ok records ->
    forall d, In d records ->
    forall q s rest, path d = here ++ q ++ s :: rest ->
                     made_at left right here (here ++ q) s.
Proof.
  intros Pl0 Pr0 n records Hc.
  apply (compare_invariant_at
           (fun d => forall q s rest, path d = here ++ q ++ s :: rest ->
                                      made_at left right here (here ++ q) s)
           (fun l r p =>
              compared left right here l r p /\
              plain_fields l = true /\ plain_fields r = true /\
              exists t, p = here ++ t /\
                forall q s rest, t = q ++ s :: rest ->
                                 made_at left right here (here ++ q) s)
           ) with (n := n) (l := left) (r := right) (p := here); [| | exact Hc].
  - intros l r p ln rn fuel [HQ [Pl [Pr [t [-> Ht]]]]] Hl Hr.
    pose proof (normalize_data_plain_fields _ _ _ Hl Pl) as Pln.
    pose proof (normalize_data_plain_fields _ _ _ Hr Pr) as Prn.
    assert (Hseg : type_of ln = type_of rn ->
              forall seg, (exists c, part_at (by_key ln rn) ln seg c \/
                                     part_at (by_key ln rn) rn seg c) ->
              forall q s rest, t ++ [seg] = q ++ s :: rest ->
                               made_at left right here (here ++ q) s).
    { intros Hty seg [c Hc'] q s rest E.
      destruct (snoc_split _ _ _ _ _ _ E) as [[_ [-> ->]] | [rest' [_ E']]].
      - exists l, r, ln, rn, fuel. repeat split; try assumption.
        exact (part_at_segment_made _ ln rn c seg Hty Pln Prn Hc').
      - exact (Ht q s rest' E'). }
    split; [| intros Hty; split; [| split]].
    + intros _ q s rest E. simpl in E. apply app_inv_head in E.
      exact (Ht q s rest E).
    + intros seg v Hv _ q s rest E. simpl in E. rewrite <- app_assoc in E.
      apply app_inv_head in E.
      exact (Hseg Hty seg (ex_intro _ v (or_intror Hv)) q s rest E).
    + intros seg v Hv _ q s rest E. simpl in E. rewrite <- app_assoc in E.
      apply app_inv_head in E.
      exact (Hseg Hty seg (ex_intro _ v (or_introl Hv)) q s rest E).
    + intros seg lc rc Hlc Hrc. split; [eapply compared_parts; eassumption |].
      split; [exact (plain_fields_child lc ln Pln (part_at_child _ _ _ _ Hlc)) |].
      split; [exact (plain_fields_child rc rn Prn (part_at_child _ _ _ _ Hrc)) |].
      exists (t ++ [seg]). split; [now rewrite app_assoc |].
      apply (Hseg Hty seg). eauto.
  - split; [constructor |]. split; [exact Pl0 |]. split; [exact Pr0 |].
    exists []. split; [now rewrite app_nil_r |].
    intros q s rest E. destruct q; discriminate.
Qed.

End Located.

(** C5, amended: every record the comparator returns is tied to its path.
    An Added record at the path [p ++ [seg]] has [old] absent and carries
    as [new] the part that [seg] addresses in the normal form of the
    right-hand tree compared at [p], the normal form of the left-hand tree
    having no part there; a Removed record likewise, with the sides
    exchanged and [new] absent; a Modified record at the path [p] carries
    the normal forms of the two trees compared at [p] as [old] and [new],
    which differ in type or are unequal scalars (so they are never both
    absent, but one of them is [None] when that tree is the null scalar).
    Two trees whose normal forms differ in type yield exactly one Modified
    record. *)
Theorem change_records_shape {H : Host} (fuel : nat) (left right : value)
  (here : list string) :
  (forall records,
     compare fuel left right here [] = Ok records ->
     Forall (record_at left right here) records) /\
  (forall ln rn,
     normalize_data fuel left = Ok ln ->
     normalize_data fuel right = Ok rn ->
     type_of ln <> type_of rn ->
     compare fuel left right here [] = Ok [mkDiffItem MODIFIED here ln rn]).
Proof.
  split.
  - intros records Hc. apply Forall_forall.
    apply (compare_records_at left right here fuel left right here records);
      [constructor | assumption].
  - intros ln rn Hl Hr Ht. destruct fuel as [| n]; [discriminate |].
    rewrite compare_unfold, Hl, Hr. cbn [bind]. unfold dispatch.
    destruct (pytype_eqb (type_of ln) (type_of rn)) eqn:He; [| reflexivity].
    apply pytype_eqb_eq in He. contradiction.
Qed.

Lemma change_records_shape_witness :
  Forall (record_at (VDict [("a", VInt 1); ("b", VInt 2)])
                    (VDict [("a", VList []); ("c", VInt 3)]) [])
    [mkDiffItem ADDED ["c"] VNone (VInt 3);
     mkDiffItem REMOVED ["b"] (VInt 2) VNone;
     mkDiffItem MODIFIED ["a"] (VInt 1) (VList [])].
Proof.
  apply (proj1 (@change_records_shape listing_host 3
                  (VDict [("a", VInt 1); ("b", VInt 2)])
                  (VDict [("a", VList []); ("c", VInt 3)]) [])).
  reflexivity.
Defined.

(** A record is held to its path: at the path [b] only the value under the
    field [b] of the right-hand document makes an Added record. *)
Lemma record_at_tells_values_apart :
  record_at (VDict [("a", VInt 1)])
            (VDict [("a", VInt 1); ("b", VInt 2); ("c", VInt 3)]) []
            (mkDiffItem ADDED ["b"] VNone (VInt 2)) /\
  ~ record_at (VDict [("a", VInt 1)])
              (VDict [("a", VInt 1); ("b", VInt 2); ("c", VInt 3)]) []
              (mkDiffItem ADDED ["b"] VNone (VInt 3)).
Proof.
  split.
  - apply (compare_records_at
             (VDict [("a", VInt 1)])
             (VDict [("a", VInt 1); ("b", VInt 2); ("c", VInt 3)]) [] 2
             (VDict [("a", VInt 1)])
             (VDict [("a", VInt 1); ("b", VInt 2); ("c", VInt 3)]) []
             [mkDiffItem ADDED ["b"] VNone (VInt 2);
              mkDiffItem ADDED ["c"] VNone (VInt 3)]);
      [constructor | reflexivity | now left].
  - intros [l [r [p [ln [rn [fuel [Hc [Hl [Hr Hm]]]]]]]]]. simpl in Hm.
    destruct Hm as [_ [seg [Hp [_ [Hpart _]]]]].
    change ["b"] with ([] ++ ["b"]) in Hp. apply app_inj_tail in Hp.
    destruct Hp as [<- <-].
    inversion Hc as [| l0 r0 p0 ln0 rn0 fuel0 seg0 lc rc _ _ _ _ _ _ Ep]; subst.
    + destruct fuel as [| [| n]]; try discriminate. simpl in Hr.
      injection Hr as <-. inversion Hpart; subst. discriminate.
    + destruct p0; discriminate.
Qed.

(** C9, amended: in the path of every record of a comparison of two
    documents in which no field name begins with a bracket, each segment
    after the start path was made for the two trees compared at the path
    before it: for two mappings it is one of their field names, unchanged,
    and does not begin with a bracket; for two sequences it begins with a
    bracket and is [[i]] for a position [i] or [[k]] for the derived key [k]
    of an element.  So a segment made from a field name is never a segment
    made from a position or from a derived key. *)
Theorem field_segment_distinct {H : Host} (fuel : nat) (left right : value)
  (here : list string) (records : list DiffItem) :
  plain_fields left = true -> plain_fields right = true ->
  compare fuel left right here [] = Ok records ->
  forall d q s rest,
    In d records -> path d = here ++ q ++ s :: rest ->
    made_at left right here (here ++ q) s.
Proof.
  intros Pl Pr Hc d q s rest Hd E.
  exact (compare_segments_made left right here Pl Pr fuel records Hc d Hd q s rest E).
Qed.

Lemma field_segment_distinct_witness :
  made_at (VDict [("spec", VList [VInt 1; VInt 2])])
          (VDict [("spec", VList [VInt 1; VInt 3])]) [] ([] ++ ["spec"]) "[1]".
Proof.
  apply (@field_segment_distinct listing_host 3
           (VDict [("spec", VList [VInt 1; VInt 2])])
           (VDict [("spec", VList [VInt 1; VInt 3])]) []
           [mkDiffItem MODIFIED ["spec"; "[1]"] (VInt 2) (VInt 3)]
           eq_refl eq_refl eq_refl
           (mkDiffItem MODIFIED ["spec"; "[1]"] (VInt 2) (VInt 3))
           ["spec"] "[1]" []).
  - now left.
  - reflexivity.
Defined.
